(** * issuedash: milestone / component report over a tracker's issue list

    A shallow embedding of the four revisions of [main.go] kept in the
    repository:

    - [Markdown] : src/main.go           (bullet-list report, an issue is
                                          listed under every component
                                          label it carries),
    - [PerLabel] : src/unnamed/part_001  (table report, same attribution),
    - [Badge]    : src/unnamed/part_000  (table report with badges and
                                          day estimates, one component
                                          per issue),

    src/unnamed/part_002 being [Badge] without the day estimates,

    together with the pieces of the Go runtime and standard library the
    program leans on ([Go]) and the records of the tracker client it
    consumes ([github]).

    Conventions.
    - Go's [int] is taken to be 64 bits wide; every arithmetic operation
      of the source is followed by [Go.wrap].
    - A Go [string] is a sequence of bytes: [string] of the standard
      library, whose characters are the 256 byte values.
    - A pointer into a slice or to a heap object is the index of the
      object in the store it was allocated in.
    - Fields the program dereferences without a nil check ([*ms.Title],
      [*issue.Number], ...) are plain values; the optional fields it
      tests against nil are [option]s. *)

From Stdlib Require Import ZArith Lia Ascii.
From stdpp Require Import base tactics option list sorting lexico.
From stdpp Require Import gmap strings pretty.

Local Open Scope Z_scope.

(** ** The Go runtime and standard library, as far as the program uses it *)

Module Go.

(** *** Machine integers *)

Definition MaxInt : Z := 2 ^ 63 - 1.
Definition MinInt : Z := - 2 ^ 63.

(** Two's complement wrap-around of a mathematical integer into [int]. *)
Definition wrap (z : Z) : Z := (z + 2 ^ 63) `mod` 2 ^ 64 - 2 ^ 63.

Definition add (x y : Z) : Z := wrap (x + y).
Definition mul (x y : Z) : Z := wrap (x * y).
(** [x++] *)
Definition incr (x : Z) : Z := add x 1.

(** *** Slices *)

Inductive panic := IndexOutOfRange (index : nat) (length : nat).

(** [sl[i]]: a run-time panic when [i] is not below [len(sl)]. *)
Definition index {A} (sl : list A) (i : nat) : panic + A :=
  match sl !! i with
  | Some x => inr x
  | None => inl (IndexOutOfRange i (length sl))
  end.

(** *** package strings *)

(** [s[n:]] and [s[:n]]; the program only takes them where the bound
    is known to lie within the string. *)
Definition from (n : nat) (s : string) : string :=
  String.substring n (String.length s - n) s.
Definition upto (n : nat) (s : string) : string :=
  String.substring 0 n s.

(** [return len(s) >= len(prefix) && s[0:len(prefix)] == prefix] *)
Definition HasPrefix (s prefix : string) : bool :=
  (String.length prefix <=? String.length s)%nat
  && String.eqb (upto (String.length prefix) s) prefix.

(** [return len(s) >= len(suffix) && s[len(s)-len(suffix):] == suffix] *)
Definition HasSuffix (s suffix : string) : bool :=
  (String.length suffix <=? String.length s)%nat
  && String.eqb (from (String.length s - String.length suffix) s) suffix.

(** [strings.TrimSpace] removes the leading and trailing runs of
    Unicode white space of a UTF-8 encoded string.  [unicode.IsSpace]
    holds of U+0009..U+000D, U+0020, U+0085, U+00A0, U+1680,
    U+2000..U+200A, U+2028, U+2029, U+202F, U+205F and U+3000; a byte
    sequence that is not the encoding of one of them decodes to some
    other rune (or to the replacement rune, of width one) and stops
    the trimming.  [spaceRune bs] recognises the encoding of one such
    rune at the head of [bs] and returns its width. *)
Definition spaceRune (bs : list N) : option nat :=
  match bs with
  | (9 | 10 | 11 | 12 | 13 | 32)%N :: _ => Some 1%nat
  | 194%N :: (133 | 160)%N :: _ => Some 2%nat
  | 225%N :: 154%N :: 128%N :: _ => Some 3%nat
  | 226%N :: 128%N :: b :: _ =>
      if ((128 <=? b) && (b <=? 138))%N || (b =? 168)%N || (b =? 169)%N
         || (b =? 175)%N
      then Some 3%nat else None
  | 226%N :: 129%N :: 159%N :: _ => Some 3%nat
  | 227%N :: 128%N :: 128%N :: _ => Some 3%nat
  | _ => None
  end.

(** The same, read backwards from the end of the string: [rbs] is the
    byte sequence reversed. *)
Definition spaceRuneLast (rbs : list N) : option nat :=
  match rbs with
  | (9 | 10 | 11 | 12 | 13 | 32)%N :: _ => Some 1%nat
  | (133 | 160)%N :: 194%N :: _ => Some 2%nat
  | 128%N :: 154%N :: 225%N :: _ => Some 3%nat
  | 159%N :: 129%N :: 226%N :: _ => Some 3%nat
  | 128%N :: 128%N :: 227%N :: _ => Some 3%nat
  | b :: 128%N :: 226%N :: _ =>
      if ((128 <=? b) && (b <=? 138))%N || (b =? 168)%N || (b =? 169)%N
         || (b =? 175)%N
      then Some 3%nat else None
  | _ => None
  end.

Fixpoint trimWith (rune : list N → option nat) (fuel : nat) (bs : list N)
  : list N :=
  match fuel with
  | O => bs
  | S fuel =>
      match rune bs with
      | Some w => trimWith rune fuel (drop w bs)
      | None => bs
      end
  end.

Definition bytes (s : string) : list N :=
  Ascii.N_of_ascii <$> String.list_ascii_of_string s.
Definition ofBytes (bs : list N) : string :=
  String.string_of_list_ascii (Ascii.ascii_of_N <$> bs).

Definition TrimSpace (s : string) : string :=
  let l := trimWith spaceRune (String.length s) (bytes s) in
  let r := trimWith spaceRuneLast (length l) (reverse l) in
  ofBytes (reverse r).

(** [strings.SplitN(s, sep, n)] for a one-byte separator: at most [n]
    substrings, the last one being the unsplit remainder. *)
Fixpoint cut (sep : ascii) (s : string) : option (string * string) :=
  match s with
  | EmptyString => None
  | String c s' =>
      if Ascii.eqb c sep then Some (EmptyString, s')
      else '(a, b) ← cut sep s'; Some (String c a, b)
  end.

Fixpoint genSplit (s : string) (sep : ascii) (n : nat) : list string :=
  match n with
  | O => [s]
  | S n' =>
      match cut sep s with
      | None => [s]
      | Some (a, rest) => a :: genSplit rest sep n'
      end
  end.

Definition SplitN (s : string) (sep : ascii) (n : nat) : list string :=
  match n with
  | O => []
  | S n' => genSplit s sep n'
  end.

(** *** package strconv *)

Inductive NumError := ErrSyntax | ErrRange.

Definition digit (c : ascii) : option Z :=
  let n := Z.of_N (Ascii.N_of_ascii c) in
  if (48 <=? n) && (n <=? 57) then Some (n - 48) else None.

(** [strconv.Atoi(s)] is [ParseInt(s, 10, 0)] converted to [int]
    (later releases add a shortcut for short strings that returns
    the same).  [ParseInt] takes off one leading sign and hands the
    rest to [ParseUint(s, 10, 64)], whose loop reads the bytes from
    left to right, [n] being the value read so far:

      for i := 0; i < len(s); i++ {
        ... default: n = 0; err = ErrSyntax; goto Error
        if n >= cutoff { n = 1<<64 - 1; err = ErrRange; goto Error }
        n *= uint64(base)
        n1 := n + uint64(v)
        if n1 < n || n1 > maxVal { n = 1<<64 - 1; err = ErrRange; goto Error }
        n = n1
      }

    so the first byte that is no digit and the first digit that
    takes the value out of [uint64] compete: whichever comes first
    decides the error. *)
Definition MaxUint64 : Z := 2 ^ 64 - 1.

Fixpoint parseUint (n : Z) (s : string) : Z * option NumError :=
  match s with
  | EmptyString => (n, None)
  | String c s' =>
      match digit c with
      | None => (0, Some ErrSyntax)
      | Some v =>
          if MaxUint64 `div` 10 + 1 <=? n then (MaxUint64, Some ErrRange)
          else if MaxUint64 <? 10 * n + v then (MaxUint64, Some ErrRange)
          else parseUint (10 * n + v) s'
      end
  end.

Definition ParseUint (s : string) : Z * option NumError :=
  match s with
  | EmptyString => (0, Some ErrSyntax)
  | _ => parseUint 0 s
  end.

(** [ParseInt(s, 10, 0)]: a syntax error of [ParseUint] is passed
    on with 0; otherwise the unsigned value is checked against the
    range of [int64], and a value outside it is replaced by the
    nearest bound and reported as [ErrRange]. *)
Definition ParseInt (s : string) : Z * option NumError :=
  match s with
  | EmptyString => (0, Some ErrSyntax)
  | String c s' =>
      let neg := Ascii.eqb c "-" in
      let body := if Ascii.eqb c "+" || neg then s' else s in
      match ParseUint body with
      | (_, Some ErrSyntax) => (0, Some ErrSyntax)
      | (un, _) =>
          if negb neg && (2 ^ 63 <=? un) then (MaxInt, Some ErrRange)
          else if neg && (2 ^ 63 <? un) then (MinInt, Some ErrRange)
          else (if neg then - un else un, None)
      end
  end.

Definition Atoi (s : string) : Z * option NumError := ParseInt s.

(** *** package sort *)

(** [sort.Sort] orders a slice in place through its [Less] method and
    promises no stability.  Slices of up to twelve elements are sorted
    by the insertion sort below,

      for i := a + 1; i < b; i++ {
        for j := i; j > a && data.Less(j, j-1); j-- { data.Swap(j, j-1) }
      }

    and longer ones by a quicksort variant whose result is again a
    permutation ordered by [Less]; the two can differ only in the
    relative order of elements neither of which is [Less] than the
    other. *)
Section Sort.
Context {A : Type} (Less : A → A → bool).

(** One run of the inner loop: [before] is [data[a:i]] read from the
    right, [x] is [data[i]]. *)
Fixpoint sift (x : A) (before : list A) : list A :=
  match before with
  | [] => [x]
  | y :: rest => if Less x y then y :: sift x rest else x :: before
  end.

Definition insertionSort (data : list A) : list A :=
  reverse (foldl (λ before x, sift x before) [] data).

Definition Sort (data : list A) : list A := insertionSort data.
End Sort.

(** [sort.Strings]: [Less(i, j)] is [x[i] < x[j]], byte-wise. *)
Definition Strings (sl : list string) : list string := Sort String.ltb sl.

End Go.

(** ** The records of the tracker client (package github)

    Only the fields the program reads are kept.  [Label.String] is
    [fmt.Sprint( *l.Name)] in the client the program was written
    against. *)

Module github.

Module Milestone.
Record t := mk { Title : string; HTMLURL : string }.
Global Instance eq_dec : EqDecision t.
Proof. solve_decision. Defined.
End Milestone.

Module User.
Record t := mk { HTMLURL : string; AvatarURL : string }.
Global Instance eq_dec : EqDecision t.
Proof. solve_decision. Defined.
End User.

Module Label.
Record t := mk { Name : string }.
Definition String (l : t) : string := Name l.
Global Instance eq_dec : EqDecision t.
Proof. solve_decision. Defined.
End Label.

Module Issue.
Record t := mk {
  Number : Z;
  Title : string;
  HTMLURL : string;
  Milestone : option Milestone.t;
  Labels : list Label.t;
  Assignee : option User.t;
  (** [*time.Time], as seconds since the epoch *)
  ClosedAt : option Z;
}.
Global Instance eq_dec : EqDecision t.
Proof. solve_decision. Defined.
End Issue.

End github.

(** ** The ordering of issues, shared by all revisions

    [Issues.Less] of main.go and [issues.Less] of the later revisions
    have the same body; [Less x y] is that body on the two issues the
    slice elements stand for. *)

Definition Less (x y : github.Issue.t) : bool :=
  let iClosed := bool_decide (github.Issue.ClosedAt x ≠ None) in
  let jClosed := bool_decide (github.Issue.ClosedAt y ≠ None) in
  let iAssigned := bool_decide (github.Issue.Assignee x ≠ None) in
  let jAssigned := bool_decide (github.Issue.Assignee y ≠ None) in
  if Bool.eqb iClosed jClosed then
    if Bool.eqb iAssigned jAssigned then
      github.Issue.Number x <? github.Issue.Number y
    else negb iAssigned
  else negb iClosed.

(** ** src/unnamed/part_000: the table report with day estimates *)

Module Badge.

Module stats.
Record t := mk { Closed : Z; Total : Z; Days : Z }.
Definition zero : t := mk 0 0 0.
End stats.

(** [type issue struct { *github.Issue; Type string; Days int }]:
    the embedded pointer is [&ghIssues[i]], kept as [i]. *)
Module issue.
Record t := mk { Issue : nat; Type' : string; Days : Z }.
Global Instance eq_dec : EqDecision t.
Proof. solve_decision. Defined.
End issue.

(** [type component struct { Name string; Issues issues; Stats ... }].
    The elements of [Issues] are pointers to [issue] values that are
    never written after their allocation; they are kept by value. *)
Module component.
Record t := mk { Name : string; Issues : list issue.t; Stats : stats.t }.
End component.

(** [type milestone struct { *github.Milestone; Components components;
    Stats ... }], with [Components] a slice of pointers to
    components. *)
Module milestone.
Record t := mk {
  Milestone : github.Milestone.t;
  Components : list nat;
  Stats : stats.t;
}.
End milestone.

(** The store [parseIssues] works on: the backing array of its
    argument, the milestones and components it allocates, and its two
    local maps. *)
Record state := State {
  ghIssues : list github.Issue.t;
  milestones : list milestone.t;
  components : list component.t;
  msMap : gmap string nat;
  msCmpMap : gmap nat (gmap string nat);
}.

(** *** The scan of an issue's labels (lines 149-186) *)

Record scan := Scan { cmpName : string; typeName : string; days : Z }.

(** The body of [if strings.HasPrefix(lbl, "estimate: ")]. *)
Definition estimate (lbl : string) (days : Z) : Z :=
  let str := Go.TrimSpace (Go.from 10 lbl) in
  let m := if Go.HasSuffix str "d" then 1
           else if Go.HasSuffix str "w" then 5 else 0 in
  if 0 <? m then
    let num := (Go.Atoi (Go.upto (String.length str - 1) str)).1 in
    if 0 <? num then Go.add days (Go.mul m num) else days
  else days.

Definition scanLabel (acc : scan) (l : github.Label.t) : scan :=
  let lbl := github.Label.String l in
  let cmpName :=
    if Go.HasPrefix lbl "component: " then Go.from 11 lbl else cmpName acc in
  let typeName :=
    if Go.HasPrefix lbl "type: " then Go.from 6 lbl else typeName acc in
  let days :=
    if Go.HasPrefix lbl "estimate: " then estimate lbl (days acc)
    else days acc in
  Scan cmpName typeName days.

Definition scanLabels (ls : list github.Label.t) : scan :=
  foldl scanLabel (Scan "" "" 0) ls.

(** *** The counters (lines 188-193 and 214-220) *)

(** [Total++; if ClosedAt != nil { Closed++ } else { Days += days }] *)
Definition count (closed : bool) (days : Z) (s : stats.t) : stats.t :=
  stats.mk (if closed then Go.incr (stats.Closed s) else stats.Closed s)
           (Go.incr (stats.Total s))
           (if closed then stats.Days s else Go.add (stats.Days s) days).

(** *** One round of the loop over [ghIssues] (lines 130-222) *)

(** [ms := msMap[title]; if ms == nil { ms = &milestone{...}; ... }] *)
Definition getMilestone (st : state) (ghMs : github.Milestone.t)
  : state * nat :=
  match msMap st !! github.Milestone.Title ghMs with
  | Some ms => (st, ms)
  | None =>
      let ms := length (milestones st) in
      (State (ghIssues st)
             (milestones st ++ [milestone.mk ghMs [] stats.zero])
             (components st)
             (<[github.Milestone.Title ghMs := ms]> (msMap st))
             (<[ms := ∅]> (msCmpMap st)),
       ms)
  end.

(** [ms.Stats.Total++; ...] *)
Definition countMilestone (st : state) (ms : nat) (closed : bool) (days : Z)
  : state :=
  State (ghIssues st)
        (alter (λ m, milestone.mk (milestone.Milestone m)
                                  (milestone.Components m)
                                  (count closed days (milestone.Stats m)))
               ms (milestones st))
        (components st) (msMap st) (msCmpMap st).

(** [cmp := msCmpMap[ms][cmpName]; if cmp == nil { cmp = &component{...};
    msCmpMap[ms][cmpName] = cmp; ms.Components = append(ms.Components, cmp) }] *)
Definition getComponent (st : state) (ms : nat) (cmpName : string)
  : state * nat :=
  let cmps := default ∅ (msCmpMap st !! ms) in
  match cmps !! cmpName with
  | Some cmp => (st, cmp)
  | None =>
      let cmp := length (components st) in
      (State (ghIssues st)
             (alter (λ m, milestone.mk (milestone.Milestone m)
                                       (milestone.Components m ++ [cmp])
                                       (milestone.Stats m))
                    ms (milestones st))
             (components st ++ [component.mk cmpName [] stats.zero])
             (msMap st)
             (<[ms := <[cmpName := cmp]> cmps]> (msCmpMap st)),
       cmp)
  end.

(** [cmp.Issues = append(cmp.Issues, &issue{...}); cmp.Stats.Total++; ...] *)
Definition addIssue (st : state) (cmp : nat) (i : issue.t) (closed : bool)
  : state :=
  State (ghIssues st) (milestones st)
        (alter (λ c, component.mk (component.Name c)
                                  (component.Issues c ++ [i])
                                  (count closed (issue.Days i)
                                         (component.Stats c)))
               cmp (components st))
        (msMap st) (msCmpMap st).

Definition closed (x : github.Issue.t) : bool :=
  bool_decide (github.Issue.ClosedAt x ≠ None).

Definition step (st : state) (i : nat) : state :=
  match ghIssues st !! i with
  | None => st
  | Some ghIssue =>
      match github.Issue.Milestone ghIssue with
      | None => st
      | Some ghMs =>
          let '(st, ms) := getMilestone st ghMs in
          let sc := scanLabels (github.Issue.Labels ghIssue) in
          let st := countMilestone st ms (closed ghIssue) (days sc) in
          if bool_decide (cmpName sc ≠ "") then
            let '(st, cmp) := getComponent st ms (cmpName sc) in
            addIssue st cmp (issue.mk i (typeName sc) (days sc))
                     (closed ghIssue)
          else st
      end
  end.

(** *** The final sorting (lines 224-230) *)

(** [issues.Less]: both elements are read through their embedded
    pointer into [ghIssues]. *)
Definition issues_Less (st : state) (a b : issue.t) : bool :=
  match ghIssues st !! issue.Issue a, ghIssues st !! issue.Issue b with
  | Some x, Some y => Less x y
  | _, _ => false
  end.

(** [components.Less]: [sl[i].Name < sl[j].Name]. *)
Definition components_Less (st : state) (a b : nat) : bool :=
  match components st !! a, components st !! b with
  | Some x, Some y => String.ltb (component.Name x) (component.Name y)
  | _, _ => false
  end.

Definition sortIssues (st : state) (cmp : nat) : state :=
  State (ghIssues st) (milestones st)
        (alter (λ c, component.mk (component.Name c)
                                  (Go.Sort (issues_Less st)
                                           (component.Issues c))
                                  (component.Stats c))
               cmp (components st))
        (msMap st) (msCmpMap st).

Definition sortComponents (st : state) (ms : nat) : state :=
  State (ghIssues st)
        (alter (λ m, milestone.mk (milestone.Milestone m)
                                  (Go.Sort (components_Less st)
                                           (milestone.Components m))
                                  (milestone.Stats m))
               ms (milestones st))
        (components st) (msMap st) (msCmpMap st).

(** The body of [for _, ms := range msMap]. *)
Definition sortMilestone (st : state) (ms : nat) : state :=
  match milestones st !! ms with
  | None => st
  | Some m => sortComponents (foldl sortIssues st (milestone.Components m)) ms
  end.

Definition init (ghIssues : list github.Issue.t) : state :=
  State ghIssues [] [] ∅ ∅.

(** The first loop of [parseIssues]. *)
Definition collect (ghIssues : list github.Issue.t) : state :=
  foldl step (init ghIssues) (seq 0 (length ghIssues)).

(** [parseIssues], with the order in which [range msMap] visits the
    milestones made explicit: Go leaves it unspecified. *)
Definition parseIssuesIn (order : state → list nat)
    (ghIssues : list github.Issue.t) : state :=
  let st := collect ghIssues in
  foldl sortMilestone st (order st).

Definition parseIssues : list github.Issue.t → state :=
  parseIssuesIn (λ st, (map_to_list (msMap st)).*2).

(** [printIssues] up to the call of the template: the store
    [parseIssues] leaves behind and the slice [sl] of milestone
    pointers handed to [tbl.Execute]. *)
Definition printIssues (issues : list github.Issue.t)
    (milestones : list string) : state * list nat :=
  let st := parseIssues issues in
  (st, foldl (λ sl name, match msMap st !! name with
                         | Some ms => sl ++ [ms]
                         | None => sl
                         end) [] milestones).

(** What the template reads when it ranges over a milestone: the
    milestone and the components its [Components] point to. *)
Definition resolve (st : state) (ms : nat)
  : option (milestone.t * list component.t) :=
  m ← milestones st !! ms;
  cs ← mapM (λ cmp, components st !! cmp) (milestone.Components m);
  Some (m, cs).

(** The same, cut down to the names of the components and the
    indices of their issues. *)
Definition listing (st : state) (ms : nat)
  : option (list (string * list nat)) :=
  (λ r : milestone.t * list component.t,
     (λ c, (component.Name c, issue.Issue <$> component.Issues c)) <$> r.2)
    <$> resolve st ms.

End Badge.

(** ** src/main.go: the bullet-list report *)

Module Markdown.

(** [type stats struct { open int; closed int }] *)
Module stats.
Record t := mk { open : Z; closed : Z }.
Definition zero : t := mk 0 0.
End stats.

(** [type Issues []github.Issue]: a slice of issue values. *)
Abbreviation Issues := (list github.Issue.t).

(** The store of [printIssues]: the backing array of its argument
    [issues], its three local maps and what it has written to the
    standard output.  [msCounts] maps a title to a pointer to a
    [stats] value that is reachable through the map only; the value
    is kept in the map. *)
Record state := State {
  issues : list github.Issue.t;
  parsed : gmap string (gmap string Issues);
  msCounts : gmap string stats.t;
  msURLs : gmap string string;
  stdout : string;
}.

Definition nl : string := String (ascii_of_nat 10) EmptyString.
Definition dq : string := String (ascii_of_nat 34) EmptyString.

(** *** The first loop (lines 117-143) *)

(** The body of [for j := range issues[i].Labels]. *)
Definition addLabel (i : nat) (title : string) (st : state)
    (l : github.Label.t) : state :=
  let lbl := github.Label.String l in
  if Go.HasPrefix lbl "component: " then
    match issues st !! i with
    | None => st
    | Some ghIssue =>
        let cmps := default ∅ (parsed st !! title) in
        let name := Go.from 11 lbl in
        State (issues st)
              (<[title := <[name := default [] (cmps !! name) ++ [ghIssue]]>
                            cmps]> (parsed st))
              (msCounts st) (msURLs st) (stdout st)
    end
  else st.

Definition step (st : state) (i : nat) : state :=
  match issues st !! i with
  | None => st
  | Some ghIssue =>
      match github.Issue.Milestone ghIssue with
      | None => st
      | Some ms =>
          let title := github.Milestone.Title ms in
          let st :=
            match parsed st !! title with
            | None =>
                State (issues st) (<[title := ∅]> (parsed st))
                      (<[title := stats.zero]> (msCounts st))
                      (<[title := github.Milestone.HTMLURL ms]> (msURLs st))
                      (stdout st)
            | Some _ => st
            end in
          let st :=
            State (issues st) (parsed st)
                  (alter (λ c,
                            if bool_decide (github.Issue.ClosedAt ghIssue = None)
                            then stats.mk (Go.incr (stats.open c)) (stats.closed c)
                            else stats.mk (stats.open c) (Go.incr (stats.closed c)))
                         title (msCounts st))
                  (msURLs st) (stdout st) in
          foldl (addLabel i title) st (github.Issue.Labels ghIssue)
      end
  end.

Definition collect (issues : list github.Issue.t) : state :=
  foldl step (State issues ∅ ∅ ∅ "") (seq 0 (length issues)).

(** *** The report (lines 145-178) *)

(** [sortedCmpKeys]: the keys are gathered in the order [range mp]
    yields them, which Go leaves unspecified, and then sorted. *)
Definition sortedCmpKeys (mp : gmap string Issues) : list string :=
  Go.Strings (map_to_list mp).*1.

Definition print (s : string) (st : state) : state :=
  State (issues st) (parsed st) (msCounts st) (msURLs st) (stdout st +:+ s).

(** The body of [for i := range issues]. *)
Definition issueLine (x : github.Issue.t) : string :=
  let closed :=
    if bool_decide (github.Issue.ClosedAt x ≠ None) then "[x]" else "[ ]" in
  "- " +:+ closed +:+ " [[#" +:+ pretty (github.Issue.Number x) +:+ "]]("
    +:+ github.Issue.HTMLURL x +:+ ") "
    +:+ Go.TrimSpace (github.Issue.Title x)
    +:+ match github.Issue.Assignee x with
        | Some a =>
            " <a href=" +:+ dq +:+ github.User.HTMLURL a +:+ dq
              +:+ "><img valign=" +:+ dq +:+ "middle" +:+ dq
              +:+ " height=25 width=25 src=" +:+ dq
              +:+ github.User.AvatarURL a +:+ dq +:+ " /></a>"
        | None => ""
        end
    +:+ nl.

(** The body of [for _, cmp := range cmpKeys]; [sort.Sort(issues)]
    works in place on the slice held by [parsed[ms][cmp]]. *)
Definition printComponent (ms : string) (st : state) (cmp : string) : state :=
  let cmps := default ∅ (parsed st !! ms) in
  let issues' := Go.Sort Less (default [] (cmps !! cmp)) in
  let st := print (nl +:+ "**" +:+ cmp +:+ "**" +:+ nl) st in
  let st := State (issues st)
                  (<[ms := <[cmp := issues']> cmps]> (parsed st))
                  (msCounts st) (msURLs st) (stdout st) in
  foldl (λ st x, print (issueLine x) st) st issues'.

Definition heading (ms : string) (c : stats.t) (url : string) : string :=
  "### " +:+ ms +:+ " [" +:+ pretty (stats.closed c) +:+ "/"
    +:+ pretty (Go.add (stats.open c) (stats.closed c)) +:+ "]" +:+ nl
    +:+ "[Issues](" +:+ url +:+ ")" +:+ nl.

(** The body of [for _, ms := range milestones]. *)
Definition printMilestone (st : state) (ms : string) : state :=
  match parsed st !! ms with
  | None => st
  | Some cmps =>
      let st := print (heading ms (default stats.zero (msCounts st !! ms))
                               (default "" (msURLs st !! ms))) st in
      let st := foldl (printComponent ms) st (sortedCmpKeys cmps) in
      print nl st
  end.

(** [printIssues] returns [nil] on every path; its effect is the
    final store. *)
Definition printIssues (issues : list github.Issue.t)
    (milestones : list string) : state :=
  foldl printMilestone (collect issues) milestones.

End Markdown.

(** ** src/unnamed/part_001: the table report, one entry per label *)

Module PerLabel.

Module stats.
Record t := mk { Closed : Z; Total : Z }.
Definition zero : t := mk 0 0.
End stats.

(** [type component struct { *github.Label; Name string; Issues issues;
    Stats ... }] with [type issues []*github.Issue]: the label is
    [&issue.Labels[j]], kept as the pair of indices, and an element
    of [Issues] is [&iss[i]], kept as [i]. *)
Module component.
Record t := mk {
  Label : nat * nat;
  Name : string;
  Issues : list nat;
  Stats : stats.t;
}.
End component.

Module milestone.
Record t := mk {
  Milestone : github.Milestone.t;
  Components : list nat;
  Stats : stats.t;
}.
End milestone.

Record state := State {
  iss : list github.Issue.t;
  milestones : list milestone.t;
  components : list component.t;
  msMap : gmap string nat;
  msCmpMap : gmap nat (gmap string nat);
}.

Definition count (closed : bool) (s : stats.t) : stats.t :=
  stats.mk (if closed then Go.incr (stats.Closed s) else stats.Closed s)
           (Go.incr (stats.Total s)).

Definition getMilestone (st : state) (ghMs : github.Milestone.t)
  : state * nat :=
  match msMap st !! github.Milestone.Title ghMs with
  | Some ms => (st, ms)
  | None =>
      let ms := length (milestones st) in
      (State (iss st)
             (milestones st ++ [milestone.mk ghMs [] stats.zero])
             (components st)
             (<[github.Milestone.Title ghMs := ms]> (msMap st))
             (<[ms := ∅]> (msCmpMap st)),
       ms)
  end.

Definition countMilestone (st : state) (ms : nat) (closed : bool) : state :=
  State (iss st)
        (alter (λ m, milestone.mk (milestone.Milestone m)
                                  (milestone.Components m)
                                  (count closed (milestone.Stats m)))
               ms (milestones st))
        (components st) (msMap st) (msCmpMap st).

Definition getComponent (st : state) (ms : nat) (name : string)
    (label : nat * nat) : state * nat :=
  let cmps := default ∅ (msCmpMap st !! ms) in
  match cmps !! name with
  | Some cmp => (st, cmp)
  | None =>
      let cmp := length (components st) in
      (State (iss st)
             (alter (λ m, milestone.mk (milestone.Milestone m)
                                       (milestone.Components m ++ [cmp])
                                       (milestone.Stats m))
                    ms (milestones st))
             (components st ++ [component.mk label name [] stats.zero])
             (msMap st)
             (<[ms := <[name := cmp]> cmps]> (msCmpMap st)),
       cmp)
  end.

Definition addIssue (st : state) (cmp : nat) (i : nat) (closed : bool)
  : state :=
  State (iss st) (milestones st)
        (alter (λ c, component.mk (component.Label c) (component.Name c)
                                  (component.Issues c ++ [i])
                                  (count closed (component.Stats c)))
               cmp (components st))
        (msMap st) (msCmpMap st).

(** The body of [for j := range issue.Labels] (lines 151-176). *)
Definition addLabel (i ms : nat) (closed : bool) (st : state)
    (jl : nat * github.Label.t) : state :=
  let lbl := github.Label.String jl.2 in
  if Go.HasPrefix lbl "component: " then
    let '(st, cmp) := getComponent st ms (Go.from 11 lbl) (i, jl.1) in
    addIssue st cmp i closed
  else st.

Definition step (st : state) (i : nat) : state :=
  match iss st !! i with
  | None => st
  | Some issue =>
      match github.Issue.Milestone issue with
      | None => st
      | Some ghMs =>
          let '(st, ms) := getMilestone st ghMs in
          let closed := bool_decide (github.Issue.ClosedAt issue ≠ None) in
          let st := countMilestone st ms closed in
          let labels := github.Issue.Labels issue in
          foldl (addLabel i ms closed) st (zip (seq 0 (length labels)) labels)
      end
  end.

Definition issues_Less (st : state) (a b : nat) : bool :=
  match iss st !! a, iss st !! b with
  | Some x, Some y => Less x y
  | _, _ => false
  end.

Definition components_Less (st : state) (a b : nat) : bool :=
  match components st !! a, components st !! b with
  | Some x, Some y => String.ltb (component.Name x) (component.Name y)
  | _, _ => false
  end.

Definition sortIssues (st : state) (cmp : nat) : state :=
  State (iss st) (milestones st)
        (alter (λ c, component.mk (component.Label c) (component.Name c)
                                  (Go.Sort (issues_Less st)
                                           (component.Issues c))
                                  (component.Stats c))
               cmp (components st))
        (msMap st) (msCmpMap st).

Definition sortComponents (st : state) (ms : nat) : state :=
  State (iss st)
        (alter (λ m, milestone.mk (milestone.Milestone m)
                                  (Go.Sort (components_Less st)
                                           (milestone.Components m))
                                  (milestone.Stats m))
               ms (milestones st))
        (components st) (msMap st) (msCmpMap st).

Definition sortMilestone (st : state) (ms : nat) : state :=
  match milestones st !! ms with
  | None => st
  | Some m => sortComponents (foldl sortIssues st (milestone.Components m)) ms
  end.

Definition parseIssues (iss : list github.Issue.t) : state :=
  let st := foldl step (State iss [] [] ∅ ∅) (seq 0 (length iss)) in
  foldl sortMilestone st (map_to_list (msMap st)).*2.

Definition resolve (st : state) (ms : nat)
  : option (milestone.t * list component.t) :=
  m ← milestones st !! ms;
  cs ← mapM (λ cmp, components st !! cmp) (milestone.Components m);
  Some (m, cs).

Definition listing (st : state) (ms : nat)
  : option (list (string * list nat)) :=
  (λ r : milestone.t * list component.t,
     (λ c, (component.Name c, component.Issues c)) <$> r.2)
    <$> resolve st ms.

End PerLabel.

(** ** [run], [readIssues] and [writeIssues] (the same in all revisions)

    The tracker, the file system, the JSON codec of the standard
    library and the template engine are collaborators of the program;
    [run] is taken over arbitrary ones.  [files] is the state of the
    file system. *)

Module Run.

Record flags := Flags {
  tok : string;
  repo : string;
  milestones : string;
  out : string;
  fromFile : string;
}.

(** How a call ends: it returns (an error or nil), or it panics. *)
Inductive outcome (error : Type) :=
| Returned (err : option error)
| Panicked (p : Go.panic).
Global Arguments Returned {error} err.
Global Arguments Panicked {error} p.

Record world (files : Type) := World { fs : files; stdout : string }.
Global Arguments World {files} fs stdout.
Global Arguments fs {files} w.
Global Arguments stdout {files} w.

Section run.
Context {error files : Type}.

(** [ioutil.ReadFile] and [ioutil.WriteFile] *)
Variable ReadFile : files → string → error + string.
Variable WriteFile : files → string → string → files * option error.
(** [json.Marshal] and [json.Unmarshal] at type [[]github.Issue] *)
Variable Marshal : list github.Issue.t → error + string.
Variable Unmarshal : string → error + list github.Issue.t.
(** [allIssues(client(tok), owner, repo)]: the paginated fetch *)
Variable allIssues : string → string → string → error + list github.Issue.t.
(** [printIssues]: the contents of the backing array of its first
    argument when it returns, what it wrote to the standard output,
    and its result. *)
Variable printIssues :
  list github.Issue.t → list string →
  list github.Issue.t * string * option error.

Definition writeIssues (w : files) (issues : list github.Issue.t)
    (file : string) : files * option error :=
  match Marshal issues with
  | inl err => (w, Some err)
  | inr js => WriteFile w file js
  end.

Definition readIssues (w : files) (file : string)
  : error + list github.Issue.t :=
  match ReadFile w file with
  | inl err => inl err
  | inr b => Unmarshal b
  end.

(** [strings.Split(s, ",")] *)
Definition Split (s : string) (sep : ascii) : list string :=
  Go.genSplit s sep (String.length s).

(** The [if *fromFile != "" { ... } else { ... }] of [run]. *)
Definition load (fl : flags) (w : files)
  : Go.panic + (error + list github.Issue.t) :=
  if bool_decide (fromFile fl ≠ "") then inr (readIssues w (fromFile fl))
  else
    let repoParts := Go.SplitN (repo fl) "/" 2 in
    match Go.index repoParts 0 with
    | inl p => inl p
    | inr owner =>
        match Go.index repoParts 1 with
        | inl p => inl p
        | inr name => inr (allIssues (tok fl) owner name)
        end
    end.

Definition run (fl : flags) (w : world files)
  : outcome error * world files :=
  let ms := Split (milestones fl) "," in
  match load fl (fs w) with
  | inl p => (Panicked p, w)
  | inr (inl err) => (Returned (Some err), w)
  | inr (inr issues) =>
      let '(issues, text, err) := printIssues issues ms in
      let w := World (fs w) (stdout w +:+ text) in
      match err with
      | Some err => (Returned (Some err), w)
      | None =>
          if bool_decide (out fl ≠ "") then
            let '(fs', err) := writeIssues (fs w) issues (out fl) in
            (Returned err, World fs' (stdout w))
          else (Returned None, w)
      end
  end.
End run.

(** [printIssues] of main.go, which always returns [nil]. *)
Definition printMarkdown {error} (issues : list github.Issue.t)
    (ms : list string) : list github.Issue.t * string * option error :=
  let st := Markdown.printIssues issues ms in
  (Markdown.issues st, Markdown.stdout st, None).

(** [printIssues] of part_000; [Execute st sl] is what
    [tbl.Execute(os.Stdout, ...)] writes and returns when it walks the
    store [st] from the milestones [sl]. *)
Definition printBadge {error} (Execute : Badge.state → list nat → string * option error)
    (issues : list github.Issue.t) (ms : list string)
  : list github.Issue.t * string * option error :=
  let '(st, sl) := Badge.printIssues issues ms in
  let '(text, err) := Execute st sl in
  (Badge.ghIssues st, text, err).

End Run.

(** ** Vocabulary of the properties *)

(** The title of the milestone an issue refers to, if any. *)
Definition title (x : github.Issue.t) : option string :=
  github.Milestone.Title <$> github.Issue.Milestone x.

Definition closedFlag (x : github.Issue.t) : Z :=
  if bool_decide (github.Issue.ClosedAt x ≠ None) then 1 else 0.
Definition assignedFlag (x : github.Issue.t) : Z :=
  if bool_decide (github.Issue.Assignee x ≠ None) then 1 else 0.

(** The composite key [(closedFlag, assignedFlag, id)], ordered
    lexicographically by [lexico]. *)
Definition key (x : github.Issue.t) : Z * Z * Z :=
  (closedFlag x, assignedFlag x, github.Issue.Number x).

(** The elements of a slice together with their indices. *)
Definition indexed {A} (l : list A) : list (nat * A) :=
  zip (seq 0 (length l)) l.

Definition sumZ (l : list Z) : Z := foldr Z.add 0 l.

(** The concatenation of a list of strings. *)
Definition join (ss : list string) : string := foldr String.append "" ss.

(** The labels of an issue that start with ["component: "], in label
    order. *)
Definition componentLabels (x : github.Issue.t) : list string :=
  filter (λ lbl, Go.HasPrefix lbl "component: ")
         (github.Label.String <$> github.Issue.Labels x).

(** The issues of the input that refer to the milestone titled [t]. *)
Definition ofMilestone (t : string) (l : list github.Issue.t)
  : list github.Issue.t :=
  filter (λ x, title x = Some t) l.

(** [a] may stand before [b] in a slice sorted by [less]. *)
Definition notAfter {A} (less : A → A → bool) (a b : A) : Prop :=
  less b a = false.

Module BadgeSpec.
Import Badge.

(** What the label scan of part_000 finds on an issue. *)
Definition cmpOf (x : github.Issue.t) : string :=
  cmpName (scanLabels (github.Issue.Labels x)).
Definition typeOf (x : github.Issue.t) : string :=
  typeName (scanLabels (github.Issue.Labels x)).
Definition daysOf (x : github.Issue.t) : Z :=
  days (scanLabels (github.Issue.Labels x)).

(** The [issue] value allocated for [ghIssues[i]]. *)
Definition wrapper (ix : nat * github.Issue.t) : issue.t :=
  issue.mk ix.1 (typeOf ix.2) (daysOf ix.2).

(** The issues of milestone [t], and those of its component [c]. *)
Definition inMs (t : string) (il : list (nat * github.Issue.t)) :=
  filter (λ ix, title ix.2 = Some t) il.
Definition inCmp (t c : string) (il : list (nat * github.Issue.t)) :=
  filter (λ ix, cmpOf ix.2 = c) (inMs t il).

(** The issues of milestone [t] the scan attributes to component [c]. *)
Definition ofComponent (t c : string) (l : list github.Issue.t)
  : list github.Issue.t :=
  filter (λ x, cmpOf x = c) (ofMilestone t l).

(** The counters a list of issues adds up to. *)
Definition openDays (il : list (nat * github.Issue.t)) : Z :=
  sumZ ((λ ix, daysOf ix.2) <$> filter (λ ix, closed ix.2 = false) il).
Definition statsOf (il : list (nat * github.Issue.t)) : stats.t :=
  stats.mk (Go.wrap (Z.of_nat (length (filter (λ ix, closed ix.2 = true) il))))
           (Go.wrap (Z.of_nat (length il)))
           (Go.wrap (openDays il)).

(** Shape of the store: every milestone of [msMap] is allocated under
    its own title, [msCmpMap] indexes its components by name, no
    component belongs to two milestones, no pointer dangles. *)
Definition WF (st : state) : Prop :=
  (∀ t p, msMap st !! t = Some p →
     ∃ m cm, milestones st !! p = Some m
       ∧ github.Milestone.Title (milestone.Milestone m) = t
       ∧ msCmpMap st !! p = Some cm
       ∧ NoDup (milestone.Components m)
       ∧ ∀ c q, cm !! c = Some q ↔
                q ∈ milestone.Components m
                ∧ component.Name <$> components st !! q = Some c)
  ∧ (∀ p p' m m' q,
       milestones st !! p = Some m → milestones st !! p' = Some m' →
       q ∈ milestone.Components m → q ∈ milestone.Components m' → p = p')
  ∧ (∀ p m q, milestones st !! p = Some m → q ∈ milestone.Components m →
       (q < length (components st))%nat).

(** The milestone counters after the issues [il]. *)
Definition DataM (il : list (nat * github.Issue.t)) (st : state) : Prop :=
  (∀ t, msMap st !! t = None → inMs t il = [])
  ∧ (∀ t p m, msMap st !! t = Some p → milestones st !! p = Some m →
       milestone.Stats m = statsOf (inMs t il)).

(** The components after the issues [il]. *)
Definition DataC (il : list (nat * github.Issue.t)) (st : state) : Prop :=
  ∀ t p m cm,
    msMap st !! t = Some p → milestones st !! p = Some m →
    msCmpMap st !! p = Some cm →
    (∀ c, c ≠ "" → inCmp t c il ≠ [] → is_Some (cm !! c))
    ∧ (∀ q cmp, q ∈ milestone.Components m → components st !! q = Some cmp →
         component.Name cmp ≠ ""
         ∧ component.Issues cmp ≡ₚ wrapper <$> inCmp t (component.Name cmp) il
         ∧ component.Stats cmp = statsOf (inCmp t (component.Name cmp) il)).

(** Nothing is allocated without an issue of the input asking for it. *)
Definition NE (il : list (nat * github.Issue.t)) (st : state) : Prop :=
  ∀ t p m, msMap st !! t = Some p → milestones st !! p = Some m →
    inMs t il ≠ []
    ∧ ∀ q cmp, q ∈ milestone.Components m → components st !! q = Some cmp →
        inCmp t (component.Name cmp) il ≠ [].

(** The milestone at [p] has been through the final sorting. *)
Definition SortedAt (st : state) (p : nat) : Prop :=
  ∃ m, milestones st !! p = Some m
    ∧ StronglySorted (notAfter (components_Less st)) (milestone.Components m)
    ∧ ∀ q cmp, q ∈ milestone.Components m → components st !! q = Some cmp →
        StronglySorted (notAfter (issues_Less st)) (component.Issues cmp).

(** [st'] is [st] with some [Components] and [Issues] slices
    rearranged. *)
Definition Shuffle (st st' : state) : Prop :=
  ghIssues st' = ghIssues st ∧ msMap st' = msMap st
  ∧ msCmpMap st' = msCmpMap st
  ∧ length (milestones st') = length (milestones st)
  ∧ length (components st') = length (components st)
  ∧ (∀ p m, milestones st !! p = Some m →
       ∃ m', milestones st' !! p = Some m'
         ∧ milestone.Milestone m' = milestone.Milestone m
         ∧ milestone.Stats m' = milestone.Stats m
         ∧ milestone.Components m' ≡ₚ milestone.Components m)
  ∧ (∀ q c, components st !! q = Some c →
       ∃ c', components st' !! q = Some c'
         ∧ component.Name c' = component.Name c
         ∧ component.Stats c' = component.Stats c
         ∧ component.Issues c' ≡ₚ component.Issues c).
(** Pointers that do not dangle. *)
Definition validIssue (st : state) (w : issue.t) : Prop :=
  is_Some (ghIssues st !! issue.Issue w).
Definition validComponent (st : state) (q : nat) : Prop :=
  is_Some (components st !! q).

End BadgeSpec.

Module MarkdownSpec.
Import Markdown.

(** [Some d] for a non-empty slice, [None] for an absent key. *)
Definition nonnil {A} (d : list A) : option (list A) :=
  match d with
  | [] => None
  | _ => Some d
  end.

(** One copy of [x] for every ["component: "] label of [x] that
    names [c]. *)
Definition copies (c : string) (x : github.Issue.t) : list github.Issue.t :=
  (λ _, x) <$> filter (λ lbl, Go.from 11 lbl = c) (componentLabels x).

(** What the first loop of main.go files under component [c] of
    milestone [t]. *)
Definition listed (t c : string) (l : list github.Issue.t)
  : list github.Issue.t :=
  ofMilestone t l ≫= copies c.

Definition countsOf (l : list github.Issue.t) : stats.t :=
  stats.mk
    (Go.wrap (Z.of_nat (length (filter (λ x, github.Issue.ClosedAt x = None) l))))
    (Go.wrap (Z.of_nat (length (filter (λ x, github.Issue.ClosedAt x ≠ None) l)))).

(** The URL kept for milestone [t]: that of the first issue of [t]. *)
Definition urlOf (t : string) (l : list github.Issue.t) : option string :=
  x ← head (ofMilestone t l);
  github.Milestone.HTMLURL <$> github.Issue.Milestone x.

(** [parsed[t][c]] *)
Definition filed (st : state) (t c : string) : option Issues :=
  cmps ← parsed st !! t; cmps !! c.

(** The store of [printIssues] after its first loop has run over the
    issues [done]. *)
Definition Collected (done : list github.Issue.t) (st : state) : Prop :=
  stdout st = ""
  ∧ ∀ t,
      msURLs st !! t = urlOf t done
      ∧ match ofMilestone t done with
        | [] => parsed st !! t = None ∧ msCounts st !! t = None
        | _ =>
            msCounts st !! t = Some (countsOf (ofMilestone t done))
            ∧ ∃ cmps, parsed st !! t = Some cmps
                ∧ ∀ c, cmps !! c = nonnil (listed t c done)
        end.

(** Two maps of slices that print the same: they differ at most in
    the order within the slices. *)
Definition SameC (cmps cmps' : gmap string Issues) : Prop :=
  ∀ c, match cmps !! c, cmps' !! c with
       | None, None => True
       | Some d, Some d' => Go.Sort Less d' = Go.Sort Less d
       | _, _ => False
       end.

Definition Same (st st' : state) : Prop :=
  issues st' = issues st ∧ msCounts st' = msCounts st
  ∧ msURLs st' = msURLs st
  ∧ ∀ t, match parsed st !! t, parsed st' !! t with
         | None, None => True
         | Some cmps, Some cmps' => SameC cmps cmps'
         | _, _ => False
         end.

(** The text of the report, written out. *)
Definition componentText (cmp : string) (d : list github.Issue.t) : string :=
  (nl +:+ "**" +:+ cmp +:+ "**" +:+ nl)
    +:+ join (issueLine <$> Go.Sort Less d).

Definition componentNames (t : string) (l : list github.Issue.t)
  : list string :=
  Go.Strings
    (remove_dups (ofMilestone t l ≫= λ x, Go.from 11 <$> componentLabels x)).

Definition blockText (l : list github.Issue.t) (ms : string) : string :=
  heading ms (countsOf (ofMilestone ms l)) (default "" (urlOf ms l))
    +:+ join ((λ c, componentText c (listed ms c l)) <$> componentNames ms l)
    +:+ nl.

End MarkdownSpec.

(** ** Sample data *)

Module Sample.
Import github.

Definition v1 : Milestone.t := Milestone.mk "v1.0" "https://tracker/milestone/1".
Definition ann : User.t := User.mk "https://tracker/ann" "https://avatars/ann".

Definition mk (number : Z) (labels : list string) (assignee : option User.t)
    (closedAt : option Z) : Issue.t :=
  Issue.mk number "title" "https://tracker/issue" (Some v1)
           (Label.mk <$> labels) assignee closedAt.

(** The three issues of the ordering example. *)
Definition i5 : Issue.t := mk 5 ["component: api"] None None.
Definition i2 : Issue.t := mk 2 ["component: api"] (Some ann) None.
Definition i9 : Issue.t := mk 9 ["component: api"] None (Some 1438387200).

(** An issue with two component labels, one whose only component
    label names nothing, and one without a milestone. *)
Definition dual : Issue.t := mk 7 ["component: api"; "component: ui"] None None.
Definition blank : Issue.t := mk 8 ["component: "] None None.
Definition loose : Issue.t :=
  Issue.mk 4 "title" "https://tracker/issue" None
           [Label.mk "component: api"] None None.

(** The end-to-end scenario: two issues of [api], one of [ui]. *)
Definition a1 : Issue.t := mk 1 ["component: api"; "estimate: 3d"] None None.
Definition a2 : Issue.t :=
  mk 2 ["component: api"; "estimate: 2w"] None (Some 1438387200).
Definition u3 : Issue.t := mk 3 ["component: ui"; "type: bug"] (Some ann) None.

(** Flags whose [repo] lacks the separator, and well-formed ones. *)
Definition noSlash : Run.flags :=
  Run.Flags "secret" "issuedash" "v1.0" "cache.json" "".
Definition flags : Run.flags :=
  Run.Flags "secret" "jonasi/issuedash" "v1.0,v2.0" "cache.json" "".

(** Collaborators for running [run] on the sample data: a tracker
    that serves the scenario, a file system that keeps the last file
    written, a codec that cannot fail. *)
Definition allIssues (tok owner repo : string)
  : Empty_set + list Issue.t := inr [u3; a2; loose; a1].
Definition ReadFile (fs : option (string * string)) (file : string)
  : Empty_set + string := inr "".
Definition WriteFile (fs : option (string * string)) (file js : string)
  : option (string * string) * option Empty_set := (Some (file, js), None).
Definition Marshal (issues : list Issue.t) : Empty_set + string :=
  inr (join ((λ x, pretty (Issue.Number x) +:+ ";") <$> issues)).
Definition Unmarshal (b : string) : Empty_set + list Issue.t := inr [].
End Sample.

(** ** The badges of part_000 (lines 270-294)

    [url.QueryEscape] and the two [fmt.Sprintf] formats the badge
    methods use. *)

Module url.

(** [shouldEscape(c, encodeQueryComponent)]: letters, digits and
    [-], [_], [.], [~] are kept, every other byte is escaped. *)
Definition shouldEscape (c : N) : bool :=
  if ((97 <=? c) && (c <=? 122) || (65 <=? c) && (c <=? 90)
      || (48 <=? c) && (c <=? 57))%N
  then false
  else match c with
       | (45 | 95 | 46 | 126)%N => false
       | _ => true
       end.

(** ["0123456789ABCDEF"[n]] *)
Definition upperhex (n : N) : ascii :=
  match n with
  | 0 => "0" | 1 => "1" | 2 => "2" | 3 => "3" | 4 => "4" | 5 => "5"
  | 6 => "6" | 7 => "7" | 8 => "8" | 9 => "9" | 10 => "A" | 11 => "B"
  | 12 => "C" | 13 => "D" | 14 => "E" | _ => "F"
  end%char%N.

(** What [escape(s, encodeQueryComponent)] writes for the byte [c]. *)
Definition escapeByte (c : ascii) : string :=
  let n := Ascii.N_of_ascii c in
  if (n =? 32)%N then "+"
  else if shouldEscape n then
    String "%" (String (upperhex (N.shiftr n 4))
                       (String (upperhex (N.land n 15)) EmptyString))
  else String c EmptyString.

Fixpoint QueryEscape (s : string) : string :=
  match s with
  | EmptyString => EmptyString
  | String c s' => escapeByte c +:+ QueryEscape s'
  end.

End url.

Module Badges.

Definition CompletedBadge (s : Badge.stats.t) : string :=
  "https://img.shields.io/badge/completed-"
    +:+ url.QueryEscape (pretty (Badge.stats.Closed s) +:+ "/"
                           +:+ pretty (Badge.stats.Total s))
    +:+ "-blue.svg?style=flat-square".

Definition DaysBadge (s : Badge.stats.t) : string :=
  "https://img.shields.io/badge/remaining-"
    +:+ url.QueryEscape (pretty (Badge.stats.Days s) +:+ "d")
    +:+ "-green.svg?style=flat-square".

(** [func (m *milestone) CompletedBadge() string] and its siblings. *)
Definition milestone_CompletedBadge (m : Badge.milestone.t) : string :=
  CompletedBadge (Badge.milestone.Stats m).
Definition milestone_DaysBadge (m : Badge.milestone.t) : string :=
  DaysBadge (Badge.milestone.Stats m).
Definition component_CompletedBadge (c : Badge.component.t) : string :=
  CompletedBadge (Badge.component.Stats c).
Definition component_DaysBadge (c : Badge.component.t) : string :=
  DaysBadge (Badge.component.Stats c).

End Badges.

(** ** [allIssues]: the paginated fetch (main.go, lines 74-102)

    The tracker is a collaborator: [ListByRepo tr owner repo opt] is
    what [client.Issues.ListByRepo] answers when the tracker is in
    state [tr], together with the state it is left in.  The loop of
    [allIssues] has no bound of its own; [fuel] counts the requests it
    may still send, and [None] stands for a loop that is still
    running when the fuel is spent. *)

Module Tracker.

Record ListOptions := { Page : Z; PerPage : Z }.
Record IssueListByRepoOptions := {
  State : string;
  Options : ListOptions;
}.
Record Response := { NextPage : Z }.

(** The options [allIssues] sends for [page]. *)
Definition request (page : Z) : IssueListByRepoOptions :=
  {| State := "all"; Options := {| Page := page; PerPage := 1000 |} |}.

Section allIssues.
Context {error tracker : Type}.
Variable ListByRepo :
  tracker → string → string → IssueListByRepoOptions →
  tracker * (error + (list github.Issue.t * Response)).

Fixpoint loop (fuel : nat) (tr : tracker) (owner repo : string)
    (allIssues : list github.Issue.t) (page : Z)
  : option (tracker * (error + list github.Issue.t)) :=
  match fuel with
  | O => None
  | S fuel =>
      match ListByRepo tr owner repo (request page) with
      | (tr, inl err) => Some (tr, inl err)
      | (tr, inr (issues, resp)) =>
          let allIssues := allIssues ++ issues in
          let page := NextPage resp in
          if page =? 0 then Some (tr, inr allIssues)
          else loop fuel tr owner repo allIssues page
      end
  end.

Definition allIssues (fuel : nat) (tr : tracker) (owner repo : string)
  : option (tracker * (error + list github.Issue.t)) :=
  loop fuel tr owner repo [] 1.

(** [exchange tr page pages e tr']: asked for [page] in state [tr],
    and then for whatever next page each answer names, the tracker
    hands out [pages] one after the other and ends in state [tr'],
    either with an answer that names no next page ([e = None]) or
    with the error [e]. *)
Inductive exchange (owner repo : string)
  : tracker → Z → list (list github.Issue.t) → option error → tracker
    → Prop :=
| exchange_last tr page issues tr' :
    ListByRepo tr owner repo (request page)
    = (tr', inr (issues, {| NextPage := 0 |})) →
    exchange owner repo tr page [issues] None tr'
| exchange_error tr page err tr' :
    ListByRepo tr owner repo (request page) = (tr', inl err) →
    exchange owner repo tr page [] (Some err) tr'
| exchange_next tr page issues next tr' pages e tr'' :
    next ≠ 0 →
    ListByRepo tr owner repo (request page)
    = (tr', inr (issues, {| NextPage := next |})) →
    exchange owner repo tr' next pages e tr'' →
    exchange owner repo tr page (issues :: pages) e tr''.

(** What [allIssues] returns at the end of an exchange, [acc] being
    the issues it held at its start. *)
Definition fetched (acc : list github.Issue.t)
    (pages : list (list github.Issue.t)) (e : option error)
  : error + list github.Issue.t :=
  match e with
  | None => inr (acc ++ concat pages)
  | Some err => inl err
  end.

(** The requests an exchange takes. *)
Definition requests (pages : list (list github.Issue.t))
    (e : option error) : nat :=
  match e with
  | None => length pages
  | Some _ => S (length pages)
  end.
End allIssues.

End Tracker.

(** ** src/unnamed/part_002: the table report without day estimates *)

Module Plain.

Module stats.
Record t := mk { Closed : Z; Total : Z }.
Definition zero : t := mk 0 0.
End stats.

(** [type issue struct { *github.Issue; Type string }] *)
Module issue.
Record t := mk { Issue : nat; Type' : string }.
End issue.

Module component.
Record t := mk { Name : string; Issues : list issue.t; Stats : stats.t }.
End component.

Module milestone.
Record t := mk {
  Milestone : github.Milestone.t;
  Components : list nat;
  Stats : stats.t;
}.
End milestone.

Record state := State {
  ghIssues : list github.Issue.t;
  milestones : list milestone.t;
  components : list component.t;
  msMap : gmap string nat;
  msCmpMap : gmap nat (gmap string nat);
}.

(** The scan of an issue's labels (lines 151-166). *)
Record scan := Scan { cmpName : string; typeName : string }.

Definition scanLabel (acc : scan) (l : github.Label.t) : scan :=
  let lbl := github.Label.String l in
  let cmpName :=
    if Go.HasPrefix lbl "component: " then Go.from 11 lbl else cmpName acc in
  let typeName :=
    if Go.HasPrefix lbl "type: " then Go.from 6 lbl else typeName acc in
  Scan cmpName typeName.

Definition scanLabels (ls : list github.Label.t) : scan :=
  foldl scanLabel (Scan "" "") ls.

(** [Total++; if ClosedAt != nil { Closed++ }] *)
Definition count (closed : bool) (s : stats.t) : stats.t :=
  stats.mk (if closed then Go.incr (stats.Closed s) else stats.Closed s)
           (Go.incr (stats.Total s)).

Definition getMilestone (st : state) (ghMs : github.Milestone.t)
  : state * nat :=
  match msMap st !! github.Milestone.Title ghMs with
  | Some ms => (st, ms)
  | None =>
      let ms := length (milestones st) in
      (State (ghIssues st)
             (milestones st ++ [milestone.mk ghMs [] stats.zero])
             (components st)
             (<[github.Milestone.Title ghMs := ms]> (msMap st))
             (<[ms := ∅]> (msCmpMap st)),
       ms)
  end.

Definition countMilestone (st : state) (ms : nat) (closed : bool) : state :=
  State (ghIssues st)
        (alter (λ m, milestone.mk (milestone.Milestone m)
                                  (milestone.Components m)
                                  (count closed (milestone.Stats m)))
               ms (milestones st))
        (components st) (msMap st) (msCmpMap st).

Definition getComponent (st : state) (ms : nat) (cmpName : string)
  : state * nat :=
  let cmps := default ∅ (msCmpMap st !! ms) in
  match cmps !! cmpName with
  | Some cmp => (st, cmp)
  | None =>
      let cmp := length (components st) in
      (State (ghIssues st)
             (alter (λ m, milestone.mk (milestone.Milestone m)
                                       (milestone.Components m ++ [cmp])
                                       (milestone.Stats m))
                    ms (milestones st))
             (components st ++ [component.mk cmpName [] stats.zero])
             (msMap st)
             (<[ms := <[cmpName := cmp]> cmps]> (msCmpMap st)),
       cmp)
  end.

Definition addIssue (st : state) (cmp : nat) (i : issue.t) (closed : bool)
  : state :=
  State (ghIssues st) (milestones st)
        (alter (λ c, component.mk (component.Name c)
                                  (component.Issues c ++ [i])
                                  (count closed (component.Stats c)))
               cmp (components st))
        (msMap st) (msCmpMap st).

(** One round of the loop over [ghIssues] (lines 127-192). *)
Definition step (st : state) (i : nat) : state :=
  match ghIssues st !! i with
  | None => st
  | Some ghIssue =>
      match github.Issue.Milestone ghIssue with
      | None => st
      | Some ghMs =>
          let '(st, ms) := getMilestone st ghMs in
          let closed := bool_decide (github.Issue.ClosedAt ghIssue ≠ None) in
          let st := countMilestone st ms closed in
          let sc := scanLabels (github.Issue.Labels ghIssue) in
          if bool_decide (cmpName sc ≠ "") then
            let '(st, cmp) := getComponent st ms (cmpName sc) in
            addIssue st cmp (issue.mk i (typeName sc)) closed
          else st
      end
  end.

Definition issues_Less (st : state) (a b : issue.t) : bool :=
  match ghIssues st !! issue.Issue a, ghIssues st !! issue.Issue b with
  | Some x, Some y => Less x y
  | _, _ => false
  end.

Definition components_Less (st : state) (a b : nat) : bool :=
  match components st !! a, components st !! b with
  | Some x, Some y => String.ltb (component.Name x) (component.Name y)
  | _, _ => false
  end.

Definition sortIssues (st : state) (cmp : nat) : state :=
  State (ghIssues st) (milestones st)
        (alter (λ c, component.mk (component.Name c)
                                  (Go.Sort (issues_Less st)
                                           (component.Issues c))
                                  (component.Stats c))
               cmp (components st))
        (msMap st) (msCmpMap st).

Definition sortComponents (st : state) (ms : nat) : state :=
  State (ghIssues st)
        (alter (λ m, milestone.mk (milestone.Milestone m)
                                  (Go.Sort (components_Less st)
                                           (milestone.Components m))
                                  (milestone.Stats m))
               ms (milestones st))
        (components st) (msMap st) (msCmpMap st).

(** The body of [for _, ms := range msMap] (lines 194-200). *)
Definition sortMilestone (st : state) (ms : nat) : state :=
  match milestones st !! ms with
  | None => st
  | Some m => sortComponents (foldl sortIssues st (milestone.Components m)) ms
  end.

Definition collect (ghIssues : list github.Issue.t) : state :=
  foldl step (State ghIssues [] [] ∅ ∅) (seq 0 (length ghIssues)).

(** [parseIssues], with the order in which [range msMap] visits the
    milestones made explicit. *)
Definition parseIssuesIn (order : state → list nat)
    (ghIssues : list github.Issue.t) : state :=
  let st := collect ghIssues in
  foldl sortMilestone st (order st).

Definition parseIssues : list github.Issue.t → state :=
  parseIssuesIn (λ st, (map_to_list (msMap st)).*2).

End Plain.

(** The store of part_000 with the day estimates taken out. *)
Module Erase.

Definition stats (s : Badge.stats.t) : Plain.stats.t :=
  Plain.stats.mk (Badge.stats.Closed s) (Badge.stats.Total s).
Definition scan (sc : Badge.scan) : Plain.scan :=
  Plain.Scan (Badge.cmpName sc) (Badge.typeName sc).
Definition issue (w : Badge.issue.t) : Plain.issue.t :=
  Plain.issue.mk (Badge.issue.Issue w) (Badge.issue.Type' w).
Definition component (c : Badge.component.t) : Plain.component.t :=
  Plain.component.mk (Badge.component.Name c)
                     (issue <$> Badge.component.Issues c)
                     (stats (Badge.component.Stats c)).
Definition milestone (m : Badge.milestone.t) : Plain.milestone.t :=
  Plain.milestone.mk (Badge.milestone.Milestone m)
                     (Badge.milestone.Components m)
                     (stats (Badge.milestone.Stats m)).
Definition state (st : Badge.state) : Plain.state :=
  Plain.State (Badge.ghIssues st)
              (milestone <$> Badge.milestones st)
              (component <$> Badge.components st)
              (Badge.msMap st) (Badge.msCmpMap st).

End Erase.

(** ** Vocabulary for part_001 *)

Module PerLabelSpec.
Import PerLabel.

Definition closed (x : github.Issue.t) : bool :=
  bool_decide (github.Issue.ClosedAt x ≠ None).

(** One entry for the issue [ix] per label among [labels] that is
    ["component: "] followed by [c], if the issue refers to the
    milestone titled [t]. *)
Definition entriesOf (t c : string) (ix : nat * github.Issue.t)
    (labels : list github.Label.t) : list (nat * github.Issue.t) :=
  if decide (title ix.2 = Some t)
  then (λ _, ix) <$>
         filter (λ lbl, Go.from 11 lbl = c)
                (filter (λ lbl, Go.HasPrefix lbl "component: ")
                        (github.Label.String <$> labels))
  else [].

(** The entries of component [c] of milestone [t] after the issues
    [il]. *)
Definition entries (t c : string) (il : list (nat * github.Issue.t))
  : list (nat * github.Issue.t) :=
  il ≫= λ ix, entriesOf t c ix (github.Issue.Labels ix.2).

(** The counters a list of entries adds up to. *)
Definition statsOf (il : list (nat * github.Issue.t)) : stats.t :=
  stats.mk (Go.wrap (Z.of_nat (length (filter (λ ix, closed ix.2 = true) il))))
           (Go.wrap (Z.of_nat (length il))).

(** Shape of the store, as for part_000. *)
Definition WF (st : state) : Prop :=
  (∀ t p, msMap st !! t = Some p →
     ∃ m cm, milestones st !! p = Some m
       ∧ github.Milestone.Title (milestone.Milestone m) = t
       ∧ msCmpMap st !! p = Some cm
       ∧ NoDup (milestone.Components m)
       ∧ ∀ c q, cm !! c = Some q ↔
                q ∈ milestone.Components m
                ∧ component.Name <$> components st !! q = Some c)
  ∧ (∀ p p' m m' q,
       milestones st !! p = Some m → milestones st !! p' = Some m' →
       q ∈ milestone.Components m → q ∈ milestone.Components m' → p = p')
  ∧ (∀ p m q, milestones st !! p = Some m → q ∈ milestone.Components m →
       (q < length (components st))%nat).

(** The milestone counters, when the issues counted for the
    milestone titled [t] are [M t]. *)
Definition DataM (M : string → list (nat * github.Issue.t)) (st : state)
  : Prop :=
  (∀ t, msMap st !! t = None → M t = [])
  ∧ (∀ t p m, msMap st !! t = Some p → milestones st !! p = Some m →
       milestone.Stats m = statsOf (M t)).

(** The components, when the entries filed under component [c] of
    the milestone titled [t] are [E t c]. *)
Definition DataC (E : string → string → list (nat * github.Issue.t))
    (st : state) : Prop :=
  ∀ t p m cm,
    msMap st !! t = Some p → milestones st !! p = Some m →
    msCmpMap st !! p = Some cm →
    (∀ c, E t c ≠ [] → is_Some (cm !! c))
    ∧ (∀ q cmp, q ∈ milestone.Components m → components st !! q = Some cmp →
         component.Issues cmp ≡ₚ (E t (component.Name cmp)).*1
         ∧ component.Stats cmp = statsOf (E t (component.Name cmp))).

(** Nothing is allocated without an issue of the input asking for it. *)
Definition NE (full : list (nat * github.Issue.t)) (st : state) : Prop :=
  ∀ t p m, msMap st !! t = Some p → milestones st !! p = Some m →
    BadgeSpec.inMs t full ≠ []
    ∧ ∀ q cmp, q ∈ milestone.Components m → components st !! q = Some cmp →
        entries t (component.Name cmp) full ≠ [].

(** Pointers that do not dangle. *)
Definition validIssue (st : state) (i : nat) : Prop := is_Some (iss st !! i).
Definition validComponent (st : state) (q : nat) : Prop :=
  is_Some (components st !! q).

(** The milestone at [p] has been through the final sorting. *)
Definition SortedAt (st : state) (p : nat) : Prop :=
  ∃ m, milestones st !! p = Some m
    ∧ StronglySorted (notAfter (components_Less st)) (milestone.Components m)
    ∧ ∀ q cmp, q ∈ milestone.Components m → components st !! q = Some cmp →
        StronglySorted (notAfter (issues_Less st)) (component.Issues cmp).

(** [st'] is [st] with some [Components] and [Issues] slices
    rearranged. *)
Definition Shuffle (st st' : state) : Prop :=
  iss st' = iss st ∧ msMap st' = msMap st
  ∧ msCmpMap st' = msCmpMap st
  ∧ length (milestones st') = length (milestones st)
  ∧ length (components st') = length (components st)
  ∧ (∀ p m, milestones st !! p = Some m →
       ∃ m', milestones st' !! p = Some m'
         ∧ milestone.Milestone m' = milestone.Milestone m
         ∧ milestone.Stats m' = milestone.Stats m
         ∧ milestone.Components m' ≡ₚ milestone.Components m)
  ∧ (∀ q c, components st !! q = Some c →
       ∃ c', components st' !! q = Some c'
         ∧ component.Name c' = component.Name c
         ∧ component.Label c' = component.Label c
         ∧ component.Stats c' = component.Stats c
         ∧ component.Issues c' ≡ₚ component.Issues c).

End PerLabelSpec.

(** ** Further vocabulary *)

(** [strings.Join(ss, sep)] *)
Fixpoint joinWith (sep : string) (ss : list string) : string :=
  match ss with
  | [] => ""
  | [s] => s
  | s :: rest => s +:+ sep +:+ joinWith sep rest
  end.

(** The byte [c] occurs in [s]. *)
Definition occurs (c : ascii) (s : string) : Prop :=
  c ∈ String.list_ascii_of_string s.

(** The labels of an issue that start with ["type: "], in label order. *)
Definition typeLabels (x : github.Issue.t) : list string :=
  filter (λ lbl, Go.HasPrefix lbl "type: ")
         (github.Label.String <$> github.Issue.Labels x).

(** Issues taken from one repository: those of one number are one
    issue, and those of one milestone title carry one milestone
    record. *)
Definition coherent (l : list github.Issue.t) : Prop :=
  (∀ x y, x ∈ l → y ∈ l →
     github.Issue.Number x = github.Issue.Number y → x = y)
  ∧ (∀ x y, x ∈ l → y ∈ l → title x = title y →
       github.Issue.Milestone x = github.Issue.Milestone y).

Module Fixture.
Import github.

(** A tracker that serves the scenario in two pages and counts the
    requests it has answered. *)
Definition ListByRepo (tr : nat) (owner repo : string)
    (opt : Tracker.IssueListByRepoOptions)
  : nat * (string + (list Issue.t * Tracker.Response)) :=
  (S tr,
   match Tracker.Page (Tracker.Options opt) with
   | 1 => inr ([Sample.u3; Sample.a2], {| Tracker.NextPage := 2 |})
   | 2 => inr ([Sample.loose; Sample.a1], {| Tracker.NextPage := 0 |})
   | _ => inl "404 Not Found"%string
   end).

(** One whose second page cannot be had. *)
Definition flaky (tr : nat) (owner repo : string)
    (opt : Tracker.IssueListByRepoOptions)
  : nat * (string + (list Issue.t * Tracker.Response)) :=
  (S tr,
   match Tracker.Page (Tracker.Options opt) with
   | 1 => inr ([Sample.u3; Sample.a2], {| Tracker.NextPage := 2 |})
   | _ => inl "502 Bad Gateway"%string
   end).

(** One that always names page 1 as the next. *)
Definition stuck (tr : nat) (owner repo : string)
    (opt : Tracker.IssueListByRepoOptions)
  : nat * (string + (list Issue.t * Tracker.Response)) :=
  (S tr, inr ([Sample.u3], {| Tracker.NextPage := 1 |})).

(** A file system of named files, and a codec between issue lists
    and the decimal numbers of their issues that knows the issues
    of the scenario. *)
Definition files := list (string * string).
Definition ReadFile (fs : files) (file : string) : string + string :=
  match list_find (λ e, e.1 = file) fs with
  | Some (_, e) => inr e.2
  | None => inl "no such file"%string
  end.
Definition WriteFile (fs : files) (file js : string)
  : files * option string := ((file, js) :: fs, None).
Definition known : list Issue.t := [Sample.u3; Sample.a2; Sample.loose; Sample.a1].
Definition Marshal (issues : list Issue.t) : string + string :=
  inr (joinWith "," ((λ x, pretty (Issue.Number x)) <$> issues)).
Definition Unmarshal (b : string) : string + list Issue.t :=
  match mapM (λ n, list_find (λ x, pretty (Issue.Number x) = n) known)
             (Run.Split b ",") with
  | Some found => inr (found.*2)
  | None => inl "unexpected end of JSON input"%string
  end.
Definition allIssues (tok owner repo : string) : string + list Issue.t :=
  inr [Sample.u3; Sample.a2; Sample.loose; Sample.a1].

Definition write : Run.flags :=
  Run.Flags "secret" "jonasi/issuedash" "v1.0" "cache.json" "".
Definition replay : Run.flags :=
  Run.Flags "" "" "v1.0" "" "cache.json".
End Fixture.

(** ** The cache file (section 4.2 of the specification)

    [writeIssues] and [readIssues] are [Run.writeIssues] and
    [Run.readIssues]; what they call lies outside the repository. *)

Module Cache.
Import github.

(** Modelled from the spec: the two ways section 4.2 lets the cache
    fail, [IOError] on a read or write failure and [FormatError] on
    content that does not deserialize. *)
Inductive error := IOError | FormatError.

(** Modelled from the spec: the files behind [ioutil.ReadFile] and
    [ioutil.WriteFile], which are not code of the repository.  A
    file system is the contents of its files and the paths that
    cannot be written; writing a file replaces its contents, reading
    returns them, and either fails with [IOError]. *)
Record files := Files {
  contents : gmap string string;
  denied : gset string;
}.

(** Modelled from the spec: [Load] reads the file at the path, and
    fails with [IOError] when there is none ([ioutil.ReadFile] is
    not code of the repository). *)
Definition ReadFile (fs : files) (file : string) : error + string :=
  match contents fs !! file with
  | Some b => inr b
  | None => inl IOError
  end.

(** Modelled from the spec: [Save] replaces the contents of the
    file at the path, and fails with [IOError], changing nothing,
    when the path cannot be written ([ioutil.WriteFile] is not code
    of the repository). *)
Definition WriteFile (fs : files) (file b : string) : files * option error :=
  if decide (file ∈ denied fs) then (fs, Some IOError)
  else (Files (<[file := b]> (contents fs)) (denied fs), None).

(** Modelled from the spec: the codec behind [json.Marshal] and
    [json.Unmarshal] at type [[]github.Issue], which is not code of
    the repository: "a direct structural serialize/deserialize of
    the flat issue list", consumed only by this program.  An issue
    list is written as the sequence of its fields, every field on a
    line of its own: a number in decimal, a text as it is (a line
    feed or a backslash in it is preceded by a backslash), an
    optional record as [1] and its fields or as [0], a list as its
    length and its elements. *)
Definition sep : ascii := "010".
Definition esc : ascii := "092".

Fixpoint escape (s : string) : string :=
  match s with
  | EmptyString => EmptyString
  | String c s' =>
      if Ascii.eqb c sep || Ascii.eqb c esc
      then String esc (String c (escape s'))
      else String c (escape s')
  end.

Definition line (field : string) : string := escape field +:+ String sep "".

Definition frame (fields : list string) : string := join (line <$> fields).

(** The lines of a text; [cur] is the line being read, backwards. *)
Fixpoint unframe (cur : list ascii) (s : string) : option (list string) :=
  match s with
  | EmptyString =>
      match cur with
      | [] => Some []
      | _ => None
      end
  | String c s' =>
      if Ascii.eqb c sep
      then (λ r, String.string_of_list_ascii (reverse cur) :: r)
             <$> unframe [] s'
      else if Ascii.eqb c esc then
        match s' with
        | EmptyString => None
        | String d s'' => unframe (d :: cur) s''
        end
      else unframe (c :: cur) s'
  end.

(** Decimal numbers, read back. *)
Fixpoint readDigits (acc : Z) (s : string) : option Z :=
  match s with
  | EmptyString => Some acc
  | String c s' => d ← Go.digit c; readDigits (10 * acc + d) s'
  end.

Definition readN (s : string) : option Z :=
  match s with
  | EmptyString => None
  | _ => readDigits 0 s
  end.

Definition readZ (s : string) : option Z :=
  match s with
  | String c s' => if Ascii.eqb c "-" then Z.opp <$> readN s' else readN s
  | EmptyString => None
  end.

(** *** Writing the fields *)

Definition putOption {A} (f : A → list string) (o : option A) : list string :=
  match o with
  | None => ["0"]
  | Some a => "1" :: f a
  end.

Definition putList {A} (f : A → list string) (l : list A) : list string :=
  pretty (Z.of_nat (length l)) :: (l ≫= f).

Definition putZ (z : Z) : list string := [pretty z].
Definition putMilestone (m : Milestone.t) : list string :=
  [Milestone.Title m; Milestone.HTMLURL m].
Definition putUser (u : User.t) : list string :=
  [User.HTMLURL u; User.AvatarURL u].
Definition putLabel (lb : Label.t) : list string := [Label.Name lb].

Definition putIssue (x : Issue.t) : list string :=
  putZ (Issue.Number x)
  ++ [Issue.Title x; Issue.HTMLURL x]
  ++ putOption putMilestone (Issue.Milestone x)
  ++ putList putLabel (Issue.Labels x)
  ++ putOption putUser (Issue.Assignee x)
  ++ putOption putZ (Issue.ClosedAt x).

(** Modelled from the spec: the serialization of the flat issue
    list, which never fails ([json.Marshal] is not code of the
    repository). *)
Definition Marshal (issues : list Issue.t) : error + string :=
  inr (frame (putList putIssue issues)).

(** *** Reading them back *)

Definition reader (A : Type) : Type := list string → option (A * list string).

Definition text : reader string := λ fields,
  match fields with
  | f :: rest => Some (f, rest)
  | [] => None
  end.

Definition number : reader Z := λ fields,
  match fields with
  | f :: rest => z ← readZ f; Some (z, rest)
  | [] => None
  end.

Definition optional {A} (r : reader A) : reader (option A) := λ fields,
  match fields with
  | f :: rest =>
      if String.eqb f "0" then Some (None, rest)
      else if String.eqb f "1" then '(a, rest') ← r rest; Some (Some a, rest')
      else None
  | [] => None
  end.

Fixpoint times {A} (n : nat) (r : reader A) : reader (list A) := λ fields,
  match n with
  | O => Some ([], fields)
  | S n' =>
      '(a, rest) ← r fields;
      '(l, rest') ← times n' r rest;
      Some (a :: l, rest')
  end.

Definition listOf {A} (r : reader A) : reader (list A) := λ fields,
  '(n, rest) ← number fields;
  if n <? 0 then None else times (Z.to_nat n) r rest.

Definition milestone : reader Milestone.t := λ fields,
  '(title, rest) ← text fields;
  '(url, rest) ← text rest;
  Some (Milestone.mk title url, rest).

Definition user : reader User.t := λ fields,
  '(url, rest) ← text fields;
  '(avatar, rest) ← text rest;
  Some (User.mk url avatar, rest).

Definition label : reader Label.t := λ fields,
  '(name, rest) ← text fields; Some (Label.mk name, rest).

Definition issue : reader Issue.t := λ fields,
  '(num, rest) ← number fields;
  '(title, rest) ← text rest;
  '(url, rest) ← text rest;
  '(ms, rest) ← optional milestone rest;
  '(labels, rest) ← listOf label rest;
  '(assignee, rest) ← optional user rest;
  '(closedAt, rest) ← optional number rest;
  Some (Issue.mk num title url ms labels assignee closedAt, rest).

(** [r] reads back what [w] writes, and leaves what follows. *)
Definition inverts {A} (r : reader A) (w : A → list string) : Prop :=
  ∀ a rest, r (w a ++ rest) = Some (a, rest).

(** Modelled from the spec: the deserialization, which fails with
    [FormatError] on content that is not the serialization of an
    issue list ([json.Unmarshal] is not code of the repository). *)
Definition Unmarshal (b : string) : error + list Issue.t :=
  match unframe [] b ≫= listOf issue with
  | Some (issues, []) => inr issues
  | _ => inl FormatError
  end.

End Cache.

(** * Properties *)

(** ** Machine integers *)

Lemma wrap_small z : Go.MinInt ≤ z ≤ Go.MaxInt → Go.wrap z = z.
Proof.
  unfold Go.MinInt, Go.MaxInt, Go.wrap. intros Hz.
  rewrite Z.mod_small; lia.
Qed.

Lemma wrap_add_l a b : Go.wrap (Go.wrap a + b) = Go.wrap (a + b).
Proof.
  unfold Go.wrap. f_equal.
  replace ((a + 2 ^ 63) `mod` 2 ^ 64 - 2 ^ 63 + b + 2 ^ 63)
    with ((a + 2 ^ 63) `mod` 2 ^ 64 + b) by lia.
  rewrite Zplus_mod_idemp_l. f_equal. lia.
Qed.

Lemma incr_wrap a : Go.incr (Go.wrap a) = Go.wrap (a + 1).
Proof. apply wrap_add_l. Qed.

Lemma add_wrap a b : Go.add (Go.wrap a) b = Go.wrap (a + b).
Proof. apply wrap_add_l. Qed.

(** ** [sort.Sort] *)

Section SortFacts.
Context {A : Type} (less : A → A → bool).

Lemma sift_perm x before : Go.sift less x before ≡ₚ x :: before.
Proof.
  induction before as [|y rest IH]; simpl; [done|].
  destruct (less x y); [|done].
  rewrite IH. apply Permutation_swap.
Qed.

Lemma insertion_perm data before :
  foldl (λ before x, Go.sift less x before) before data ≡ₚ before ++ data.
Proof.
  revert before. induction data as [|x data IH]; intros before; simpl.
  - by rewrite app_nil_r.
  - rewrite IH, sift_perm. simpl. apply Permutation_middle.
Qed.

Lemma Sort_perm data : Go.Sort less data ≡ₚ data.
Proof.
  unfold Go.Sort, Go.insertionSort.
  by rewrite reverse_Permutation, insertion_perm.
Qed.

Lemma Sort_elem_of x data : x ∈ Go.Sort less data ↔ x ∈ data.
Proof. by rewrite Sort_perm. Qed.

Lemma Sort_length data : length (Go.Sort less data) = length data.
Proof. by rewrite Sort_perm. Qed.

Lemma sift_ext (less' : A → A → bool) x before :
  (∀ b, b ∈ before → less x b = less' x b) →
  Go.sift less x before = Go.sift less' x before.
Proof.
  induction before as [|y rest IH]; intros Hx; [done|]. simpl.
  rewrite Hx by left. rewrite IH; [done|].
  intros b Hb. apply Hx. by right.
Qed.

Lemma insertion_ext (less' : A → A → bool) data before :
  (∀ a b, a ∈ before ++ data → b ∈ before ++ data → less a b = less' a b) →
  foldl (λ before x, Go.sift less x before) before data
  = foldl (λ before x, Go.sift less' x before) before data.
Proof.
  revert before. induction data as [|x data IH]; intros before Heq; [done|].
  simpl. rewrite <- (sift_ext less' x before).
  - apply IH. intros a b Ha Hb.
    rewrite sift_perm in Ha, Hb. apply Heq; by rewrite <- Permutation_middle.
  - intros b Hb. apply Heq; rewrite elem_of_app, elem_of_cons; auto.
Qed.

Lemma Sort_ext (less' : A → A → bool) data :
  (∀ a b, a ∈ data → b ∈ data → less a b = less' a b) →
  Go.Sort less data = Go.Sort less' data.
Proof.
  intros Heq. unfold Go.Sort, Go.insertionSort. f_equal.
  by apply insertion_ext.
Qed.

(** Sortedness, for a [less] that is a strict weak order on the
    elements satisfying [P]. *)
Context (P : A → Prop).
Hypothesis asym : ∀ a b, P a → P b → less a b = true → less b a = false.
Hypothesis ntrans : ∀ a b c, P a → P b → P c →
  less a b = false → less b c = false → less a c = false.

Lemma sift_sorted x before :
  P x → Forall P before →
  StronglySorted (λ a b, less a b = false) before →
  StronglySorted (λ a b, less a b = false) (Go.sift less x before).
Proof.
  intros Hx. induction before as [|y rest IH]; intros HP Hs; simpl.
  - repeat constructor.
  - apply Forall_cons in HP as [Hy HP].
    apply StronglySorted_cons in Hs as [Hyr Hs].
    destruct (less x y) eqn:Hxy.
    + apply StronglySorted_cons. split; [|by apply IH].
      rewrite sift_perm. constructor; [by apply asym|done].
    + apply StronglySorted_cons. split; [|by apply StronglySorted_cons].
      constructor; [done|].
      rewrite Forall_forall in Hyr, HP |- *. intros z Hz.
      apply (ntrans x y z); auto.
Qed.

Lemma insertion_sorted data before :
  Forall P before → Forall P data →
  StronglySorted (λ a b, less a b = false) before →
  StronglySorted (λ a b, less a b = false)
    (foldl (λ before x, Go.sift less x before) before data).
Proof.
  revert before. induction data as [|x data IH]; intros before Hb Hd Hs; [done|].
  apply Forall_cons in Hd as [Hx Hd]. simpl. apply IH; [|done|].
  - rewrite sift_perm. by constructor.
  - by apply sift_sorted.
Qed.

Lemma StronglySorted_reverse (R : relation A) l :
  StronglySorted R l → StronglySorted (flip R) (reverse l).
Proof.
  induction 1 as [|x l Hs IH Hx]; [constructor|].
  rewrite reverse_cons. apply StronglySorted_app_2; [|done|repeat constructor].
  intros a b Ha Hb. apply list_elem_of_singleton in Hb as ->.
  rewrite elem_of_reverse in Ha. rewrite Forall_forall in Hx. by apply Hx.
Qed.

Lemma Sort_sorted data :
  Forall P data → StronglySorted (notAfter less) (Go.Sort less data).
Proof.
  intros Hd. unfold Go.Sort, Go.insertionSort.
  apply (StronglySorted_reverse (λ a b, less a b = false)).
  apply insertion_sorted; [constructor|done|constructor].
Qed.

(** A slice that is already in order is left as it is. *)
Lemma sift_sorted_id x before :
  Forall (λ y, less x y = false) before → Go.sift less x before = x :: before.
Proof. destruct 1 as [|y rest Hy _]; simpl; [done|]. by rewrite Hy. Qed.

Lemma insertion_sorted_id data before :
  StronglySorted (notAfter less) (reverse before ++ data) →
  foldl (λ before x, Go.sift less x before) before data
  = reverse data ++ before.
Proof.
  revert before. induction data as [|x data IH]; intros before Hs; [done|].
  simpl. rewrite sift_sorted_id.
  - rewrite IH; [by rewrite reverse_cons, <- app_assoc|].
    by rewrite reverse_cons, <- app_assoc.
  - apply StronglySorted_app in Hs as (Hbx & _ & _).
    rewrite Forall_forall. intros y Hy. apply Hbx; [|left].
    by rewrite elem_of_reverse.
Qed.

Lemma Sort_sorted_id data :
  StronglySorted (notAfter less) data → Go.Sort less data = data.
Proof.
  intros Hs. unfold Go.Sort, Go.insertionSort.
  rewrite insertion_sorted_id by done.
  by rewrite app_nil_r, reverse_involutive.
Qed.
End SortFacts.

(** Positions in a sorted slice. *)
Lemma StronglySorted_lookup_lt {A} (R : relation A) l i j x y :
  StronglySorted R l → l !! i = Some x → l !! j = Some y → (i < j)%nat → R x y.
Proof.
  intros Hs. revert i j. induction Hs as [|a l Hs IH Ha]; intros i j Hi Hj Hij.
  - by rewrite lookup_nil in Hi.
  - destruct j as [|j]; [lia|]. destruct i as [|i]; simplify_eq/=.
    + rewrite Forall_forall in Ha. apply Ha. by eapply list_elem_of_lookup_2.
    + apply (IH i j); auto with lia.
Qed.

(** ** Lists with indices *)

Lemma indexed_snoc {A} (l : list A) x :
  indexed (l ++ [x]) = indexed l ++ [(length l, x)].
Proof.
  unfold indexed. rewrite length_app. simpl.
  rewrite Nat.add_1_r, seq_S. simpl.
  rewrite zip_with_app by (by rewrite length_seq). done.
Qed.

Lemma indexed_fst {A} (l : list A) : (indexed l).*1 = seq 0 (length l).
Proof. unfold indexed. apply fst_zip. by rewrite length_seq. Qed.

Lemma indexed_snd {A} (l : list A) : (indexed l).*2 = l.
Proof. unfold indexed. apply snd_zip. by rewrite length_seq. Qed.

Lemma indexed_lookup {A} (l : list A) i j x :
  indexed l !! i = Some (j, x) ↔ j = i ∧ l !! i = Some x.
Proof.
  unfold indexed. rewrite lookup_zip_Some, lookup_seq. simpl.
  split; [intros [[-> _] Hx]; done|]. intros [-> Hx]. split; [|done].
  split; [done|]. by eapply lookup_lt_Some.
Qed.

Lemma elem_of_indexed {A} (l : list A) j x :
  (j, x) ∈ indexed l ↔ l !! j = Some x.
Proof.
  rewrite list_elem_of_lookup. split.
  - intros [i Hi]. apply indexed_lookup in Hi as [-> ?]. done.
  - intros Hx. exists j. by apply indexed_lookup.
Qed.

Lemma indexed_take {A} (l : list A) k x :
  l !! k = Some x → indexed (take (S k) l) = indexed (take k l) ++ [(k, x)].
Proof.
  intros Hx. rewrite (take_S_r _ _ _ Hx), indexed_snoc, length_take.
  replace (k `min` length l)%nat with k; [done|].
  apply lookup_lt_Some in Hx. lia.
Qed.

Lemma NoDup_indexed {A} (l : list A) : NoDup (indexed l).
Proof.
  apply (NoDup_fmap_1 fst). rewrite indexed_fst. apply NoDup_seq.
Qed.

Lemma sumZ_app l k : sumZ (l ++ k) = sumZ l + sumZ k.
Proof. induction l as [|x l IH]; simpl; [done|]. rewrite IH. lia. Qed.

Section BadgeData.
Import Badge BadgeSpec.

Lemma statsOf_nil : statsOf [] = stats.zero.
Proof. reflexivity. Qed.

Lemma inMs_snoc t il ix :
  inMs t (il ++ [ix]) =
  inMs t il ++ (if decide (title ix.2 = Some t) then [ix] else []).
Proof.
  unfold inMs. by rewrite filter_app.
Qed.

Lemma inCmp_snoc t c il ix :
  inCmp t c (il ++ [ix]) =
  inCmp t c il ++
    (if decide (title ix.2 = Some t ∧ cmpOf ix.2 = c) then [ix] else []).
Proof.
  unfold inCmp. rewrite inMs_snoc, filter_app. f_equal.
  destruct (decide (title ix.2 = Some t)) as [Ht|Ht].
  - rewrite filter_cons, filter_nil.
    destruct (decide (cmpOf ix.2 = c)); destruct (decide (_ ∧ _)); tauto.
  - rewrite filter_nil. destruct (decide (_ ∧ _)); tauto.
Qed.

Lemma statsOf_snoc il ix :
  statsOf (il ++ [ix]) = count (closed ix.2) (daysOf ix.2) (statsOf il).
Proof.
  unfold statsOf, count, openDays. simpl.
  rewrite !filter_app, !filter_cons, !filter_nil, !length_app.
  destruct (closed ix.2) eqn:Hc; simpl.
  - rewrite !incr_wrap, app_nil_r. f_equal; f_equal; lia.
  - rewrite incr_wrap, add_wrap, ?app_nil_r, fmap_app, sumZ_app. simpl.
    f_equal; f_equal; lia.
Qed.
End BadgeData.

Section BadgeHeap.
Import Badge BadgeSpec.
Implicit Types (st : state) (il full : list (nat * github.Issue.t)).

Lemma inCmp_nil t c il : inMs t il = [] → inCmp t c il = [].
Proof. unfold inCmp. by intros ->. Qed.

(** [getMilestone] *)
Lemma getMilestone_inv full il st ghMs :
  WF st → DataM il st → DataC il st → NE full st →
  inMs (github.Milestone.Title ghMs) full ≠ [] →
  ∃ st' p, getMilestone st ghMs = (st', p)
    ∧ ghIssues st' = ghIssues st
    ∧ WF st' ∧ DataM il st' ∧ DataC il st' ∧ NE full st'
    ∧ msMap st' !! github.Milestone.Title ghMs = Some p.
Proof.
  intros HW HM HC HN Hfull. unfold getMilestone.
  set (t0 := github.Milestone.Title ghMs) in *.
  destruct (msMap st !! t0) as [p|] eqn:Hp.
  { by exists st, p. }
  destruct HW as (W1 & W2 & W3). destruct HM as (M1 & M2).
  set (p0 := length (milestones st)).
  set (new := milestone.mk ghMs [] stats.zero).
  eexists _, p0. split; [done|]. split; [done|].
  assert (∀ p m, (milestones st ++ [new]) !! p = Some m →
            milestones st !! p = Some m ∨ (p = p0 ∧ m = new)) as Hlk.
  { intros p m. rewrite lookup_snoc_Some. intros [[_ ?]|[? ?]]; auto. }
  assert (∀ t p, msMap st !! t = Some p → p ≠ p0) as Hfresh.
  { intros t p Htp. destruct (W1 t p Htp) as (m & _ & Hm & _).
    apply lookup_lt_Some in Hm. unfold p0. lia. }
  assert (∀ t p, <[t0:=p0]> (msMap st) !! t = Some p →
            (t = t0 ∧ p = p0) ∨ (t ≠ t0 ∧ p ≠ p0 ∧ msMap st !! t = Some p))
    as Hmap.
  { intros t p. rewrite lookup_insert. case_decide as Ht.
    - intros [= <-]. by left.
    - intros Htp. right. repeat split; [done| |done]. by eapply Hfresh. }
  split; [|split; [|split; [|split]]]; simpl.
  - (* WF *)
    split; [|split]; simpl.
    + intros t p Htp. apply Hmap in Htp as [[-> ->]|(Ht & Hpp & Htp)].
      * exists new, ∅. split; [by apply list_lookup_middle|].
        split; [done|]. split; [by rewrite lookup_insert_eq|].
        split; [constructor|]. intros c q. rewrite lookup_empty. split; [done|].
        intros [Hq _]. by apply elem_of_nil in Hq.
      * destruct (W1 t p Htp) as (m & cm & Hm & Hti & Hcm & Hnd & Hiff).
        exists m, cm. split; [by apply lookup_app_l_Some|]. split; [done|].
        split; [by rewrite lookup_insert_ne|]. done.
    + intros p p' m m' q Hm Hm' Hq Hq'.
      apply Hlk in Hm as [Hm|[-> ->]]; [|by apply elem_of_nil in Hq].
      apply Hlk in Hm' as [Hm'|[-> ->]]; [|by apply elem_of_nil in Hq'].
      by eapply W2.
    + intros p m q Hm Hq.
      apply Hlk in Hm as [Hm|[-> ->]]; [|by apply elem_of_nil in Hq].
      by eapply W3.
  - (* DataM *)
    split; simpl.
    + intros t. rewrite lookup_insert. case_decide; [done|]. apply M1.
    + intros t p m Htp Hm. apply Hmap in Htp as [[-> ->]|(Ht & Hpp & Htp)].
      * apply Hlk in Hm as [Hm|[_ ->]].
        { apply lookup_lt_Some in Hm. unfold p0 in Hm. lia. }
        simpl. by rewrite (M1 t0 Hp).
      * apply Hlk in Hm as [Hm|[-> _]]; [by eapply M2|done].
  - (* DataC *)
    intros t p m cm Htp Hm Hcm. simpl in *.
    apply Hmap in Htp as [[-> ->]|(Ht & Hpp & Htp)].
    + apply Hlk in Hm as [Hm|[_ ->]].
      { apply lookup_lt_Some in Hm. unfold p0 in Hm. lia. }
      split.
      * intros c _ Hne. by rewrite (inCmp_nil _ _ _ (M1 t0 Hp)) in Hne.
      * intros q cmp Hq. by apply elem_of_nil in Hq.
    + apply Hlk in Hm as [Hm|[-> _]]; [|done].
      rewrite lookup_insert_ne in Hcm by done. by eapply HC.
  - (* NE *)
    intros t p m Htp Hm. simpl in *.
    apply Hmap in Htp as [[-> ->]|(Ht & Hpp & Htp)].
    + apply Hlk in Hm as [Hm|[_ ->]].
      { apply lookup_lt_Some in Hm. unfold p0 in Hm. lia. }
      split; [done|]. intros q cmp Hq. by apply elem_of_nil in Hq.
    + apply Hlk in Hm as [Hm|[-> _]]; [|done]. by eapply HN.
  - by rewrite lookup_insert_eq.
Qed.


(** [countMilestone] *)
Lemma countMilestone_lookup st p0 cl d p m' :
  milestones (countMilestone st p0 cl d) !! p = Some m' →
  ∃ m, milestones st !! p = Some m
    ∧ milestone.Milestone m' = milestone.Milestone m
    ∧ milestone.Components m' = milestone.Components m
    ∧ milestone.Stats m' =
        if decide (p = p0) then count cl d (milestone.Stats m)
        else milestone.Stats m.
Proof.
  simpl. rewrite list_lookup_alter. case_decide as Hp.
  - subst p. destruct (milestones st !! p0) as [m|]; [|done].
    intros [= <-]. exists m. by rewrite decide_True.
  - intros Hm. exists m'. by rewrite decide_False.
Qed.

Lemma countMilestone_inv full ilM ilC st t0 p0 ix :
  WF st → DataM ilM st → DataC ilC st → NE full st →
  msMap st !! t0 = Some p0 → title ix.2 = Some t0 →
  let st' := countMilestone st p0 (closed ix.2) (daysOf ix.2) in
  WF st' ∧ DataM (ilM ++ [ix]) st' ∧ DataC ilC st' ∧ NE full st'.
Proof.
  intros (W1 & W2 & W3) (M1 & M2) HC HN Hp0 Ht0 st'.
  assert (∀ t p, msMap st !! t = Some p → p = p0 → t = t0) as Hinj.
  { intros t p Htp ->.
    destruct (W1 t p0 Htp) as (m & _ & Hm & <- & _).
    destruct (W1 t0 p0 Hp0) as (m2 & _ & Hm2 & <- & _). congruence. }
  split; [|split; [|split]].
  - split; [|split].
    + intros t p Htp.
      destruct (W1 t p Htp) as (m & cm & Hm & Hti & Hcm & Hnd & Hiff).
      exists (if decide (p0 = p)
              then milestone.mk (milestone.Milestone m) (milestone.Components m)
                     (count (closed ix.2) (daysOf ix.2) (milestone.Stats m))
              else m), cm.
      split.
      { unfold st'. simpl. rewrite list_lookup_alter.
        destruct (decide (p0 = p)) as [->|]; by rewrite ?Hm. }
      by destruct (decide (p0 = p)).
    + intros p p' m m' q Hm Hm' Hq Hq'.
      apply countMilestone_lookup in Hm as (m1 & Hm & _ & Hc & _).
      apply countMilestone_lookup in Hm' as (m1' & Hm' & _ & Hc' & _).
      rewrite Hc in Hq. rewrite Hc' in Hq'. by eapply W2.
    + intros p m q Hm Hq.
      apply countMilestone_lookup in Hm as (m1 & Hm & _ & Hc & _).
      rewrite Hc in Hq. by eapply W3.
  - split.
    + intros t Htp. rewrite inMs_snoc, (M1 t Htp).
      rewrite decide_False; [done|]. intros Heq.
      simpl in Htp. congruence.
    + intros t p m' Htp Hm'.
      apply countMilestone_lookup in Hm' as (m & Hm & _ & _ & Hs).
      rewrite Hs, inMs_snoc. simpl in Htp. destruct (decide (p = p0)) as [->|Hne].
      * rewrite (Hinj t p0 Htp eq_refl), decide_True by done.
        rewrite statsOf_snoc. f_equal. by eapply M2.
      * rewrite decide_False, app_nil_r; [by eapply M2|].
        intros Heq. apply Hne. congruence.
  - intros t p m' cm Htp Hm' Hcm.
    apply countMilestone_lookup in Hm' as (m & Hm & _ & Hc & _).
    rewrite Hc. by eapply HC.
  - intros t p m' Htp Hm'.
    apply countMilestone_lookup in Hm' as (m & Hm & _ & Hc & _).
    rewrite Hc. by eapply HN.
Qed.

(** [getComponent] *)
Lemma getComponent_inv full ilM ilC st t0 p0 c :
  WF st → DataM ilM st → DataC ilC st → NE full st →
  msMap st !! t0 = Some p0 → c ≠ "" → inCmp t0 c full ≠ [] →
  ∃ st' q, getComponent st p0 c = (st', q)
    ∧ ghIssues st' = ghIssues st ∧ msMap st' = msMap st
    ∧ WF st' ∧ DataM ilM st' ∧ DataC ilC st' ∧ NE full st'
    ∧ ∃ m cmp, milestones st' !! p0 = Some m ∧ q ∈ milestone.Components m
        ∧ components st' !! q = Some cmp ∧ component.Name cmp = c.
Proof.
  intros HW HM HC HN Hp0 Hc Hfull. unfold getComponent.
  pose proof HW as (W1 & W2 & W3).
  destruct (W1 t0 p0 Hp0) as (m0 & cm0 & Hm0 & Hti0 & Hcm0 & Hnd0 & Hiff0).
  rewrite Hcm0. simpl.
  destruct (cm0 !! c) as [q|] eqn:Hq.
  { exists st, q. do 7 (split; [done|]).
    apply Hiff0 in Hq as [Hq Hn].
    destruct (components st !! q) as [cmp|] eqn:Hcmp; simplify_eq/=.
    by exists m0, cmp. }
  set (q0 := length (components st)).
  set (newc := component.mk c [] stats.zero).
  set (grow := λ m, milestone.mk (milestone.Milestone m)
                      (milestone.Components m ++ [q0]) (milestone.Stats m)).
  eexists _, q0. split; [done|]. split; [done|]. split; [done|].
  assert (∀ p m', alter grow p0 (milestones st) !! p = Some m' →
            ∃ m, milestones st !! p = Some m
              ∧ milestone.Milestone m' = milestone.Milestone m
              ∧ milestone.Stats m' = milestone.Stats m
              ∧ milestone.Components m' =
                  if decide (p = p0) then milestone.Components m ++ [q0]
                  else milestone.Components m) as Hlm.
  { intros p m'. rewrite list_lookup_alter. case_decide as Hp.
    - subst p. rewrite Hm0. intros [= <-]. exists m0. by rewrite decide_True.
    - intros Hm. exists m'. by rewrite decide_False. }
  assert (∀ q cmp, (components st ++ [newc]) !! q = Some cmp →
            components st !! q = Some cmp ∨ (q = q0 ∧ cmp = newc)) as Hlc.
  { intros q cmp. rewrite lookup_snoc_Some. intros [[_ ?]|[? ?]]; auto. }
  assert (∀ p m q, milestones st !! p = Some m → q ∈ milestone.Components m →
            q ≠ q0 ∧ (components st ++ [newc]) !! q = components st !! q)
    as Hold.
  { intros p m q Hm Hqm. pose proof (W3 p m q Hm Hqm) as Hlt.
    split; [unfold q0; lia|]. by apply lookup_app_l. }
  assert (∀ t p, msMap st !! t = Some p → p = p0 → t = t0) as Hinj.
  { intros t p Htp ->.
    destruct (W1 t p0 Htp) as (m & _ & Hm & <- & _). congruence. }
  assert (inCmp t0 c ilC = []) as Hnil.
  { destruct (inCmp t0 c ilC) as [|ix r] eqn:Hin; [done|].
    destruct (HC t0 p0 m0 cm0 Hp0 Hm0 Hcm0) as (Hsome & _).
    destruct (Hsome c Hc) as [q' Hq']; [by rewrite Hin|]. congruence. }
  split; [|split; [|split; [|split]]]; simpl.
  - (* WF *)
    split; [|split]; simpl.
    + intros t p Htp.
      destruct (W1 t p Htp) as (m & cm & Hm & Hti & Hcm & Hnd & Hiff).
      destruct (decide (p = p0)) as [->|Hne].
      * assert (t = t0) as -> by (by eapply Hinj).
        exists (grow m0), (<[c:=q0]> cm0).
        split; [by rewrite list_lookup_alter_eq, Hm0|].
        split; [done|]. split; [by rewrite lookup_insert_eq|].
        split.
        { simpl. apply NoDup_app. split; [done|]. split; [|apply NoDup_singleton].
          intros q Hqm Hq0. apply list_elem_of_singleton in Hq0.
          by destruct (Hold _ _ _ Hm0 Hqm). }
        intros c' q. simpl. rewrite lookup_insert, elem_of_app, list_elem_of_singleton.
        case_decide as Hcc.
        { subst c'. split.
          - intros [= <-]. split; [by right|].
            unfold q0. by rewrite list_lookup_middle.
          - intros [[Hqm| ->] Hn]; [|done].
            destruct (Hold _ _ _ Hm0 Hqm) as [_ Hsame]. rewrite Hsame in Hn.
            assert (cm0 !! c = Some q) by (by apply Hiff0). congruence. }
        { split.
          - intros Hq'. apply Hiff0 in Hq' as [Hqm Hn]. split; [by left|].
            destruct (Hold _ _ _ Hm0 Hqm) as [_ Hsame]. by rewrite Hsame.
          - intros [[Hqm| ->] Hn].
            + apply Hiff0. split; [done|].
              destruct (Hold _ _ _ Hm0 Hqm) as [_ Hsame]. by rewrite <- Hsame.
            + unfold q0 in Hn. rewrite list_lookup_middle in Hn by done.
              simpl in Hn. congruence. }
      * exists m, cm. split; [by rewrite list_lookup_alter_ne|].
        split; [done|]. split; [by rewrite lookup_insert_ne|].
        split; [done|]. intros c' q. rewrite Hiff. split.
        { intros [Hqm Hn]. split; [done|].
          destruct (Hold _ _ _ Hm Hqm) as [_ Hsame]. by rewrite Hsame. }
        { intros [Hqm Hn]. split; [done|].
          destruct (Hold _ _ _ Hm Hqm) as [_ Hsame]. by rewrite <- Hsame. }
    + intros p p' m m' q Hm Hm' Hqm Hqm'.
      apply Hlm in Hm as (m1 & Hm & _ & _ & Hcs).
      apply Hlm in Hm' as (m1' & Hm' & _ & _ & Hcs').
      rewrite Hcs in Hqm. rewrite Hcs' in Hqm'.
      destruct (decide (p = p0)) as [->|Hne];
        destruct (decide (p' = p0)) as [->|Hne']; [done| | |by eapply W2].
      * apply elem_of_app in Hqm as [Hqm|Hqm]; [by eapply W2|].
        apply list_elem_of_singleton in Hqm as ->.
        by destruct (Hold _ _ _ Hm' Hqm').
      * apply elem_of_app in Hqm' as [Hqm'|Hqm']; [by eapply W2|].
        apply list_elem_of_singleton in Hqm' as ->.
        by destruct (Hold _ _ _ Hm Hqm).
    + intros p m q Hm Hqm. rewrite length_app. simpl.
      apply Hlm in Hm as (m1 & Hm & _ & _ & Hcs). rewrite Hcs in Hqm.
      assert (q ∈ milestone.Components m1 ∨ q = q0) as [Hq'| ->].
      { destruct (decide (p = p0)); [|by left].
        apply elem_of_app in Hqm as [?|Hqm]; [by left|].
        right. by apply list_elem_of_singleton in Hqm. }
      * pose proof (W3 _ _ _ Hm Hq'). lia.
      * unfold q0. lia.
  - (* DataM *)
    destruct HM as (M1 & M2). split; [done|]. simpl.
    intros t p m' Htp Hm'. apply Hlm in Hm' as (m & Hm & _ & Hs & _).
    rewrite Hs. by eapply M2.
  - (* DataC *)
    intros t p m' cm' Htp Hm' Hcm'. simpl in *.
    apply Hlm in Hm' as (m & Hm & _ & _ & Hcs).
    destruct (decide (p = p0)) as [->|Hne].
    + assert (t = t0) as -> by (by eapply Hinj).
      assert (m = m0) as -> by congruence.
      rewrite lookup_insert_eq in Hcm'. injection Hcm' as <-.
      destruct (HC t0 p0 m0 cm0 Hp0 Hm0 Hcm0) as (Hsome & Hdata). split.
      * intros c' Hc' Hne'. rewrite lookup_insert. case_decide; [done|].
        by apply Hsome.
      * intros q cmp Hqm Hcmp. rewrite Hcs in Hqm.
        apply elem_of_app in Hqm as [Hqm|Hqm].
        { destruct (Hold _ _ _ Hm0 Hqm) as [_ Hsame]. rewrite Hsame in Hcmp.
          by eapply Hdata. }
        apply list_elem_of_singleton in Hqm as ->.
        unfold q0 in Hcmp. rewrite list_lookup_middle in Hcmp by done.
        injection Hcmp as <-. simpl. by rewrite Hnil.
    + rewrite lookup_insert_ne in Hcm' by done.
      destruct (HC t p m cm' Htp Hm Hcm') as (Hsome & Hdata). split; [done|].
      intros q cmp Hqm Hcmp. rewrite Hcs in Hqm.
      destruct (Hold _ _ _ Hm Hqm) as [_ Hsame]. rewrite Hsame in Hcmp.
      by eapply Hdata.
  - (* NE *)
    intros t p m' Htp Hm'. simpl in *.
    apply Hlm in Hm' as (m & Hm & _ & _ & Hcs).
    destruct (HN t p m Htp Hm) as (Hms & Hcmps). split; [done|].
    intros q cmp Hqm Hcmp. rewrite Hcs in Hqm.
    assert (q ∈ milestone.Components m ∨ (p = p0 ∧ q = q0)) as [Hq'|[-> ->]].
    { destruct (decide (p = p0)); [|by left].
      apply elem_of_app in Hqm as [?|Hqm]; [by left|].
      right. by apply list_elem_of_singleton in Hqm. }
    + destruct (Hold _ _ _ Hm Hq') as [_ Hsame]. rewrite Hsame in Hcmp.
      by eapply Hcmps.
    + assert (t = t0) as -> by (by eapply Hinj).
      unfold q0 in Hcmp. rewrite list_lookup_middle in Hcmp by done.
      by injection Hcmp as <-.
  - exists (grow m0), newc. split; [by rewrite list_lookup_alter_eq, Hm0|].
    split; [simpl; apply elem_of_app; right; by apply list_elem_of_singleton|].
    split; [|done]. by apply list_lookup_middle.
Qed.

(** [addIssue] *)
Lemma addIssue_lookup st q0 w cl q cmp' :
  components (addIssue st q0 w cl) !! q = Some cmp' →
  ∃ cmp, components st !! q = Some cmp
    ∧ component.Name cmp' = component.Name cmp
    ∧ (q ≠ q0 → cmp' = cmp)
    ∧ (q = q0 → component.Issues cmp' = component.Issues cmp ++ [w]
                ∧ component.Stats cmp' =
                    count cl (issue.Days w) (component.Stats cmp)).
Proof.
  simpl. rewrite list_lookup_alter. case_decide as Hq.
  - subst q. destruct (components st !! q0) as [cmp|]; [|done].
    intros [= <-]. by exists cmp.
  - intros Hcmp. exists cmp'. by repeat split.
Qed.

Lemma addIssue_name st q0 w cl q :
  component.Name <$> components (addIssue st q0 w cl) !! q
  = component.Name <$> components st !! q.
Proof.
  simpl. rewrite list_lookup_alter. case_decide as Hq; [|done].
  subst q. by destruct (components st !! q0).
Qed.

Lemma addIssue_inv full ilM ilC st t0 p0 m0 q0 ix :
  WF st → DataM ilM st → DataC ilC st → NE full st →
  msMap st !! t0 = Some p0 → milestones st !! p0 = Some m0 →
  q0 ∈ milestone.Components m0 →
  component.Name <$> components st !! q0 = Some (cmpOf ix.2) →
  title ix.2 = Some t0 →
  let st' := addIssue st q0 (wrapper ix) (closed ix.2) in
  WF st' ∧ DataM ilM st' ∧ DataC (ilC ++ [ix]) st' ∧ NE full st'.
Proof.
  intros HW HM HC HN Hp0 Hm0 Hq0 Hn0 Ht0 st'. subst st'.
  pose proof HW as (W1 & W2 & W3).
  destruct (W1 t0 p0 Hp0) as (m0' & cm0 & Hm0' & Hti0 & Hcm0 & Hnd0 & Hiff0).
  assert (m0' = m0) as -> by congruence.
  assert (∀ t p, msMap st !! t = Some p → p = p0 → t = t0) as Hinj.
  { intros t p Htp ->.
    destruct (W1 t p0 Htp) as (m & _ & Hm & <- & _). congruence. }
  split; [|split; [|split]].
  - split; [|split].
    + intros t p Htp.
      destruct (W1 t p Htp) as (m & cm & Hm & Hti & Hcm & Hnd & Hiff).
      exists m, cm. do 4 (split; [done|]). intros c q.
      by rewrite addIssue_name.
    + done.
    + intros p m q Hm Hqm. simpl. rewrite length_alter.
      by eapply W3.
  - done.
  - intros t p m cm Htp Hm Hcm. simpl in *.
    destruct (HC t p m cm Htp Hm Hcm) as (Hsome & Hdata).
    destruct (W1 t p Htp) as (m' & cm' & Hm' & Hti & Hcm' & Hnd & Hiff).
    assert (m' = m) as -> by congruence.
    assert (cm' = cm) as -> by congruence.
    split.
    + intros c Hc. rewrite inCmp_snoc.
      destruct (decide (title ix.2 = Some t ∧ cmpOf ix.2 = c)) as [[Ht Hcc]|Hno].
      * intros _. assert (t = t0) as -> by congruence.
        assert (p = p0) as -> by congruence.
        assert (cm = cm0) as -> by congruence.
        exists q0. apply Hiff0. split; [done|]. by rewrite <- Hcc.
      * rewrite app_nil_r. by apply Hsome.
    + intros q cmp' Hqm Hcmp'.
      apply addIssue_lookup in Hcmp' as (cmp & Hcmp & Hname & Hne & Heq).
      destruct (Hdata q cmp Hqm Hcmp) as (Hnm & Hiss & Hst).
      rewrite Hname, inCmp_snoc.
      destruct (decide (q = q0)) as [->|Hq].
      * destruct (Heq eq_refl) as [-> ->].
        assert (p = p0) as -> by (by eapply W2).
        assert (t = t0) as -> by (by eapply Hinj).
        assert (component.Name cmp = cmpOf ix.2) as Hcn.
        { rewrite Hcmp in Hn0. simpl in Hn0. congruence. }
        rewrite decide_True by done.
        split; [done|]. split.
        { rewrite fmap_app. simpl. by rewrite Hiss. }
        { rewrite statsOf_snoc. simpl. by rewrite Hst. }
      * rewrite (Hne Hq). rewrite decide_False, app_nil_r; [done|].
        intros [Ht Hcc]. apply Hq.
        assert (t = t0) as -> by congruence.
        assert (p = p0) as -> by congruence.
        assert (cm = cm0) as -> by congruence.
        assert (cm0 !! cmpOf ix.2 = Some q) as Hq1.
        { apply Hiff0. split; [congruence|]. rewrite Hcmp. simpl. by f_equal. }
        assert (cm0 !! cmpOf ix.2 = Some q0) as Hq2 by (by apply Hiff0).
        congruence.
  - intros t p m Htp Hm. simpl in *.
    destruct (HN t p m Htp Hm) as (Hms & Hcmps). split; [done|].
    intros q cmp' Hqm Hcmp'.
    apply addIssue_lookup in Hcmp' as (cmp & Hcmp & Hname & _ & _).
    rewrite Hname. by eapply Hcmps.
Qed.
End BadgeHeap.

Section BadgeCollect.
Import Badge BadgeSpec.
Implicit Types (st : state) (il full : list (nat * github.Issue.t)).

Lemma DataM_no_milestone il st ix :
  title ix.2 = None → DataM il st → DataM (il ++ [ix]) st.
Proof.
  intros Ht (M1 & M2).
  assert (∀ t, inMs t (il ++ [ix]) = inMs t il) as Heq.
  { intros t. rewrite inMs_snoc, decide_False, app_nil_r; [done|]. congruence. }
  split.
  - intros t Hn. rewrite Heq. by apply M1.
  - intros t p m Htp Hm. rewrite Heq. by eapply M2.
Qed.

Lemma DataC_no_component il st ix :
  title ix.2 = None ∨ cmpOf ix.2 = "" → DataC il st → DataC (il ++ [ix]) st.
Proof.
  intros Hix HC t p m cm Htp Hm Hcm.
  destruct (HC t p m cm Htp Hm Hcm) as (Hsome & Hdata).
  assert (∀ c, c ≠ "" → inCmp t c (il ++ [ix]) = inCmp t c il) as Heq.
  { intros c Hc. rewrite inCmp_snoc, decide_False, app_nil_r; [done|].
    intros [Ht Hcc]. destruct Hix; congruence. }
  split.
  - intros c Hc. rewrite Heq by done. by apply Hsome.
  - intros q cmp Hqm Hcmp. destruct (Hdata q cmp Hqm Hcmp) as (Hn & Hi & Hs).
    by rewrite Heq.
Qed.

Lemma step_inv l il st i x :
  ghIssues st = l → l !! i = Some x →
  WF st → DataM il st → DataC il st → NE (indexed l) st →
  ghIssues (step st i) = l
  ∧ WF (step st i)
  ∧ DataM (il ++ [(i, x)]) (step st i)
  ∧ DataC (il ++ [(i, x)]) (step st i)
  ∧ NE (indexed l) (step st i).
Proof.
  intros Hgh Hx HW HM HC HN. unfold step. rewrite Hgh, Hx.
  destruct (github.Issue.Milestone x) as [ghMs|] eqn:Hms.
  2:{ split; [done|]. split; [done|].
      assert (title (i, x).2 = None) as Ht by (unfold title; simpl; by rewrite Hms).
      split; [by apply DataM_no_milestone|].
      split; [apply DataC_no_component; auto|done]. }
  set (t0 := github.Milestone.Title ghMs).
  assert (title (i, x).2 = Some t0) as Ht.
  { unfold title. simpl. by rewrite Hms. }
  assert ((i, x) ∈ indexed l) as Hin by (by apply elem_of_indexed).
  assert (inMs t0 (indexed l) ≠ []) as Hne.
  { intros Hnil. unfold inMs in Hnil.
    eapply filter_nil_not_elem_of; [exact Hnil|exact Ht|exact Hin]. }
  destruct (getMilestone_inv (indexed l) il st ghMs HW HM HC HN Hne)
    as (st1 & p & -> & Hgh1 & HW1 & HM1 & HC1 & HN1 & Hp).
  fold t0 in Hp.
  destruct (countMilestone_inv (indexed l) il il st1 t0 p (i, x)
              HW1 HM1 HC1 HN1 Hp Ht) as (HW2 & HM2 & HC2 & HN2).
  simpl in HW2, HM2, HC2, HN2.
  fold (daysOf x) in *. fold (cmpOf x) in *. fold (typeOf x) in *.
  set (st2 := countMilestone st1 p (closed x) (daysOf x)) in *.
  case_bool_decide as Hc.
  2:{ split; [by rewrite <- Hgh, <- Hgh1|]. split; [done|]. split; [done|].
      split; [|done]. apply DataC_no_component; [|done]. right. simpl.
      destruct (decide (cmpOf x = "")); [done|]. by destruct Hc. }
  assert (inCmp t0 (cmpOf x) (indexed l) ≠ []) as Hnec.
  { intros Hnil. unfold inCmp in Hnil.
    eapply (filter_nil_not_elem_of _ _ (i, x)); [exact Hnil|done|].
    apply list_elem_of_filter. split; [exact Ht|exact Hin]. }
  destruct (getComponent_inv (indexed l) (il ++ [(i, x)]) il st2 t0 p (cmpOf x)
              HW2 HM2 HC2 HN2 Hp Hc Hnec)
    as (st3 & q & -> & Hgh3 & Hmap3 & HW3 & HM3 & HC3 & HN3
        & m & cmp & Hm & Hqm & Hcmp & Hname).
  assert (msMap st3 !! t0 = Some p) as Hp3 by (by rewrite Hmap3).
  assert (component.Name <$> components st3 !! q = Some (cmpOf (i, x).2)) as Hn3.
  { rewrite Hcmp. simpl. by rewrite Hname. }
  destruct (addIssue_inv (indexed l) (il ++ [(i, x)]) il st3 t0 p m q (i, x)
              HW3 HM3 HC3 HN3 Hp3 Hm Hqm Hn3 Ht) as (HW4 & HM4 & HC4 & HN4).
  split; [|done]. simpl. by rewrite Hgh3, <- Hgh, <- Hgh1.
Qed.

Lemma init_inv l :
  WF (init l) ∧ DataM [] (init l) ∧ DataC [] (init l) ∧ NE (indexed l) (init l).
Proof.
  split; [|split; [|split]].
  - split; [|split]; simpl.
    + intros t p. by rewrite lookup_empty.
    + intros p p' m m' q. by rewrite lookup_nil.
    + intros p m q. by rewrite lookup_nil.
  - split; [done|]. intros t p m. simpl. by rewrite lookup_empty.
  - intros t p m cm. simpl. by rewrite lookup_empty.
  - intros t p m. simpl. by rewrite lookup_empty.
Qed.

Lemma collect_prefix_inv l k :
  (k ≤ length l)%nat →
  let st := foldl step (init l) (seq 0 k) in
  ghIssues st = l ∧ WF st
  ∧ DataM (indexed (take k l)) st ∧ DataC (indexed (take k l)) st
  ∧ NE (indexed l) st.
Proof.
  induction k as [|k IH]; intros Hk.
  - simpl. split; [done|]. apply init_inv.
  - destruct IH as (Hgh & HW & HM & HC & HN); [lia|].
    destruct (lookup_lt_is_Some_2 l k) as [x Hx]; [lia|].
    rewrite seq_S, foldl_app. simpl. rewrite (indexed_take _ _ _ Hx).
    by apply step_inv.
Qed.

Lemma collect_inv l :
  ghIssues (collect l) = l ∧ WF (collect l)
  ∧ DataM (indexed l) (collect l) ∧ DataC (indexed l) (collect l)
  ∧ NE (indexed l) (collect l).
Proof.
  pose proof (collect_prefix_inv l (length l) (le_n _)) as H.
  simpl in H. by rewrite firstn_all in H.
Qed.
End BadgeCollect.

(** ** The comparators *)

Lemma lexico_key a b c a' b' c' :
  lexico (a, b, c) (a', b', c') ↔
  a < a' ∨ (a = a' ∧ b < b') ∨ (a = a' ∧ b = b' ∧ c < c').
Proof.
  unfold lexico, prod_lexico, lexico, prod_lexico, lexico, Z_lexico. simpl.
  split.
  - intros [[?|[-> ?]]|[[= -> ->] ?]]; auto.
  - intros [?|[[-> ?]|(-> & -> & ?)]]; auto.
Qed.

Lemma closedFlag_range x : closedFlag x = 0 ∨ closedFlag x = 1.
Proof. unfold closedFlag. case_bool_decide; auto. Qed.
Lemma assignedFlag_range x : assignedFlag x = 0 ∨ assignedFlag x = 1.
Proof. unfold assignedFlag. case_bool_decide; auto. Qed.

(** [Less] is the lexicographic order on the composite key. *)
Lemma Less_key x y : Less x y = true ↔ lexico (key x) (key y).
Proof.
  unfold key. rewrite lexico_key. unfold Less, closedFlag, assignedFlag.
  repeat case_bool_decide; simpl; rewrite ?Z.ltb_lt; lia.
Qed.

Lemma key_eq x y :
  key x = key y ↔
  closedFlag x = closedFlag y ∧ assignedFlag x = assignedFlag y
  ∧ github.Issue.Number x = github.Issue.Number y.
Proof.
  unfold key. split; [by intros [= -> -> ->]|by intros (-> & -> & ->)].
Qed.

Lemma Less_key_false x y :
  Less x y = false ↔ key x = key y ∨ lexico (key y) (key x).
Proof.
  rewrite <- Bool.not_true_iff_false, Less_key, key_eq. unfold key.
  rewrite !lexico_key. lia.
Qed.

Lemma Less_asym x y : Less x y = true → Less y x = false.
Proof. rewrite Less_key_false, Less_key. auto. Qed.

Lemma Less_ntrans x y z :
  Less x y = false → Less y z = false → Less x z = false.
Proof.
  rewrite <- !Bool.not_true_iff_false, !Less_key. unfold key.
  rewrite !lexico_key. lia.
Qed.

Lemma ltb_asym (a b : string) : String.ltb a b = true → String.ltb b a = false.
Proof.
  unfold String.ltb. rewrite (String.compare_antisym b a).
  by destruct (String.compare a b).
Qed.

Lemma ltb_false_leb (a b : string) :
  String.ltb a b = false ↔ String.leb b a = true.
Proof.
  unfold String.ltb, String.leb. rewrite (String.compare_antisym b a).
  by destruct (String.compare a b).
Qed.

Lemma ltb_ntrans (a b c : string) :
  String.ltb a b = false → String.ltb b c = false → String.ltb a c = false.
Proof.
  rewrite !ltb_false_leb. intros Hba Hcb.
  assert (String.le c a) as Hca.
  { transitivity b; unfold String.le; by apply Is_true_true. }
  by apply Is_true_true in Hca.
Qed.

Lemma ltb_total (a b : string) :
  a ≠ b → String.ltb b a = false → String.ltb a b = true.
Proof.
  unfold String.ltb. intros Hne. rewrite (String.compare_antisym b a).
  destruct (String.compare a b) eqn:Hc; try done.
  by apply String.compare_eq_iff in Hc.
Qed.

Lemma ltb_irrefl (a : string) : String.ltb a a = false.
Proof.
  unfold String.ltb.
  pose proof (String.compare_antisym a a) as H.
  by destruct (String.compare a a).
Qed.

Section BadgeSort.
Import Badge BadgeSpec.
Implicit Types (st : state) (il full : list (nat * github.Issue.t)).

Lemma Shuffle_refl st : Shuffle st st.
Proof.
  do 5 (split; [done|]). split.
  - intros p m Hm. by exists m.
  - intros q c Hc. by exists c.
Qed.

Lemma Shuffle_trans st1 st2 st3 :
  Shuffle st1 st2 → Shuffle st2 st3 → Shuffle st1 st3.
Proof.
  intros (A1 & A2 & A3 & A4 & A5 & A6 & A7) (B1 & B2 & B3 & B4 & B5 & B6 & B7).
  split; [congruence|]. split; [congruence|]. split; [congruence|].
  split; [congruence|]. split; [congruence|]. split.
  - intros p m Hm. destruct (A6 p m Hm) as (m2 & Hm2 & E1 & E2 & E3).
    destruct (B6 p m2 Hm2) as (m3 & Hm3 & F1 & F2 & F3).
    exists m3. split; [done|]. split; [congruence|]. split; [congruence|].
    by rewrite F3.
  - intros q c Hc. destruct (A7 q c Hc) as (c2 & Hc2 & E1 & E2 & E3).
    destruct (B7 q c2 Hc2) as (c3 & Hc3 & F1 & F2 & F3).
    exists c3. split; [done|]. split; [congruence|]. split; [congruence|].
    by rewrite F3.
Qed.

Lemma Shuffle_milestone st st' p m' :
  Shuffle st st' → milestones st' !! p = Some m' →
  ∃ m, milestones st !! p = Some m
    ∧ milestone.Milestone m' = milestone.Milestone m
    ∧ milestone.Stats m' = milestone.Stats m
    ∧ milestone.Components m' ≡ₚ milestone.Components m.
Proof.
  intros (_ & _ & _ & Hlen & _ & Hms & _) Hm'.
  destruct (lookup_lt_is_Some_2 (milestones st) p) as [m Hm].
  { rewrite <- Hlen. by eapply lookup_lt_Some. }
  destruct (Hms p m Hm) as (m2 & Hm2 & ?). exists m. split; [done|].
  congruence.
Qed.

Lemma Shuffle_component st st' q c' :
  Shuffle st st' → components st' !! q = Some c' →
  ∃ c, components st !! q = Some c
    ∧ component.Name c' = component.Name c
    ∧ component.Stats c' = component.Stats c
    ∧ component.Issues c' ≡ₚ component.Issues c.
Proof.
  intros (_ & _ & _ & _ & Hlen & _ & Hcs) Hc'.
  destruct (lookup_lt_is_Some_2 (components st) q) as [c Hc].
  { rewrite <- Hlen. by eapply lookup_lt_Some. }
  destruct (Hcs q c Hc) as (c2 & Hc2 & ?). exists c. split; [done|].
  congruence.
Qed.

Lemma Shuffle_name st st' q :
  Shuffle st st' →
  component.Name <$> components st' !! q = component.Name <$> components st !! q.
Proof.
  intros HS. destruct (components st' !! q) as [c'|] eqn:Hc'.
  - destruct (Shuffle_component _ _ _ _ HS Hc') as (c & Hc & Hn & _).
    rewrite Hc. simpl. by rewrite Hn.
  - destruct HS as (_ & _ & _ & _ & Hlen & _).
    apply lookup_ge_None in Hc'. rewrite Hlen in Hc'.
    apply lookup_ge_None in Hc'. by rewrite Hc'.
Qed.

Lemma Shuffle_WF st st' : Shuffle st st' → WF st → WF st'.
Proof.
  intros HS (W1 & W2 & W3). pose proof HS as (E1 & E2 & E3 & E4 & E5 & E6 & E7).
  split; [|split].
  - intros t p Htp. rewrite E2 in Htp.
    destruct (W1 t p Htp) as (m & cm & Hm & Hti & Hcm & Hnd & Hiff).
    destruct (E6 p m Hm) as (m' & Hm' & F1 & F2 & F3).
    exists m', cm. split; [done|]. split; [congruence|]. split; [congruence|].
    split; [by rewrite F3|]. intros c q.
    by rewrite Hiff, F3, (Shuffle_name _ _ _ HS).
  - intros p p' m m' q Hm Hm' Hq Hq'.
    destruct (Shuffle_milestone _ _ _ _ HS Hm) as (m1 & Hm1 & _ & _ & F).
    destruct (Shuffle_milestone _ _ _ _ HS Hm') as (m1' & Hm1' & _ & _ & F').
    rewrite F in Hq. rewrite F' in Hq'. by eapply W2.
  - intros p m q Hm Hq.
    destruct (Shuffle_milestone _ _ _ _ HS Hm) as (m1 & Hm1 & _ & _ & F).
    rewrite F in Hq. rewrite E5. by eapply W3.
Qed.

Lemma Shuffle_DataM il st st' : Shuffle st st' → DataM il st → DataM il st'.
Proof.
  intros HS (M1 & M2). pose proof HS as (E1 & E2 & _). split.
  - intros t. rewrite E2. apply M1.
  - intros t p m' Htp Hm'. rewrite E2 in Htp.
    destruct (Shuffle_milestone _ _ _ _ HS Hm') as (m & Hm & _ & -> & _).
    by eapply M2.
Qed.

Lemma Shuffle_DataC il st st' : Shuffle st st' → DataC il st → DataC il st'.
Proof.
  intros HS HC t p m' cm Htp Hm' Hcm.
  pose proof HS as (E1 & E2 & E3 & _). rewrite E2 in Htp. rewrite E3 in Hcm.
  destruct (Shuffle_milestone _ _ _ _ HS Hm') as (m & Hm & _ & _ & F).
  destruct (HC t p m cm Htp Hm Hcm) as (Hsome & Hdata). split; [done|].
  intros q c' Hq Hc'. rewrite F in Hq.
  destruct (Shuffle_component _ _ _ _ HS Hc') as (c & Hc & -> & -> & ->).
  by eapply Hdata.
Qed.

Lemma Shuffle_NE full st st' : Shuffle st st' → NE full st → NE full st'.
Proof.
  intros HS HN t p m' Htp Hm'.
  pose proof HS as (E1 & E2 & E3 & _). rewrite E2 in Htp.
  destruct (Shuffle_milestone _ _ _ _ HS Hm') as (m & Hm & _ & _ & F).
  destruct (HN t p m Htp Hm) as (Hms & Hcs). split; [done|].
  intros q c' Hq Hc'. rewrite F in Hq.
  destruct (Shuffle_component _ _ _ _ HS Hc') as (c & Hc & -> & _).
  by eapply Hcs.
Qed.

Lemma sortIssues_Shuffle st q : Shuffle st (sortIssues st q).
Proof.
  do 4 (split; [done|]). split; [simpl; by rewrite length_alter|].
  split; [intros p m Hm; by exists m|].
  intros q' c Hc. simpl. rewrite list_lookup_alter. case_decide as Hq.
  - subst q'. rewrite Hc. simpl. eexists. split; [done|]. simpl.
    split; [done|]. split; [done|]. apply Sort_perm.
  - by exists c.
Qed.

Lemma sortIssues_fold_Shuffle qs st : Shuffle st (foldl sortIssues st qs).
Proof.
  revert st. induction qs as [|q qs IH]; intros st; simpl.
  - apply Shuffle_refl.
  - eapply Shuffle_trans; [apply sortIssues_Shuffle|apply IH].
Qed.

Lemma sortComponents_Shuffle st p : Shuffle st (sortComponents st p).
Proof.
  do 3 (split; [done|]). split; [simpl; by rewrite length_alter|].
  split; [done|]. split; [|intros q c Hc; by exists c].
  intros p' m Hm. simpl. rewrite list_lookup_alter. case_decide as Hp.
  - subst p'. rewrite Hm. simpl. eexists. split; [done|]. simpl.
    split; [done|]. split; [done|]. apply Sort_perm.
  - by exists m.
Qed.

Lemma sortMilestone_Shuffle st p : Shuffle st (sortMilestone st p).
Proof.
  unfold sortMilestone. destruct (milestones st !! p) as [m|].
  - eapply Shuffle_trans; [apply sortIssues_fold_Shuffle|].
    apply sortComponents_Shuffle.
  - apply Shuffle_refl.
Qed.

Lemma sortMilestone_fold_Shuffle order st :
  Shuffle st (foldl sortMilestone st order).
Proof.
  revert st. induction order as [|p order IH]; intros st; simpl.
  - apply Shuffle_refl.
  - eapply Shuffle_trans; [apply sortMilestone_Shuffle|apply IH].
Qed.
End BadgeSort.

Section BadgeSorted.
Import Badge BadgeSpec.
Implicit Types (st : state) (il full : list (nat * github.Issue.t)).

Lemma issues_Less_asym st a b :
  validIssue st a → validIssue st b →
  issues_Less st a b = true → issues_Less st b a = false.
Proof.
  unfold issues_Less. intros [x ->] [y ->]. apply Less_asym.
Qed.

Lemma issues_Less_ntrans st a b c :
  validIssue st a → validIssue st b → validIssue st c →
  issues_Less st a b = false → issues_Less st b c = false →
  issues_Less st a c = false.
Proof.
  unfold issues_Less. intros [x ->] [y ->] [z ->]. apply Less_ntrans.
Qed.

Lemma components_Less_asym st a b :
  validComponent st a → validComponent st b →
  components_Less st a b = true → components_Less st b a = false.
Proof.
  unfold components_Less. intros [x ->] [y ->]. apply ltb_asym.
Qed.

Lemma components_Less_ntrans st a b c :
  validComponent st a → validComponent st b → validComponent st c →
  components_Less st a b = false → components_Less st b c = false →
  components_Less st a c = false.
Proof.
  unfold components_Less. intros [x ->] [y ->] [z ->]. apply ltb_ntrans.
Qed.

Lemma components_Less_names st st' a b :
  (∀ q, component.Name <$> components st' !! q
        = component.Name <$> components st !! q) →
  components_Less st' a b = components_Less st a b.
Proof.
  intros Hn. unfold components_Less.
  pose proof (Hn a) as Ha. pose proof (Hn b) as Hb.
  destruct (components st' !! a), (components st !! a); simplify_eq/=; [|done].
  destruct (components st' !! b), (components st !! b); simplify_eq/=; [|done].
  congruence.
Qed.

Lemma sortIssues_fold_other qs st q :
  q ∉ qs → components (foldl sortIssues st qs) !! q = components st !! q.
Proof.
  revert st. induction qs as [|q1 qs IH]; intros st Hq; [done|].
  apply not_elem_of_cons in Hq as [Hne Hq]. simpl. rewrite IH by done.
  simpl. by rewrite list_lookup_alter_ne.
Qed.

Lemma sortIssues_fold_sorted qs st q c' :
  (∀ q c, q ∈ qs → components st !! q = Some c →
          Forall (validIssue st) (component.Issues c)) →
  q ∈ qs → components (foldl sortIssues st qs) !! q = Some c' →
  StronglySorted (notAfter (issues_Less st)) (component.Issues c').
Proof.
  revert st. induction qs as [|q1 qs IH]; intros st Hv Hq Hc'.
  { by apply elem_of_nil in Hq. }
  simpl in Hc'. destruct (decide (q ∈ qs)) as [Hin|Hnin].
  - apply (IH (sortIssues st q1)); [|done|done].
    intros q2 c2 Hq2. simpl. rewrite list_lookup_alter. case_decide as Heq.
    + subst q2. destruct (components st !! q1) as [c1|] eqn:Hc1; [|done].
      intros [= <-]. simpl. rewrite Sort_perm. eapply Hv; [left|done].
    + intros Hc2. eapply Hv; [by right|done].
  - apply elem_of_cons in Hq as [->|Hq]; [|done].
    rewrite sortIssues_fold_other in Hc' by done. simpl in Hc'.
    rewrite list_lookup_alter_eq in Hc'.
    destruct (components st !! q1) as [c1|] eqn:Hc1; [|done].
    injection Hc' as <-. simpl.
    apply (Sort_sorted _ (validIssue st)).
    + apply issues_Less_asym.
    + apply issues_Less_ntrans.
    + eapply Hv; [left|done].
Qed.

(** The wrappers of a reachable component point into [ghIssues]. *)
Lemma DataC_valid l st t p m q c :
  ghIssues st = l → DataC (indexed l) st → WF st →
  msMap st !! t = Some p → milestones st !! p = Some m →
  q ∈ milestone.Components m → components st !! q = Some c →
  Forall (validIssue st) (component.Issues c).
Proof.
  intros Hgh HC (W1 & _) Htp Hm Hq Hc.
  destruct (W1 t p Htp) as (m' & cm & Hm' & _ & Hcm & _).
  assert (m' = m) as -> by congruence.
  destruct (HC t p m cm Htp Hm Hcm) as (_ & Hdata).
  destruct (Hdata q c Hq Hc) as (_ & Hperm & _).
  rewrite Hperm, Forall_fmap, Forall_forall. intros [i x] Hix.
  apply list_elem_of_filter in Hix as [_ Hix].
  apply list_elem_of_filter in Hix as [_ Hix].
  apply elem_of_indexed in Hix. unfold validIssue. simpl.
  by rewrite Hgh, Hix.
Qed.

Lemma StronglySorted_impl {A} (R R' : relation A) l :
  (∀ a b, R a b → R' a b) → StronglySorted R l → StronglySorted R' l.
Proof.
  intros HR. induction 1 as [|x l Hs IH Hx]; constructor; [done|].
  eapply Forall_impl; [exact Hx|]. intros y. apply HR.
Qed.

Lemma sortMilestone_SortedAt l st t' p p' :
  ghIssues st = l → WF st → DataC (indexed l) st →
  msMap st !! t' = Some p' →
  p' = p ∨ SortedAt st p' →
  SortedAt (sortMilestone st p) p'.
Proof.
  intros Hgh HW HC Htp' Hcase.
  pose proof HW as (W1 & W2 & W3).
  destruct (W1 t' p' Htp') as (m' & cm' & Hm' & _ & Hcm' & _).
  unfold sortMilestone.
  destruct (milestones st !! p) as [m|] eqn:Hm.
  2:{ destruct Hcase as [->|Hs]; [congruence|done]. }
  set (st1 := foldl sortIssues st (milestone.Components m)).
  pose proof (sortIssues_fold_Shuffle (milestone.Components m) st) as HS1.
  fold st1 in HS1.
  assert (milestones st1 = milestones st) as Hms1.
  { unfold st1. clear. generalize (milestone.Components m) as qs.
    intros qs. revert st. induction qs as [|q qs IH]; intros st; [done|].
    simpl. by rewrite IH. }
  assert (ghIssues st1 = ghIssues st) as Hgh1 by apply HS1.
  assert (∀ a b, issues_Less (sortComponents st1 p) a b = issues_Less st a b)
    as Hil.
  { intros a b. unfold issues_Less. simpl. by rewrite Hgh1. }
  assert (∀ a b, components_Less (sortComponents st1 p) a b
                 = components_Less st a b) as Hcl.
  { intros a b. apply components_Less_names. intros q.
    apply (Shuffle_name st st1 q HS1). }
  destruct (decide (p' = p)) as [->|Hne].
  - assert (m' = m) as -> by congruence.
    eexists. split.
    { simpl. rewrite list_lookup_alter_eq, Hms1, Hm. simpl. done. }
    simpl. split.
    + eapply StronglySorted_impl;
        [|apply (Sort_sorted _ (validComponent st1))].
      * intros a b Hab. exact Hab.
      * apply components_Less_asym.
      * apply components_Less_ntrans.
      * rewrite Forall_forall. intros q Hq. unfold validComponent.
        apply lookup_lt_is_Some_2.
        destruct HS1 as (_ & _ & _ & _ & -> & _). by eapply W3.
    + intros q c Hq Hc. rewrite Sort_elem_of in Hq.
      eapply StronglySorted_impl;
        [|eapply (sortIssues_fold_sorted (milestone.Components m) st q c)].
      * intros a b. unfold notAfter. by rewrite Hil.
      * intros q2 c2 Hq2 Hc2. by eapply (DataC_valid l st t' p m).
      * done.
      * done.
  - destruct Hcase as [->|(m2 & Hm2 & Hsc & Hsi)]; [done|].
    assert (m2 = m') as -> by congruence.
    exists m'. split.
    { simpl. by rewrite list_lookup_alter_ne, Hms1. }
    split.
    + eapply StronglySorted_impl; [|exact Hsc].
      intros a b. unfold notAfter. by rewrite Hcl.
    + intros q c Hq Hc. simpl in Hc. unfold st1 in Hc.
      rewrite sortIssues_fold_other in Hc.
      * eapply StronglySorted_impl; [|by eapply Hsi].
        intros a b. unfold notAfter. by rewrite Hil.
      * intros Hqm. apply Hne. by eapply (W2 p' p m' m q).
Qed.

Lemma sortMilestone_fold_SortedAt l order st t p :
  ghIssues st = l → WF st → DataC (indexed l) st →
  msMap st !! t = Some p →
  p ∈ order ∨ SortedAt st p →
  SortedAt (foldl sortMilestone st order) p.
Proof.
  revert st. induction order as [|p1 order IH]; intros st Hgh HW HC Htp Hcase.
  { destruct Hcase as [Hin|Hs]; [by apply elem_of_nil in Hin|done]. }
  simpl. pose proof (sortMilestone_Shuffle st p1) as HS.
  apply IH.
  - destruct HS as (-> & _). done.
  - by eapply Shuffle_WF.
  - by eapply Shuffle_DataC.
  - destruct HS as (_ & -> & _). done.
  - destruct Hcase as [Hin|Hs].
    + apply elem_of_cons in Hin as [->|Hin]; [|by left].
      right. eapply sortMilestone_SortedAt; eauto.
    + right. eapply sortMilestone_SortedAt; eauto.
Qed.
End BadgeSorted.

Section BadgeResult.
Import Badge BadgeSpec.
Implicit Types (st : state) (il full : list (nat * github.Issue.t)).

(** The store [parseIssues] returns, whatever the order in which the
    final loop visits the milestones. *)
Lemma parseIssuesIn_inv order l :
  let st := parseIssuesIn order l in
  ghIssues st = l ∧ WF st
  ∧ DataM (indexed l) st ∧ DataC (indexed l) st ∧ NE (indexed l) st
  ∧ msMap st = msMap (collect l)
  ∧ ∀ t p, msMap st !! t = Some p → p ∈ order (collect l) → SortedAt st p.
Proof.
  intros st. subst st. unfold parseIssuesIn.
  destruct (collect_inv l) as (Hgh & HW & HM & HC & HN).
  pose proof (sortMilestone_fold_Shuffle (order (collect l)) (collect l)) as HS.
  split; [destruct HS as (-> & _); done|].
  split; [by eapply Shuffle_WF|]. split; [by eapply Shuffle_DataM|].
  split; [by eapply Shuffle_DataC|]. split; [by eapply Shuffle_NE|].
  split; [apply HS|].
  intros t p Htp Hin. destruct HS as (_ & Hmap & _). rewrite Hmap in Htp.
  eapply sortMilestone_fold_SortedAt; eauto.
Qed.

Lemma parseIssues_inv l :
  let st := parseIssues l in
  ghIssues st = l ∧ WF st
  ∧ DataM (indexed l) st ∧ DataC (indexed l) st ∧ NE (indexed l) st
  ∧ ∀ t p, msMap st !! t = Some p → SortedAt st p.
Proof.
  intros st. subst st. unfold parseIssues.
  destruct (parseIssuesIn_inv (λ st, (map_to_list (msMap st)).*2) l)
    as (Hgh & HW & HM & HC & HN & Hmap & Hs).
  do 5 (split; [done|]). intros t p Htp. apply (Hs t p Htp).
  rewrite Hmap in Htp. apply list_elem_of_fmap. exists (t, p).
  split; [done|]. by apply elem_of_map_to_list.
Qed.

(** Reading the components of a milestone through its pointers. *)
Lemma resolve_Some st p m :
  milestones st !! p = Some m →
  (∀ q, q ∈ milestone.Components m → (q < length (components st))%nat) →
  ∃ cs, resolve st p = Some (m, cs)
    ∧ Forall2 (λ q c, components st !! q = Some c) (milestone.Components m) cs.
Proof.
  intros Hm Hlt. unfold resolve. rewrite Hm. simpl.
  assert (∃ cs, Forall2 (λ q c, components st !! q = Some c)
                  (milestone.Components m) cs) as [cs Hcs].
  { induction (milestone.Components m) as [|q qs IH].
    - exists []. constructor.
    - destruct IH as [cs Hcs]; [intros q' Hq'; apply Hlt; by right|].
      destruct (lookup_lt_is_Some_2 (components st) q) as [c Hc];
        [apply Hlt; by left|].
      exists (c :: cs). by constructor. }
  exists cs. split; [|done].
  apply mapM_Some_2 in Hcs. by rewrite Hcs.
Qed.

Lemma names_sorted st qs cs :
  Forall2 (λ q c, components st !! q = Some c) qs cs →
  NoDup qs →
  (∀ q q' c c', q ∈ qs → q' ∈ qs → q ≠ q' →
     components st !! q = Some c → components st !! q' = Some c' →
     component.Name c ≠ component.Name c') →
  StronglySorted (notAfter (components_Less st)) qs →
  StronglySorted (λ a b, String.ltb a b = true) (component.Name <$> cs).
Proof.
  intros HF. induction HF as [|q c qs cs Hc HF IH]; intros Hnd Hinj Hs.
  { constructor. }
  apply NoDup_cons in Hnd as [Hq Hnd].
  apply StronglySorted_cons in Hs as [Hall Hs].
  simpl. constructor.
  - apply IH; [done| |done].
    intros q1 q2 c1 c2 H1 H2. apply Hinj; by right.
  - rewrite Forall_fmap, Forall_forall. intros c' Hc'. simpl.
    apply list_elem_of_lookup in Hc' as [i Hi].
    destruct (Forall2_lookup_r _ _ _ _ _ HF Hi) as (q' & Hq' & Hqc').
    apply list_elem_of_lookup_2 in Hq'.
    apply ltb_total.
    + apply (Hinj q q' c c'); [by left|by right| |done|done].
      intros ->. done.
    + rewrite Forall_forall in Hall. specialize (Hall q' Hq').
      unfold notAfter, components_Less in Hall. by rewrite Hqc', Hc in Hall.
Qed.
End BadgeResult.

Lemma filter_snd {A B} (P : B → Prop) (Q : A * B → Prop)
    (dP : ∀ x, Decision (P x)) (dQ : ∀ ix, Decision (Q ix)) (il : list (A * B)) :
  (∀ ix, Q ix ↔ P ix.2) →
  (@filter _ _ _ Q dQ il).*2 = @filter _ _ _ P dP il.*2.
Proof.
  intros HPQ. induction il as [|[i x] il IH]; [done|].
  rewrite fmap_cons, !filter_cons. simpl.
  destruct (decide (Q (i, x))) as [HQ|HQ];
    destruct (decide (P x)) as [HP|HP]; simpl.
  - by f_equal.
  - by apply HPQ in HQ.
  - by apply (HPQ (i, x)) in HP.
  - done.
Qed.

Section BadgeReport.
Import Badge BadgeSpec.

Lemma inMs_snd t l : (inMs t (indexed l)).*2 = ofMilestone t l.
Proof.
  rewrite <- (indexed_snd l) at 2. unfold inMs, ofMilestone.
  by apply filter_snd.
Qed.

Lemma inCmp_snd t c l : (inCmp t c (indexed l)).*2 = ofComponent t c l.
Proof.
  unfold inCmp, ofComponent. rewrite <- inMs_snd.
  by apply filter_snd.
Qed.

Lemma statsOf_snd il :
  statsOf il =
  stats.mk
    (Go.wrap (Z.of_nat (length (filter (λ x, closed x = true) il.*2))))
    (Go.wrap (Z.of_nat (length il.*2)))
    (Go.wrap (sumZ (daysOf <$> filter (λ x, closed x = false) il.*2))).
Proof.
  unfold statsOf, openDays. f_equal; f_equal.
  - f_equal. rewrite <- (length_fmap snd). f_equal. by apply filter_snd.
  - by rewrite length_fmap.
  - f_equal.
    transitivity (daysOf <$> (filter (λ ix, closed ix.2 = false) il).*2).
    + by rewrite <- list_fmap_compose.
    + f_equal. by apply filter_snd.
Qed.

Lemma parseIssues_lookup_None l t :
  msMap (parseIssues l) !! t = None ↔ ofMilestone t l = [].
Proof.
  destruct (parseIssues_inv l) as (Hgh & HW & (M1 & M2) & HC & HN & Hs).
  rewrite <- inMs_snd. split.
  - intros Hn. by rewrite (M1 t Hn).
  - intros Hnil. apply fmap_nil_inv in Hnil.
    destruct (msMap (parseIssues l) !! t) as [p|] eqn:Hp; [|done].
    destruct HW as (W1 & _). destruct (W1 t p Hp) as (m & _ & Hm & _).
    by destruct (HN t p m Hp Hm).
Qed.

(** The milestone of title [t] in the store [parseIssues] returns. *)
Lemma parseIssues_report l t p :
  msMap (parseIssues l) !! t = Some p →
  ∃ m cs,
    resolve (parseIssues l) p = Some (m, cs)
    ∧ milestones (parseIssues l) !! p = Some m
    ∧ Forall2 (λ q c, components (parseIssues l) !! q = Some c)
              (milestone.Components m) cs
    ∧ github.Milestone.Title (milestone.Milestone m) = t
    ∧ milestone.Stats m = statsOf (inMs t (indexed l))
    ∧ StronglySorted (λ a b, String.ltb a b = true) (component.Name <$> cs)
    ∧ (∀ c, c ∈ component.Name <$> cs ↔ c ≠ "" ∧ ofComponent t c l ≠ [])
    ∧ Forall (λ c,
        component.Issues c ≡ₚ wrapper <$> inCmp t (component.Name c) (indexed l)
        ∧ component.Stats c = statsOf (inCmp t (component.Name c) (indexed l))
        ∧ StronglySorted (notAfter (issues_Less (parseIssues l)))
                         (component.Issues c)) cs.
Proof.
  intros Hp.
  destruct (parseIssues_inv l) as (Hgh & HW & (M1 & M2) & HC & HN & Hs).
  set (st := parseIssues l) in *.
  pose proof HW as (W1 & W2 & W3).
  destruct (W1 t p Hp) as (m & cm & Hm & Hti & Hcm & Hnd & Hiff).
  destruct (resolve_Some st p m Hm) as (cs & Hres & HF).
  { intros q Hq. by eapply W3. }
  destruct (HC t p m cm Hp Hm Hcm) as (Hsome & Hdata).
  destruct (HN t p m Hp Hm) as (_ & Hne).
  destruct (Hs t p Hp) as (m' & Hm' & Hsc & Hsi).
  assert (m' = m) as -> by congruence.
  exists m, cs. do 4 (split; [done|]). split; [by eapply M2|].
  split; [|split].
  - apply (names_sorted st (milestone.Components m)); [done|done| |done].
    intros q q' c c' Hq Hq' Hqq Hc Hc' Hn. apply Hqq.
    assert (cm !! component.Name c = Some q) as H1.
    { apply Hiff. split; [done|]. by rewrite Hc. }
    assert (cm !! component.Name c = Some q') as H2.
    { apply Hiff. split; [done|]. rewrite Hc'. simpl. by rewrite Hn. }
    congruence.
  - intros c. rewrite <- inCmp_snd. split.
    + intros Hc. apply list_elem_of_fmap in Hc as (c' & -> & Hc').
      apply list_elem_of_lookup in Hc' as [i Hi].
      destruct (Forall2_lookup_r _ _ _ _ _ HF Hi) as (q & Hq & Hqc).
      apply list_elem_of_lookup_2 in Hq.
      destruct (Hdata q c' Hq Hqc) as (Hn & _). split; [done|].
      intros Hnil. apply fmap_nil_inv in Hnil. by eapply Hne.
    + intros [Hc Hnn]. destruct (Hsome c Hc) as [q Hq].
      { intros Hnil. apply Hnn. by rewrite Hnil. }
      apply Hiff in Hq as [Hq Hn].
      apply list_elem_of_lookup in Hq as [i Hi].
      destruct (Forall2_lookup_l _ _ _ _ _ HF Hi) as (c' & Hc' & Hqc).
      rewrite Hqc in Hn. simpl in Hn. injection Hn as <-.
      apply list_elem_of_fmap. exists c'. split; [done|].
      by eapply list_elem_of_lookup_2.
  - rewrite Forall_forall. intros c Hc.
    apply list_elem_of_lookup in Hc as [i Hi].
    destruct (Forall2_lookup_r _ _ _ _ _ HF Hi) as (q & Hq & Hqc).
    apply list_elem_of_lookup_2 in Hq.
    destruct (Hdata q c Hq Hqc) as (_ & Hperm & Hst).
    split; [done|]. split; [done|]. by eapply Hsi.
Qed.
End BadgeReport.

(** ** The index of an issue identifies it *)

Lemma indexed_filter_ge {A} (l : list A) i :
  (length l ≤ i)%nat → filter (λ ix, ix.1 = i) (indexed l) = [].
Proof.
  intros Hi. induction l as [|x l IH] using rev_ind; [done|].
  rewrite length_app in Hi. simpl in Hi.
  rewrite indexed_snoc, filter_app, IH by lia.
  rewrite filter_cons, filter_nil. simpl. rewrite decide_False; [done|lia].
Qed.

Lemma indexed_filter_index {A} (l : list A) i x :
  l !! i = Some x → filter (λ ix, ix.1 = i) (indexed l) = [(i, x)].
Proof.
  induction l as [|y l IH] using rev_ind; [done|].
  rewrite indexed_snoc, filter_app, filter_cons, filter_nil. simpl.
  intros Hx. apply lookup_snoc_Some in Hx as [[Hlt Hx]|[-> ->]].
  - rewrite IH by done. rewrite decide_False; [done|lia].
  - rewrite indexed_filter_ge by done. by rewrite decide_True.
Qed.

Section BadgeClaims.
Import Badge BadgeSpec.

(** *** The label scan *)

Lemma scan_cmpName ls acc :
  cmpName (foldl scanLabel acc ls) =
  default (cmpName acc)
    (Go.from 11 <$> last (filter (λ lbl, Go.HasPrefix lbl "component: ")
                                 (github.Label.String <$> ls))).
Proof.
  induction ls as [|lb ls IH] using rev_ind; [done|].
  rewrite foldl_app, fmap_app, filter_app, last_app.
  change (foldl scanLabel (foldl scanLabel acc ls) [lb])
    with (scanLabel (foldl scanLabel acc ls) lb).
  change (github.Label.String <$> [lb]) with [github.Label.String lb].
  rewrite filter_cons, filter_nil. unfold scanLabel at 1. cbn [cmpName].
  destruct (Go.HasPrefix (github.Label.String lb) "component: ") eqn:Hp.
  - by rewrite decide_True.
  - rewrite decide_False by (intros H; exact H). apply IH.
Qed.

(** The component the scan settles on is named by the last
    ["component: "] label, and is empty when there is none. *)
Lemma cmpOf_last x :
  cmpOf x = default "" (Go.from 11 <$> last (componentLabels x)).
Proof. unfold cmpOf, scanLabels. by rewrite scan_cmpName. Qed.

Lemma filter_wrapper i (il : list (nat * github.Issue.t)) :
  filter (λ w, issue.Issue w = i) (wrapper <$> il)
  = wrapper <$> filter (λ ix, ix.1 = i) il.
Proof.
  induction il as [|[j x] il IH]; [done|].
  rewrite fmap_cons, !filter_cons. simpl.
  destruct (decide (j = i)); simpl; by rewrite IH.
Qed.

Lemma inCmp_filter_index l t c i x :
  l !! i = Some x →
  filter (λ ix, ix.1 = i) (inCmp t c (indexed l))
  = if decide (title x = Some t ∧ cmpOf x = c) then [(i, x)] else [].
Proof.
  intros Hx. unfold inCmp, inMs.
  rewrite !(list_filter_filter _ _ (indexed l)).
  rewrite (list_filter_iff _ (λ ix, (cmpOf ix.2 = c ∧ title ix.2 = Some t)
                                    ∧ ix.1 = i)) by tauto.
  rewrite <- list_filter_filter, (indexed_filter_index _ _ _ Hx).
  rewrite filter_cons, filter_nil. simpl.
  destruct (decide (cmpOf x = c ∧ title x = Some t));
    destruct (decide (title x = Some t ∧ cmpOf x = c)); tauto.
Qed.

(** Where the wrapper of [ghIssues[i]] is found in the store. *)
Lemma parseIssues_occurrences l i x t p m q cmp :
  l !! i = Some x →
  msMap (parseIssues l) !! t = Some p →
  milestones (parseIssues l) !! p = Some m →
  q ∈ milestone.Components m →
  components (parseIssues l) !! q = Some cmp →
  component.Name cmp ≠ ""
  ∧ filter (λ w, issue.Issue w = i) (component.Issues cmp)
    = if decide (title x = Some t ∧ cmpOf x = component.Name cmp)
      then [wrapper (i, x)] else [].
Proof.
  intros Hx Hp Hm Hq Hcmp.
  destruct (parseIssues_inv l) as (Hgh & (W1 & _) & _ & HC & _).
  destruct (W1 t p Hp) as (m' & cm & Hm' & _ & Hcm & _).
  assert (m' = m) as -> by congruence.
  destruct (HC t p m cm Hp Hm Hcm) as (_ & Hdata).
  destruct (Hdata q cmp Hq Hcmp) as (Hn & Hperm & _). split; [done|].
  assert (filter (λ w, issue.Issue w = i) (component.Issues cmp)
          ≡ₚ wrapper <$> filter (λ ix, ix.1 = i)
               (inCmp t (component.Name cmp) (indexed l))) as Hf.
  { by rewrite Hperm, filter_wrapper. }
  rewrite (inCmp_filter_index l t _ i x Hx) in Hf.
  destruct (decide (title x = Some t ∧ cmpOf x = component.Name cmp)).
  - by apply Permutation_singleton_r in Hf.
  - by apply Permutation_nil_r in Hf.
Qed.

(** An issue with a milestone whose scan ends on a non-empty
    component name sits in that component, once, and nowhere else. *)
Lemma parseIssues_one_component l i x ms :
  l !! i = Some x → github.Issue.Milestone x = Some ms → cmpOf x ≠ "" →
  ∃ p m q cmp,
    msMap (parseIssues l) !! github.Milestone.Title ms = Some p
    ∧ milestones (parseIssues l) !! p = Some m
    ∧ q ∈ milestone.Components m
    ∧ components (parseIssues l) !! q = Some cmp
    ∧ component.Name cmp = cmpOf x
    ∧ filter (λ w, issue.Issue w = i) (component.Issues cmp)
      = [wrapper (i, x)]
    ∧ ∀ t' p' m' q' cmp',
        msMap (parseIssues l) !! t' = Some p' →
        milestones (parseIssues l) !! p' = Some m' →
        q' ∈ milestone.Components m' →
        components (parseIssues l) !! q' = Some cmp' →
        q' ≠ q →
        filter (λ w, issue.Issue w = i) (component.Issues cmp') = [].
Proof.
  intros Hx Hms Hc. set (t := github.Milestone.Title ms).
  assert (title x = Some t) as Ht by (unfold title; by rewrite Hms).
  destruct (parseIssues_inv l) as (Hgh & HW & (M1 & M2) & HC & HN & Hs).
  pose proof HW as (W1 & W2 & W3).
  assert ((i, x) ∈ inCmp t (cmpOf x) (indexed l)) as Hin.
  { apply list_elem_of_filter. split; [done|].
    apply list_elem_of_filter. split; [done|]. by apply elem_of_indexed. }
  destruct (msMap (parseIssues l) !! t) as [p|] eqn:Hp.
  2:{ apply M1 in Hp. apply list_elem_of_filter in Hin as [_ Hin].
      rewrite Hp in Hin. by apply elem_of_nil in Hin. }
  destruct (W1 t p Hp) as (m & cm & Hm & Hti & Hcm & Hnd & Hiff).
  destruct (HC t p m cm Hp Hm Hcm) as (Hsome & Hdata).
  destruct (Hsome (cmpOf x) Hc) as [q Hq].
  { intros Hnil. rewrite Hnil in Hin. by apply elem_of_nil in Hin. }
  pose proof Hq as Hq'. apply Hiff in Hq' as [Hqm Hname].
  destruct (components (parseIssues l) !! q) as [cmp|] eqn:Hcmp; [|done].
  simpl in Hname. injection Hname as Hname.
  exists p, m, q, cmp. do 5 (split; [done|]). split.
  - destruct (parseIssues_occurrences l i x t p m q cmp) as [_ ->]; try done.
    by rewrite decide_True.
  - intros t' p' m' q' cmp' Hp' Hm' Hq'm Hcmp' Hne.
    destruct (parseIssues_occurrences l i x t' p' m' q' cmp') as [_ ->];
      try done.
    rewrite decide_False; [done|]. intros [Ht' Hc']. apply Hne.
    assert (t' = t) as -> by congruence.
    assert (p' = p) as -> by congruence.
    assert (m' = m) as -> by congruence.
    assert (cm !! cmpOf x = Some q') as Hq2.
    { apply Hiff. split; [done|]. rewrite Hcmp'. simpl. by rewrite Hc'. }
    congruence.
Qed.

(** An issue whose scan ends on the empty name sits in no component. *)
Lemma parseIssues_no_component l i x t p m q cmp :
  l !! i = Some x → cmpOf x = "" →
  msMap (parseIssues l) !! t = Some p →
  milestones (parseIssues l) !! p = Some m →
  q ∈ milestone.Components m →
  components (parseIssues l) !! q = Some cmp →
  filter (λ w, issue.Issue w = i) (component.Issues cmp) = [].
Proof.
  intros Hx Hc Hp Hm Hq Hcmp.
  destruct (parseIssues_occurrences l i x t p m q cmp) as [Hn ->]; try done.
  rewrite decide_False; [done|]. intros [_ Hc']. congruence.
Qed.
End BadgeClaims.

Section MarkdownCollect.
Import Markdown MarkdownSpec.

Lemma nonnil_snoc {A} (d : list A) x : nonnil (d ++ [x]) = Some (d ++ [x]).
Proof. by destruct d. Qed.

Lemma nonnil_default {A} (d : list A) : default [] (nonnil d) = d.
Proof. by destruct d. Qed.

Lemma ofMilestone_snoc t l x :
  ofMilestone t (l ++ [x]) =
  ofMilestone t l ++ (if decide (title x = Some t) then [x] else []).
Proof. unfold ofMilestone. by rewrite filter_app. Qed.

Lemma listed_snoc t c l x :
  listed t c (l ++ [x]) =
  listed t c l ++ (if decide (title x = Some t) then copies c x else []).
Proof.
  unfold listed. rewrite ofMilestone_snoc, bind_app. f_equal.
  destruct (decide _); [|done]. simpl. by rewrite app_nil_r.
Qed.

Lemma countsOf_snoc l x :
  countsOf (l ++ [x]) =
  if bool_decide (github.Issue.ClosedAt x = None)
  then stats.mk (Go.incr (stats.open (countsOf l))) (stats.closed (countsOf l))
  else stats.mk (stats.open (countsOf l)) (Go.incr (stats.closed (countsOf l))).
Proof.
  unfold countsOf. rewrite !filter_app, !length_app, !filter_cons, !filter_nil.
  simpl. case_bool_decide as Hc.
  - rewrite decide_True, decide_False by auto. simpl.
    rewrite incr_wrap. f_equal; f_equal; lia.
  - rewrite decide_False, decide_True by auto. simpl.
    rewrite incr_wrap. f_equal; f_equal; lia.
Qed.

(** The loop over the labels of [issues[i]]. *)
Lemma addLabels_spec i t x labels :
  ∀ st cmps (D : string → list github.Issue.t),
  issues st !! i = Some x → parsed st !! t = Some cmps →
  (∀ c, cmps !! c = nonnil (D c)) →
  let st' := foldl (addLabel i t) st labels in
  issues st' = issues st ∧ msCounts st' = msCounts st
  ∧ msURLs st' = msURLs st ∧ stdout st' = stdout st
  ∧ (∀ t', t' ≠ t → parsed st' !! t' = parsed st !! t')
  ∧ ∃ cmps', parsed st' !! t = Some cmps'
      ∧ ∀ c, cmps' !! c =
             nonnil (D c ++ ((λ _, x) <$>
                 filter (λ lbl, Go.from 11 lbl = c)
                   (filter (λ lbl, Go.HasPrefix lbl "component: ")
                           (github.Label.String <$> labels)))).
Proof.
  induction labels as [|lb labels IH]; intros st cmps D Hx Hp HD; simpl.
  { do 5 (split; [done|]). exists cmps. split; [done|]. intros c.
    by rewrite app_nil_r. }
  destruct (Go.HasPrefix (github.Label.String lb) "component: ") eqn:Hpre.
  - set (name := Go.from 11 (github.Label.String lb)).
    set (cmps1 := <[name := default [] (cmps !! name) ++ [x]]> cmps).
    set (st1 := State (issues st) (<[t := cmps1]> (parsed st))
                      (msCounts st) (msURLs st) (stdout st)).
    assert (addLabel i t st lb = st1) as ->.
    { unfold addLabel. by rewrite Hpre, Hx, Hp. }
    destruct (IH st1 cmps1
                (λ c, D c ++ if decide (name = c) then [x] else []))
      as (E1 & E2 & E3 & E4 & E5 & cmps' & Hc' & HD').
    + done.
    + unfold st1. simpl. by rewrite lookup_insert_eq.
    + intros c. unfold cmps1. rewrite lookup_insert.
      destruct (decide (name = c)) as [<-|Hne].
      * by rewrite HD, nonnil_default, nonnil_snoc.
      * by rewrite app_nil_r, HD.
    + split; [exact E1|]. split; [exact E2|]. split; [exact E3|].
      split; [exact E4|]. split.
      * intros t' Ht'. rewrite E5 by done. unfold st1. simpl.
        by rewrite lookup_insert_ne.
      * exists cmps'. split; [done|]. intros c. rewrite HD'.
        rewrite (filter_cons_True (λ lbl, Is_true (Go.HasPrefix lbl "component: ")))
          by (apply Is_true_true; exact Hpre).
        rewrite filter_cons. fold name.
        destruct (decide (name = c)); simpl; by rewrite <- app_assoc.
  - assert (addLabel i t st lb = st) as ->.
    { unfold addLabel. by rewrite Hpre. }
    destruct (IH st cmps D Hx Hp HD)
      as (E1 & E2 & E3 & E4 & E5 & cmps' & Hc' & HD').
    do 5 (split; [done|]). exists cmps'. split; [done|]. intros c.
    rewrite HD'.
    rewrite (filter_cons_False (λ lbl, Is_true (Go.HasPrefix lbl "component: ")));
      [done|].
    intros H. apply Is_true_true in H. congruence.
Qed.

Lemma urlOf_snoc t l x :
  urlOf t (l ++ [x]) =
  match ofMilestone t l with
  | [] => if decide (title x = Some t)
          then github.Milestone.HTMLURL <$> github.Issue.Milestone x
          else None
  | _ => urlOf t l
  end.
Proof.
  unfold urlOf. rewrite ofMilestone_snoc.
  destruct (ofMilestone t l) as [|y r]; [|done].
  by destruct (decide _).
Qed.

Lemma listed_nil t c l : ofMilestone t l = [] → listed t c l = [].
Proof. unfold listed. by intros ->. Qed.

Lemma step_Collected l done st i x :
  issues st = l → l !! i = Some x → Collected done st →
  issues (step st i) = l ∧ Collected (done ++ [x]) (step st i).
Proof.
  intros Hl Hx (Hout & Hinv). unfold step.
  assert (issues st !! i = Some x) as -> by (by rewrite Hl).
  destruct (github.Issue.Milestone x) as [ms|] eqn:Hms.
  2:{ split; [done|]. split; [done|]. intros t.
      assert (title x ≠ Some t) as Hne by (unfold title; by rewrite Hms).
      destruct (Hinv t) as (Hu & Hd).
      rewrite urlOf_snoc, ofMilestone_snoc, !decide_False, app_nil_r by done.
      split.
      - rewrite Hu. by destruct (ofMilestone t done) eqn:Hn; unfold urlOf;
          rewrite ?Hn.
      - destruct (ofMilestone t done) as [|y r] eqn:Hn; [done|].
        destruct Hd as (Hc & cmps & Hp & HD). split; [done|].
        exists cmps. split; [done|]. intros c.
        rewrite listed_snoc, decide_False, app_nil_r by done. apply HD. }
  set (t0 := github.Milestone.Title ms).
  assert (title x = Some t0) as Ht0 by (unfold title; by rewrite Hms).
  set (st1 := match parsed st !! t0 with
              | None => State (issues st) (<[t0:=∅]> (parsed st))
                          (<[t0:=stats.zero]> (msCounts st))
                          (<[t0:=github.Milestone.HTMLURL ms]> (msURLs st))
                          (stdout st)
              | Some _ => st
              end).
  set (bump := λ c : stats.t,
         if bool_decide (github.Issue.ClosedAt x = None)
         then stats.mk (Go.incr (stats.open c)) (stats.closed c)
         else stats.mk (stats.open c) (Go.incr (stats.closed c))).
  set (st2 := State (issues st1) (parsed st1)
                (alter bump t0 (msCounts st1)) (msURLs st1) (stdout st1)).
  assert (issues st1 = l ∧ stdout st1 = ""
          ∧ (∀ t, t ≠ t0 → parsed st1 !! t = parsed st !! t
                  ∧ msCounts st1 !! t = msCounts st !! t
                  ∧ msURLs st1 !! t = msURLs st !! t)
          ∧ msCounts st1 !! t0 = Some (countsOf (ofMilestone t0 done))
          ∧ msURLs st1 !! t0 = urlOf t0 (done ++ [x])
          ∧ ∃ cmps, parsed st1 !! t0 = Some cmps
              ∧ ∀ c, cmps !! c = nonnil (listed t0 c done))
    as (Hl1 & Hout1 & Hother & Hc1 & Hu1 & cmps & Hp1 & HD1).
  { destruct (Hinv t0) as (Hu & Hd). rewrite urlOf_snoc, decide_True by done.
    unfold st1. destruct (ofMilestone t0 done) as [|y r] eqn:Hn.
    - destruct Hd as (-> & Hc). simpl. do 2 (split; [done|]). split.
      { intros t Ht. by rewrite !lookup_insert_ne. }
      rewrite !lookup_insert_eq. split; [done|]. split; [by rewrite Hms|].
      exists ∅. split; [done|]. intros c.
      by rewrite lookup_empty, listed_nil.
    - destruct Hd as (Hc & cmps & Hp & HD). rewrite Hp.
      do 2 (split; [done|]). split; [done|]. do 2 (split; [done|]).
      by exists cmps. }
  destruct (addLabels_spec i t0 x (github.Issue.Labels x) st2 cmps
              (λ c, listed t0 c done))
    as (E1 & E2 & E3 & E4 & E5 & cmps' & Hp' & HD');
    [simpl; by rewrite Hl1|done|done|].
  change (issues (foldl (addLabel i t0) st2 (github.Issue.Labels x)) = l
          ∧ Collected (done ++ [x])
              (foldl (addLabel i t0) st2 (github.Issue.Labels x))).
  split; [by rewrite E1|]. split; [by rewrite E4|].
  intros t. rewrite E2, E3. simpl.
  destruct (decide (t = t0)) as [->|Hne].
  - rewrite Hu1. split; [done|].
    rewrite ofMilestone_snoc, decide_True by done.
    rewrite lookup_alter_eq, Hc1. simpl.
    assert (bump (countsOf (ofMilestone t0 done))
            = countsOf (ofMilestone t0 done ++ [x])) as ->.
    { by rewrite countsOf_snoc. }
    destruct (ofMilestone t0 done ++ [x]) as [|y r] eqn:Hn.
    { by apply app_eq_nil in Hn as [_ ?]. }
    split; [done|]. exists cmps'. split; [done|]. intros c.
    by rewrite HD', listed_snoc, decide_True.
  - destruct (Hother t Hne) as (O1 & O2 & O3). destruct (Hinv t) as (Hu & Hd).
    rewrite lookup_alter_ne, O2, O3, E5 by done.
    change (parsed st2 !! t) with (parsed st1 !! t). rewrite O1.
    assert (title x ≠ Some t) as Hnt by congruence.
    rewrite urlOf_snoc, ofMilestone_snoc, !decide_False, app_nil_r by done.
    split.
    + rewrite Hu. by destruct (ofMilestone t done) eqn:Hn; unfold urlOf;
        rewrite ?Hn.
    + destruct (ofMilestone t done) as [|y r] eqn:Hn; [done|].
      destruct Hd as (Hc & cmps2 & Hp & HD). split; [done|].
      exists cmps2. split; [done|]. intros c.
      rewrite listed_snoc, decide_False, app_nil_r by done. apply HD.
Qed.

Lemma collect_Collected l :
  issues (collect l) = l ∧ Collected l (collect l).
Proof.
  unfold collect.
  assert (∀ k, (k ≤ length l)%nat →
            let st := foldl step (State l ∅ ∅ ∅ "") (seq 0 k) in
            issues st = l ∧ Collected (take k l) st) as Hgen.
  { induction k as [|k IH]; intros Hk.
    - simpl. split; [done|]. split; [done|]. intros t.
      split; [apply lookup_empty|]. split; apply lookup_empty.
    - destruct IH as (Hl & Hc); [lia|].
      destruct (lookup_lt_is_Some_2 l k) as [x Hx]; [lia|].
      rewrite seq_S, foldl_app. simpl. rewrite (take_S_r _ _ _ Hx).
      by apply step_Collected. }
  specialize (Hgen (length l) (le_n _)). simpl in Hgen.
  by rewrite firstn_all in Hgen.
Qed.
End MarkdownCollect.

(** ** Strings *)

Lemma append_nil_r (s : string) : s +:+ "" = s.
Proof.
  induction s as [|c s IH]; [done|].
  change (String c (s +:+ "") = String c s). by rewrite IH.
Qed.

Lemma append_assoc (a b c : string) : (a +:+ b) +:+ c = a +:+ (b +:+ c).
Proof.
  induction a as [|x a IH]; [done|].
  change (String x ((a +:+ b) +:+ c) = String x (a +:+ (b +:+ c))).
  by rewrite IH.
Qed.

Lemma app_cons c (a r : string) : String c a +:+ r = String c (a +:+ r).
Proof. reflexivity. Qed.

Lemma string_length_app (a b : string) :
  String.length (a +:+ b) = (String.length a + String.length b)%nat.
Proof.
  induction a as [|c a IH]; [done|]. rewrite app_cons. simpl. by rewrite IH.
Qed.

Lemma join_app (xs ys : list string) : join (xs ++ ys) = join xs +:+ join ys.
Proof.
  induction xs as [|x xs IH]; [done|].
  change (x +:+ join (xs ++ ys) = (x +:+ join xs) +:+ join ys).
  by rewrite IH, append_assoc.
Qed.

(** ** Sorting issues and strings *)

Lemma Sort_Less_sorted (d : list github.Issue.t) :
  StronglySorted (notAfter Less) (Go.Sort Less d).
Proof.
  apply (Sort_sorted Less (λ _, True)).
  - intros a b _ _. apply Less_asym.
  - intros a b c _ _ _. apply Less_ntrans.
  - by apply Forall_forall.
Qed.

Lemma Sort_Less_idemp (d : list github.Issue.t) :
  Go.Sort Less (Go.Sort Less d) = Go.Sort Less d.
Proof. apply Sort_sorted_id, Sort_Less_sorted. Qed.

Lemma Strings_sorted (ks : list string) :
  StronglySorted (notAfter String.ltb) (Go.Strings ks).
Proof.
  apply (Sort_sorted String.ltb (λ _, True)).
  - intros a b _ _. apply ltb_asym.
  - intros a b c _ _ _. apply ltb_ntrans.
  - by apply Forall_forall.
Qed.

(** A sorted slice of distinct strings is strictly ascending. *)
Lemma Strings_ascending (ks : list string) :
  NoDup ks → StronglySorted (λ a b, String.ltb a b = true) (Go.Strings ks).
Proof.
  intros Hnd. assert (NoDup (Go.Strings ks)) as Hnd'.
  { unfold Go.Strings. by rewrite Sort_perm. }
  pose proof (Strings_sorted ks) as Hs.
  induction Hs as [|a l Hs IH Ha]; [constructor|].
  apply NoDup_cons in Hnd' as [Hal Hnd']. constructor; [by apply IH|].
  rewrite Forall_forall in Ha |- *. intros b Hb. apply ltb_total.
  - intros ->. done.
  - by apply Ha.
Qed.

Lemma ascending_unique (l1 l2 : list string) :
  StronglySorted (λ a b, String.ltb a b = true) l1 →
  StronglySorted (λ a b, String.ltb a b = true) l2 →
  (∀ x, x ∈ l1 ↔ x ∈ l2) → l1 = l2.
Proof.
  intros H1. revert l2. induction H1 as [|a l1 H1 IH Ha]; intros l2 H2 Heq.
  - destruct l2 as [|b l2]; [done|]. exfalso.
    apply (not_elem_of_nil b), Heq. by left.
  - destruct H2 as [|b l2 H2 Hb].
    { exfalso. apply (not_elem_of_nil a), Heq. by left. }
    rewrite Forall_forall in Ha, Hb.
    assert (a = b) as ->.
    { assert (a ∈ b :: l2) as Ha2 by (apply Heq; by left).
      assert (b ∈ a :: l1) as Hb1 by (apply Heq; by left).
      apply elem_of_cons in Ha2 as [?|Ha2]; [done|].
      apply elem_of_cons in Hb1 as [?|Hb1]; [done|].
      pose proof (Ha b Hb1) as Hab. pose proof (Hb a Ha2) as Hba.
      apply ltb_asym in Hab. congruence. }
    f_equal. apply IH; [done|]. intros x. split; intros Hx.
    + assert (x ∈ b :: l2) as Hx2 by (apply Heq; by right).
      apply elem_of_cons in Hx2 as [->|?]; [|done].
      pose proof (Ha b Hx) as Hbb. by rewrite ltb_irrefl in Hbb.
    + assert (x ∈ b :: l1) as Hx1 by (apply Heq; by right).
      apply elem_of_cons in Hx1 as [->|?]; [|done].
      pose proof (Hb b Hx) as Hbb. by rewrite ltb_irrefl in Hbb.
Qed.

(** [sort.Strings] of the keys of a map does not depend on the order
    in which the keys were gathered. *)
Lemma Strings_keys (ks ks' : list string) :
  NoDup ks → NoDup ks' → (∀ x, x ∈ ks ↔ x ∈ ks') →
  Go.Strings ks = Go.Strings ks'.
Proof.
  intros H1 H2 Heq. apply ascending_unique; try by apply Strings_ascending.
  intros x. unfold Go.Strings. by rewrite !Sort_elem_of.
Qed.

Section MarkdownPrint.
Import Markdown MarkdownSpec.

Lemma print_lines xs st :
  foldl (λ st x, print (issueLine x) st) st xs
  = State (issues st) (parsed st) (msCounts st) (msURLs st)
          (stdout st +:+ join (issueLine <$> xs)).
Proof.
  revert st. induction xs as [|x xs IH]; intros st.
  - simpl. rewrite append_nil_r. by destruct st.
  - simpl. rewrite IH. simpl. f_equal. by rewrite append_assoc.
Qed.

Lemma printComponent_spec ms st cmp cmps d :
  parsed st !! ms = Some cmps → cmps !! cmp = Some d →
  printComponent ms st cmp
  = State (issues st) (<[ms := <[cmp := Go.Sort Less d]> cmps]> (parsed st))
          (msCounts st) (msURLs st) (stdout st +:+ componentText cmp d).
Proof.
  intros Hp Hc. unfold printComponent. rewrite Hp. simpl. rewrite Hc. simpl.
  rewrite print_lines. simpl. f_equal. unfold componentText.
  by rewrite append_assoc.
Qed.

Lemma SameC_refl cmps : SameC cmps cmps.
Proof. intros c. by destruct (cmps !! c). Qed.

Lemma SameC_is_Some cmps cmps' c :
  SameC cmps cmps' → is_Some (cmps' !! c) ↔ is_Some (cmps !! c).
Proof.
  intros HS. specialize (HS c).
  by destruct (cmps !! c), (cmps' !! c).
Qed.

Lemma componentText_Sort c d d' :
  Go.Sort Less d' = Go.Sort Less d → componentText c d' = componentText c d.
Proof. unfold componentText. by intros ->. Qed.

(** The loop over the sorted component names. *)
Lemma printComponents_spec ms cmps0 keys :
  ∀ st cmps,
  parsed st !! ms = Some cmps → SameC cmps0 cmps →
  (∀ c, c ∈ keys → is_Some (cmps0 !! c)) →
  let st' := foldl (printComponent ms) st keys in
  issues st' = issues st ∧ msCounts st' = msCounts st
  ∧ msURLs st' = msURLs st
  ∧ (∀ t, t ≠ ms → parsed st' !! t = parsed st !! t)
  ∧ (∃ cmps', parsed st' !! ms = Some cmps' ∧ SameC cmps0 cmps')
  ∧ stdout st' =
      stdout st
      +:+ join ((λ c, componentText c (default [] (cmps0 !! c))) <$> keys).
Proof.
  induction keys as [|c keys IH]; intros st cmps Hp HS Hk; simpl.
  { do 4 (split; [done|]). split; [by exists cmps|]. by rewrite append_nil_r. }
  destruct (Hk c) as [d0 Hd0]; [by left|].
  pose proof (HS c) as HSc. rewrite Hd0 in HSc.
  destruct (cmps !! c) as [d|] eqn:Hd; [|done].
  rewrite (printComponent_spec ms st c cmps d Hp Hd).
  set (st1 := State _ _ _ _ _).
  destruct (IH st1 (<[c := Go.Sort Less d]> cmps))
    as (E1 & E2 & E3 & E4 & E5 & E6).
  - unfold st1. simpl. by rewrite lookup_insert_eq.
  - intros c'. rewrite lookup_insert. case_decide as Hcc.
    + subst c'. rewrite Hd0. by rewrite Sort_Less_idemp.
    + apply HS.
  - intros c' Hc'. apply Hk. by right.
  - split; [exact E1|]. split; [exact E2|]. split; [exact E3|]. split.
    + intros t Ht. rewrite E4 by done. unfold st1. simpl.
      by rewrite lookup_insert_ne.
    + split; [exact E5|]. rewrite E6. unfold st1. simpl.
      rewrite Hd0. simpl. rewrite (componentText_Sort c d0 d HSc).
      change (join (componentText c d0 :: ?r)) with (componentText c d0 +:+ join r).
      by rewrite append_assoc.
Qed.

Lemma listed_nonnil t c l :
  listed t c l ≠ [] ↔
  c ∈ (ofMilestone t l ≫= λ x, Go.from 11 <$> componentLabels x).
Proof.
  unfold listed, copies. rewrite list_elem_of_bind. split.
  - intros Hne.
    destruct (ofMilestone t l ≫= _) as [|y r] eqn:Hb; [done|].
    assert (y ∈ y :: r) as Hy by left. rewrite <- Hb in Hy.
    apply list_elem_of_bind in Hy as (x & Hyx & Hx).
    apply list_elem_of_fmap in Hyx as (lbl & _ & Hlbl).
    apply list_elem_of_filter in Hlbl as [Hc Hlbl].
    exists x. split; [|done]. apply list_elem_of_fmap. by exists lbl.
  - intros (x & Hc & Hx) Hnil.
    apply list_elem_of_fmap in Hc as (lbl & -> & Hlbl).
    assert (x ∈ ofMilestone t l ≫=
              λ x, (λ _, x) <$> filter (λ lbl0, Go.from 11 lbl0 = Go.from 11 lbl)
                                       (componentLabels x)) as Hin.
    { apply list_elem_of_bind. exists x. split; [|done].
      apply list_elem_of_fmap. exists lbl. split; [done|].
      by apply list_elem_of_filter. }
    rewrite Hnil in Hin. by apply elem_of_nil in Hin.
Qed.

Lemma nonnil_is_Some {A} (d : list A) : is_Some (nonnil d) ↔ d ≠ [].
Proof. destruct d; simpl; split; try done; by intros [? ?]. Qed.

Lemma sortedCmpKeys_collected t l cmps0 cmps :
  (∀ c, cmps0 !! c = nonnil (listed t c l)) → SameC cmps0 cmps →
  sortedCmpKeys cmps = componentNames t l.
Proof.
  intros HD HS. unfold sortedCmpKeys, componentNames. apply Strings_keys.
  - apply NoDup_fst_map_to_list.
  - apply NoDup_remove_dups.
  - intros c. rewrite elem_of_remove_dups, <- listed_nonnil.
    rewrite <- nonnil_is_Some, <- HD, <- (SameC_is_Some cmps0 cmps c HS).
    split.
    + intros Hc. apply list_elem_of_fmap in Hc as ([c' d] & -> & Hcd).
      apply elem_of_map_to_list in Hcd. by exists d.
    + intros [d Hd]. apply list_elem_of_fmap. exists (c, d). split; [done|].
      by apply elem_of_map_to_list.
Qed.

Lemma Same_refl st : Same st st.
Proof.
  do 3 (split; [done|]). intros t. destruct (parsed st !! t); [|done].
  apply SameC_refl.
Qed.

(** One round of the loop over the requested milestones. *)
Lemma printMilestone_spec l st0 st ms :
  Collected l st0 → Same st0 st →
  Same st0 (printMilestone st ms)
  ∧ stdout (printMilestone st ms) =
      stdout st +:+ match ofMilestone ms l with
                    | [] => ""
                    | _ => blockText l ms
                    end.
Proof.
  intros (_ & Hinv) HS. pose proof HS as (S1 & S2 & S3 & S4).
  destruct (Hinv ms) as (Hu & Hd). pose proof (S4 ms) as S4ms.
  unfold printMilestone.
  destruct (ofMilestone ms l) as [|y r] eqn:Hn.
  { destruct Hd as (Hp0 & _). rewrite Hp0 in S4ms.
    destruct (parsed st !! ms); [done|]. by rewrite append_nil_r. }
  destruct Hd as (Hc0 & cmps0 & Hp0 & HD). rewrite Hp0 in S4ms.
  destruct (parsed st !! ms) as [cmps|] eqn:Hp; [|done].
  set (st1 := print _ st).
  destruct (printComponents_spec ms cmps0 (sortedCmpKeys cmps) st1 cmps)
    as (E1 & E2 & E3 & E4 & (cmps' & Hp' & HS') & E6); [done|done| |].
  { intros c Hc. apply (SameC_is_Some cmps0 cmps c S4ms).
    unfold sortedCmpKeys, Go.Strings in Hc. rewrite Sort_elem_of in Hc.
    apply list_elem_of_fmap in Hc as ([c' d] & -> & Hcd).
    apply elem_of_map_to_list in Hcd. by exists d. }
  split.
  - split; [simpl; by rewrite E1|]. split; [simpl; by rewrite E2|].
    split; [simpl; by rewrite E3|]. intros t. simpl.
    destruct (decide (t = ms)) as [->|Hne].
    + by rewrite Hp0, Hp'.
    + rewrite E4 by done. apply S4.
  - simpl. rewrite E6. unfold st1. simpl.
    rewrite (sortedCmpKeys_collected ms l cmps0 cmps HD S4ms).
    rewrite S2, S3, Hc0, Hu, <- Hn. simpl. unfold blockText.
    assert ((λ c, componentText c (default [] (cmps0 !! c)))
              <$> componentNames ms l
            = (λ c, componentText c (listed ms c l)) <$> componentNames ms l)
      as ->.
    { apply list_fmap_ext. intros i c _. by rewrite HD, nonnil_default. }
    by rewrite !append_assoc.
Qed.

(** The store and the text [printIssues] leaves behind. *)
Lemma printIssues_spec l names :
  issues (printIssues l names) = l
  ∧ stdout (printIssues l names) =
      join (blockText l <$> filter (λ n, ofMilestone n l ≠ []) names).
Proof.
  destruct (collect_Collected l) as (Hl & HC). unfold printIssues.
  assert (∀ st, Same (collect l) st →
            Same (collect l) (foldl printMilestone st names)
            ∧ stdout (foldl printMilestone st names) =
                stdout st +:+ join (blockText l <$>
                  filter (λ n, ofMilestone n l ≠ []) names)) as Hgen.
  { induction names as [|n names IH]; intros st HS; simpl.
    - split; [done|]. by rewrite append_nil_r.
    - destruct (printMilestone_spec l (collect l) st n HC HS) as (HS1 & Ho1).
      destruct (IH _ HS1) as (HS2 & Ho2). split; [done|].
      rewrite Ho2, Ho1, append_assoc. f_equal. rewrite filter_cons.
      destruct (ofMilestone n l) as [|y r] eqn:Hn.
      + by rewrite decide_False by auto.
      + by rewrite decide_True. }
  destruct (Hgen (collect l) (Same_refl _)) as ((S1 & _) & Ho).
  split; [congruence|]. rewrite Ho. destruct HC as (-> & _). done.
Qed.
End MarkdownPrint.

(** * The claims *)

(** ** Ordering of issues *)

Lemma Less_irrefl x : Less x x = false.
Proof. apply Less_key_false. by left. Qed.

(** Two positions of a slice ordered by [less]. *)
Lemma sorted_positions {A} (less : A → A → bool) (d : list A) a b u v :
  StronglySorted (notAfter less) d →
  d !! a = Some u → d !! b = Some v →
  ((a < b)%nat → less v u = false)
  ∧ (less u u = false → less u v = true → (a < b)%nat).
Proof.
  intros Hs Ha Hb. split.
  - intros Hab. apply (StronglySorted_lookup_lt _ _ _ _ _ _ Hs Ha Hb Hab).
  - intros Hirr Hlt. destruct (decide (a < b)%nat) as [|Hge]; [done|]. exfalso.
    destruct (decide (a = b)) as [->|Hne].
    + assert (u = v) as -> by congruence. congruence.
    + assert (b < a)%nat as Hba by lia.
      pose proof (StronglySorted_lookup_lt _ _ _ _ _ _ Hs Hb Ha Hba) as Hn.
      unfold notAfter in Hn. congruence.
Qed.

(** The same in terms of the composite key of the two issues. *)
Lemma positions_by_key (a b : nat) x y :
  ((a < b)%nat → Less y x = false) →
  (Less x y = true → (a < b)%nat) →
  (lexico (key x) (key y) → (a < b)%nat)
  ∧ ((a < b)%nat → key x = key y ∨ lexico (key x) (key y))
  ∧ (github.Issue.Number x ≠ github.Issue.Number y →
     ((a < b)%nat ↔ lexico (key x) (key y))).
Proof.
  intros Hfwd Hbwd.
  assert ((a < b)%nat → key x = key y ∨ lexico (key x) (key y)) as Hfwd'.
  { intros Hab. apply Hfwd, Less_key_false in Hab as [Hn|Hn]; auto. }
  assert (lexico (key x) (key y) → (a < b)%nat) as Hbwd'.
  { intros Hlt. by apply Hbwd, Less_key. }
  split; [done|]. split; [done|]. intros Hnum. split; [|done].
  intros Hab. destruct (Hfwd' Hab) as [Heq|?]; [|done].
  apply key_eq in Heq as (_ & _ & ?). done.
Qed.

(** C2. Within a component, issues are ordered by the composite key
    (closedFlag, assignedFlag, id): in the store [parseIssues] of
    part_000 returns and in every slice sorted through [Issues.Less]
    of main.go, an issue with the smaller key stands first, an issue
    that stands first has no larger key, and for two issues with
    different numbers position and key order coincide.  The three
    sample issues 5 (open, unassigned), 2 (open, assigned) and 9
    (closed) come out as 5, 2, 9. *)
Theorem C2_sorted_by_key l t p m q cmp a b wa wb x y :
  Badge.msMap (Badge.parseIssues l) !! t = Some p →
  Badge.milestones (Badge.parseIssues l) !! p = Some m →
  q ∈ Badge.milestone.Components m →
  Badge.components (Badge.parseIssues l) !! q = Some cmp →
  Badge.component.Issues cmp !! a = Some wa →
  Badge.component.Issues cmp !! b = Some wb →
  l !! Badge.issue.Issue wa = Some x →
  l !! Badge.issue.Issue wb = Some y →
  ((lexico (key x) (key y) → (a < b)%nat)
   ∧ ((a < b)%nat → key x = key y ∨ lexico (key x) (key y))
   ∧ (github.Issue.Number x ≠ github.Issue.Number y →
      ((a < b)%nat ↔ lexico (key x) (key y))))
  ∧ (∀ (d : list github.Issue.t) a' b' x' y',
       Go.Sort Less d !! a' = Some x' → Go.Sort Less d !! b' = Some y' →
       (lexico (key x') (key y') → (a' < b')%nat)
       ∧ ((a' < b')%nat → key x' = key y' ∨ lexico (key x') (key y'))
       ∧ (github.Issue.Number x' ≠ github.Issue.Number y' →
          ((a' < b')%nat ↔ lexico (key x') (key y'))))
  ∧ github.Issue.Number <$> Go.Sort Less [Sample.i2; Sample.i9; Sample.i5]
    = [5; 2; 9].
Proof.
  intros Hp Hm Hq Hcmp Ha Hb Hx Hy.
  split; [|split; [|by vm_compute]].
  - destruct (parseIssues_inv l) as (Hgh & _ & _ & _ & _ & Hs).
    destruct (Hs t p Hp) as (m' & Hm' & _ & Hsi).
    assert (m' = m) as -> by congruence.
    specialize (Hsi q cmp Hq Hcmp).
    destruct (sorted_positions _ _ a b wa wb Hsi Ha Hb) as (Hfwd & Hbwd).
    unfold Badge.issues_Less in Hfwd, Hbwd. rewrite Hgh, Hx, Hy in *.
    apply positions_by_key; [done|]. apply Hbwd, Less_irrefl.
  - intros d a' b' x' y' Ha' Hb'.
    destruct (sorted_positions _ _ a' b' x' y' (Sort_Less_sorted d) Ha' Hb')
      as (Hfwd & Hbwd).
    apply positions_by_key; [done|]. apply Hbwd, Less_irrefl.
Qed.

(** ** Counters *)

Lemma filter_split_length {A} (P : A → Prop) `{∀ x, Decision (P x)} (l : list A) :
  (length (filter P l) + length (filter (λ x, ¬ P x) l))%nat = length l.
Proof.
  induction l as [|x l IH]; [done|]. rewrite !filter_cons.
  destruct (decide (P x)), (decide (¬ P x)); simpl; try tauto; lia.
Qed.

Lemma wrap_length {A} (a : list A) (n : nat) :
  Z.of_nat n ≤ Go.MaxInt → (length a ≤ n)%nat →
  Go.wrap (Z.of_nat (length a)) = Z.of_nat (length a).
Proof.
  intros Hn Ha. apply wrap_small. unfold Go.MinInt, Go.MaxInt in *. lia.
Qed.

Lemma ofMilestone_length t (l : list github.Issue.t) :
  (length (ofMilestone t l) ≤ length l)%nat.
Proof. apply length_filter. Qed.

Section BadgeCounters.
Import Badge BadgeSpec.

Lemma closed_true x : closed x = true ↔ github.Issue.ClosedAt x ≠ None.
Proof. unfold closed. by rewrite bool_decide_eq_true. Qed.

Lemma closed_false x : closed x = false ↔ github.Issue.ClosedAt x = None.
Proof.
  unfold closed. rewrite bool_decide_eq_false.
  destruct (github.Issue.ClosedAt x) as [z|]; split; try done.
  - intros Hn. by destruct Hn.
  - intros _ Hn. by apply Hn.
Qed.

(** The counters of a list of issues, when nothing overflows. *)
Lemma statsOf_counts il (n : nat) :
  Z.of_nat n ≤ Go.MaxInt → (length il ≤ n)%nat →
  let a := il.*2 in
  stats.Total (statsOf il) = Z.of_nat (length a)
  ∧ stats.Closed (statsOf il)
    = Z.of_nat (length (filter (λ x, github.Issue.ClosedAt x ≠ None) a))
  ∧ stats.Closed (statsOf il)
    + Z.of_nat (length (filter (λ x, github.Issue.ClosedAt x = None) a))
    = stats.Total (statsOf il).
Proof.
  intros Hn Hlen a. rewrite statsOf_snd. simpl. fold a.
  assert (length a ≤ n)%nat as Ha by (unfold a; by rewrite length_fmap).
  rewrite (list_filter_iff (λ x, closed x = true)
             (λ x, github.Issue.ClosedAt x ≠ None)) by apply closed_true.
  pose proof (length_filter (λ x, github.Issue.ClosedAt x ≠ None) a) as Hc.
  rewrite (wrap_length a n), (wrap_length (filter _ a) n) by (done || lia).
  split; [done|]. split; [done|].
  pose proof (filter_split_length (λ x, github.Issue.ClosedAt x ≠ None) a)
    as Hsplit.
  rewrite (list_filter_iff (λ x, ¬ github.Issue.ClosedAt x ≠ None)
             (λ x, github.Issue.ClosedAt x = None)) in Hsplit.
  - lia.
  - intros x. destruct (github.Issue.ClosedAt x) as [z|]; split; try done.
    + intros Hnn. by destruct Hnn.
    + intros _ Hnn. by apply Hnn.
Qed.
End BadgeCounters.

(** C3. For an input of any length that fits Go's [int]: the counters
    of every milestone and of every component [parseIssues] of
    part_000 builds are the numbers of input issues attributed to it
    (in all, and closed), the closed and the open ones add up to the
    total, and every entry of a component's list is an input issue of
    that milestone and component; the [open] and [closed] counters of
    main.go count the open and the closed issues of the milestone and
    add up to their number.  Only issues with a milestone reference
    are attributed to a milestone. *)
Theorem C3_counters (l : list github.Issue.t) (t : string) :
  Z.of_nat (length l) ≤ Go.MaxInt →
  (∀ p m,
     Badge.msMap (Badge.parseIssues l) !! t = Some p →
     Badge.milestones (Badge.parseIssues l) !! p = Some m →
     let s := Badge.milestone.Stats m in
     Badge.stats.Total s = Z.of_nat (length (ofMilestone t l))
     ∧ Badge.stats.Closed s
       = Z.of_nat (length (filter (λ x, github.Issue.ClosedAt x ≠ None)
                                  (ofMilestone t l)))
     ∧ Badge.stats.Closed s
       + Z.of_nat (length (filter (λ x, github.Issue.ClosedAt x = None)
                                  (ofMilestone t l)))
       = Badge.stats.Total s
     ∧ ∀ q cmp,
         q ∈ Badge.milestone.Components m →
         Badge.components (Badge.parseIssues l) !! q = Some cmp →
         let c := Badge.component.Name cmp in
         let s := Badge.component.Stats cmp in
         Badge.stats.Total s = Z.of_nat (length (BadgeSpec.ofComponent t c l))
         ∧ Badge.stats.Closed s
           = Z.of_nat (length (filter (λ x, github.Issue.ClosedAt x ≠ None)
                                      (BadgeSpec.ofComponent t c l)))
         ∧ Badge.stats.Closed s
           + Z.of_nat (length (filter (λ x, github.Issue.ClosedAt x = None)
                                      (BadgeSpec.ofComponent t c l)))
           = Badge.stats.Total s
         ∧ length (Badge.component.Issues cmp)
           = length (BadgeSpec.ofComponent t c l)
         ∧ ∀ w, w ∈ Badge.component.Issues cmp →
             ∃ x, l !! Badge.issue.Issue w = Some x
               ∧ title x = Some t ∧ BadgeSpec.cmpOf x = c)
  ∧ (ofMilestone t l ≠ [] →
     ∃ c, Markdown.msCounts (Markdown.collect l) !! t = Some c
       ∧ Markdown.stats.open c
         = Z.of_nat (length (filter (λ x, github.Issue.ClosedAt x = None)
                                    (ofMilestone t l)))
       ∧ Markdown.stats.closed c
         = Z.of_nat (length (filter (λ x, github.Issue.ClosedAt x ≠ None)
                                    (ofMilestone t l)))
       ∧ Go.add (Markdown.stats.open c) (Markdown.stats.closed c)
         = Z.of_nat (length (ofMilestone t l)))
  ∧ (ofMilestone t l = [] →
     Badge.msMap (Badge.parseIssues l) !! t = None
     ∧ Markdown.msCounts (Markdown.collect l) !! t = None)
  ∧ ∀ x, x ∈ ofMilestone t l → github.Issue.Milestone x ≠ None.
Proof.
  intros Hlen. split; [|split; [|split]].
  - intros p m Hp Hm s.
    destruct (parseIssues_inv l) as (Hgh & (W1 & _) & (M1 & M2) & HC & _).
    destruct (W1 t p Hp) as (m' & cm & Hm' & _ & Hcm & _).
    assert (m' = m) as -> by congruence.
    assert (length (indexed l) = length l) as Hil.
    { rewrite <- (length_fmap snd), indexed_snd. done. }
    destruct (statsOf_counts (BadgeSpec.inMs t (indexed l)) (length l) Hlen)
      as (T1 & T2 & T3).
    { unfold BadgeSpec.inMs. rewrite <- Hil. apply length_filter. }
    rewrite inMs_snd in T1, T2, T3. unfold s. rewrite (M2 t p m Hp Hm).
    do 3 (split; [done|]).
    intros q cmp Hq Hcmp. set (c := Badge.component.Name cmp).
    destruct (HC t p m cm Hp Hm Hcm) as (_ & Hdata).
    destruct (Hdata q cmp Hq Hcmp) as (_ & Hperm & Hst).
    destruct (statsOf_counts (BadgeSpec.inCmp t c (indexed l)) (length l) Hlen)
      as (U1 & U2 & U3).
    { unfold BadgeSpec.inCmp, BadgeSpec.inMs. rewrite <- Hil.
      etrans; apply length_filter. }
    rewrite inCmp_snd in U1, U2, U3. rewrite Hst.
    do 3 (split; [done|]). split.
    + by rewrite Hperm, length_fmap, <- (inCmp_snd t c l), length_fmap.
    + intros w Hw. rewrite Hperm in Hw.
      apply list_elem_of_fmap in Hw as ([i x] & -> & Hix).
      apply list_elem_of_filter in Hix as [Hc Hix].
      apply list_elem_of_filter in Hix as [Ht Hix].
      apply elem_of_indexed in Hix. by exists x.
  - intros Hne. destruct (collect_Collected l) as (_ & _ & Hinv).
    destruct (Hinv t) as (_ & Hd).
    destruct (ofMilestone t l) as [|y r] eqn:Hn; [done|].
    destruct Hd as (Hc & _). rewrite <- Hn in *. eexists. split; [exact Hc|].
    unfold MarkdownSpec.countsOf. simpl.
    pose proof (ofMilestone_length t l) as Hb.
    pose proof (length_filter (λ x, github.Issue.ClosedAt x = None)
                  (ofMilestone t l)) as Ho.
    pose proof (length_filter (λ x, github.Issue.ClosedAt x ≠ None)
                  (ofMilestone t l)) as Hc'.
    rewrite !(wrap_length _ (length l)) by (done || lia).
    do 2 (split; [done|]).
    pose proof (filter_split_length (λ x, github.Issue.ClosedAt x = None)
                  (ofMilestone t l)) as Hsplit.
    unfold Go.add. rewrite wrap_small; [lia|].
    unfold Go.MinInt, Go.MaxInt in *. lia.
  - intros Hnil. split; [by apply parseIssues_lookup_None|].
    destruct (collect_Collected l) as (_ & _ & Hinv).
    destruct (Hinv t) as (_ & Hd). rewrite Hnil in Hd. apply Hd.
  - intros x Hx. apply list_elem_of_filter in Hx as [Ht _].
    unfold title in Ht. by destruct (github.Issue.Milestone x).
Qed.

(** ** Order of the components *)

Lemma ascending_NoDup (l : list string) :
  StronglySorted (λ a b, String.ltb a b = true) l → NoDup l.
Proof.
  induction 1 as [|a l Hs IH Ha]; constructor; [|done].
  intros Hin. rewrite Forall_forall in Ha. specialize (Ha a Hin).
  by rewrite ltb_irrefl in Ha.
Qed.

(** C4. The components [parseIssues] of part_000 leaves under a
    milestone, read in slice order, have strictly ascending names
    (byte-wise, as Go compares strings), hence no name twice; so have
    the keys [sortedCmpKeys] of main.go returns, which are exactly the
    keys of its argument. *)
Theorem C4_components_sorted (l : list github.Issue.t) (t : string) :
  (∀ p, Badge.msMap (Badge.parseIssues l) !! t = Some p →
     ∃ m cs, Badge.resolve (Badge.parseIssues l) p = Some (m, cs)
       ∧ StronglySorted (λ a b, String.ltb a b = true)
                        (Badge.component.Name <$> cs)
       ∧ NoDup (Badge.component.Name <$> cs))
  ∧ ∀ mp : gmap string (list github.Issue.t),
      StronglySorted (λ a b, String.ltb a b = true) (Markdown.sortedCmpKeys mp)
      ∧ NoDup (Markdown.sortedCmpKeys mp)
      ∧ ∀ c, c ∈ Markdown.sortedCmpKeys mp ↔ is_Some (mp !! c).
Proof.
  split.
  - intros p Hp.
    destruct (parseIssues_report l t p Hp)
      as (m & cs & Hres & _ & _ & _ & _ & Hs & _).
    exists m, cs. split; [done|]. split; [done|]. by apply ascending_NoDup.
  - intros mp.
    assert (StronglySorted (λ a b, String.ltb a b = true)
              (Markdown.sortedCmpKeys mp)) as Hs.
    { apply Strings_ascending, NoDup_fst_map_to_list. }
    split; [done|]. split; [by apply ascending_NoDup|].
    intros c. unfold Markdown.sortedCmpKeys, Go.Strings.
    rewrite Sort_elem_of. split.
    + intros Hc. apply list_elem_of_fmap in Hc as ([c' d] & -> & Hcd).
      apply elem_of_map_to_list in Hcd. by exists d.
    + intros [d Hd]. apply list_elem_of_fmap. exists (c, d). split; [done|].
      by apply elem_of_map_to_list.
Qed.

(** ** The requested milestones *)

Lemma requested_pointers (msMap : gmap string nat) names sl :
  foldl (λ sl name, match msMap !! name with
                    | Some ms => sl ++ [ms]
                    | None => sl
                    end) sl names
  = sl ++ omap (λ name, msMap !! name) names.
Proof.
  revert sl. induction names as [|n names IH]; intros sl; simpl.
  - by rewrite app_nil_r.
  - rewrite IH. destruct (msMap !! n); [|done]. by rewrite <- app_assoc.
Qed.

Lemma ofMilestone_nonempty t l :
  ofMilestone t l ≠ [] ↔
  ∃ x ms, x ∈ l ∧ github.Issue.Milestone x = Some ms
          ∧ github.Milestone.Title ms = t.
Proof.
  split.
  - intros Hne. destruct (ofMilestone t l) as [|x r] eqn:Hn; [done|].
    assert (x ∈ ofMilestone t l) as Hx by (rewrite Hn; left).
    apply list_elem_of_filter in Hx as [Ht Hx]. unfold title in Ht.
    destruct (github.Issue.Milestone x) as [ms|] eqn:Hms; [|done].
    exists x, ms. simpl in Ht. by simplify_eq.
  - intros (x & ms & Hx & Hms & Ht) Hnil.
    assert (x ∈ ofMilestone t l) as Hin.
    { apply list_elem_of_filter. split; [|done]. unfold title.
      rewrite Hms. simpl. by rewrite Ht. }
    rewrite Hnil in Hin. by apply elem_of_nil in Hin.
Qed.

Lemma blockText_heading l n :
  ∃ rest, MarkdownSpec.blockText l n = "### " +:+ n +:+ " [" +:+ rest.
Proof.
  unfold MarkdownSpec.blockText, Markdown.heading.
  eexists. rewrite !append_assoc. reflexivity.
Qed.

(** C5. The milestones handed to the template of part_000, and the
    blocks main.go prints, are those of the requested names that are
    the title of the milestone of some input issue, in the order
    requested and as often as requested; every block starts with the
    heading of its milestone, a name no issue refers to contributes
    nothing, and main.go returns no error. *)
Theorem C5_requested_milestones (l : list github.Issue.t) (names : list string) :
  let present := filter (λ n, ofMilestone n l ≠ []) names in
  Forall2 (λ n p, ∃ m cs,
             Badge.msMap (Badge.printIssues l names).1 !! n = Some p
             ∧ Badge.resolve (Badge.printIssues l names).1 p = Some (m, cs)
             ∧ github.Milestone.Title (Badge.milestone.Milestone m) = n)
          present (Badge.printIssues l names).2
  ∧ Markdown.stdout (Markdown.printIssues l names)
    = join (MarkdownSpec.blockText l <$> present)
  ∧ (∀ n, ∃ rest, MarkdownSpec.blockText l n = "### " +:+ n +:+ " [" +:+ rest)
  ∧ (@Run.printMarkdown Empty_set l names).2 = None
  ∧ ∀ n, n ∈ present ↔
         n ∈ names ∧ ∃ x ms, x ∈ l ∧ github.Issue.Milestone x = Some ms
                             ∧ github.Milestone.Title ms = n.
Proof.
  intros present. split; [|split; [|split; [|split]]].
  - unfold Badge.printIssues. simpl. rewrite requested_pointers. simpl.
    unfold present. clear present.
    induction names as [|n names IH]; [constructor|].
    rewrite filter_cons. simpl.
    destruct (Badge.msMap (Badge.parseIssues l) !! n) as [p|] eqn:Hp.
    + rewrite decide_True.
      2:{ intros Hnil. apply parseIssues_lookup_None in Hnil. congruence. }
      constructor; [|done].
      destruct (parseIssues_report l n p Hp) as (m & cs & Hres & _ & _ & Ht & _).
      by exists m, cs.
    + rewrite decide_False; [done|]. intros Hne. apply Hne.
      by apply parseIssues_lookup_None.
  - apply printIssues_spec.
  - intros n. apply blockText_heading.
  - done.
  - intros n. unfold present. rewrite list_elem_of_filter, ofMilestone_nonempty.
    tauto.
Qed.

(** ** Remaining days *)

Section BadgeDays.
Import Badge BadgeSpec.

Lemma statsOf_days il :
  stats.Days (statsOf il)
  = Go.wrap (sumZ (daysOf <$> filter (λ x, github.Issue.ClosedAt x = None)
                                     il.*2)).
Proof.
  rewrite statsOf_snd. simpl.
  by rewrite (list_filter_iff (λ x, closed x = false)
                (λ x, github.Issue.ClosedAt x = None)) by apply closed_false.
Qed.
End BadgeDays.

(** C7. In part_000 the [Days] counter of a milestone, and of a
    component, is the sum, in Go's [int], of the day estimates of the
    open issues attributed to it, and the mathematical sum when that
    fits an [int]; the estimate of a closed issue is no term of it.
    The estimate kept with an entry of a component's list is that of
    the issue the entry points to. *)
Theorem C7_remaining_days (l : list github.Issue.t) (t : string) (p : nat)
    (m : Badge.milestone.t) :
  Badge.msMap (Badge.parseIssues l) !! t = Some p →
  Badge.milestones (Badge.parseIssues l) !! p = Some m →
  let open := filter (λ x, github.Issue.ClosedAt x = None) in
  let sum := sumZ (BadgeSpec.daysOf <$> open (ofMilestone t l)) in
  Badge.stats.Days (Badge.milestone.Stats m) = Go.wrap sum
  ∧ (Go.MinInt ≤ sum ≤ Go.MaxInt → Badge.stats.Days (Badge.milestone.Stats m) = sum)
  ∧ ∀ q cmp,
      q ∈ Badge.milestone.Components m →
      Badge.components (Badge.parseIssues l) !! q = Some cmp →
      let sum :=
        sumZ (BadgeSpec.daysOf <$>
                open (BadgeSpec.ofComponent t (Badge.component.Name cmp) l)) in
      Badge.stats.Days (Badge.component.Stats cmp) = Go.wrap sum
      ∧ (Go.MinInt ≤ sum ≤ Go.MaxInt →
         Badge.stats.Days (Badge.component.Stats cmp) = sum)
      ∧ ∀ w, w ∈ Badge.component.Issues cmp →
          ∃ x, l !! Badge.issue.Issue w = Some x
            ∧ Badge.issue.Days w = BadgeSpec.daysOf x.
Proof.
  intros Hp Hm open sum.
  destruct (parseIssues_inv l) as (Hgh & (W1 & _) & (M1 & M2) & HC & _).
  destruct (W1 t p Hp) as (m' & cm & Hm' & _ & Hcm & _).
  assert (m' = m) as -> by congruence.
  assert (Badge.stats.Days (Badge.milestone.Stats m) = Go.wrap sum) as Hd.
  { rewrite (M2 t p m Hp Hm), statsOf_days, inMs_snd. done. }
  split; [done|]. split; [intros Hr; by rewrite Hd, wrap_small|].
  intros q cmp Hq Hcmp. simpl.
  destruct (HC t p m cm Hp Hm Hcm) as (_ & Hdata).
  destruct (Hdata q cmp Hq Hcmp) as (_ & Hperm & Hst).
  assert (Badge.stats.Days (Badge.component.Stats cmp)
          = Go.wrap (sumZ (BadgeSpec.daysOf <$>
              open (BadgeSpec.ofComponent t (Badge.component.Name cmp) l))))
    as Hdc.
  { rewrite Hst, statsOf_days, inCmp_snd. done. }
  split; [done|]. split; [intros Hr; by rewrite Hdc, wrap_small|].
  intros w Hw. rewrite Hperm in Hw.
  apply list_elem_of_fmap in Hw as ([i x] & -> & Hix).
  apply list_elem_of_filter in Hix as [_ Hix].
  apply list_elem_of_filter in Hix as [_ Hix].
  apply elem_of_indexed in Hix. by exists x.
Qed.

(** ** Estimates *)

Lemma wrap_range z : Go.MinInt ≤ Go.wrap z ≤ Go.MaxInt.
Proof.
  unfold Go.MinInt, Go.MaxInt, Go.wrap.
  pose proof (Z.mod_pos_bound (z + 2 ^ 63) (2 ^ 64)). lia.
Qed.

Lemma wrap_wrap z : Go.wrap (Go.wrap z) = Go.wrap z.
Proof. apply wrap_small, wrap_range. Qed.

Lemma digit_range c v : Go.digit c = Some v → 0 ≤ v ≤ 9.
Proof.
  unfold Go.digit. case_match eqn:Hc; [|done]. intros [= <-].
  apply andb_true_iff in Hc as [H1 H2]. lia.
Qed.

(** *** [strconv.Atoi] *)

Lemma parseUint_range n s :
  0 ≤ n ≤ Go.MaxUint64 → 0 ≤ (Go.parseUint n s).1 ≤ Go.MaxUint64.
Proof.
  revert n. induction s as [|c s IH]; intros n Hn; simpl; [done|].
  destruct (Go.digit c) as [v|] eqn:Hv; [|by vm_compute].
  apply digit_range in Hv.
  destruct (Go.MaxUint64 `div` 10 + 1 <=? n); [by vm_compute|].
  destruct (Go.MaxUint64 <? 10 * n + v) eqn:Hle; [by vm_compute|].
  apply IH. lia.
Qed.

Lemma parseUint_syntax n s :
  (Go.parseUint n s).2 = Some Go.ErrSyntax → (Go.parseUint n s).1 = 0.
Proof.
  revert n. induction s as [|c s IH]; intros n; simpl; [done|].
  destruct (Go.digit c) as [v|]; [|done].
  destruct (Go.MaxUint64 `div` 10 + 1 <=? n); [done|].
  destruct (Go.MaxUint64 <? 10 * n + v); [done|]. apply IH.
Qed.

Lemma ParseUint_range s : 0 ≤ (Go.ParseUint s).1 ≤ Go.MaxUint64.
Proof.
  destruct s as [|c s]; [by vm_compute|]. apply parseUint_range. by vm_compute.
Qed.

Lemma Atoi_syntax s : (Go.Atoi s).2 = Some Go.ErrSyntax → (Go.Atoi s).1 = 0.
Proof.
  unfold Go.Atoi, Go.ParseInt. destruct s as [|c s]; [done|].
  destruct (Go.ParseUint _) as [un [[]|]]; [done|..];
    repeat case_match; simpl; intros; simplify_eq.
Qed.

(** Whatever [Atoi] returns is an [int]. *)
Lemma Atoi_range s : Go.MinInt ≤ (Go.Atoi s).1 ≤ Go.MaxInt.
Proof.
  unfold Go.Atoi, Go.ParseInt. destruct s as [|c s]; [by vm_compute|].
  set (body := if Ascii.eqb c "+" || Ascii.eqb c "-" then s else String c s).
  pose proof (ParseUint_range body) as Hun.
  destruct (Go.ParseUint body) as [un [[]|]]; simpl in Hun;
    [by vm_compute|..];
    (destruct (Ascii.eqb c "-"); simpl;
     [destruct (2 ^ 63 <? un) eqn:Hc; simpl; [by vm_compute|];
      apply Z.ltb_ge in Hc; unfold Go.MinInt, Go.MaxInt; lia
     |destruct (2 ^ 63 <=? un) eqn:Hc; simpl; [by vm_compute|];
      apply Z.leb_gt in Hc; unfold Go.MinInt, Go.MaxInt; lia]).
Qed.

(** A byte that is no digit among the first twenty is met before the
    digits can leave [uint64]. *)
Lemma parseUint_nondigit ds c rest (j : nat) n :
  0 ≤ n < 10 ^ Z.of_nat j → (j + String.length ds ≤ 19)%nat →
  Go.digit c = None →
  Go.parseUint n (ds +:+ String c rest) = (0, Some Go.ErrSyntax).
Proof.
  revert j n. induction ds as [|a ds IH]; intros j n Hn Hj Hc.
  { simpl. by rewrite Hc. }
  change (String a ds +:+ String c rest) with (String a (ds +:+ String c rest)).
  simpl in Hj. cbn [Go.parseUint].
  destruct (Go.digit a) as [v|] eqn:Hv; [|done].
  apply digit_range in Hv.
  assert (10 ^ Z.of_nat j ≤ 10 ^ 18) as Hpow.
  { apply Z.pow_le_mono_r; lia. }
  assert (10 ^ Z.of_nat (S j) = 10 * 10 ^ Z.of_nat j) as Hs.
  { rewrite Nat2Z.inj_succ. apply Z.pow_succ_r. lia. }
  assert (Go.MaxUint64 `div` 10 + 1 = 1844674407370955162) as Hcut
    by (by vm_compute).
  assert (Go.MaxUint64 = 18446744073709551615) as Hmax by (by vm_compute).
  rewrite (proj2 (Z.leb_gt _ _)) by lia.
  rewrite (proj2 (Z.ltb_ge _ _)) by lia.
  apply (IH (S j)); [lia|lia|done].
Qed.

Lemma ParseUint_nondigit ds c rest :
  (String.length ds ≤ 19)%nat → Go.digit c = None →
  Go.ParseUint (ds +:+ String c rest) = (0, Some Go.ErrSyntax).
Proof.
  intros Hlen Hc.
  assert (Go.ParseUint (ds +:+ String c rest)
          = Go.parseUint 0 (ds +:+ String c rest)) as ->.
  { by destruct ds. }
  apply (parseUint_nondigit ds c rest 0); [by vm_compute|lia|done].
Qed.

(** After an optional sign, a byte that is no digit among the first
    twenty makes [Atoi] return 0 and a syntax error. *)
Lemma Atoi_nondigit sign ds c rest :
  sign = "" ∨ sign = "+" ∨ sign = "-" →
  (String.length ds ≤ 19)%nat → Go.digit c = None →
  (sign = "" → ds = "" → c ≠ "+"%char ∧ c ≠ "-"%char) →
  Go.Atoi (sign +:+ ds +:+ String c rest) = (0, Some Go.ErrSyntax).
Proof.
  intros Hsign Hlen Hc Hfirst.
  pose proof (ParseUint_nondigit ds c rest Hlen Hc) as Hu.
  destruct Hsign as [-> | [-> | ->]].
  - change ("" +:+ ds +:+ String c rest) with (ds +:+ String c rest).
    destruct ds as [|a ds].
    + destruct (Hfirst eq_refl eq_refl) as [Hp Hm].
      change ("" +:+ String c rest) with (String c rest) in *.
      unfold Go.Atoi, Go.ParseInt. cbv beta iota zeta.
      rewrite (proj2 (Ascii.eqb_neq _ _) Hp), (proj2 (Ascii.eqb_neq _ _) Hm).
      simpl orb. cbv iota. by rewrite Hu.
    + change (String a ds +:+ String c rest)
        with (String a (ds +:+ String c rest)) in *.
      unfold Go.Atoi, Go.ParseInt. cbv beta iota zeta.
      destruct (Ascii.eqb a "+" || Ascii.eqb a "-") eqn:Hs.
      * rewrite (ParseUint_nondigit ds c rest); [done| |done].
        simpl in Hlen. lia.
      * by rewrite Hu.
  - change ("+" +:+ ds +:+ String c rest)
      with (String "+" (ds +:+ String c rest)).
    unfold Go.Atoi, Go.ParseInt. cbv beta iota zeta.
    change (Ascii.eqb "+" "+" || Ascii.eqb "+" "-") with true.
    cbv iota. by rewrite Hu.
  - change ("-" +:+ ds +:+ String c rest)
      with (String "-" (ds +:+ String c rest)).
    unfold Go.Atoi, Go.ParseInt. cbv beta iota zeta.
    change (Ascii.eqb "-" "+" || Ascii.eqb "-" "-") with true.
    cbv iota. by rewrite Hu.
Qed.

Lemma digit_char d :
  (d < 10)%N → Go.digit (pretty_N_char d) = Some (Z.of_N d).
Proof.
  intros Hd.
  assert (d = 0 ∨ d = 1 ∨ d = 2 ∨ d = 3 ∨ d = 4 ∨ d = 5 ∨ d = 6 ∨ d = 7
          ∨ d = 8 ∨ d = 9)%N as Hcases by lia.
  repeat (destruct Hcases as [-> | Hcases]; [reflexivity|]).
  by subst d.
Qed.

Lemma pretty_N_go_length x s :
  (String.length s ≤ String.length (pretty_N_go x s))%nat.
Proof.
  revert s. induction x as [x IH] using (well_founded_induction N.lt_wf_0).
  intros s. destruct (decide (x = 0%N)) as [->|Hx].
  { by rewrite pretty_N_go_0. }
  rewrite pretty_N_go_step by lia.
  etrans; [|apply IH; apply N.div_lt; lia]. simpl. lia.
Qed.


(** *** [Atoi] on decimal numerals *)

Lemma parseUint_pretty_go x :
  ∃ f : Z → Z,
    (∀ acc, 0 ≤ acc → acc ≤ f acc)
    ∧ (∀ acc s, 0 ≤ acc → f acc ≤ Go.MaxUint64 →
         Go.parseUint acc (pretty_N_go x s) = Go.parseUint (f acc) s)
    ∧ f 0 = Z.of_N x.
Proof.
  induction x as [x IH] using (well_founded_induction N.lt_wf_0).
  destruct (decide (x = 0%N)) as [->|Hx].
  { exists (λ acc, acc). split; [intros; lia|]. split; [|done].
    intros acc s _ _. by rewrite pretty_N_go_0. }
  destruct (IH (x `div` 10)%N) as (f & Hmono & Hf & Hf0).
  { apply N.div_lt; lia. }
  assert (0 ≤ Z.of_N (x `mod` 10) < 10) as Hd.
  { assert (x `mod` 10 < 10)%N as H by (apply N.mod_lt; lia).
    split; [apply N2Z.is_nonneg|]. apply N2Z.inj_lt in H. exact H. }
  assert (Z.of_N x = 10 * Z.of_N (x `div` 10) + Z.of_N (x `mod` 10)) as Hx10.
  { rewrite (N.div_mod x 10) at 1 by lia.
    by rewrite N2Z.inj_add, N2Z.inj_mul. }
  exists (λ acc, 10 * f acc + Z.of_N (x `mod` 10)). split; [|split].
  - intros acc Hacc. pose proof (Hmono acc Hacc).
    revert Hd. generalize (Z.of_N (x `mod` 10)). intros d Hd. lia.
  - intros acc s Hacc Hmax. pose proof (Hmono acc Hacc) as Hge.
    cbv beta in Hmax.
    assert (Go.MaxUint64 = 18446744073709551615) as Hm by (by vm_compute).
    assert (Go.MaxUint64 `div` 10 + 1 = 1844674407370955162) as Hcut
      by (by vm_compute).
    rewrite pretty_N_go_step by lia.
    assert (f acc ≤ Go.MaxUint64) as Hfa.
    { revert Hd Hmax. generalize (Z.of_N (x `mod` 10)). intros d Hd Hmax. lia. }
    rewrite Hf by done.
    cbn [Go.parseUint]. rewrite digit_char by (apply N.mod_lt; lia).
    rewrite Hcut.
    revert Hd Hmax. generalize (Z.of_N (x `mod` 10)). intros d Hd Hmax.
    rewrite (proj2 (Z.leb_gt _ _)) by lia.
    rewrite (proj2 (Z.ltb_ge _ _)) by lia. done.
  - cbv beta. rewrite Hf0. by rewrite Hx10.
Qed.

(** A decimal numeral starts with a digit. *)
Lemma pretty_N_go_head x s :
  (0 < x)%N → ∃ c r, pretty_N_go x s = String c r ∧ Go.digit c ≠ None.
Proof.
  revert s. induction x as [x IH] using (well_founded_induction N.lt_wf_0).
  intros s Hx. rewrite pretty_N_go_step by done.
  destruct (decide (x `div` 10 = 0)%N) as [Hz|Hz].
  - rewrite Hz, pretty_N_go_0. eexists _, _. split; [done|].
    rewrite digit_char by (apply N.mod_lt; lia). done.
  - apply IH; [apply N.div_lt; lia|by apply N.neq_0_lt_0].
Qed.

Lemma pretty_N_head (x : N) :
  ∃ c r, pretty x = String c r ∧ Go.digit c ≠ None.
Proof.
  unfold pretty, pretty_N. destruct (decide (x = 0%N)) as [->|Hx].
  - by exists "0"%char, "".
  - apply pretty_N_go_head. lia.
Qed.

Lemma ParseUint_pretty (x : N) :
  Z.of_N x ≤ Go.MaxUint64 → Go.ParseUint (pretty x) = (Z.of_N x, None).
Proof.
  intros Hx. destruct (pretty_N_head x) as (c & r & Hs & _).
  unfold Go.ParseUint. rewrite Hs, <- Hs. clear c r Hs.
  unfold pretty, pretty_N. destruct (decide (x = 0%N)) as [->|Hne]; [done|].
  destruct (parseUint_pretty_go x) as (f & _ & Hf & Hf0).
  rewrite Hf by (rewrite ?Hf0; lia). by rewrite Hf0.
Qed.

Lemma Atoi_pretty (z : Z) :
  Go.MinInt ≤ z ≤ Go.MaxInt → Go.Atoi (pretty z) = (z, None).
Proof.
  unfold Go.MinInt, Go.MaxInt. intros Hz.
  assert (Go.MaxUint64 = 18446744073709551615) as Hm by (by vm_compute).
  destruct z as [|p|p].
  - reflexivity.
  - change (pretty (Z.pos p)) with (pretty (N.pos p)).
    destruct (pretty_N_head (N.pos p)) as (c & r & Hs & Hc).
    pose proof (ParseUint_pretty (N.pos p)) as Hu. rewrite Hs in Hu |- *.
    unfold Go.Atoi, Go.ParseInt.
    assert (Ascii.eqb c "-" = false ∧ Ascii.eqb c "+" = false) as [-> ->].
    { split; apply Ascii.eqb_neq; intros ->; by apply Hc. }
    simpl orb. cbv iota. rewrite Hu by (simpl; lia). simpl negb. simpl andb.
    rewrite (proj2 (Z.leb_gt _ _)) by (simpl; lia). done.
  - change (pretty (Z.neg p)) with (String "-" (pretty (N.pos p))).
    unfold Go.Atoi, Go.ParseInt.
    change (Ascii.eqb "-" "-") with true. simpl orb. cbv iota.
    rewrite ParseUint_pretty by (simpl; lia). simpl negb. simpl andb.
    rewrite (proj2 (Z.ltb_ge _ _)) by (simpl; lia). done.
Qed.

(** *** Numerals in labels *)

Lemma list_ascii_app (a b : string) :
  String.list_ascii_of_string (a +:+ b)
  = String.list_ascii_of_string a ++ String.list_ascii_of_string b.
Proof.
  induction a as [|c a IH]; [done|]. rewrite app_cons. simpl. by rewrite IH.
Qed.

Lemma ofBytes_bytes s : Go.ofBytes (Go.bytes s) = s.
Proof.
  unfold Go.ofBytes, Go.bytes. rewrite <- list_fmap_compose.
  rewrite (list_fmap_ext _ id).
  - by rewrite list_fmap_id, String.string_of_list_ascii_of_string.
  - intros i c _. apply Ascii.ascii_N_embedding.
Qed.

Lemma substring_full (s : string) : String.substring 0 (String.length s) s = s.
Proof. induction s as [|c s IH]; [done|]. simpl. by rewrite IH. Qed.

Lemma substring_app_l (t u : string) :
  String.substring 0 (String.length t) (t +:+ u) = t.
Proof.
  induction t as [|c t IH]; [by destruct u|]. rewrite app_cons. simpl.
  by rewrite IH.
Qed.

Lemma substring_app_r (t u : string) k :
  String.substring (String.length t) k (t +:+ u) = String.substring 0 k u.
Proof. induction t as [|c t IH]; [done|]. rewrite app_cons. simpl. apply IH. Qed.

Lemma from_app (t u : string) : Go.from (String.length t) (t +:+ u) = u.
Proof.
  unfold Go.from. rewrite string_length_app, substring_app_r.
  replace (String.length t + String.length u - String.length t)%nat
    with (String.length u) by lia.
  apply substring_full.
Qed.

Lemma upto_app (t u : string) : Go.upto (String.length t) (t +:+ u) = t.
Proof. apply substring_app_l. Qed.

Lemma HasSuffix_app (t u : string) : Go.HasSuffix (t +:+ u) u = true.
Proof.
  unfold Go.HasSuffix. rewrite string_length_app.
  replace (String.length t + String.length u - String.length u)%nat
    with (String.length t) by lia.
  rewrite from_app, String.eqb_refl, andb_true_r.
  apply Nat.leb_le. lia.
Qed.

Lemma HasPrefix_app (t u : string) : Go.HasPrefix (t +:+ u) t = true.
Proof.
  unfold Go.HasPrefix. rewrite string_length_app, upto_app, String.eqb_refl.
  rewrite andb_true_r. apply Nat.leb_le. lia.
Qed.

(** Bytes that start or end no white space. *)
Lemma spaceRune_digit c v tl :
  Go.digit c = Some v → Go.spaceRune (Ascii.N_of_ascii c :: tl) = None.
Proof.
  unfold Go.digit. case_match eqn:Hc; [|done]. intros _.
  apply andb_true_iff in Hc as [H1 H2].
  apply Z.leb_le in H1. apply Z.leb_le in H2.
  revert H1 H2. generalize (Ascii.N_of_ascii c). intros b H1 H2.
  assert (b = 48 ∨ b = 49 ∨ b = 50 ∨ b = 51 ∨ b = 52 ∨ b = 53 ∨ b = 54
          ∨ b = 55 ∨ b = 56 ∨ b = 57)%N as Hcases by lia.
  repeat (destruct Hcases as [-> | Hcases]; [reflexivity|]).
  by subst b.
Qed.

Lemma spaceRuneLast_unit (b : N) tl :
  b = 100%N ∨ b = 119%N → Go.spaceRuneLast (b :: tl) = None.
Proof.
  intros [-> | ->]; unfold Go.spaceRuneLast; repeat case_match; done.
Qed.

Lemma TrimSpace_plain s :
  Go.spaceRune (Go.bytes s) = None →
  Go.spaceRuneLast (reverse (Go.bytes s)) = None →
  Go.TrimSpace s = s.
Proof.
  intros H1 H2. unfold Go.TrimSpace.
  assert (Go.trimWith Go.spaceRune (String.length s) (Go.bytes s) = Go.bytes s)
    as ->.
  { destruct (String.length s); simpl; [done|]. by rewrite H1. }
  assert (Go.trimWith Go.spaceRuneLast (length (Go.bytes s))
            (reverse (Go.bytes s)) = reverse (Go.bytes s)) as ->.
  { destruct (length (Go.bytes s)); simpl; [done|]. by rewrite H2. }
  by rewrite reverse_involutive, ofBytes_bytes.
Qed.

Lemma pretty_Z_head (z : Z) :
  ∃ c r, pretty z = String c r ∧ (c = "-"%char ∨ Go.digit c ≠ None).
Proof.
  destruct z as [|p|p].
  - exists "0"%char, "". split; [done|]. by right.
  - change (pretty (Z.pos p)) with (pretty (N.pos p)).
    destruct (pretty_N_head (N.pos p)) as (c & r & Hs & Hc).
    exists c, r. split; [done|]. by right.
  - change (pretty (Z.neg p)) with (String "-" (pretty (N.pos p))).
    eexists _, _. split; [done|]. by left.
Qed.

(** The trimmed text of a numeral followed by its unit. *)
Lemma TrimSpace_numeral (z : Z) (u : ascii) :
  u = "d"%char ∨ u = "w"%char →
  Go.TrimSpace (pretty z +:+ String u "") = pretty z +:+ String u "".
Proof.
  intros Hu. apply TrimSpace_plain.
  - destruct (pretty_Z_head z) as (c & r & -> & Hc). rewrite app_cons.
    unfold Go.bytes. cbn [String.list_ascii_of_string fmap list_fmap].
    destruct Hc as [-> | Hc]; [reflexivity|].
    destruct (Go.digit c) as [v|] eqn:Hv; [|done].
    by apply (spaceRune_digit c v).
  - unfold Go.bytes. rewrite list_ascii_app, fmap_app, reverse_app.
    cbn [String.list_ascii_of_string fmap list_fmap reverse]. 
    change (reverse [Ascii.N_of_ascii u]) with [Ascii.N_of_ascii u].
    cbn [app]. apply spaceRuneLast_unit.
    destruct Hu as [-> | ->]; [by left|by right].
Qed.

(** What a numeral with a unit adds. *)
Lemma estimate_numeral (z : Z) (u : ascii) (d0 : Z) :
  Go.MinInt ≤ z ≤ Go.MaxInt → u = "d"%char ∨ u = "w"%char →
  Badge.estimate ("estimate: " +:+ pretty z +:+ String u "") d0
  = if 0 <? z
    then Go.add d0 (Go.mul (if Ascii.eqb u "d" then 1 else 5) z)
    else d0.
Proof.
  intros Hz Hu. unfold Badge.estimate.
  change (Go.from 10 ?l) with (Go.from (String.length "estimate: ") l).
  rewrite from_app, (TrimSpace_numeral z u Hu).
  assert (String.length (pretty z +:+ String u "") - 1
          = String.length (pretty z))%nat as ->.
  { rewrite string_length_app. simpl. lia. }
  rewrite upto_app, (Atoi_pretty z Hz). cbn [fst].
  assert (Go.HasSuffix (pretty z +:+ String u "") (String u "") = true) as Hsuf
    by apply HasSuffix_app.
  destruct Hu as [-> | ->].
  - rewrite Hsuf. done.
  - assert (Go.HasSuffix (pretty z +:+ "w") "d" = false) as ->.
    { unfold Go.HasSuffix. rewrite string_length_app.
      change (String.length "w") with 1%nat.
      change (String.length "d") with 1%nat.
      replace (String.length (pretty z) + 1 - 1)%nat
        with (String.length (pretty z)) by lia.
      rewrite from_app. apply andb_false_r. }
    rewrite Hsuf. done.
Qed.

(** *** The scan *)

Section Estimates.
Import Badge.

Lemma scan_days_none ls acc :
  Forall (λ lb, Go.HasPrefix (github.Label.String lb) "estimate: " = false) ls →
  days (foldl scanLabel acc ls) = days acc.
Proof.
  intros Hls. revert acc. induction Hls as [|lb ls Hlb Hls IH]; intros acc.
  - done.
  - simpl. rewrite IH. unfold scanLabel. simpl. by rewrite Hlb.
Qed.

Lemma estimate_cases lbl d :
  let str := Go.TrimSpace (Go.from 10 lbl) in
  let num := (Go.Atoi (Go.upto (String.length str - 1) str)).1 in
  (Go.HasSuffix str "d" = false → Go.HasSuffix str "w" = false →
   estimate lbl d = d)
  ∧ (num ≤ 0 → estimate lbl d = d)
  ∧ (0 < num → Go.HasSuffix str "d" = true →
     estimate lbl d = Go.add d (Go.mul 1 num))
  ∧ (0 < num → Go.HasSuffix str "d" = false → Go.HasSuffix str "w" = true →
     estimate lbl d = Go.add d (Go.mul 5 num)).
Proof.
  intros str num. unfold estimate. fold str. fold num.
  repeat split.
  - intros -> ->. done.
  - intros Hn. destruct (Go.HasSuffix str "d"), (Go.HasSuffix str "w");
      simpl; try done; by rewrite (proj2 (Z.ltb_ge 0 num)).
  - intros Hn ->. simpl. by rewrite (proj2 (Z.ltb_lt 0 num)).
  - intros Hn -> ->. simpl. by rewrite (proj2 (Z.ltb_lt 0 num)).
Qed.

(** What a label adds does not depend on what was added before. *)
Lemma estimate_adds lbl d :
  Go.wrap d = d → estimate lbl d = Go.wrap (d + estimate lbl 0).
Proof.
  intros Hd. unfold estimate.
  set (str := Go.TrimSpace (Go.from 10 lbl)).
  set (num := (Go.Atoi (Go.upto (String.length str - 1) str)).1).
  set (m := if Go.HasSuffix str "d" then 1
            else if Go.HasSuffix str "w" then 5 else 0).
  destruct (0 <? m); [|by rewrite Z.add_0_r].
  destruct (0 <? num); [|by rewrite Z.add_0_r].
  unfold Go.add, Go.mul. rewrite Z.add_0_l, wrap_wrap. done.
Qed.

Lemma scan_days ls acc :
  Go.wrap (days acc) = days acc →
  days (foldl scanLabel acc ls)
  = Go.wrap (days acc
             + sumZ ((λ lb, if Go.HasPrefix (github.Label.String lb) "estimate: "
                            then estimate (github.Label.String lb) 0 else 0)
                     <$> ls)).
Proof.
  revert acc. induction ls as [|lb ls IH]; intros acc Hacc.
  { simpl. by rewrite Z.add_0_r. }
  rewrite fmap_cons. cbn [foldl sumZ foldr]. fold (sumZ).
  assert (days (scanLabel acc lb)
          = Go.wrap (days acc
                     + (if Go.HasPrefix (github.Label.String lb) "estimate: "
                        then estimate (github.Label.String lb) 0 else 0)))
    as Hstep.
  { unfold scanLabel. cbn [days].
    destruct (Go.HasPrefix (github.Label.String lb) "estimate: ").
    - by apply estimate_adds.
    - by rewrite Z.add_0_r. }
  rewrite IH by (rewrite Hstep; apply wrap_wrap).
  rewrite Hstep, wrap_add_l. f_equal.
  change (foldr Z.add 0 ?l) with (sumZ l). lia.
Qed.
End Estimates.

(** C6, amended.  The label scan of part_000 turns ["estimate: 3d"]
    into 3 days, ["estimate: 2w"] into 10 and ["estimate: bogus"] into
    0; labels none of which starts with ["estimate: "] give 0.  The
    days of an issue are the [int] sum of what its ["estimate: "]
    labels add, each on its own and whatever other labels stand
    between or after them.  An estimate label adds nothing when its
    trimmed text ends in neither [d] nor [w], when [strconv.Atoi]
    finds a syntax error in the text before the unit, or when the
    number [Atoi] returns is zero or negative; otherwise it adds that
    number once for [d] and five times for [w].  [Atoi] returns an
    [int]; it finds a syntax error whenever, after an optional sign,
    a byte that is no digit stands among the first twenty; and it
    returns the number a decimal numeral stands for, if that is an
    [int].  So the numeral of a positive [int] followed by [d] adds
    that number, followed by [w] five times that number, and the
    numeral of zero or of a negative number adds nothing. *)
Theorem C6_estimates :
  Badge.days (Badge.scanLabels [github.Label.mk "estimate: 3d"]) = 3
  ∧ Badge.days (Badge.scanLabels [github.Label.mk "estimate: 2w"]) = 10
  ∧ Badge.days (Badge.scanLabels [github.Label.mk "estimate: bogus"]) = 0
  ∧ (∀ ls,
       Forall (λ lb, Go.HasPrefix (github.Label.String lb) "estimate: " = false) ls →
       Badge.days (Badge.scanLabels ls) = 0)
  ∧ (∀ lbl, Go.HasPrefix lbl "estimate: " = true →
       Badge.days (Badge.scanLabels [github.Label.mk lbl]) = Badge.estimate lbl 0)
  ∧ (∀ lbl d,
      let str := Go.TrimSpace (Go.from 10 lbl) in
      let parsed := Go.Atoi (Go.upto (String.length str - 1) str) in
      (Go.HasSuffix str "d" = false → Go.HasSuffix str "w" = false →
       Badge.estimate lbl d = d)
      ∧ (parsed.2 = Some Go.ErrSyntax → Badge.estimate lbl d = d)
      ∧ (parsed.1 ≤ 0 → Badge.estimate lbl d = d)
      ∧ (0 < parsed.1 → Go.HasSuffix str "d" = true →
         Badge.estimate lbl d = Go.add d (Go.mul 1 parsed.1))
      ∧ (0 < parsed.1 → Go.HasSuffix str "d" = false →
         Go.HasSuffix str "w" = true →
         Badge.estimate lbl d = Go.add d (Go.mul 5 parsed.1)))
  ∧ (∀ ls,
       Badge.days (Badge.scanLabels ls)
       = Go.wrap (sumZ ((λ lb,
                           if Go.HasPrefix (github.Label.String lb) "estimate: "
                           then Badge.estimate (github.Label.String lb) 0
                           else 0) <$> ls)))
  ∧ (∀ s, Go.MinInt ≤ (Go.Atoi s).1 ≤ Go.MaxInt)
  ∧ (∀ sign ds c rest,
      sign = "" ∨ sign = "+" ∨ sign = "-" →
      (String.length ds ≤ 19)%nat → Go.digit c = None →
      (sign = "" → ds = "" → c ≠ "+"%char ∧ c ≠ "-"%char) →
      Go.Atoi (sign +:+ ds +:+ String c rest) = (0, Some Go.ErrSyntax))
  ∧ (∀ z, Go.MinInt ≤ z ≤ Go.MaxInt → Go.Atoi (pretty z) = (z, None))
  ∧ ∀ z d, Go.MinInt ≤ z ≤ Go.MaxInt →
      Badge.estimate ("estimate: " +:+ pretty z +:+ "d") d
      = (if 0 <? z then Go.add d z else d)
      ∧ Badge.estimate ("estimate: " +:+ pretty z +:+ "w") d
        = (if 0 <? z then Go.add d (Go.mul 5 z) else d).
Proof.
  split; [by vm_compute|]. split; [by vm_compute|]. split; [by vm_compute|].
  split; [intros ls Hls; by apply (scan_days_none ls)|].
  split.
  { intros lbl Hp. unfold Badge.scanLabels. simpl. unfold Badge.scanLabel.
    simpl. by rewrite Hp. }
  split.
  { intros lbl d str parsed.
    destruct (estimate_cases lbl d) as (H1 & H2 & H3 & H4).
    split; [done|]. split; [|split; [done|split; done]].
    intros Hsyn. apply H2. pose proof (Atoi_syntax _ Hsyn) as Hz.
    unfold parsed, str in *. by rewrite Hz. }
  split.
  { intros ls. unfold Badge.scanLabels. by rewrite scan_days. }
  split; [apply Atoi_range|]. split; [apply Atoi_nondigit|].
  split; [apply Atoi_pretty|].
  intros z d Hz. split.
  - rewrite (estimate_numeral z "d" d Hz) by (by left).
    destruct (0 <? z); [|done]. unfold Go.mul.
    change (if Ascii.eqb "d" "d" then 1 else 5) with 1.
    by rewrite Z.mul_1_l, wrap_small.
  - rewrite (estimate_numeral z "w" d Hz) by (by right). done.
Qed.

(** The text before the unit of ["estimate: 99999999999999999999xd"]
    is no number, yet the label adds the largest [int]: [Atoi] reports
    the overflow of the digits before it gets to the [x], and the
    program drops the error and keeps the number. *)
Lemma C6_counterexample :
  Go.HasPrefix "estimate: 99999999999999999999xd" "estimate: " = true
  ∧ Go.TrimSpace (Go.from 10 "estimate: 99999999999999999999xd")
    = "99999999999999999999xd"
  ∧ Go.digit "x" = None
  ∧ Go.Atoi "99999999999999999999x" = (Go.MaxInt, Some Go.ErrRange)
  ∧ Badge.days
      (Badge.scanLabels [github.Label.mk "estimate: 99999999999999999999xd"])
    = Go.MaxInt
  ∧ Badge.days
      (Badge.scanLabels [github.Label.mk "estimate: 99999999999999999999xd"])
    ≠ 0.
Proof. repeat split; by vm_compute. Qed.

(** ** [run] *)

Lemma cut_None sep s :
  sep ∉ String.list_ascii_of_string s → Go.cut sep s = None.
Proof.
  induction s as [|c s IH]; simpl; [done|]. intros Hn.
  apply not_elem_of_cons in Hn as [Hc Hn].
  destruct (Ascii.eqb c sep) eqn:Heq.
  - apply Ascii.eqb_eq in Heq. congruence.
  - by rewrite IH.
Qed.

Lemma SplitN_no_separator sep s n :
  sep ∉ String.list_ascii_of_string s → Go.SplitN s sep (S n) = [s].
Proof. intros Hn. simpl. destruct n; simpl; [done|]. by rewrite cut_None. Qed.

(** C9. With an empty [from-file] flag and a [repo] flag without a
    ["/"], the split of [repo] has the single element [repo], index 1
    is out of its range, and [run] ends in the run-time panic of that
    index expression: before any issue is fetched, with nothing
    printed or written, and without returning an error. *)
Theorem C9_repo_without_separator {error files : Type}
    (ReadFile : files → string → error + string)
    (WriteFile : files → string → string → files * option error)
    (Marshal : list github.Issue.t → error + string)
    (Unmarshal : string → error + list github.Issue.t)
    (allIssues : string → string → string → error + list github.Issue.t)
    (printIssues : list github.Issue.t → list string →
                   list github.Issue.t * string * option error)
    (fl : Run.flags) (w : Run.world files) :
  Run.fromFile fl = "" →
  "/"%char ∉ String.list_ascii_of_string (Run.repo fl) →
  Go.SplitN (Run.repo fl) "/" 2 = [Run.repo fl]
  ∧ Go.index [Run.repo fl] 1 = inl (Go.IndexOutOfRange 1 1)
  ∧ Run.run ReadFile WriteFile Marshal Unmarshal allIssues printIssues fl w
    = (Run.Panicked (Go.IndexOutOfRange 1 1), w)
  ∧ ∀ err, Run.run ReadFile WriteFile Marshal Unmarshal allIssues printIssues
             fl w ≠ (Run.Returned err, w).
Proof.
  intros Hff Hrepo.
  pose proof (SplitN_no_separator "/" (Run.repo fl) 1 Hrepo) as Hsplit.
  assert (Run.run ReadFile WriteFile Marshal Unmarshal allIssues printIssues fl w
          = (Run.Panicked (Go.IndexOutOfRange 1 1), w)) as Hrun.
  { unfold Run.run, Run.load. rewrite Hff, Hsplit. done. }
  split; [done|]. split; [done|]. split; [done|].
  intros err. by rewrite Hrun.
Qed.

(** C10. Neither [parseIssues] of part_000 nor [printIssues] of
    main.go writes to the slice it is given: when they return, its
    backing array holds the issues it held.  So a run that fetched or
    loaded [issues], rendered them without error and has a
    [write-issues] path hands exactly [issues] to [json.Marshal] and
    writes the result to that path. *)
Theorem C10_input_unchanged {error files : Type}
    (ReadFile : files → string → error + string)
    (WriteFile : files → string → string → files * option error)
    (Marshal : list github.Issue.t → error + string)
    (Unmarshal : string → error + list github.Issue.t)
    (allIssues : string → string → string → error + list github.Issue.t)
    (Execute : Badge.state → list nat → string * option error)
    (fl : Run.flags) (w : Run.world files) (issues : list github.Issue.t) :
  Run.load ReadFile Unmarshal allIssues fl (Run.fs w) = inr (inr issues) →
  Run.out fl ≠ "" →
  let ms := Run.Split (Run.milestones fl) "," in
  let saved := Run.writeIssues WriteFile Marshal (Run.fs w) issues (Run.out fl) in
  Badge.ghIssues (Badge.parseIssues issues) = issues
  ∧ Markdown.issues (Markdown.printIssues issues ms) = issues
  ∧ Run.run ReadFile WriteFile Marshal Unmarshal allIssues
            Run.printMarkdown fl w
    = (Run.Returned saved.2,
       Run.World saved.1
         (Run.stdout w +:+ Markdown.stdout (Markdown.printIssues issues ms)))
  ∧ (∀ text,
       Execute (Badge.printIssues issues ms).1 (Badge.printIssues issues ms).2
       = (text, None) →
       Run.run ReadFile WriteFile Marshal Unmarshal allIssues
               (Run.printBadge Execute) fl w
       = (Run.Returned saved.2, Run.World saved.1 (Run.stdout w +:+ text)))
  ∧ ∀ js, Marshal issues = inr js →
      saved = WriteFile (Run.fs w) (Run.out fl) js.
Proof.
  intros Hload Hout ms saved.
  destruct (parseIssues_inv issues) as (Hgh & _).
  destruct (printIssues_spec issues ms) as (Hiss & _).
  split; [done|]. split; [done|]. split; [|split].
  - unfold Run.run. rewrite Hload. fold ms. unfold Run.printMarkdown.
    rewrite Hiss. simpl. rewrite bool_decide_true by done.
    fold saved. by destruct saved.
  - intros text Hex. unfold Run.run. rewrite Hload. fold ms.
    unfold Run.printBadge.
    destruct (Badge.printIssues issues ms) as [st sl] eqn:Hpr.
    simpl in Hex. rewrite Hex.
    assert (Badge.ghIssues st = issues) as ->.
    { unfold Badge.printIssues in Hpr. injection Hpr as <- _. done. }
    simpl. rewrite bool_decide_true by done. fold saved. by destruct saved.
  - intros js Hjs. unfold saved, Run.writeIssues. by rewrite Hjs.
Qed.

(** ** Attribution to components *)

(** In main.go and in part_001 the sample issue with the labels
    ["component: api"] and ["component: ui"] is filed under both
    components; in part_000 the sample issue whose only component label
    is ["component: "] is filed under none.  Either contradicts the
    attribution to exactly one component, named by the last such
    label. *)
Lemma C1_counterexample :
  (componentLabels Sample.dual = ["component: api"; "component: ui"]
   ∧ MarkdownSpec.filed (Markdown.collect [Sample.dual]) "v1.0" "api"
     = Some [Sample.dual]
   ∧ MarkdownSpec.filed (Markdown.collect [Sample.dual]) "v1.0" "ui"
     = Some [Sample.dual])
  ∧ PerLabel.listing (PerLabel.parseIssues [Sample.dual]) 0
    = Some [("api", [0%nat]); ("ui", [0%nat])]
  ∧ componentLabels Sample.blank = ["component: "]
  ∧ Badge.listing (Badge.parseIssues [Sample.blank]) 0 = Some [].
Proof. repeat split; by vm_compute. Qed.

(** ** The claims on the sample data *)

Lemma C2_sorted_by_key_witness :
  let l := [Sample.i9; Sample.i2; Sample.i5] in
  let entries := [Badge.issue.mk 2 "" 0; Badge.issue.mk 1 "" 0;
                  Badge.issue.mk 0 "" 0] in
  let m := Badge.milestone.mk Sample.v1 [0%nat] (Badge.stats.mk 1 3 0) in
  let cmp := Badge.component.mk "api" entries (Badge.stats.mk 1 3 0) in
  Badge.msMap (Badge.parseIssues l) !! "v1.0" = Some 0%nat
  ∧ Badge.milestones (Badge.parseIssues l) !! 0%nat = Some m
  ∧ 0%nat ∈ Badge.milestone.Components m
  ∧ Badge.components (Badge.parseIssues l) !! 0%nat = Some cmp
  ∧ Badge.component.Issues cmp !! 0%nat = Some (Badge.issue.mk 2 "" 0)
  ∧ Badge.component.Issues cmp !! 1%nat = Some (Badge.issue.mk 1 "" 0)
  ∧ l !! 2%nat = Some Sample.i5
  ∧ l !! 1%nat = Some Sample.i2
  ∧ ((0 < 1)%nat ↔ lexico (key Sample.i5) (key Sample.i2)).
Proof.
  intros l entries m cmp.
  assert (Badge.msMap (Badge.parseIssues l) !! "v1.0" = Some 0%nat) as H1
    by (vm_compute; reflexivity).
  assert (Badge.milestones (Badge.parseIssues l) !! 0%nat = Some m) as H2
    by (vm_compute; reflexivity).
  assert (0%nat ∈ Badge.milestone.Components m) as H3 by constructor.
  assert (Badge.components (Badge.parseIssues l) !! 0%nat = Some cmp) as H4
    by (vm_compute; reflexivity).
  assert (Badge.component.Issues cmp !! 0%nat = Some (Badge.issue.mk 2 "" 0))
    as H5 by reflexivity.
  assert (Badge.component.Issues cmp !! 1%nat = Some (Badge.issue.mk 1 "" 0))
    as H6 by reflexivity.
  assert (l !! 2%nat = Some Sample.i5) as H7 by reflexivity.
  assert (l !! 1%nat = Some Sample.i2) as H8 by reflexivity.
  do 8 (split; [assumption|]).
  destruct (C2_sorted_by_key l "v1.0" 0%nat m 0%nat cmp 0%nat 1%nat
              (Badge.issue.mk 2 "" 0) (Badge.issue.mk 1 "" 0)
              Sample.i5 Sample.i2 H1 H2 H3 H4 H5 H6 H7 H8)
    as ((_ & _ & Hiff) & _).
  apply Hiff. vm_compute. discriminate.
Defined.

Lemma C3_counters_witness :
  let l := [Sample.u3; Sample.a2; Sample.loose; Sample.a1] in
  Z.of_nat (length l) ≤ Go.MaxInt
  ∧ ∃ c, Markdown.msCounts (Markdown.collect l) !! "v1.0" = Some c
      ∧ Go.add (Markdown.stats.open c) (Markdown.stats.closed c)
        = Z.of_nat (length (ofMilestone "v1.0" l)).
Proof.
  intros l.
  assert (Z.of_nat (length l) ≤ Go.MaxInt) as H1 by (vm_compute; discriminate).
  split; [assumption|].
  destruct (C3_counters l "v1.0" H1) as (_ & Hmd & _).
  destruct Hmd as (c & E1 & _ & _ & E4).
  { vm_compute. discriminate. }
  by exists c.
Defined.

Lemma C7_remaining_days_witness :
  let l := [Sample.u3; Sample.a2; Sample.loose; Sample.a1] in
  let m := Badge.milestone.mk Sample.v1 [1%nat; 0%nat] (Badge.stats.mk 1 3 3) in
  Badge.msMap (Badge.parseIssues l) !! "v1.0" = Some 0%nat
  ∧ Badge.milestones (Badge.parseIssues l) !! 0%nat = Some m
  ∧ Badge.stats.Days (Badge.milestone.Stats m)
    = Go.wrap (sumZ (BadgeSpec.daysOf <$>
                       filter (λ x, github.Issue.ClosedAt x = None)
                              (ofMilestone "v1.0" l))).
Proof.
  intros l m.
  assert (Badge.msMap (Badge.parseIssues l) !! "v1.0" = Some 0%nat) as H1
    by (vm_compute; reflexivity).
  assert (Badge.milestones (Badge.parseIssues l) !! 0%nat = Some m) as H2
    by (vm_compute; reflexivity).
  do 2 (split; [assumption|]).
  destruct (C7_remaining_days l "v1.0" 0%nat m H1 H2) as (E & _). exact E.
Defined.

Lemma C9_repo_without_separator_witness :
  Run.fromFile Sample.noSlash = ""
  ∧ ("/"%char ∉ String.list_ascii_of_string (Run.repo Sample.noSlash))
  ∧ Run.run Sample.ReadFile Sample.WriteFile Sample.Marshal Sample.Unmarshal
            Sample.allIssues Run.printMarkdown Sample.noSlash
            (Run.World None "")
    = (Run.Panicked (Go.IndexOutOfRange 1 1), Run.World None "").
Proof.
  assert (Run.fromFile Sample.noSlash = "") as H1 by reflexivity.
  assert ("/"%char ∉ String.list_ascii_of_string (Run.repo Sample.noSlash))
    as H2.
  { apply (bool_decide_unpack _). vm_compute. exact I. }
  do 2 (split; [assumption|]).
  apply (C9_repo_without_separator Sample.ReadFile Sample.WriteFile
           Sample.Marshal Sample.Unmarshal Sample.allIssues Run.printMarkdown
           Sample.noSlash (Run.World None "") H1 H2).
Defined.

Lemma C10_input_unchanged_witness :
  let issues := [Sample.u3; Sample.a2; Sample.loose; Sample.a1] in
  Run.load Sample.ReadFile Sample.Unmarshal Sample.allIssues Sample.flags None
  = inr (inr issues)
  ∧ Run.out Sample.flags ≠ ""
  ∧ Markdown.issues (Markdown.printIssues issues ["v1.0"; "v2.0"]) = issues
  ∧ (Run.run Sample.ReadFile Sample.WriteFile Sample.Marshal Sample.Unmarshal
             Sample.allIssues Run.printMarkdown Sample.flags
             (Run.World None "")).1
    = Run.Returned None.
Proof.
  intros issues.
  assert (Run.load Sample.ReadFile Sample.Unmarshal Sample.allIssues
            Sample.flags None = inr (inr issues)) as H1
    by (vm_compute; reflexivity).
  assert (Run.out Sample.flags ≠ "") as H2 by discriminate.
  do 2 (split; [assumption|]).
  destruct (C10_input_unchanged Sample.ReadFile Sample.WriteFile Sample.Marshal
              Sample.Unmarshal Sample.allIssues
              (λ _ _, ("", None)) Sample.flags (Run.World None "") issues
              H1 H2) as (_ & E2 & E3 & _).
  split; [exact E2|]. rewrite E3. reflexivity.
Defined.

Lemma C4_components_sorted_witness :
  let l := [Sample.u3; Sample.a2; Sample.loose; Sample.a1] in
  Badge.msMap (Badge.parseIssues l) !! "v1.0" = Some 0%nat
  ∧ ∃ m cs, Badge.resolve (Badge.parseIssues l) 0 = Some (m, cs)
      ∧ Badge.component.Name <$> cs = ["api"; "ui"]
      ∧ NoDup (Badge.component.Name <$> cs).
Proof.
  intros l.
  assert (Badge.msMap (Badge.parseIssues l) !! "v1.0" = Some 0%nat) as H1
    by (vm_compute; reflexivity).
  split; [assumption|].
  destruct (C4_components_sorted l "v1.0") as (Hstore & _).
  destruct (Hstore 0%nat H1) as (m & cs & E1 & _ & E3).
  exists m, cs. split; [exact E1|]. split; [|exact E3].
  assert ((λ r : Badge.milestone.t * list Badge.component.t,
             Badge.component.Name <$> r.2)
            <$> Badge.resolve (Badge.parseIssues l) 0
          = Some ["api"; "ui"]) as E by (vm_compute; reflexivity).
  rewrite E1 in E. simpl in E. by injection E.
Defined.

Lemma C6_estimates_witness :
  Go.HasPrefix "estimate:  4w " "estimate: " = true
  ∧ Go.HasSuffix (Go.TrimSpace (Go.from 10 "estimate:  4w ")) "d" = false
  ∧ Go.HasSuffix (Go.TrimSpace (Go.from 10 "estimate:  4w ")) "w" = true
  ∧ Badge.days (Badge.scanLabels [github.Label.mk "estimate:  4w "]) = 20
  ∧ Badge.days (Badge.scanLabels
      (github.Label.mk <$> ["estimate: 3d"; "component: api"; "estimate: 2w";
                            "type: bug"; "estimate: -1d"; "estimate: x7d"]))
    = 13
  ∧ Go.Atoi "-12x" = (0, Some Go.ErrSyntax)
  ∧ Go.MinInt ≤ 12 ≤ Go.MaxInt
  ∧ Badge.estimate ("estimate: " +:+ pretty 12 +:+ "w") 7 = 67.
Proof.
  assert (Go.HasPrefix "estimate:  4w " "estimate: " = true) as H1
    by reflexivity.
  assert (Go.HasSuffix (Go.TrimSpace (Go.from 10 "estimate:  4w ")) "d" = false)
    as H2 by reflexivity.
  assert (Go.HasSuffix (Go.TrimSpace (Go.from 10 "estimate:  4w ")) "w" = true)
    as H3 by reflexivity.
  do 3 (split; [assumption|]).
  destruct C6_estimates
    as (_ & _ & _ & _ & Hscan & Hest & Hsum & _ & Hsyn & _ & Hnum).
  assert (Go.MinInt ≤ 12 ≤ Go.MaxInt) as H4 by (vm_compute; split; discriminate).
  split; [|split; [|split; [|split]]].
  - rewrite (Hscan _ H1).
    destruct (Hest "estimate:  4w " 0) as (_ & _ & _ & _ & Hw).
    rewrite Hw; [reflexivity|reflexivity|assumption|assumption].
  - rewrite Hsum. vm_compute. reflexivity.
  - apply (Hsyn "-" "12" "x"%char "");
      [right; right; reflexivity|simpl; lia|reflexivity|discriminate].
  - exact H4.
  - destruct (Hnum 12 7 H4) as [_ ->]. vm_compute. reflexivity.
Defined.

(** ** The model at work *)

Example TrimSpace_sample : Go.TrimSpace "  3d  " = "3d".
Proof. reflexivity. Qed.

Example SplitN_sample :
  Go.SplitN "jonasi/issuedash" "/" 2 = ["jonasi"; "issuedash"]
  ∧ Go.SplitN "a/b/c" "/" 2 = ["a"; "b/c"]
  ∧ Run.Split "v1.0,v2.0" "," = ["v1.0"; "v2.0"]
  ∧ Run.Split "" "," = [""].
Proof. repeat split; reflexivity. Qed.

Example Atoi_sample :
  Go.Atoi "-12" = (-12, None) ∧ Go.Atoi "+3" = (3, None)
  ∧ Go.Atoi "bogu" = (0, Some Go.ErrSyntax) ∧ Go.Atoi "" = (0, Some Go.ErrSyntax)
  ∧ Go.Atoi "99999999999999999999" = (Go.MaxInt, Some Go.ErrRange).
Proof. repeat split; reflexivity. Qed.

(** The end-to-end scenario: three issues of milestone v1.0, two of
    component api (number 1 open, number 2 closed) and one of ui; an
    issue without milestone in between is ignored. *)
Example scenario :
  let l := [Sample.u3; Sample.a2; Sample.loose; Sample.a1] in
  (Badge.printIssues l ["v2.0"; "v1.0"]).2 = [0%nat]
  ∧ Badge.listing (Badge.parseIssues l) 0
    = Some [("api", [3%nat; 1%nat]); ("ui", [0%nat])]
  ∧ (λ r : Badge.milestone.t * list Badge.component.t,
       (Badge.milestone.Stats r.1, Badge.component.Stats <$> r.2))
      <$> Badge.resolve (Badge.parseIssues l) 0
    = Some (Badge.stats.mk 1 3 3,
            [Badge.stats.mk 1 2 3; Badge.stats.mk 0 1 0]).
Proof. repeat split; by vm_compute. Qed.

(** * Further properties of the code *)

(** ** [Less] as an ordering *)

Lemma Less_trans x y z : Less x y = true → Less y z = true → Less x z = true.
Proof.
  rewrite !Less_key. destruct (key x) as [[a b] c], (key y) as [[a' b'] c'],
    (key z) as [[a'' b''] c'']. rewrite !lexico_key. lia.
Qed.

Lemma Less_incomparable x y :
  Less x y = false ∧ Less y x = false ↔ key x = key y.
Proof.
  rewrite !Less_key_false. split.
  - intros [[?|H1] [?|H2]]; try done.
    destruct (key x) as [[a b] c], (key y) as [[a' b'] c'].
    rewrite lexico_key in H1, H2. lia.
  - intros ->. auto.
Qed.

Lemma flags_key x y :
  key x = key y ↔
  (github.Issue.ClosedAt x = None ↔ github.Issue.ClosedAt y = None)
  ∧ (github.Issue.Assignee x = None ↔ github.Issue.Assignee y = None)
  ∧ github.Issue.Number x = github.Issue.Number y.
Proof.
  rewrite key_eq. unfold closedFlag, assignedFlag.
  destruct (github.Issue.ClosedAt x), (github.Issue.ClosedAt y),
    (github.Issue.Assignee x), (github.Issue.Assignee y);
    repeat (rewrite bool_decide_true by done);
    repeat (rewrite bool_decide_false by (intros H; by apply H));
    split; intros (H1 & H2 & H3); repeat split; try done;
    try (by destruct H1 as [H1 H1']; (by discriminate (H1 eq_refl))
                                     || (by discriminate (H1' eq_refl)));
    try (by destruct H2 as [H2 H2']; (by discriminate (H2 eq_refl))
                                     || (by discriminate (H2' eq_refl))).
Qed.

Lemma closedFlag_open x : closedFlag x = 0 ↔ github.Issue.ClosedAt x = None.
Proof.
  unfold closedFlag. destruct (github.Issue.ClosedAt x).
  - by rewrite bool_decide_true.
  - rewrite bool_decide_false; [done|]. intros H. by apply H.
Qed.

Lemma closedFlag_closed x : closedFlag x = 1 ↔ github.Issue.ClosedAt x ≠ None.
Proof.
  unfold closedFlag. destruct (github.Issue.ClosedAt x).
  - by rewrite bool_decide_true.
  - rewrite bool_decide_false; [|intros H; by apply H].
    split; [done|]. intros H. by destruct H.
Qed.

Lemma assignedFlag_free x :
  assignedFlag x = 0 ↔ github.Issue.Assignee x = None.
Proof.
  unfold assignedFlag. destruct (github.Issue.Assignee x).
  - by rewrite bool_decide_true.
  - rewrite bool_decide_false; [done|]. intros H. by apply H.
Qed.

Lemma assignedFlag_taken x :
  assignedFlag x = 1 ↔ github.Issue.Assignee x ≠ None.
Proof.
  unfold assignedFlag. destruct (github.Issue.Assignee x).
  - by rewrite bool_decide_true.
  - rewrite bool_decide_false; [|intros H; by apply H].
    split; [done|]. intros H. by destruct H.
Qed.

(** X1. [Less] is a strict weak ordering, as [sort.Sort] needs it:
    no issue is before itself, being before is transitive, and so is
    being unordered; two issues are unordered exactly when they agree
    on having a closing time, on having an assignee and on their
    number; of two issues that differ in one of the three, one is
    before the other. *)
Theorem Less_strict_weak_order :
  (∀ x, Less x x = false)
  ∧ (∀ x y, Less x y = true → Less y x = false)
  ∧ (∀ x y z, Less x y = true → Less y z = true → Less x z = true)
  ∧ (∀ x y z, Less x y = false → Less y z = false → Less x z = false)
  ∧ (∀ x y,
       Less x y = false ∧ Less y x = false ↔
       (github.Issue.ClosedAt x = None ↔ github.Issue.ClosedAt y = None)
       ∧ (github.Issue.Assignee x = None ↔ github.Issue.Assignee y = None)
       ∧ github.Issue.Number x = github.Issue.Number y)
  ∧ (∀ x y, github.Issue.ClosedAt x = None → github.Issue.ClosedAt y ≠ None →
       Less x y = true)
  ∧ (∀ x y, (github.Issue.ClosedAt x = None ↔ github.Issue.ClosedAt y = None) →
       github.Issue.Assignee x = None → github.Issue.Assignee y ≠ None →
       Less x y = true).
Proof.
  split; [apply Less_irrefl|]. split; [apply Less_asym|].
  split; [apply Less_trans|]. split; [apply Less_ntrans|].
  split; [intros x y; by rewrite Less_incomparable, flags_key|].
  split.
  - intros x y Hx Hy. apply Less_key. unfold key. apply lexico_key. left.
    by rewrite (proj2 (closedFlag_open x)), (proj2 (closedFlag_closed y)).
  - intros x y Hc Hx Hy. apply Less_key. unfold key. apply lexico_key.
    right. left. split.
    + destruct (github.Issue.ClosedAt y) as [cy|] eqn:Ey.
      * rewrite (proj2 (closedFlag_closed y)) by by rewrite Ey.
        apply closedFlag_closed. intros Hn. apply Hc in Hn. done.
      * rewrite (proj2 (closedFlag_open y)) by done.
        apply closedFlag_open. by apply Hc.
    + by rewrite (proj2 (assignedFlag_free x)), (proj2 (assignedFlag_taken y)).
Qed.

(** ** The sorted slice is determined by its elements *)

Lemma sorted_unique {A} (R : relation A) (l1 l2 : list A) :
  (∀ a b, a ∈ l1 → b ∈ l1 → R a b → R b a → a = b) →
  StronglySorted R l1 → StronglySorted R l2 → l1 ≡ₚ l2 → l1 = l2.
Proof.
  revert l2. induction l1 as [|a l1 IH]; intros l2 Hanti H1 H2 Hp.
  - by apply Permutation_nil_l in Hp.
  - destruct l2 as [|b l2].
    { by apply Permutation_nil_r in Hp. }
    apply StronglySorted_cons in H1 as [Ha H1].
    apply StronglySorted_cons in H2 as [Hb H2].
    rewrite Forall_forall in Ha, Hb.
    assert (a = b) as <-.
    { assert (a ∈ b :: l2) as Hin by (rewrite <- Hp; left).
      apply elem_of_cons in Hin as [?|Hin]; [done|].
      assert (b ∈ a :: l1) as Hin' by (rewrite Hp; left).
      apply elem_of_cons in Hin' as [?|Hin']; [done|].
      apply Hanti; [left|by right|by apply Ha|by apply Hb]. }
    f_equal. apply IH; [|done|done|by apply Permutation_cons_inv in Hp].
    intros x y Hx Hy. apply Hanti; by right.
Qed.

Lemma sorted_Less_unique (d s s' : list github.Issue.t) :
  (∀ x y, x ∈ d → y ∈ d →
     github.Issue.Number x = github.Issue.Number y → x = y) →
  s ≡ₚ d → s' ≡ₚ d →
  StronglySorted (notAfter Less) s → StronglySorted (notAfter Less) s' →
  s = s'.
Proof.
  intros Hnum Hs Hs' Hsorted Hsorted'.
  apply (sorted_unique (notAfter Less)); [|done|done|by rewrite Hs, Hs'].
  intros a b Ha Hb Hab Hba. rewrite Hs in Ha, Hb.
  apply Hnum; [done|done|].
  assert (key a = key b) as Hk by by apply Less_incomparable.
  by apply key_eq in Hk as (_ & _ & ?).
Qed.

(** X2. Issues of pairwise different numbers have one arrangement
    that is in order for [Less]; [sort.Sort] produces it from whatever
    order the slice is in, and sorting two slices with the same
    elements gives the same slice. *)
Theorem sorted_issues_canonical (d d' s : list github.Issue.t) :
  (∀ x y, x ∈ d → y ∈ d →
     github.Issue.Number x = github.Issue.Number y → x = y) →
  d ≡ₚ d' →
  (s ≡ₚ d → StronglySorted (notAfter Less) s → s = Go.Sort Less d)
  ∧ Go.Sort Less d' = Go.Sort Less d.
Proof.
  intros Hnum Hp. split.
  - intros Hs Hsorted.
    apply (sorted_Less_unique d); [done|done|apply Sort_perm|done|].
    apply Sort_Less_sorted.
  - apply (sorted_Less_unique d); [done| | |apply Sort_Less_sorted..].
    + by rewrite Sort_perm.
    + apply Sort_perm.
Qed.

Lemma sorted_issues_canonical_witness :
  let d := [Sample.i2; Sample.i9; Sample.i5] in
  let d' := [Sample.i9; Sample.i5; Sample.i2] in
  (∀ x y, x ∈ d → y ∈ d →
     github.Issue.Number x = github.Issue.Number y → x = y)
  ∧ d ≡ₚ d'
  ∧ Go.Sort Less d' = Go.Sort Less d.
Proof.
  intros d d'.
  assert (∀ x y, x ∈ d → y ∈ d →
            github.Issue.Number x = github.Issue.Number y → x = y) as H1.
  { intros x y Hx Hy. unfold d in Hx, Hy.
    repeat (apply elem_of_cons in Hx as [->|Hx]);
      repeat (apply elem_of_cons in Hy as [->|Hy]);
      try (by apply elem_of_nil in Hx); try (by apply elem_of_nil in Hy);
      try done; by vm_compute. }
  assert (d ≡ₚ d') as H2.
  { unfold d, d'. etrans; [apply Permutation_swap|].
    apply perm_skip, Permutation_swap. }
  do 2 (split; [assumption|]).
  destruct (sorted_issues_canonical d d' [] H1 H2) as (_ & E). exact E.
Defined.

(** ** The report of main.go and the order of its input *)

Section MarkdownOrder.
Import Markdown MarkdownSpec.

Lemma ofMilestone_perm t l l' : l ≡ₚ l' → ofMilestone t l ≡ₚ ofMilestone t l'.
Proof. intros Hp. unfold ofMilestone. by rewrite Hp. Qed.

Lemma ofMilestone_elem t l x : x ∈ ofMilestone t l ↔ title x = Some t ∧ x ∈ l.
Proof. unfold ofMilestone. by rewrite list_elem_of_filter. Qed.

Lemma countsOf_perm d d' : d ≡ₚ d' → countsOf d = countsOf d'.
Proof. intros Hp. unfold countsOf. by rewrite Hp. Qed.

Lemma listed_perm t c l l' : l ≡ₚ l' → listed t c l ≡ₚ listed t c l'.
Proof. intros Hp. unfold listed. by rewrite (ofMilestone_perm t l l' Hp). Qed.

Lemma listed_elem t c l x : x ∈ listed t c l → x ∈ l.
Proof.
  unfold listed. rewrite list_elem_of_bind. intros (y & Hx & Hy).
  apply ofMilestone_elem in Hy as [_ Hy]. unfold copies in Hx.
  apply list_elem_of_fmap in Hx as (lbl & -> & _). done.
Qed.

Lemma urlOf_coherent t l l' :
  coherent l → l ≡ₚ l' → urlOf t l = urlOf t l'.
Proof.
  intros [_ Hms] Hp. unfold urlOf.
  pose proof (ofMilestone_perm t l l' Hp) as Hpm.
  destruct (ofMilestone t l) as [|x r] eqn:E, (ofMilestone t l') as [|x' r'] eqn:E'.
  - done.
  - by apply Permutation_nil_l in Hpm.
  - by apply Permutation_nil_r in Hpm.
  - simpl. f_equal. apply Hms.
    + assert (x ∈ ofMilestone t l) as Hx by (rewrite E; left).
      by apply ofMilestone_elem in Hx as [_ ?].
    + assert (x' ∈ ofMilestone t l') as Hx by (rewrite E'; left).
      apply ofMilestone_elem in Hx as [_ ?]. by rewrite Hp.
    + assert (x ∈ ofMilestone t l) as Hx by (rewrite E; left).
      assert (x' ∈ ofMilestone t l') as Hx' by (rewrite E'; left).
      apply ofMilestone_elem in Hx as [-> _].
      by apply ofMilestone_elem in Hx' as [-> _].
Qed.

Lemma componentNames_perm t l l' :
  l ≡ₚ l' → componentNames t l = componentNames t l'.
Proof.
  intros Hp. unfold componentNames.
  apply Strings_keys; [apply NoDup_remove_dups..|].
  intros c. rewrite !elem_of_remove_dups.
  by rewrite (ofMilestone_perm t l l' Hp).
Qed.

Lemma blockText_perm l l' ms :
  coherent l → l ≡ₚ l' → blockText l ms = blockText l' ms.
Proof.
  intros Hco Hp. unfold blockText.
  rewrite (countsOf_perm _ _ (ofMilestone_perm ms l l' Hp)).
  rewrite (urlOf_coherent ms l l' Hco Hp).
  rewrite (componentNames_perm ms l l' Hp). do 3 f_equal.
  apply list_fmap_ext. intros _ c _. symmetry. apply componentText_Sort.
  destruct Hco as [Hnum _].
  apply (sorted_Less_unique (listed ms c l)).
  - intros x y Hx Hy. apply Hnum; by eapply listed_elem.
  - rewrite Sort_perm. symmetry. by apply listed_perm.
  - apply Sort_perm.
  - apply Sort_Less_sorted.
  - apply Sort_Less_sorted.
Qed.

End MarkdownOrder.

(** X3. The report of main.go does not depend on the order in which
    the issues arrive: for issues as one repository has them (one
    issue per number, one milestone record per title), any
    rearrangement of the input prints the same text. *)
Theorem report_order_independent (l l' : list github.Issue.t)
    (names : list string) :
  coherent l → l ≡ₚ l' →
  Markdown.stdout (Markdown.printIssues l' names)
  = Markdown.stdout (Markdown.printIssues l names).
Proof.
  intros Hco Hp.
  destruct (printIssues_spec l names) as [_ ->].
  destruct (printIssues_spec l' names) as [_ ->].
  rewrite (list_filter_iff (λ n, ofMilestone n l' ≠ [])
             (λ n, ofMilestone n l ≠ [])).
  - f_equal. apply list_fmap_ext. intros _ n _. symmetry.
    by apply blockText_perm.
  - intros n. pose proof (ofMilestone_perm n l l' Hp) as Hpm.
    split; intros Hne Hnil; apply Hne; rewrite Hnil in Hpm.
    + by apply Permutation_nil_l in Hpm.
    + by apply Permutation_nil_r in Hpm.
Qed.

(** ** The link under a milestone heading *)

Lemma head_filter_first {A} (P : A → Prop) `{∀ x, Decision (P x)}
    (l : list A) i x :
  l !! i = Some x → P x →
  (∀ j y, (j < i)%nat → l !! j = Some y → ¬ P y) →
  head (filter P l) = Some x.
Proof.
  revert i. induction l as [|a l IH]; intros i Hi Hx Hbefore; [done|].
  destruct i as [|i]; simpl in Hi.
  - injection Hi as ->. by rewrite filter_cons_True.
  - rewrite filter_cons_False.
    + apply (IH i); [done|done|]. intros j y Hj Hy.
      apply (Hbefore (S j)); [lia|done].
    + apply (Hbefore 0%nat); [lia|done].
Qed.

(** X4. main.go keeps, per milestone title, the URL of the milestone
    record of the first issue that refers to that title, and prints
    it as the [Issues] link of the heading together with the title
    and the counters; the records of later issues with the same title
    are not read.  A title no issue refers to has no URL. *)
Theorem first_milestone_url (l : list github.Issue.t) (i : nat)
    (x : github.Issue.t) (ms : github.Milestone.t) :
  l !! i = Some x → github.Issue.Milestone x = Some ms →
  (∀ j y, (j < i)%nat → l !! j = Some y →
          title y ≠ Some (github.Milestone.Title ms)) →
  let t := github.Milestone.Title ms in
  Markdown.msURLs (Markdown.collect l) !! t = Some (github.Milestone.HTMLURL ms)
  ∧ (∃ c rest,
       Markdown.msCounts (Markdown.collect l) !! t = Some c
       ∧ Markdown.stdout (Markdown.printIssues l [t])
         = "### " +:+ t +:+ " [" +:+ pretty (Markdown.stats.closed c) +:+ "/"
             +:+ pretty (Go.add (Markdown.stats.open c) (Markdown.stats.closed c))
             +:+ "]" +:+ Markdown.nl
             +:+ "[Issues](" +:+ github.Milestone.HTMLURL ms +:+ ")"
             +:+ Markdown.nl +:+ rest)
  ∧ ∀ t', (∀ y, y ∈ l → title y ≠ Some t') →
          Markdown.msURLs (Markdown.collect l) !! t' = None.
Proof.
  intros Hi Hms Hfirst t.
  destruct (collect_Collected l) as (_ & _ & Hinv).
  assert (title x = Some t) as Ht by (unfold title; by rewrite Hms).
  assert (head (ofMilestone t l) = Some x) as Hhead.
  { apply (head_filter_first _ l i); [done|done|].
    intros j y Hj Hy. by apply Hfirst with j. }
  assert (MarkdownSpec.urlOf t l = Some (github.Milestone.HTMLURL ms)) as Hurl.
  { unfold MarkdownSpec.urlOf. rewrite Hhead. simpl. by rewrite Hms. }
  split; [|split].
  - destruct (Hinv t) as [-> _]. done.
  - destruct (Hinv t) as [_ Hd].
    destruct (ofMilestone t l) as [|y r] eqn:E; [done|].
    destruct Hd as [Hc _]. eexists _, _. split; [exact Hc|].
    destruct (printIssues_spec l [t]) as [_ ->].
    rewrite filter_cons_True by (rewrite E; done).
    rewrite filter_nil. simpl. unfold MarkdownSpec.blockText.
    rewrite Hurl, E. simpl. unfold Markdown.heading.
    rewrite !append_assoc. reflexivity.
  - intros t' Hnone. destruct (Hinv t') as [-> _].
    unfold MarkdownSpec.urlOf.
    destruct (ofMilestone t' l) as [|y r] eqn:E; [done|].
    assert (y ∈ ofMilestone t' l) as Hy by (rewrite E; left).
    apply ofMilestone_elem in Hy as [Hy Hin]. by destruct (Hnone y Hin).
Qed.

Lemma report_order_independent_witness :
  let l := [Sample.a1; Sample.u3] in
  let l' := [Sample.u3; Sample.a1] in
  coherent l ∧ l ≡ₚ l'
  ∧ Markdown.stdout (Markdown.printIssues l' ["v1.0"])
    = Markdown.stdout (Markdown.printIssues l ["v1.0"]).
Proof.
  intros l l'.
  assert (coherent l) as H1.
  { split; intros x y Hx Hy; unfold l in Hx, Hy;
      repeat (apply elem_of_cons in Hx as [->|Hx]);
      repeat (apply elem_of_cons in Hy as [->|Hy]);
      try (by apply elem_of_nil in Hx); try (by apply elem_of_nil in Hy);
      try done; by vm_compute. }
  assert (l ≡ₚ l') as H2 by apply Permutation_swap.
  do 2 (split; [assumption|]).
  exact (report_order_independent l l' ["v1.0"] H1 H2).
Defined.

Lemma first_milestone_url_witness :
  let l := [Sample.loose; Sample.a1; Sample.u3] in
  l !! 1%nat = Some Sample.a1
  ∧ github.Issue.Milestone Sample.a1 = Some Sample.v1
  ∧ (∀ j y, (j < 1)%nat → l !! j = Some y → title y ≠ Some "v1.0")
  ∧ Markdown.msURLs (Markdown.collect l) !! "v1.0"
    = Some "https://tracker/milestone/1".
Proof.
  intros l.
  assert (l !! 1%nat = Some Sample.a1) as H1 by reflexivity.
  assert (github.Issue.Milestone Sample.a1 = Some Sample.v1) as H2
    by reflexivity.
  assert (∀ j y, (j < 1)%nat → l !! j = Some y → title y ≠ Some "v1.0") as H3.
  { intros j y Hj Hy. assert (j = 0%nat) as -> by lia.
    injection Hy as <-. discriminate. }
  do 3 (split; [assumption|]).
  destruct (first_milestone_url l 1 Sample.a1 Sample.v1 H1 H2 H3) as (E & _).
  exact E.
Defined.

(** ** Splitting the flags *)

Lemma cut_app sep (a b : string) :
  ¬ occurs sep a → Go.cut sep (a +:+ String sep b) = Some (a, b).
Proof.
  unfold occurs. induction a as [|c a IH]; intros Hn.
  - change (Go.cut sep (String sep b) = Some (EmptyString, b)). simpl.
    by rewrite Ascii.eqb_refl.
  - rewrite app_cons. simpl in *.
    apply not_elem_of_cons in Hn as [Hc Hn].
    destruct (Ascii.eqb c sep) eqn:Heq.
    + apply Ascii.eqb_eq in Heq. congruence.
    + by rewrite IH.
Qed.

Lemma joinWith_cons sep s s' rest :
  joinWith sep (s :: s' :: rest) = s +:+ sep +:+ joinWith sep (s' :: rest).
Proof. reflexivity. Qed.

Lemma genSplit_joinWith (sep : ascii) (names : list string) (n : nat) :
  names ≠ [] → Forall (λ s, ¬ occurs sep s) names →
  (length names ≤ S n)%nat →
  Go.genSplit (joinWith (String sep "") names) sep n = names.
Proof.
  revert n. induction names as [|s names IH]; intros n Hne Hfree Hn; [done|].
  apply Forall_cons in Hfree as [Hs Hfree].
  destruct names as [|s' rest].
  - simpl. destruct n; simpl; [done|]. by rewrite cut_None.
  - rewrite joinWith_cons. destruct n as [|n]; [simpl in Hn; lia|].
    change (String sep "" +:+ joinWith (String sep "") (s' :: rest))
      with (String sep (joinWith (String sep "") (s' :: rest))).
    change (Go.genSplit ?x sep (S n))
      with (match Go.cut sep x with
            | None => [x]
            | Some (a, rest) => a :: Go.genSplit rest sep n
            end).
    rewrite cut_app by done. f_equal. apply IH; [done|done|simpl in *; lia].
Qed.

Lemma joinWith_length sep (names : list string) :
  (length names ≤ S (String.length (joinWith (String sep "") names)))%nat.
Proof.
  induction names as [|s names IH]; [simpl; lia|].
  destruct names as [|s' rest]; [simpl; lia|].
  rewrite joinWith_cons, !string_length_app. simpl in *. lia.
Qed.

Lemma Split_joinWith (sep : ascii) (names : list string) :
  names ≠ [] → Forall (λ s, ¬ occurs sep s) names →
  Run.Split (joinWith (String sep "") names) sep = names.
Proof.
  intros Hne Hfree. unfold Run.Split.
  apply genSplit_joinWith; [done|done|apply joinWith_length].
Qed.

Lemma cut_Some sep s a b :
  Go.cut sep s = Some (a, b) → s = a +:+ String sep b ∧ ¬ occurs sep a.
Proof.
  unfold occurs. revert a. induction s as [|c s IH]; intros a; simpl; [done|].
  destruct (Ascii.eqb c sep) eqn:Heq.
  - apply Ascii.eqb_eq in Heq as ->. intros [= <- <-]. split; [done|].
    simpl. apply not_elem_of_nil.
  - destruct (Go.cut sep s) as [[a' b']|] eqn:Hcut; simpl; [|done].
    intros [= <- <-]. destruct (IH a' eq_refl) as [-> Hn].
    split; [done|]. simpl. apply not_elem_of_cons. split; [|done].
    intros ->. by rewrite Ascii.eqb_refl in Heq.
Qed.

Lemma genSplit_spec sep n s :
  (String.length s ≤ n)%nat →
  joinWith (String sep "") (Go.genSplit s sep n) = s
  ∧ Forall (λ p, ¬ occurs sep p) (Go.genSplit s sep n)
  ∧ Go.genSplit s sep n ≠ [].
Proof.
  revert s. induction n as [|n IH]; intros s Hn.
  - destruct s; [|simpl in Hn; lia]. simpl. split; [done|]. split; [|done].
    constructor; [|done]. unfold occurs. simpl. apply not_elem_of_nil.
  - simpl. destruct (Go.cut sep s) as [[a b]|] eqn:Hcut.
    + apply cut_Some in Hcut as [-> Ha].
      destruct (IH b) as (Hj & Hf & Hne).
      { rewrite string_length_app in Hn. simpl in Hn. lia. }
      split; [|split; [by constructor|done]].
      destruct (Go.genSplit b sep n) as [|p ps] eqn:E; [done|].
      rewrite joinWith_cons, Hj. reflexivity.
    + split; [done|]. split; [|done]. constructor; [|done].
      unfold occurs. clear Hn IH. induction s as [|c s IHs]; simpl.
      * apply not_elem_of_nil.
      * simpl in Hcut. destruct (Ascii.eqb c sep) eqn:Heq; [done|].
        destruct (Go.cut sep s) as [[a b]|]; [done|].
        apply not_elem_of_cons. split; [|by apply IHs].
        intros ->. by rewrite Ascii.eqb_refl in Heq.
Qed.

(** ** [run] and its collaborators *)

Section RunFacts.
Context {error files : Type}.
Context (ReadFile : files → string → error + string).
Context (WriteFile : files → string → string → files * option error).
Context (Marshal : list github.Issue.t → error + string).
Context (Unmarshal : string → error + list github.Issue.t).
Context (allIssues : string → string → string → error + list github.Issue.t).

Lemma SplitN_first sep (a b : string) :
  ¬ occurs sep a → Go.SplitN (a +:+ String sep b) sep 2 = [a; b].
Proof. intros Ha. simpl. by rewrite cut_app. Qed.

Lemma load_at_first_slash (fl : Run.flags) (fs : files) (owner name : string) :
  Run.fromFile fl = "" →
  Run.repo fl = owner +:+ "/" +:+ name →
  ¬ occurs "/" owner →
  Run.load ReadFile Unmarshal allIssues fl fs
  = inr (allIssues (Run.tok fl) owner name).
Proof.
  intros Hff Hrepo Howner.
  assert (Go.SplitN (Run.repo fl) "/" 2 = [owner; name]) as Hsplit.
  { rewrite Hrepo. by apply (SplitN_first "/"). }
  unfold Run.load. rewrite Hff, Hsplit. done.
Qed.

(** X5. With an empty [from-file] flag and a [repo] flag that has a
    ["/"], [run] asks the tracker for the owner before the first
    ["/"] and the repository name after it, further ["/"] included;
    either part may be empty. *)
Theorem repo_split_at_first_slash (fl : Run.flags) (fs : files)
    (owner name : string) :
  Run.fromFile fl = "" →
  Run.repo fl = owner +:+ "/" +:+ name →
  ¬ occurs "/" owner →
  Go.SplitN (Run.repo fl) "/" 2 = [owner; name]
  ∧ Run.load ReadFile Unmarshal allIssues fl fs
    = inr (allIssues (Run.tok fl) owner name).
Proof.
  intros Hff Hrepo Howner. split.
  - rewrite Hrepo. by apply (SplitN_first "/").
  - by apply load_at_first_slash.
Qed.

Section printer.
Context (printIssues : list github.Issue.t → list string →
                       list github.Issue.t * string * option error).

(** X6. With a [from-file] flag, [run] reads the issues from that
    file and from nowhere else: the tracker, the token and the [repo]
    flag have no influence on what it does, and a [repo] flag without
    ["/"] does not make it panic. *)
Theorem from_file_ignores_the_tracker (fl : Run.flags) (w : Run.world files)
    (allIssues' : string → string → string → error + list github.Issue.t)
    (tok' repo' : string) :
  Run.fromFile fl ≠ "" →
  Run.run ReadFile WriteFile Marshal Unmarshal allIssues' printIssues
          (Run.Flags tok' repo' (Run.milestones fl) (Run.out fl)
                     (Run.fromFile fl)) w
  = Run.run ReadFile WriteFile Marshal Unmarshal allIssues printIssues fl w
  ∧ ∀ p, (Run.run ReadFile WriteFile Marshal Unmarshal allIssues printIssues
                  fl w).1 ≠ Run.Panicked p.
Proof.
  intros Hff. unfold Run.run, Run.load. simpl.
  rewrite !bool_decide_true by done. split; [done|].
  intros p. destruct (Run.readIssues ReadFile Unmarshal (Run.fs w)
                        (Run.fromFile fl)) as [err|issues]; [done|].
  destruct (printIssues issues _) as [[issues' text] [err|]]; [done|].
  destruct (bool_decide (Run.out fl ≠ "")); [|done].
  by destruct (Run.writeIssues WriteFile Marshal _ issues' (Run.out fl)).
Qed.

(** X7. When the issues cannot be had, [run] returns the error of the
    step that failed (reading the file, decoding it, or the fetch
    from the tracker) and has by then printed nothing and written
    nothing. *)
Theorem failed_load_ends_the_run (fl : Run.flags) (w : Run.world files)
    (err : error) :
  (Run.fromFile fl ≠ ""
   ∧ ReadFile (Run.fs w) (Run.fromFile fl) = inl err)
  ∨ (Run.fromFile fl ≠ ""
     ∧ ∃ b, ReadFile (Run.fs w) (Run.fromFile fl) = inr b
          ∧ Unmarshal b = inl err)
  ∨ (Run.fromFile fl = ""
     ∧ ∃ owner name, Run.repo fl = owner +:+ "/" +:+ name
          ∧ ¬ occurs "/" owner
          ∧ allIssues (Run.tok fl) owner name = inl err) →
  Run.run ReadFile WriteFile Marshal Unmarshal allIssues printIssues fl w
  = (Run.Returned (Some err), w).
Proof.
  intros Hcase.
  assert (Run.load ReadFile Unmarshal allIssues fl (Run.fs w) = inr (inl err))
    as Hload.
  { destruct Hcase as [[Hff Hread]|[(Hff & b & Hread & Hdec)
                                   |(Hff & owner & name & Hrepo & Hown & Hfetch)]].
    - unfold Run.load, Run.readIssues.
      rewrite bool_decide_true by done. by rewrite Hread.
    - unfold Run.load, Run.readIssues.
      rewrite bool_decide_true by done. by rewrite Hread, Hdec.
    - rewrite (load_at_first_slash fl (Run.fs w) owner name Hff Hrepo Hown).
      by rewrite Hfetch. }
  unfold Run.run. by rewrite Hload.
Qed.

(** X8. [run] writes to no file but the one the [write-issues] flag
    names, and to that one only after the issues were loaded and
    rendered without error; what it writes there is the encoding of
    the issues as rendering left them.  Without the flag the file
    system is as it was.  Whatever happens, the standard output is
    only appended to. *)
Theorem run_writes_only_the_cache (fl : Run.flags) (w : Run.world files) :
  let r := Run.run ReadFile WriteFile Marshal Unmarshal allIssues printIssues
                   fl w in
  (Run.out fl = "" → Run.fs r.2 = Run.fs w)
  ∧ (Run.fs r.2 = Run.fs w
     ∨ ∃ issues js,
         Run.load ReadFile Unmarshal allIssues fl (Run.fs w) = inr (inr issues)
         ∧ (printIssues issues (Run.Split (Run.milestones fl) ",")).2 = None
         ∧ Marshal (printIssues issues (Run.Split (Run.milestones fl) ",")).1.1
           = inr js
         ∧ Run.out fl ≠ ""
         ∧ Run.fs r.2 = (WriteFile (Run.fs w) (Run.out fl) js).1)
  ∧ ∃ text, Run.stdout r.2 = Run.stdout w +:+ text.
Proof.
  unfold Run.run.
  destruct (Run.load ReadFile Unmarshal allIssues fl (Run.fs w))
    as [p|[err|issues]] eqn:Hload; simpl.
  - split; [done|]. split; [by left|]. exists "". by rewrite append_nil_r.
  - split; [done|]. split; [by left|]. exists "". by rewrite append_nil_r.
  - destruct (printIssues issues (Run.Split (Run.milestones fl) ","))
      as [[issues' text] [err|]] eqn:Hprint; simpl.
    + split; [done|]. split; [by left|]. by exists text.
    + destruct (decide (Run.out fl = "")) as [Hout|Hout].
      * rewrite bool_decide_false by (intros H; by apply H).
        simpl. split; [done|]. split; [by left|]. by exists text.
      * rewrite bool_decide_true by done. unfold Run.writeIssues.
        destruct (Marshal issues') as [err|js] eqn:Hjs; simpl.
        { split; [done|]. split; [by left|]. by exists text. }
        destruct (WriteFile (Run.fs w) (Run.out fl) js) as [fs' err'] eqn:Hw.
        simpl. split; [done|]. split; [|by exists text].
        right. exists issues, js. rewrite Hprint, Hw. done.
Qed.

End printer.

(** X9. The cache file replays the report of main.go: after a run
    that loaded [issues], printed them and wrote them to the
    [write-issues] file without error, a run with that file as
    [from-file] prints the same text again, whatever its [token] and
    [repo] flags and whatever the tracker holds by then, provided
    the file reads back as written and decodes to the issues that
    were encoded. *)
Theorem cache_replay (fl : Run.flags) (w : Run.world files)
    (issues : list github.Issue.t) (js : string) (fs' : files)
    (allIssues' : string → string → string → error + list github.Issue.t)
    (tok' repo' : string) :
  Run.load ReadFile Unmarshal allIssues fl (Run.fs w) = inr (inr issues) →
  Run.out fl ≠ "" →
  Marshal issues = inr js →
  WriteFile (Run.fs w) (Run.out fl) js = (fs', None) →
  ReadFile fs' (Run.out fl) = inr js →
  Unmarshal js = inr issues →
  let text := Markdown.stdout
                (Markdown.printIssues issues
                   (Run.Split (Run.milestones fl) ",")) in
  let w1 := Run.World fs' (Run.stdout w +:+ text) in
  Run.run ReadFile WriteFile Marshal Unmarshal allIssues Run.printMarkdown fl w
  = (Run.Returned None, w1)
  ∧ Run.run ReadFile WriteFile Marshal Unmarshal allIssues' Run.printMarkdown
            (Run.Flags tok' repo' (Run.milestones fl) "" (Run.out fl)) w1
    = (Run.Returned None, Run.World fs' (Run.stdout w1 +:+ text)).
Proof.
  intros Hload Hout Hjs Hw Hread Hdec text w1.
  destruct (printIssues_spec issues (Run.Split (Run.milestones fl) ","))
    as [Hiss _].
  split.
  - unfold Run.run. rewrite Hload. unfold Run.printMarkdown.
    rewrite Hiss. simpl. rewrite bool_decide_true by done.
    unfold Run.writeIssues. rewrite Hjs, Hw. done.
  - unfold Run.run, Run.load, Run.readIssues. simpl.
    rewrite bool_decide_true by done. rewrite Hread, Hdec.
    done.
Qed.

End RunFacts.

(** X10. The [milestones] flag is cut at every comma and the pieces
    are requested as they stand, in their order: a list of
    comma-free names joined by commas requests just those names,
    every flag value is the comma-joined list of the names it
    requests, so no requested name has a comma in it; the empty flag
    requests the one milestone whose title is empty. *)
Theorem milestones_flag :
  (∀ names, names ≠ [] → Forall (λ s, ¬ occurs "," s) names →
     Run.Split (joinWith "," names) "," = names)
  ∧ (∀ s, joinWith "," (Run.Split s ",") = s
          ∧ Forall (λ p, ¬ occurs "," p) (Run.Split s ",")
          ∧ Run.Split s "," ≠ [])
  ∧ Run.Split "" "," = [""]
  ∧ ∀ l, Markdown.stdout (Markdown.printIssues l (Run.Split "" ","))
         = match ofMilestone "" l with
           | [] => ""
           | _ => MarkdownSpec.blockText l ""
           end.
Proof.
  split; [intros names; apply (Split_joinWith ","%char)|].
  split; [intros s; by apply (genSplit_spec ","%char)|].
  split; [done|].
  intros l. destruct (printIssues_spec l (Run.Split "" ",")) as [_ ->].
  change (Run.Split "" ",") with [""]. rewrite filter_cons, filter_nil.
  destruct (ofMilestone "" l) as [|x r] eqn:E.
  - rewrite decide_False by (intros H; by apply H). done.
  - rewrite decide_True by done. simpl. by rewrite append_nil_r.
Qed.

Lemma repo_split_at_first_slash_witness :
  Run.fromFile Sample.flags = ""
  ∧ Run.repo Sample.flags = "jonasi" +:+ "/" +:+ "issuedash"
  ∧ ¬ occurs "/" "jonasi"
  ∧ Run.load Sample.ReadFile Sample.Unmarshal Sample.allIssues Sample.flags None
    = inr (Sample.allIssues "secret" "jonasi" "issuedash").
Proof.
  assert (Run.fromFile Sample.flags = "") as H1 by reflexivity.
  assert (Run.repo Sample.flags = "jonasi" +:+ "/" +:+ "issuedash") as H2
    by reflexivity.
  assert (¬ occurs "/" "jonasi") as H3.
  { unfold occurs. apply (bool_decide_unpack _). vm_compute. exact I. }
  do 3 (split; [assumption|]).
  destruct (repo_split_at_first_slash Sample.ReadFile Sample.Unmarshal
              Sample.allIssues Sample.flags None "jonasi" "issuedash"
              H1 H2 H3) as (_ & E).
  exact E.
Defined.

Lemma from_file_ignores_the_tracker_witness :
  Run.fromFile Fixture.replay ≠ ""
  ∧ ∀ p, (Run.run Fixture.ReadFile Fixture.WriteFile Fixture.Marshal
                  Fixture.Unmarshal Fixture.allIssues Run.printMarkdown
                  Fixture.replay (Run.World [] "")).1 ≠ Run.Panicked p.
Proof.
  assert (Run.fromFile Fixture.replay ≠ "") as H1 by discriminate.
  split; [assumption|].
  destruct (from_file_ignores_the_tracker Fixture.ReadFile Fixture.WriteFile
              Fixture.Marshal Fixture.Unmarshal Fixture.allIssues
              Run.printMarkdown Fixture.replay (Run.World [] "")
              Fixture.allIssues "" "" H1) as (_ & E).
  exact E.
Defined.

Lemma failed_load_ends_the_run_witness :
  (Run.fromFile Fixture.replay ≠ ""
   ∧ Fixture.ReadFile [] (Run.fromFile Fixture.replay) = inl "no such file")
  ∧ Run.run Fixture.ReadFile Fixture.WriteFile Fixture.Marshal
            Fixture.Unmarshal Fixture.allIssues Run.printMarkdown
            Fixture.replay (Run.World [] "")
    = (Run.Returned (Some "no such file"), Run.World [] "").
Proof.
  assert (Run.fromFile Fixture.replay ≠ ""
          ∧ Fixture.ReadFile [] (Run.fromFile Fixture.replay)
            = inl "no such file") as H1.
  { split; [discriminate|reflexivity]. }
  split; [assumption|].
  apply (failed_load_ends_the_run Fixture.ReadFile Fixture.WriteFile
           Fixture.Marshal Fixture.Unmarshal Fixture.allIssues
           Run.printMarkdown Fixture.replay (Run.World [] "") "no such file").
  left. exact H1.
Defined.

Lemma cache_replay_witness :
  let w := Run.World ([] : Fixture.files) "" in
  let fs' := [("cache.json", "3,2,4,1")] in
  Run.load Fixture.ReadFile Fixture.Unmarshal Fixture.allIssues Fixture.write []
  = inr (inr Fixture.known)
  ∧ Run.out Fixture.write ≠ ""
  ∧ Fixture.Marshal Fixture.known = inr "3,2,4,1"
  ∧ Fixture.WriteFile [] (Run.out Fixture.write) "3,2,4,1" = (fs', None)
  ∧ Fixture.ReadFile fs' (Run.out Fixture.write) = inr "3,2,4,1"
  ∧ Fixture.Unmarshal "3,2,4,1" = inr Fixture.known
  ∧ (Run.run Fixture.ReadFile Fixture.WriteFile Fixture.Marshal
             Fixture.Unmarshal Fixture.allIssues Run.printMarkdown
             Fixture.write w).1 = Run.Returned None.
Proof.
  intros w fs'.
  assert (Run.load Fixture.ReadFile Fixture.Unmarshal Fixture.allIssues
            Fixture.write [] = inr (inr Fixture.known)) as H1
    by (vm_compute; reflexivity).
  assert (Run.out Fixture.write ≠ "") as H2 by discriminate.
  assert (Fixture.Marshal Fixture.known = inr "3,2,4,1") as H3
    by (vm_compute; reflexivity).
  assert (Fixture.WriteFile [] (Run.out Fixture.write) "3,2,4,1" = (fs', None))
    as H4 by reflexivity.
  assert (Fixture.ReadFile fs' (Run.out Fixture.write) = inr "3,2,4,1") as H5
    by (vm_compute; reflexivity).
  assert (Fixture.Unmarshal "3,2,4,1" = inr Fixture.known) as H6
    by (vm_compute; reflexivity).
  do 6 (split; [assumption|]).
  destruct (cache_replay Fixture.ReadFile Fixture.WriteFile Fixture.Marshal
              Fixture.Unmarshal Fixture.allIssues Fixture.write w
              Fixture.known "3,2,4,1" fs' Fixture.allIssues "" ""
              H1 H2 H3 H4 H5 H6) as (E & _).
  by rewrite E.
Defined.

(** ** [allIssues]: the paginated fetch *)

Section Pagination.
Import Tracker.
Context {error tracker : Type}.
Context (ListByRepo :
  tracker → string → string → IssueListByRepoOptions →
  tracker * (error + (list github.Issue.t * Response))).
Context (owner repo : string).

Lemma loop_exchange tr page pages e tr' :
  exchange ListByRepo owner repo tr page pages e tr' →
  ∀ acc fuel,
    ((requests pages e ≤ fuel)%nat →
     loop ListByRepo fuel tr owner repo acc page
     = Some (tr', fetched acc pages e))
    ∧ ((fuel < requests pages e)%nat →
       loop ListByRepo fuel tr owner repo acc page = None).
Proof.
  induction 1 as [tr page issues tr' Hask|tr page err tr' Hask
                 |tr page issues next tr' pages e tr'' Hnext Hask Hrest IH];
    intros acc fuel.
  - destruct fuel as [|fuel]; simpl; (split; intros Hf; [|done || lia]);
      [lia|]. rewrite Hask. simpl. by rewrite app_nil_r.
  - destruct fuel as [|fuel]; simpl; (split; intros Hf; [|done || lia]);
      [lia|]. by rewrite Hask.
  - destruct fuel as [|fuel].
    { split; intros Hf; [|done]. destruct e; simpl in Hf; lia. }
    simpl loop. rewrite Hask. simpl.
    rewrite (proj2 (Z.eqb_neq next 0)) by done.
    destruct (IH (acc ++ issues) fuel) as [IH1 IH2]. split; intros Hf.
    + rewrite IH1 by (destruct e; simpl in *; lia).
      do 2 f_equal. destruct e; simpl; [done|]. by rewrite app_assoc.
    + apply IH2. destruct e; simpl in *; lia.
Qed.

Lemma loop_returns fuel :
  ∀ tr acc page tr' r,
    loop ListByRepo fuel tr owner repo acc page = Some (tr', r) →
    ∃ pages e, exchange ListByRepo owner repo tr page pages e tr'
               ∧ r = fetched acc pages e ∧ (requests pages e ≤ fuel)%nat.
Proof.
  induction fuel as [|fuel IH]; intros tr acc page tr' r; simpl; [done|].
  destruct (ListByRepo tr owner repo (request page))
    as [tr1 [err|[issues [next]]]] eqn:Hask; simpl.
  - intros [= <- <-]. exists [], (Some err). split; [|split; [done|simpl; lia]].
    by constructor.
  - destruct (next =? 0) eqn:Hnext.
    + apply Z.eqb_eq in Hnext as ->. intros [= <- <-].
      exists [issues], None. split; [by constructor|].
      split; [|simpl; lia]. simpl. by rewrite app_nil_r.
    + apply Z.eqb_neq in Hnext. intros Hloop.
      apply IH in Hloop as (pages & e & Hex & -> & Hreq).
      exists (issues :: pages), e. split; [by econstructor|].
      split; [|destruct e; simpl in *; lia].
      destruct e; simpl; [done|]. by rewrite app_assoc.
Qed.

(** X11. When the tracker answers the request for page 1, and then
    for each page an answer names as the next, with [pages] and the
    last answer names no next page, [allIssues] returns the issues
    of all pages in the order they came, after exactly as many
    requests as there are pages. *)
Theorem allIssues_concatenates (tr tr' : tracker)
    (pages : list (list github.Issue.t)) (fuel : nat) :
  exchange ListByRepo owner repo tr 1 pages None tr' →
  ((length pages ≤ fuel)%nat →
   allIssues ListByRepo fuel tr owner repo = Some (tr', inr (concat pages)))
  ∧ ((fuel < length pages)%nat →
     allIssues ListByRepo fuel tr owner repo = None).
Proof.
  intros Hex. unfold allIssues.
  destruct (loop_exchange _ _ _ _ _ Hex [] fuel) as [H1 H2]. split.
  - intros Hfuel. by rewrite H1.
  - intros Hfuel. by apply H2.
Qed.

(** X12. When a request fails, [allIssues] returns that error and no
    issue: the pages it was given before are dropped, and no further
    request is sent. *)
Theorem allIssues_first_error (tr tr' : tracker)
    (pages : list (list github.Issue.t)) (err : error) (fuel : nat) :
  exchange ListByRepo owner repo tr 1 pages (Some err) tr' →
  (length pages < fuel)%nat →
  allIssues ListByRepo fuel tr owner repo = Some (tr', inl err).
Proof.
  intros Hex Hfuel. unfold allIssues.
  destruct (loop_exchange _ _ _ _ _ Hex [] fuel) as [H1 _].
  rewrite H1; [done|simpl; lia].
Qed.

(** X13. Whatever [allIssues] returns, it returns at the end of such
    an exchange that started with page 1: the error of the request
    that failed, or else the pages in order; and it returns the same
    however many more requests it would have been allowed. *)
Theorem allIssues_returns (tr tr' : tracker) (fuel : nat)
    (r : error + list github.Issue.t) :
  allIssues ListByRepo fuel tr owner repo = Some (tr', r) →
  (∃ pages e,
     exchange ListByRepo owner repo tr 1 pages e tr'
     ∧ r = match e with
           | None => inr (concat pages)
           | Some err => inl err
           end)
  ∧ ∀ fuel', (fuel ≤ fuel')%nat →
      allIssues ListByRepo fuel' tr owner repo = Some (tr', r).
Proof.
  intros Hret. unfold allIssues in *.
  apply loop_returns in Hret as (pages & e & Hex & -> & Hreq).
  split.
  - exists pages, e. split; [done|]. by destruct e.
  - intros fuel' Hfuel.
    destruct (loop_exchange _ _ _ _ _ Hex [] fuel') as [H1 _].
    apply H1. lia.
Qed.

(** X14. The loop of [allIssues] ends only on an error or on an
    answer that names page 0 as the next: against a tracker that
    always answers and always names a next page it never returns. *)
Theorem allIssues_needs_a_last_page (tr : tracker) (fuel : nat) :
  (∀ tr page, ∃ tr' issues next,
     ListByRepo tr owner repo (request page)
     = (tr', inr (issues, {| NextPage := next |})) ∧ next ≠ 0) →
  allIssues ListByRepo fuel tr owner repo = None.
Proof.
  intros Hmore. unfold allIssues. generalize (@nil github.Issue.t) 1.
  revert tr. induction fuel as [|fuel IH]; intros tr acc page; [done|].
  simpl. destruct (Hmore tr page) as (tr' & issues & next & -> & Hnext).
  simpl. rewrite (proj2 (Z.eqb_neq next 0)) by done. apply IH.
Qed.

End Pagination.

Lemma allIssues_concatenates_witness :
  Tracker.exchange Fixture.ListByRepo "jonasi" "issuedash" 0%nat 1
    [[Sample.u3; Sample.a2]; [Sample.loose; Sample.a1]] None 2%nat
  ∧ Tracker.allIssues Fixture.ListByRepo 2 0%nat "jonasi" "issuedash"
    = Some (2%nat, inr [Sample.u3; Sample.a2; Sample.loose; Sample.a1]).
Proof.
  assert (Tracker.exchange Fixture.ListByRepo "jonasi" "issuedash" 0%nat 1
            [[Sample.u3; Sample.a2]; [Sample.loose; Sample.a1]] None 2%nat)
    as H1.
  { apply (Tracker.exchange_next _ _ _ _ _ _ 2 1%nat); [done|reflexivity|].
    apply Tracker.exchange_last. reflexivity. }
  split; [assumption|].
  destruct (allIssues_concatenates Fixture.ListByRepo "jonasi" "issuedash"
              0%nat 2%nat _ 2%nat H1) as (E & _).
  apply E. simpl. lia.
Defined.

Lemma allIssues_first_error_witness :
  Tracker.exchange Fixture.flaky "jonasi" "issuedash" 0%nat 1
    [[Sample.u3; Sample.a2]] (Some "502 Bad Gateway") 2%nat
  ∧ (1 < 5)%nat
  ∧ Tracker.allIssues Fixture.flaky 5 0%nat "jonasi" "issuedash"
    = Some (2%nat, inl "502 Bad Gateway").
Proof.
  assert (Tracker.exchange Fixture.flaky "jonasi" "issuedash" 0%nat 1
            [[Sample.u3; Sample.a2]] (Some "502 Bad Gateway") 2%nat) as H1.
  { apply (Tracker.exchange_next _ _ _ _ _ _ 2 1%nat); [done|reflexivity|].
    apply Tracker.exchange_error. reflexivity. }
  assert (1 < 5)%nat as H2 by lia.
  do 2 (split; [assumption|]).
  exact (allIssues_first_error Fixture.flaky "jonasi" "issuedash" 0%nat 2%nat
           _ _ 5%nat H1 H2).
Defined.

Lemma allIssues_returns_witness :
  Tracker.allIssues Fixture.ListByRepo 2 0%nat "jonasi" "issuedash"
  = Some (2%nat, inr [Sample.u3; Sample.a2; Sample.loose; Sample.a1])
  ∧ Tracker.allIssues Fixture.ListByRepo 7 0%nat "jonasi" "issuedash"
    = Some (2%nat, inr [Sample.u3; Sample.a2; Sample.loose; Sample.a1]).
Proof.
  assert (Tracker.allIssues Fixture.ListByRepo 2 0%nat "jonasi" "issuedash"
          = Some (2%nat, inr [Sample.u3; Sample.a2; Sample.loose; Sample.a1]))
    as H1 by reflexivity.
  split; [assumption|].
  destruct (allIssues_returns Fixture.ListByRepo "jonasi" "issuedash"
              0%nat 2%nat 2%nat _ H1) as (_ & E).
  apply E. lia.
Defined.

Lemma allIssues_needs_a_last_page_witness :
  (∀ tr page, ∃ tr' issues next,
     Fixture.stuck tr "jonasi" "issuedash" (Tracker.request page)
     = (tr', inr (issues, {| Tracker.NextPage := next |})) ∧ next ≠ 0)
  ∧ Tracker.allIssues Fixture.stuck 100 0%nat "jonasi" "issuedash" = None.
Proof.
  assert (∀ tr page, ∃ tr' issues next,
            Fixture.stuck tr "jonasi" "issuedash" (Tracker.request page)
            = (tr', inr (issues, {| Tracker.NextPage := next |})) ∧ next ≠ 0)
    as H1.
  { intros tr page. exists (S tr), [Sample.u3], 1. split; [reflexivity|lia]. }
  split; [assumption|].
  exact (allIssues_needs_a_last_page Fixture.stuck "jonasi" "issuedash"
           0%nat 100%nat H1).
Defined.

(** ** The badges of part_000 *)

Lemma QueryEscape_app (a b : string) :
  url.QueryEscape (a +:+ b) = url.QueryEscape a +:+ url.QueryEscape b.
Proof.
  induction a as [|c a IH]; [done|].
  rewrite app_cons. simpl. by rewrite IH, append_assoc.
Qed.

Lemma escapeByte_digit (d : N) :
  url.escapeByte (pretty_N_char d) = String (pretty_N_char d) "".
Proof. unfold pretty_N_char. by repeat case_match. Qed.

Lemma QueryEscape_pretty_N_go (x : N) (s : string) :
  url.QueryEscape s = s →
  url.QueryEscape (pretty_N_go x s) = pretty_N_go x s.
Proof.
  revert s. induction (N.lt_wf_0 x) as [x _ IH]; intros s Hs.
  assert (x = 0 ∨ 0 < x)%N as [->|Hx] by lia.
  - by rewrite pretty_N_go_0.
  - rewrite pretty_N_go_step by done. apply IH.
    + by apply N.div_lt.
    + simpl. by rewrite escapeByte_digit, Hs.
Qed.

Lemma QueryEscape_pretty_N (x : N) : url.QueryEscape (pretty x) = pretty x.
Proof.
  unfold pretty, pretty_N. case_decide; [done|].
  by apply QueryEscape_pretty_N_go.
Qed.

(** A decimal number passes [url.QueryEscape] unchanged. *)
Lemma QueryEscape_pretty (z : Z) : url.QueryEscape (pretty z) = pretty z.
Proof.
  destruct z as [|p|p]; [done|apply (QueryEscape_pretty_N (N.pos p))|].
  change (pretty (Z.neg p)) with ("-" +:+ pretty (N.pos p)).
  rewrite QueryEscape_app, (QueryEscape_pretty_N (N.pos p)). done.
Qed.

Lemma CompletedBadge_text (s : Badge.stats.t) :
  Badges.CompletedBadge s
  = "https://img.shields.io/badge/completed-"
      +:+ pretty (Badge.stats.Closed s) +:+ "%2F"
      +:+ pretty (Badge.stats.Total s) +:+ "-blue.svg?style=flat-square".
Proof.
  unfold Badges.CompletedBadge.
  rewrite !QueryEscape_app, !QueryEscape_pretty.
  change (url.QueryEscape "/") with "%2F"%string.
  by rewrite !append_assoc.
Qed.

Lemma DaysBadge_text (s : Badge.stats.t) :
  Badges.DaysBadge s
  = "https://img.shields.io/badge/remaining-"
      +:+ pretty (Badge.stats.Days s) +:+ "d-green.svg?style=flat-square".
Proof.
  unfold Badges.DaysBadge.
  rewrite !QueryEscape_app, !QueryEscape_pretty.
  change (url.QueryEscape "d") with "d"%string.
  by rewrite !append_assoc.
Qed.

Section BadgeStore.
Import Badge BadgeSpec.

(** The counters of the store, for an input whose length fits [int]. *)
Lemma milestone_stats l t p m :
  Z.of_nat (length l) ≤ Go.MaxInt →
  msMap (parseIssues l) !! t = Some p →
  milestones (parseIssues l) !! p = Some m →
  milestone.Stats m
  = stats.mk
      (Z.of_nat (length (filter (λ x, github.Issue.ClosedAt x ≠ None)
                                (ofMilestone t l))))
      (Z.of_nat (length (ofMilestone t l)))
      (Go.wrap (sumZ (daysOf <$> filter (λ x, github.Issue.ClosedAt x = None)
                                        (ofMilestone t l)))).
Proof.
  intros Hlen Hp Hm.
  destruct (parseIssues_inv l) as (_ & _ & (_ & M2) & _).
  assert (length (indexed l) = length l) as Hil.
  { rewrite <- (length_fmap snd), indexed_snd. done. }
  destruct (statsOf_counts (inMs t (indexed l)) (length l) Hlen)
    as (T1 & T2 & _).
  { unfold inMs. rewrite <- Hil. apply length_filter. }
  pose proof (statsOf_days (inMs t (indexed l))) as T3.
  rewrite inMs_snd in T1, T2, T3. rewrite (M2 t p m Hp Hm).
  destruct (statsOf (inMs t (indexed l))) as [a b c]. simpl in *.
  by rewrite T1, T2, T3.
Qed.

Lemma component_stats l t p m q cmp :
  Z.of_nat (length l) ≤ Go.MaxInt →
  msMap (parseIssues l) !! t = Some p →
  milestones (parseIssues l) !! p = Some m →
  q ∈ milestone.Components m →
  components (parseIssues l) !! q = Some cmp →
  let own := ofComponent t (component.Name cmp) l in
  component.Stats cmp
  = stats.mk
      (Z.of_nat (length (filter (λ x, github.Issue.ClosedAt x ≠ None) own)))
      (Z.of_nat (length own))
      (Go.wrap (sumZ (daysOf <$> filter (λ x, github.Issue.ClosedAt x = None)
                                        own))).
Proof.
  intros Hlen Hp Hm Hq Hcmp own. unfold own. clear own.
  destruct (parseIssues_inv l) as (_ & (W1 & _) & _ & HC & _).
  destruct (W1 t p Hp) as (m' & cm & Hm' & _ & Hcm & _).
  assert (m' = m) as -> by congruence.
  destruct (HC t p m cm Hp Hm Hcm) as (_ & Hdata).
  destruct (Hdata q cmp Hq Hcmp) as (_ & _ & ->).
  generalize (component.Name cmp). intros c.
  assert (length (indexed l) = length l) as Hil.
  { rewrite <- (length_fmap snd), indexed_snd. done. }
  destruct (statsOf_counts (inCmp t c (indexed l)) (length l) Hlen)
    as (T1 & T2 & _).
  { unfold inCmp, inMs. rewrite <- Hil. etrans; apply length_filter. }
  pose proof (statsOf_days (inCmp t c (indexed l))) as T3.
  rewrite inCmp_snd in T1, T2, T3.
  destruct (statsOf (inCmp t c (indexed l))) as [a b d]. simpl in *.
  by rewrite T1, T2, T3.
Qed.

End BadgeStore.

(** X15. The badges of part_000 show the counters: the [completed]
    badge of a milestone is the shields.io address with the number
    of its closed issues, an escaped ["/"] and the number of all its
    issues in it, its [remaining] badge the one with the days of its
    open issues followed by [d]; likewise for every component, over
    the issues attributed to it.  The decimal numbers pass
    [url.QueryEscape] as they are. *)
Theorem badges_show_the_counters (l : list github.Issue.t) (t : string)
    (p : nat) (m : Badge.milestone.t) :
  Z.of_nat (length l) ≤ Go.MaxInt →
  Badge.msMap (Badge.parseIssues l) !! t = Some p →
  Badge.milestones (Badge.parseIssues l) !! p = Some m →
  let closed := filter (λ x, github.Issue.ClosedAt x ≠ None) in
  let open := filter (λ x, github.Issue.ClosedAt x = None) in
  let badges (own : list github.Issue.t) :=
    ("https://img.shields.io/badge/completed-"
       +:+ pretty (Z.of_nat (length (closed own))) +:+ "%2F"
       +:+ pretty (Z.of_nat (length own)) +:+ "-blue.svg?style=flat-square",
     "https://img.shields.io/badge/remaining-"
       +:+ pretty (Go.wrap (sumZ (BadgeSpec.daysOf <$> open own)))
       +:+ "d-green.svg?style=flat-square") in
  (Badges.milestone_CompletedBadge m, Badges.milestone_DaysBadge m)
  = badges (ofMilestone t l)
  ∧ ∀ q cmp,
      q ∈ Badge.milestone.Components m →
      Badge.components (Badge.parseIssues l) !! q = Some cmp →
      (Badges.component_CompletedBadge cmp, Badges.component_DaysBadge cmp)
      = badges (BadgeSpec.ofComponent t (Badge.component.Name cmp) l).
Proof.
  intros Hlen Hp Hm closed open badges. split.
  - unfold Badges.milestone_CompletedBadge, Badges.milestone_DaysBadge.
    rewrite CompletedBadge_text, DaysBadge_text.
    by rewrite (milestone_stats l t p m Hlen Hp Hm).
  - intros q cmp Hq Hcmp.
    unfold Badges.component_CompletedBadge, Badges.component_DaysBadge.
    rewrite CompletedBadge_text, DaysBadge_text.
    by rewrite (component_stats l t p m q cmp Hlen Hp Hm Hq Hcmp).
Qed.

Lemma badges_show_the_counters_witness :
  let l := [Sample.u3; Sample.a2; Sample.loose; Sample.a1] in
  let m := Badge.milestone.mk Sample.v1 [1%nat; 0%nat] (Badge.stats.mk 1 3 3) in
  Z.of_nat (length l) ≤ Go.MaxInt
  ∧ Badge.msMap (Badge.parseIssues l) !! "v1.0" = Some 0%nat
  ∧ Badge.milestones (Badge.parseIssues l) !! 0%nat = Some m
  ∧ (Badges.milestone_CompletedBadge m, Badges.milestone_DaysBadge m)
    = ("https://img.shields.io/badge/completed-1%2F3-blue.svg?style=flat-square",
       "https://img.shields.io/badge/remaining-3d-green.svg?style=flat-square").
Proof.
  intros l m.
  assert (Z.of_nat (length l) ≤ Go.MaxInt) as H1 by (vm_compute; discriminate).
  assert (Badge.msMap (Badge.parseIssues l) !! "v1.0" = Some 0%nat) as H2
    by (vm_compute; reflexivity).
  assert (Badge.milestones (Badge.parseIssues l) !! 0%nat = Some m) as H3
    by (vm_compute; reflexivity).
  do 3 (split; [assumption|]).
  destruct (badges_show_the_counters l "v1.0" 0%nat m H1 H2 H3) as (E & _).
  rewrite E. vm_compute. reflexivity.
Defined.

(** ** More on the store of part_000 *)

Section BadgeEntries.
Import Badge BadgeSpec.

Lemma scan_typeName ls acc :
  typeName (foldl scanLabel acc ls) =
  default (typeName acc)
    (Go.from 6 <$> last (filter (λ lbl, Go.HasPrefix lbl "type: ")
                                (github.Label.String <$> ls))).
Proof.
  induction ls as [|lb ls IH] using rev_ind; [done|].
  rewrite foldl_app, fmap_app, filter_app, last_app.
  change (foldl scanLabel (foldl scanLabel acc ls) [lb])
    with (scanLabel (foldl scanLabel acc ls) lb).
  change (github.Label.String <$> [lb]) with [github.Label.String lb].
  rewrite filter_cons, filter_nil. unfold scanLabel at 1. cbn [typeName].
  destruct (Go.HasPrefix (github.Label.String lb) "type: ") eqn:Hp.
  - by rewrite decide_True.
  - rewrite decide_False by (intros H; exact H). apply IH.
Qed.

Lemma typeOf_last x :
  typeOf x = default "" (Go.from 6 <$> last (typeLabels x)).
Proof. unfold typeOf, scanLabels. by rewrite scan_typeName. Qed.

(** The entries of a component, read back. *)
Lemma component_entries l t p m q cmp w :
  msMap (parseIssues l) !! t = Some p →
  milestones (parseIssues l) !! p = Some m →
  q ∈ milestone.Components m →
  components (parseIssues l) !! q = Some cmp →
  w ∈ component.Issues cmp →
  ∃ x, l !! issue.Issue w = Some x ∧ w = wrapper (issue.Issue w, x)
       ∧ title x = Some t ∧ cmpOf x = component.Name cmp.
Proof.
  intros Hp Hm Hq Hcmp Hw.
  destruct (parseIssues_inv l) as (_ & (W1 & _) & _ & HC & _).
  destruct (W1 t p Hp) as (m' & cm & Hm' & _ & Hcm & _).
  assert (m' = m) as -> by congruence.
  destruct (HC t p m cm Hp Hm Hcm) as (_ & Hdata).
  destruct (Hdata q cmp Hq Hcmp) as (_ & Hperm & _).
  rewrite Hperm in Hw.
  apply list_elem_of_fmap in Hw as ([i x] & -> & Hix).
  apply list_elem_of_filter in Hix as [Hc Hix].
  apply list_elem_of_filter in Hix as [Ht Hix].
  apply elem_of_indexed in Hix. by exists x.
Qed.

End BadgeEntries.

(** X16. The type part_000 shows beside an issue is the text after
    ["type: "] of the last label of the issue that starts with it,
    and empty when the issue has no such label. *)
Theorem entry_type_is_last_type_label (l : list github.Issue.t) (t : string)
    (p : nat) (m : Badge.milestone.t) (q : nat) (cmp : Badge.component.t)
    (w : Badge.issue.t) :
  Badge.msMap (Badge.parseIssues l) !! t = Some p →
  Badge.milestones (Badge.parseIssues l) !! p = Some m →
  q ∈ Badge.milestone.Components m →
  Badge.components (Badge.parseIssues l) !! q = Some cmp →
  w ∈ Badge.component.Issues cmp →
  ∃ x, l !! Badge.issue.Issue w = Some x
    ∧ Badge.issue.Type' w = default "" (Go.from 6 <$> last (typeLabels x))
    ∧ (typeLabels x = [] → Badge.issue.Type' w = "").
Proof.
  intros Hp Hm Hq Hcmp Hw.
  destruct (component_entries l t p m q cmp w Hp Hm Hq Hcmp Hw)
    as (x & Hx & Hwx & _).
  exists x. split; [done|].
  assert (Badge.issue.Type' w = default "" (Go.from 6 <$> last (typeLabels x)))
    as Hty.
  { rewrite Hwx. simpl. apply typeOf_last. }
  split; [done|]. intros Hnil. by rewrite Hty, Hnil.
Qed.

Lemma entry_type_is_last_type_label_witness :
  let l := [Sample.u3; Sample.a2; Sample.loose; Sample.a1] in
  let m := Badge.milestone.mk Sample.v1 [1%nat; 0%nat] (Badge.stats.mk 1 3 3) in
  let w := Badge.issue.mk 0 "bug" 0 in
  let cmp := Badge.component.mk "ui" [w] (Badge.stats.mk 0 1 0) in
  Badge.msMap (Badge.parseIssues l) !! "v1.0" = Some 0%nat
  ∧ Badge.milestones (Badge.parseIssues l) !! 0%nat = Some m
  ∧ 0%nat ∈ Badge.milestone.Components m
  ∧ Badge.components (Badge.parseIssues l) !! 0%nat = Some cmp
  ∧ w ∈ Badge.component.Issues cmp
  ∧ ∃ x, l !! 0%nat = Some x
      ∧ Badge.issue.Type' w = default "" (Go.from 6 <$> last (typeLabels x)).
Proof.
  intros l m w cmp.
  assert (Badge.msMap (Badge.parseIssues l) !! "v1.0" = Some 0%nat) as H1
    by (vm_compute; reflexivity).
  assert (Badge.milestones (Badge.parseIssues l) !! 0%nat = Some m) as H2
    by (vm_compute; reflexivity).
  assert (0%nat ∈ Badge.milestone.Components m) as H3
    by (right; left).
  assert (Badge.components (Badge.parseIssues l) !! 0%nat = Some cmp) as H4
    by (vm_compute; reflexivity).
  assert (w ∈ Badge.component.Issues cmp) as H5 by left.
  do 5 (split; [assumption|]).
  destruct (entry_type_is_last_type_label l "v1.0" 0%nat m 0%nat cmp w
              H1 H2 H3 H4 H5) as (x & E1 & E2 & _).
  exists x. split; [exact E1|exact E2].
Defined.

(** X17. part_000 allocates nothing it has no issue for: every
    milestone of the result has at least one input issue, every
    component listed under a milestone has a non-empty name and at
    least one entry, and belongs to that milestone alone. *)
Theorem no_empty_milestone_or_component (l : list github.Issue.t)
    (t : string) (p : nat) (m : Badge.milestone.t) :
  Badge.msMap (Badge.parseIssues l) !! t = Some p →
  Badge.milestones (Badge.parseIssues l) !! p = Some m →
  ofMilestone t l ≠ []
  ∧ ∀ q cmp,
      q ∈ Badge.milestone.Components m →
      Badge.components (Badge.parseIssues l) !! q = Some cmp →
      Badge.component.Name cmp ≠ ""
      ∧ Badge.component.Issues cmp ≠ []
      ∧ ∀ t' p' m',
          Badge.msMap (Badge.parseIssues l) !! t' = Some p' →
          Badge.milestones (Badge.parseIssues l) !! p' = Some m' →
          q ∈ Badge.milestone.Components m' → t' = t.
Proof.
  intros Hp Hm.
  destruct (parseIssues_inv l) as (_ & (W1 & W2 & _) & _ & HC & HN & _).
  destruct (W1 t p Hp) as (m' & cm & Hm' & Ht & Hcm & _).
  assert (m' = m) as -> by congruence.
  destruct (HN t p m Hp Hm) as (Hms & Hcs). split.
  - rewrite <- inMs_snd. intros Hnil. apply Hms.
    by apply fmap_nil_inv in Hnil.
  - intros q cmp Hq Hcmp.
    destruct (HC t p m cm Hp Hm Hcm) as (_ & Hdata).
    destruct (Hdata q cmp Hq Hcmp) as (Hname & Hperm & _).
    split; [done|]. split.
    + intros Hnil. rewrite Hnil in Hperm. symmetry in Hperm.
      apply Permutation_nil_r in Hperm. apply fmap_nil_inv in Hperm.
      by apply (Hcs q cmp).
    + intros t' p' m' Hp' Hm'' Hq'.
      destruct (W1 t' p' Hp') as (m2 & _ & Hm2 & Ht' & _).
      assert (m2 = m') as -> by congruence.
      assert (p = p') as <- by by apply (W2 p p' m m' q).
      assert (m' = m) as -> by congruence. congruence.
Qed.

Lemma no_empty_milestone_or_component_witness :
  let l := [Sample.u3; Sample.a2; Sample.loose; Sample.a1] in
  let m := Badge.milestone.mk Sample.v1 [1%nat; 0%nat] (Badge.stats.mk 1 3 3) in
  Badge.msMap (Badge.parseIssues l) !! "v1.0" = Some 0%nat
  ∧ Badge.milestones (Badge.parseIssues l) !! 0%nat = Some m
  ∧ ofMilestone "v1.0" l ≠ [].
Proof.
  intros l m.
  assert (Badge.msMap (Badge.parseIssues l) !! "v1.0" = Some 0%nat) as H1
    by (vm_compute; reflexivity).
  assert (Badge.milestones (Badge.parseIssues l) !! 0%nat = Some m) as H2
    by (vm_compute; reflexivity).
  do 2 (split; [assumption|]).
  destruct (no_empty_milestone_or_component l "v1.0" 0%nat m H1 H2) as (E & _).
  exact E.
Defined.

(** ** The components of a milestone share out its issues *)

Lemma sumZ_zero {A} (names : list A) : sumZ ((λ _, 0) <$> names) = 0.
Proof.
  induction names as [|c names IH]; [done|]. rewrite fmap_cons.
  change (0 + sumZ ((λ _ : A, 0) <$> names) = 0). by rewrite IH.
Qed.

Lemma sumZ_plus {A} (a b : A → Z) (names : list A) :
  sumZ ((λ c, a c + b c) <$> names)
  = sumZ (a <$> names) + sumZ (b <$> names).
Proof.
  induction names as [|c names IH]; [done|].
  rewrite !fmap_cons.
  change (a c + b c + sumZ ((λ c, a c + b c) <$> names)
          = a c + sumZ (a <$> names) + (b c + sumZ (b <$> names))).
  rewrite IH. lia.
Qed.

Lemma sumZ_indicator (names : list string) (c0 : string) :
  NoDup names →
  sumZ ((λ c, if decide (c0 = c) then 1 else 0) <$> names)
  = if decide (c0 ∈ names) then 1 else 0.
Proof.
  induction 1 as [|c names Hc Hnd IH]; [done|].
  rewrite fmap_cons.
  change ((if decide (c0 = c) then 1 else 0)
          + sumZ ((λ c, if decide (c0 = c) then 1 else 0) <$> names)
          = if decide (c0 ∈ c :: names) then 1 else 0).
  rewrite IH.
  destruct (decide (c0 = c)) as [->|Hne].
  - rewrite (decide_True (P := c ∈ c :: names)) by left.
    by rewrite decide_False.
  - destruct (decide (c0 ∈ names)) as [Hin|Hin].
    + by rewrite (decide_True (P := c0 ∈ c :: names)) by by right.
    + rewrite (decide_False (P := c0 ∈ c :: names)); [done|].
      intros [?|?]%elem_of_cons; done.
Qed.

Lemma partition_count {A} (f : A → string) (names : list string) (M : list A) :
  NoDup names →
  sumZ ((λ c, Z.of_nat (length (filter (λ x, f x = c) M))) <$> names)
  = Z.of_nat (length (filter (λ x, f x ∈ names) M)).
Proof.
  intros Hnd. induction M as [|x M IH].
  - apply sumZ_zero.
  - rewrite (list_fmap_ext _
      (λ c, (if decide (f x = c) then 1 else 0)
            + Z.of_nat (length (filter (λ x, f x = c) M))) names).
    + rewrite sumZ_plus, IH, sumZ_indicator by done.
      rewrite filter_cons. destruct (decide (f x ∈ names)); simpl; lia.
    + intros _ c _. rewrite filter_cons.
      destruct (decide (f x = c)); simpl; lia.
Qed.

Lemma filter_ext_in {A} (P Q : A → Prop) `{∀ x, Decision (P x)}
    `{∀ x, Decision (Q x)} (l : list A) :
  (∀ x, x ∈ l → P x ↔ Q x) → filter P l = filter Q l.
Proof.
  induction l as [|x l IH]; intros Hext; [done|].
  rewrite !filter_cons.
  assert (P x ↔ Q x) as Hx by (apply Hext; left).
  rewrite IH by (intros y Hy; apply Hext; by right).
  destruct (decide (P x)), (decide (Q x)); try done; tauto.
Qed.

(** X18. In part_000 the components of a milestone share out its
    issues that the label scan gives a non-empty component: their
    totals add up to the number of those issues, and the milestone
    total exceeds that sum by the number of its issues without a
    component, which are counted for the milestone and listed
    nowhere.  The total of every single component is the length of
    its issue list and the number of input issues attributed to
    it. *)
Theorem components_share_the_milestone (l : list github.Issue.t) (t : string)
    (p : nat) (m : Badge.milestone.t) (cs : list Badge.component.t) :
  Z.of_nat (length l) ≤ Go.MaxInt →
  Badge.msMap (Badge.parseIssues l) !! t = Some p →
  Badge.resolve (Badge.parseIssues l) p = Some (m, cs) →
  let total c := Badge.stats.Total (Badge.component.Stats c) in
  sumZ (total <$> cs)
  = Z.of_nat (length (filter (λ x, BadgeSpec.cmpOf x ≠ "") (ofMilestone t l)))
  ∧ Badge.stats.Total (Badge.milestone.Stats m)
    = sumZ (total <$> cs)
      + Z.of_nat (length (filter (λ x, BadgeSpec.cmpOf x = "")
                                 (ofMilestone t l)))
  ∧ sumZ (Z.of_nat ∘ length ∘ Badge.component.Issues <$> cs)
    = sumZ (total <$> cs)
  ∧ Forall (λ c,
      total c = Z.of_nat (length (Badge.component.Issues c))
      ∧ total c = Z.of_nat (length (BadgeSpec.ofComponent t
                                      (Badge.component.Name c) l))) cs.
Proof.
  intros Hlen Hp Hres total.
  destruct (parseIssues_report l t p Hp)
    as (m' & cs' & Hres' & Hm & Hall & _ & Hst & Hsorted & Hnames & Hdata).
  assert (m' = m ∧ cs' = cs) as [-> ->] by (split; congruence).
  assert (length (indexed l) = length l) as Hil.
  { rewrite <- (length_fmap snd), indexed_snd. done. }
  assert (∀ c, c ∈ cs →
            total c = Z.of_nat (length (BadgeSpec.ofComponent t
                                          (Badge.component.Name c) l))
            ∧ Z.of_nat (length (Badge.component.Issues c)) = total c)
    as Htot.
  { intros c Hc. rewrite Forall_forall in Hdata.
    destruct (Hdata c Hc) as (Hperm & Hs & _). unfold total. rewrite Hs.
    destruct (statsOf_counts
                (BadgeSpec.inCmp t (Badge.component.Name c) (indexed l))
                (length l) Hlen) as (T1 & _).
    { unfold BadgeSpec.inCmp, BadgeSpec.inMs. rewrite <- Hil.
      etrans; apply length_filter. }
    rewrite inCmp_snd in T1. rewrite T1. split; [done|].
    by rewrite Hperm, length_fmap, <- (inCmp_snd t _ l), length_fmap. }
  assert (sumZ (total <$> cs)
          = Z.of_nat (length (filter (λ x, BadgeSpec.cmpOf x ≠ "")
                                     (ofMilestone t l)))) as Hsum.
  { rewrite (list_fmap_ext total
      ((λ c, Z.of_nat (length (filter (λ x, BadgeSpec.cmpOf x = c)
                                      (ofMilestone t l))))
       ∘ Badge.component.Name) cs).
    - rewrite list_fmap_compose.
      rewrite partition_count by by apply ascending_NoDup.
      do 2 f_equal. apply filter_ext_in. intros x Hx. rewrite Hnames.
      split; [by intros [? _]|]. intros Hne. split; [done|].
      intros Hnil.
      assert (x ∈ BadgeSpec.ofComponent t (BadgeSpec.cmpOf x) l) as Hin.
      { unfold BadgeSpec.ofComponent. by apply list_elem_of_filter. }
      rewrite Hnil in Hin. by apply elem_of_nil in Hin.
    - intros i c Hc. apply list_elem_of_lookup_2 in Hc.
      by destruct (Htot c Hc) as [-> _]. }
  split; [done|]. split.
  - rewrite Hst, Hsum.
    destruct (statsOf_counts (BadgeSpec.inMs t (indexed l)) (length l) Hlen)
      as (T1 & _).
    { unfold BadgeSpec.inMs. rewrite <- Hil. apply length_filter. }
    rewrite inMs_snd in T1. rewrite T1.
    pose proof (filter_split_length (λ x, BadgeSpec.cmpOf x = "")
                  (ofMilestone t l)) as Hsplit.
    lia.
  - split.
    + apply (f_equal sumZ). apply list_fmap_ext.
      intros i c Hc. apply list_elem_of_lookup_2 in Hc.
      by destruct (Htot c Hc) as [_ <-].
    + rewrite Forall_forall. intros c Hc.
      destruct (Htot c Hc) as [E1 E2]. split; [by rewrite E2|exact E1].
Qed.

Lemma components_share_the_milestone_witness :
  let l := [Sample.u3; Sample.a2; Sample.loose; Sample.a1; Sample.blank] in
  Z.of_nat (length l) ≤ Go.MaxInt
  ∧ Badge.msMap (Badge.parseIssues l) !! "v1.0" = Some 0%nat
  ∧ (∃ m cs, Badge.resolve (Badge.parseIssues l) 0 = Some (m, cs)
       ∧ Badge.stats.Total (Badge.milestone.Stats m)
         = sumZ ((λ c, Badge.stats.Total (Badge.component.Stats c)) <$> cs)
           + Z.of_nat (length (filter (λ x, BadgeSpec.cmpOf x = "")
                                      (ofMilestone "v1.0" l)))
       ∧ Forall (λ c,
           Badge.stats.Total (Badge.component.Stats c)
           = Z.of_nat (length (Badge.component.Issues c))) cs).
Proof.
  intros l.
  assert (Z.of_nat (length l) ≤ Go.MaxInt) as H1 by (vm_compute; discriminate).
  assert (Badge.msMap (Badge.parseIssues l) !! "v1.0" = Some 0%nat) as H2
    by (vm_compute; reflexivity).
  do 2 (split; [assumption|]).
  destruct (Badge.resolve (Badge.parseIssues l) 0) as [[m cs]|] eqn:H3.
  - exists m, cs. split; [reflexivity|].
    destruct (components_share_the_milestone l "v1.0" 0%nat m cs H1 H2 H3)
      as (_ & E & _ & Hall).
    split; [exact E|].
    eapply Forall_impl; [exact Hall|]. intros c [Hc _]. exact Hc.
  - exfalso. revert H3. vm_compute. discriminate.
Defined.

(** ** part_002 is part_000 without the day estimates *)

Section SortMap.
Context {A B : Type} (f : A → B) (less : A → A → bool) (less' : B → B → bool).
Hypothesis Hless : ∀ a b, less' (f a) (f b) = less a b.

Lemma sift_fmap x before :
  Go.sift less' (f x) (f <$> before) = f <$> Go.sift less x before.
Proof.
  induction before as [|y rest IH]; [done|].
  rewrite fmap_cons. simpl. rewrite Hless, IH. by destruct (less x y).
Qed.

Lemma insertion_fmap data before :
  foldl (λ before x, Go.sift less' x before) (f <$> before) (f <$> data)
  = f <$> foldl (λ before x, Go.sift less x before) before data.
Proof.
  revert before. induction data as [|x data IH]; intros before; [done|].
  rewrite fmap_cons. simpl. by rewrite sift_fmap, IH.
Qed.

Lemma Sort_fmap data : Go.Sort less' (f <$> data) = f <$> Go.Sort less data.
Proof.
  unfold Go.Sort, Go.insertionSort.
  rewrite fmap_reverse. f_equal. apply (insertion_fmap data []).
Qed.
End SortMap.

Section Erasure.

Lemma erase_count closed days s :
  Erase.stats (Badge.count closed days s) = Plain.count closed (Erase.stats s).
Proof. by destruct closed. Qed.

Lemma erase_scan ls acc :
  Erase.scan (foldl Badge.scanLabel acc ls)
  = foldl Plain.scanLabel (Erase.scan acc) ls.
Proof.
  revert acc. induction ls as [|lb ls IH]; intros acc; [done|].
  simpl. by rewrite IH.
Qed.

Lemma erase_getMilestone st ghMs :
  Plain.getMilestone (Erase.state st) ghMs
  = (Erase.state (Badge.getMilestone st ghMs).1, (Badge.getMilestone st ghMs).2).
Proof.
  unfold Plain.getMilestone, Badge.getMilestone. simpl.
  destruct (Badge.msMap st !! github.Milestone.Title ghMs); [done|].
  simpl. unfold Erase.state. simpl. by rewrite fmap_app, !length_fmap.
Qed.

Lemma erase_countMilestone st ms closed days :
  Plain.countMilestone (Erase.state st) ms closed
  = Erase.state (Badge.countMilestone st ms closed days).
Proof.
  unfold Plain.countMilestone, Badge.countMilestone, Erase.state. simpl.
  f_equal. symmetry. apply list_fmap_alter, Forall_forall. intros m _.
  unfold Erase.milestone. simpl. by rewrite erase_count.
Qed.

Lemma erase_getComponent st ms name :
  Plain.getComponent (Erase.state st) ms name
  = (Erase.state (Badge.getComponent st ms name).1,
     (Badge.getComponent st ms name).2).
Proof.
  unfold Plain.getComponent, Badge.getComponent. simpl.
  destruct (default ∅ (Badge.msCmpMap st !! ms) !! name); [done|].
  simpl. unfold Erase.state. simpl. rewrite fmap_app, !length_fmap.
  f_equal. f_equal. symmetry. apply list_fmap_alter, Forall_forall.
  by intros m _.
Qed.

Lemma erase_addIssue st cmp w closed :
  Plain.addIssue (Erase.state st) cmp (Erase.issue w) closed
  = Erase.state (Badge.addIssue st cmp w closed).
Proof.
  unfold Plain.addIssue, Badge.addIssue, Erase.state. simpl.
  f_equal. symmetry. apply list_fmap_alter, Forall_forall. intros c _.
  unfold Erase.component. simpl. by rewrite fmap_app, erase_count.
Qed.

Lemma erase_step st i :
  Plain.step (Erase.state st) i = Erase.state (Badge.step st i).
Proof.
  unfold Plain.step, Badge.step.
  change (Plain.ghIssues (Erase.state st)) with (Badge.ghIssues st).
  destruct (Badge.ghIssues st !! i) as [x|]; [|done].
  destruct (github.Issue.Milestone x) as [ghMs|]; [|done].
  rewrite erase_getMilestone.
  destruct (Badge.getMilestone st ghMs) as [st1 ms]. simpl.
  pose proof (erase_scan (github.Issue.Labels x) (Badge.Scan "" "" 0)) as Hsc.
  change (Erase.scan (Badge.Scan "" "" 0)) with (Plain.Scan "" "") in Hsc.
  fold (Badge.scanLabels (github.Issue.Labels x)) in Hsc.
  fold (Plain.scanLabels (github.Issue.Labels x)) in Hsc.
  rewrite <- Hsc. simpl.
  rewrite (erase_countMilestone st1 ms _
             (Badge.days (Badge.scanLabels (github.Issue.Labels x)))).
  unfold Badge.closed.
  destruct (bool_decide
              (Badge.cmpName (Badge.scanLabels (github.Issue.Labels x)) ≠ ""));
    [|done].
  rewrite erase_getComponent.
  destruct (Badge.getComponent _ ms _) as [st2 cmp]. simpl.
  apply (erase_addIssue st2 cmp
           (Badge.issue.mk i _ (Badge.days (Badge.scanLabels
                                              (github.Issue.Labels x))))).
Qed.

Lemma erase_foldl_step st ixs :
  foldl Plain.step (Erase.state st) ixs = Erase.state (foldl Badge.step st ixs).
Proof.
  revert st. induction ixs as [|i ixs IH]; intros st; [done|].
  simpl. by rewrite erase_step, IH.
Qed.

Lemma erase_collect l : Plain.collect l = Erase.state (Badge.collect l).
Proof.
  unfold Plain.collect, Badge.collect.
  by rewrite <- erase_foldl_step.
Qed.

Lemma erase_sortIssues st cmp :
  Plain.sortIssues (Erase.state st) cmp = Erase.state (Badge.sortIssues st cmp).
Proof.
  unfold Plain.sortIssues, Badge.sortIssues, Erase.state. simpl.
  f_equal. symmetry. apply list_fmap_alter, Forall_forall. intros c _.
  unfold Erase.component. simpl. f_equal. symmetry.
  by apply (Sort_fmap Erase.issue).
Qed.

Lemma erase_foldl_sortIssues st qs :
  foldl Plain.sortIssues (Erase.state st) qs
  = Erase.state (foldl Badge.sortIssues st qs).
Proof.
  revert st. induction qs as [|q qs IH]; intros st; [done|].
  simpl. by rewrite erase_sortIssues, IH.
Qed.

Lemma erase_components_Less st a b :
  Plain.components_Less (Erase.state st) a b = Badge.components_Less st a b.
Proof.
  unfold Plain.components_Less, Badge.components_Less, Erase.state. simpl.
  rewrite !list_lookup_fmap.
  by destruct (Badge.components st !! a), (Badge.components st !! b).
Qed.

Lemma erase_sortComponents st ms :
  Plain.sortComponents (Erase.state st) ms
  = Erase.state (Badge.sortComponents st ms).
Proof.
  unfold Plain.sortComponents, Badge.sortComponents.
  unfold Erase.state at 2. simpl. unfold Erase.state at 1. simpl.
  f_equal. symmetry. apply list_fmap_alter, Forall_forall. intros m _.
  unfold Erase.milestone. simpl. f_equal. apply Sort_ext.
  intros a b _ _. symmetry. apply erase_components_Less.
Qed.

Lemma erase_sortMilestone st ms :
  Plain.sortMilestone (Erase.state st) ms
  = Erase.state (Badge.sortMilestone st ms).
Proof.
  unfold Plain.sortMilestone, Badge.sortMilestone.
  change (Plain.milestones (Erase.state st))
    with (Erase.milestone <$> Badge.milestones st).
  rewrite list_lookup_fmap.
  destruct (Badge.milestones st !! ms) as [m|]; [|done]. simpl.
  by rewrite erase_foldl_sortIssues, erase_sortComponents.
Qed.

Lemma erase_foldl_sortMilestone st ps :
  foldl Plain.sortMilestone (Erase.state st) ps
  = Erase.state (foldl Badge.sortMilestone st ps).
Proof.
  revert st. induction ps as [|p ps IH]; intros st; [done|].
  simpl. by rewrite erase_sortMilestone, IH.
Qed.

End Erasure.

(** X19. part_000 extends part_002 by the day estimates and by
    nothing else: on every input, and whatever the order in which
    the milestones are visited for sorting, the store part_002
    builds is the store of part_000 with the [Days] fields taken
    out: the same milestones and components under the same
    pointers, the same counters, the same entries in the same
    order. *)
Theorem part_002_is_part_000_without_days (l : list github.Issue.t) :
  Plain.parseIssues l = Erase.state (Badge.parseIssues l)
  ∧ ∀ order : Plain.state → list nat,
      Plain.parseIssuesIn order l
      = Erase.state (Badge.parseIssuesIn (order ∘ Erase.state) l).
Proof.
  assert (∀ order : Plain.state → list nat,
            Plain.parseIssuesIn order l
            = Erase.state (Badge.parseIssuesIn (order ∘ Erase.state) l)) as H.
  { intros order. unfold Plain.parseIssuesIn, Badge.parseIssuesIn. simpl.
    rewrite erase_collect. apply erase_foldl_sortMilestone. }
  split; [|done]. apply H.
Qed.

(** ** part_001: the store while the issues are collected *)

Section PerLabelHeap.
Import PerLabel PerLabelSpec.
Implicit Types (st : state) (full : list (nat * github.Issue.t)).
Implicit Types (M : string → list (nat * github.Issue.t)).
Implicit Types (E : string → string → list (nat * github.Issue.t)).

Lemma pl_statsOf_snoc il ix :
  statsOf (il ++ [ix]) = count (closed ix.2) (statsOf il).
Proof.
  unfold statsOf, count. simpl.
  rewrite !filter_app, !filter_cons, !filter_nil, !length_app.
  destruct (closed ix.2) eqn:Hc; simpl.
  - rewrite !incr_wrap. f_equal; f_equal; lia.
  - rewrite incr_wrap, ?app_nil_r. f_equal; f_equal; lia.
Qed.

(** [getMilestone] *)
Lemma pl_getMilestone_inv full M E st ghMs :
  WF st → DataM M st → DataC E st → NE full st →
  (∀ t, M t = [] → ∀ c, E t c = []) →
  BadgeSpec.inMs (github.Milestone.Title ghMs) full ≠ [] →
  ∃ st' p, getMilestone st ghMs = (st', p)
    ∧ iss st' = iss st
    ∧ WF st' ∧ DataM M st' ∧ DataC E st' ∧ NE full st'
    ∧ msMap st' !! github.Milestone.Title ghMs = Some p.
Proof.
  intros HW HM HC HN HME Hfull. unfold getMilestone.
  set (t0 := github.Milestone.Title ghMs) in *.
  destruct (msMap st !! t0) as [p|] eqn:Hp.
  { by exists st, p. }
  destruct HW as (W1 & W2 & W3). destruct HM as (M1 & M2).
  set (p0 := length (milestones st)).
  set (new := milestone.mk ghMs [] stats.zero).
  eexists _, p0. split; [done|]. split; [done|].
  assert (∀ p m, (milestones st ++ [new]) !! p = Some m →
            milestones st !! p = Some m ∨ (p = p0 ∧ m = new)) as Hlk.
  { intros p m. rewrite lookup_snoc_Some. intros [[_ ?]|[? ?]]; auto. }
  assert (∀ t p, msMap st !! t = Some p → p ≠ p0) as Hfresh.
  { intros t p Htp. destruct (W1 t p Htp) as (m & _ & Hm & _).
    apply lookup_lt_Some in Hm. unfold p0. lia. }
  assert (∀ t p, <[t0:=p0]> (msMap st) !! t = Some p →
            (t = t0 ∧ p = p0) ∨ (t ≠ t0 ∧ p ≠ p0 ∧ msMap st !! t = Some p))
    as Hmap.
  { intros t p. rewrite lookup_insert. case_decide as Ht.
    - intros [= <-]. by left.
    - intros Htp. right. repeat split; [done| |done]. by eapply Hfresh. }
  split; [|split; [|split; [|split]]]; simpl.
  - (* WF *)
    split; [|split]; simpl.
    + intros t p Htp. apply Hmap in Htp as [[-> ->]|(Ht & Hpp & Htp)].
      * exists new, ∅. split; [by apply list_lookup_middle|].
        split; [done|]. split; [by rewrite lookup_insert_eq|].
        split; [constructor|]. intros c q. rewrite lookup_empty. split; [done|].
        intros [Hq _]. by apply elem_of_nil in Hq.
      * destruct (W1 t p Htp) as (m & cm & Hm & Hti & Hcm & Hnd & Hiff).
        exists m, cm. split; [by apply lookup_app_l_Some|]. split; [done|].
        split; [by rewrite lookup_insert_ne|]. done.
    + intros p p' m m' q Hm Hm' Hq Hq'.
      apply Hlk in Hm as [Hm|[-> ->]]; [|by apply elem_of_nil in Hq].
      apply Hlk in Hm' as [Hm'|[-> ->]]; [|by apply elem_of_nil in Hq'].
      by eapply W2.
    + intros p m q Hm Hq.
      apply Hlk in Hm as [Hm|[-> ->]]; [|by apply elem_of_nil in Hq].
      by eapply W3.
  - (* DataM *)
    split; simpl.
    + intros t. rewrite lookup_insert. case_decide; [done|]. apply M1.
    + intros t p m Htp Hm. apply Hmap in Htp as [[-> ->]|(Ht & Hpp & Htp)].
      * apply Hlk in Hm as [Hm|[_ ->]].
        { apply lookup_lt_Some in Hm. unfold p0 in Hm. lia. }
        simpl. by rewrite (M1 t0 Hp).
      * apply Hlk in Hm as [Hm|[-> _]]; [by eapply M2|done].
  - (* DataC *)
    intros t p m cm Htp Hm Hcm. simpl in *.
    apply Hmap in Htp as [[-> ->]|(Ht & Hpp & Htp)].
    + apply Hlk in Hm as [Hm|[_ ->]].
      { apply lookup_lt_Some in Hm. unfold p0 in Hm. lia. }
      split.
      * intros c Hne. by rewrite (HME t0 (M1 t0 Hp) c) in Hne.
      * intros q cmp Hq. by apply elem_of_nil in Hq.
    + apply Hlk in Hm as [Hm|[-> _]]; [|done].
      rewrite lookup_insert_ne in Hcm by done. by eapply HC.
  - (* NE *)
    intros t p m Htp Hm. simpl in *.
    apply Hmap in Htp as [[-> ->]|(Ht & Hpp & Htp)].
    + apply Hlk in Hm as [Hm|[_ ->]].
      { apply lookup_lt_Some in Hm. unfold p0 in Hm. lia. }
      split; [done|]. intros q cmp Hq. by apply elem_of_nil in Hq.
    + apply Hlk in Hm as [Hm|[-> _]]; [|done]. by eapply HN.
  - by rewrite lookup_insert_eq.
Qed.

(** [countMilestone] *)
Lemma pl_countMilestone_lookup st p0 cl p m' :
  milestones (countMilestone st p0 cl) !! p = Some m' →
  ∃ m, milestones st !! p = Some m
    ∧ milestone.Milestone m' = milestone.Milestone m
    ∧ milestone.Components m' = milestone.Components m
    ∧ milestone.Stats m' =
        if decide (p = p0) then count cl (milestone.Stats m)
        else milestone.Stats m.
Proof.
  simpl. rewrite list_lookup_alter. case_decide as Hp.
  - subst p. destruct (milestones st !! p0) as [m|]; [|done].
    intros [= <-]. exists m. by rewrite decide_True.
  - intros Hm. exists m'. by rewrite decide_False.
Qed.

Lemma pl_countMilestone_inv full M M' E st t0 p0 cl :
  WF st → DataM M st → DataC E st → NE full st →
  msMap st !! t0 = Some p0 →
  (∀ t, t ≠ t0 → M' t = M t) →
  statsOf (M' t0) = count cl (statsOf (M t0)) →
  let st' := countMilestone st p0 cl in
  WF st' ∧ DataM M' st' ∧ DataC E st' ∧ NE full st'.
Proof.
  intros (W1 & W2 & W3) (M1 & M2) HC HN Hp0 Hother Hcount st'.
  assert (∀ t p, msMap st !! t = Some p → p = p0 → t = t0) as Hinj.
  { intros t p Htp ->.
    destruct (W1 t p0 Htp) as (m & _ & Hm & <- & _).
    destruct (W1 t0 p0 Hp0) as (m2 & _ & Hm2 & <- & _). congruence. }
  split; [|split; [|split]].
  - split; [|split].
    + intros t p Htp.
      destruct (W1 t p Htp) as (m & cm & Hm & Hti & Hcm & Hnd & Hiff).
      exists (if decide (p0 = p)
              then milestone.mk (milestone.Milestone m) (milestone.Components m)
                     (count cl (milestone.Stats m))
              else m), cm.
      split.
      { unfold st'. simpl. rewrite list_lookup_alter.
        destruct (decide (p0 = p)) as [->|]; by rewrite ?Hm. }
      by destruct (decide (p0 = p)).
    + intros p p' m m' q Hm Hm' Hq Hq'.
      apply pl_countMilestone_lookup in Hm as (m1 & Hm & _ & Hc & _).
      apply pl_countMilestone_lookup in Hm' as (m1' & Hm' & _ & Hc' & _).
      rewrite Hc in Hq. rewrite Hc' in Hq'. by eapply W2.
    + intros p m q Hm Hq.
      apply pl_countMilestone_lookup in Hm as (m1 & Hm & _ & Hc & _).
      rewrite Hc in Hq. by eapply W3.
  - split.
    + intros t Htp. simpl in Htp. rewrite Hother; [by apply M1|].
      intros ->. congruence.
    + intros t p m' Htp Hm'.
      apply pl_countMilestone_lookup in Hm' as (m & Hm & _ & _ & Hs).
      rewrite Hs. simpl in Htp. destruct (decide (p = p0)) as [->|Hne].
      * rewrite (Hinj t p0 Htp eq_refl), Hcount. f_equal. by eapply M2.
      * rewrite Hother; [by eapply M2|]. intros ->. apply Hne. congruence.
  - intros t p m' cm Htp Hm' Hcm.
    apply pl_countMilestone_lookup in Hm' as (m & Hm & _ & Hc & _).
    rewrite Hc. by eapply HC.
  - intros t p m' Htp Hm'.
    apply pl_countMilestone_lookup in Hm' as (m & Hm & _ & Hc & _).
    rewrite Hc. by eapply HN.
Qed.

(** [getComponent] *)
Lemma pl_getComponent_inv full M E st t0 p0 c lbl :
  WF st → DataM M st → DataC E st → NE full st →
  msMap st !! t0 = Some p0 → entries t0 c full ≠ [] →
  ∃ st' q, getComponent st p0 c lbl = (st', q)
    ∧ iss st' = iss st ∧ msMap st' = msMap st
    ∧ WF st' ∧ DataM M st' ∧ DataC E st' ∧ NE full st'
    ∧ ∃ m cmp, milestones st' !! p0 = Some m ∧ q ∈ milestone.Components m
        ∧ components st' !! q = Some cmp ∧ component.Name cmp = c.
Proof.
  intros HW HM HC HN Hp0 Hfull. unfold getComponent.
  pose proof HW as (W1 & W2 & W3).
  destruct (W1 t0 p0 Hp0) as (m0 & cm0 & Hm0 & Hti0 & Hcm0 & Hnd0 & Hiff0).
  rewrite Hcm0. simpl.
  destruct (cm0 !! c) as [q|] eqn:Hq.
  { exists st, q. do 7 (split; [done|]).
    apply Hiff0 in Hq as [Hq Hn].
    destruct (components st !! q) as [cmp|] eqn:Hcmp; [|done].
    injection Hn as Hn. by exists m0, cmp. }
  set (q0 := length (components st)).
  set (newc := component.mk lbl c [] stats.zero).
  set (grow := λ m, milestone.mk (milestone.Milestone m)
                      (milestone.Components m ++ [q0]) (milestone.Stats m)).
  eexists _, q0. split; [done|]. split; [done|]. split; [done|].
  assert (∀ p m', alter grow p0 (milestones st) !! p = Some m' →
            ∃ m, milestones st !! p = Some m
              ∧ milestone.Milestone m' = milestone.Milestone m
              ∧ milestone.Stats m' = milestone.Stats m
              ∧ milestone.Components m' =
                  if decide (p = p0) then milestone.Components m ++ [q0]
                  else milestone.Components m) as Hlm.
  { intros p m'. rewrite list_lookup_alter. case_decide as Hp.
    - subst p. rewrite Hm0. intros [= <-]. exists m0. by rewrite decide_True.
    - intros Hm. exists m'. by rewrite decide_False. }
  assert (∀ q cmp, (components st ++ [newc]) !! q = Some cmp →
            components st !! q = Some cmp ∨ (q = q0 ∧ cmp = newc)) as Hlc.
  { intros q cmp. rewrite lookup_snoc_Some. intros [[_ ?]|[? ?]]; auto. }
  assert (∀ p m q, milestones st !! p = Some m → q ∈ milestone.Components m →
            q ≠ q0 ∧ (components st ++ [newc]) !! q = components st !! q)
    as Hold.
  { intros p m q Hm Hqm. pose proof (W3 p m q Hm Hqm) as Hlt.
    split; [unfold q0; lia|]. by apply lookup_app_l. }
  assert (∀ t p, msMap st !! t = Some p → p = p0 → t = t0) as Hinj.
  { intros t p Htp ->.
    destruct (W1 t p0 Htp) as (m & _ & Hm & <- & _). congruence. }
  assert (E t0 c = []) as Hnil.
  { destruct (E t0 c) as [|ix r] eqn:Hin; [done|].
    destruct (HC t0 p0 m0 cm0 Hp0 Hm0 Hcm0) as (Hsome & _).
    destruct (Hsome c) as [q' Hq']; [by rewrite Hin|]. congruence. }
  split; [|split; [|split; [|split]]]; simpl.
  - (* WF *)
    split; [|split]; simpl.
    + intros t p Htp.
      destruct (W1 t p Htp) as (m & cm & Hm & Hti & Hcm & Hnd & Hiff).
      destruct (decide (p = p0)) as [->|Hne].
      * assert (t = t0) as -> by (by eapply Hinj).
        exists (grow m0), (<[c:=q0]> cm0).
        split; [by rewrite list_lookup_alter_eq, Hm0|].
        split; [done|]. split; [by rewrite lookup_insert_eq|].
        split.
        { simpl. apply NoDup_app. split; [done|]. split; [|apply NoDup_singleton].
          intros q Hqm Hq0. apply list_elem_of_singleton in Hq0.
          by destruct (Hold _ _ _ Hm0 Hqm). }
        intros c' q. simpl. rewrite lookup_insert, elem_of_app, list_elem_of_singleton.
        case_decide as Hcc.
        { subst c'. split.
          - intros [= <-]. split; [by right|].
            unfold q0. by rewrite list_lookup_middle.
          - intros [[Hqm| ->] Hn]; [|done].
            destruct (Hold _ _ _ Hm0 Hqm) as [_ Hsame]. rewrite Hsame in Hn.
            assert (cm0 !! c = Some q) by (by apply Hiff0). congruence. }
        { split.
          - intros Hq'. apply Hiff0 in Hq' as [Hqm Hn]. split; [by left|].
            destruct (Hold _ _ _ Hm0 Hqm) as [_ Hsame]. by rewrite Hsame.
          - intros [[Hqm| ->] Hn].
            + apply Hiff0. split; [done|].
              destruct (Hold _ _ _ Hm0 Hqm) as [_ Hsame]. by rewrite <- Hsame.
            + unfold q0 in Hn. rewrite list_lookup_middle in Hn by done.
              simpl in Hn. congruence. }
      * exists m, cm. split; [by rewrite list_lookup_alter_ne|].
        split; [done|]. split; [by rewrite lookup_insert_ne|].
        split; [done|]. intros c' q. rewrite Hiff. split.
        { intros [Hqm Hn]. split; [done|].
          destruct (Hold _ _ _ Hm Hqm) as [_ Hsame]. by rewrite Hsame. }
        { intros [Hqm Hn]. split; [done|].
          destruct (Hold _ _ _ Hm Hqm) as [_ Hsame]. by rewrite <- Hsame. }
    + intros p p' m m' q Hm Hm' Hqm Hqm'.
      apply Hlm in Hm as (m1 & Hm & _ & _ & Hcs).
      apply Hlm in Hm' as (m1' & Hm' & _ & _ & Hcs').
      rewrite Hcs in Hqm. rewrite Hcs' in Hqm'.
      destruct (decide (p = p0)) as [->|Hne];
        destruct (decide (p' = p0)) as [->|Hne']; [done| | |by eapply W2].
      * apply elem_of_app in Hqm as [Hqm|Hqm]; [by eapply W2|].
        apply list_elem_of_singleton in Hqm as ->.
        by destruct (Hold _ _ _ Hm' Hqm').
      * apply elem_of_app in Hqm' as [Hqm'|Hqm']; [by eapply W2|].
        apply list_elem_of_singleton in Hqm' as ->.
        by destruct (Hold _ _ _ Hm Hqm).
    + intros p m q Hm Hqm. rewrite length_app. simpl.
      apply Hlm in Hm as (m1 & Hm & _ & _ & Hcs). rewrite Hcs in Hqm.
      assert (q ∈ milestone.Components m1 ∨ q = q0) as [Hq'| ->].
      { destruct (decide (p = p0)); [|by left].
        apply elem_of_app in Hqm as [?|Hqm]; [by left|].
        right. by apply list_elem_of_singleton in Hqm. }
      * pose proof (W3 _ _ _ Hm Hq'). lia.
      * unfold q0. lia.
  - (* DataM *)
    destruct HM as (M1 & M2). split; [done|]. simpl.
    intros t p m' Htp Hm'. apply Hlm in Hm' as (m & Hm & _ & Hs & _).
    rewrite Hs. by eapply M2.
  - (* DataC *)
    intros t p m' cm' Htp Hm' Hcm'. simpl in *.
    apply Hlm in Hm' as (m & Hm & _ & _ & Hcs).
    destruct (decide (p = p0)) as [->|Hne].
    + assert (t = t0) as -> by (by eapply Hinj).
      assert (m = m0) as -> by congruence.
      rewrite lookup_insert_eq in Hcm'. injection Hcm' as <-.
      destruct (HC t0 p0 m0 cm0 Hp0 Hm0 Hcm0) as (Hsome & Hdata). split.
      * intros c' Hne'. rewrite lookup_insert. case_decide; [done|].
        by apply Hsome.
      * intros q cmp Hqm Hcmp. rewrite Hcs in Hqm.
        apply elem_of_app in Hqm as [Hqm|Hqm].
        { destruct (Hold _ _ _ Hm0 Hqm) as [_ Hsame]. rewrite Hsame in Hcmp.
          by eapply Hdata. }
        apply list_elem_of_singleton in Hqm as ->.
        unfold q0 in Hcmp. rewrite list_lookup_middle in Hcmp by done.
        injection Hcmp as <-. simpl. by rewrite Hnil.
    + rewrite lookup_insert_ne in Hcm' by done.
      destruct (HC t p m cm' Htp Hm Hcm') as (Hsome & Hdata). split; [done|].
      intros q cmp Hqm Hcmp. rewrite Hcs in Hqm.
      destruct (Hold _ _ _ Hm Hqm) as [_ Hsame]. rewrite Hsame in Hcmp.
      by eapply Hdata.
  - (* NE *)
    intros t p m' Htp Hm'. simpl in *.
    apply Hlm in Hm' as (m & Hm & _ & _ & Hcs).
    destruct (HN t p m Htp Hm) as (Hms & Hcmps). split; [done|].
    intros q cmp Hqm Hcmp. rewrite Hcs in Hqm.
    assert (q ∈ milestone.Components m ∨ (p = p0 ∧ q = q0)) as [Hq'|[-> ->]].
    { destruct (decide (p = p0)); [|by left].
      apply elem_of_app in Hqm as [?|Hqm]; [by left|].
      right. by apply list_elem_of_singleton in Hqm. }
    + destruct (Hold _ _ _ Hm Hq') as [_ Hsame]. rewrite Hsame in Hcmp.
      by eapply Hcmps.
    + assert (t = t0) as -> by (by eapply Hinj).
      unfold q0 in Hcmp. rewrite list_lookup_middle in Hcmp by done.
      by injection Hcmp as <-.
  - exists (grow m0), newc. split; [by rewrite list_lookup_alter_eq, Hm0|].
    split; [simpl; apply elem_of_app; right; by apply list_elem_of_singleton|].
    split; [|done]. by apply list_lookup_middle.
Qed.

(** [addIssue] *)
Lemma pl_addIssue_lookup st q0 i cl q cmp' :
  components (addIssue st q0 i cl) !! q = Some cmp' →
  ∃ cmp, components st !! q = Some cmp
    ∧ component.Name cmp' = component.Name cmp
    ∧ (q ≠ q0 → cmp' = cmp)
    ∧ (q = q0 → component.Issues cmp' = component.Issues cmp ++ [i]
                ∧ component.Stats cmp' = count cl (component.Stats cmp)).
Proof.
  simpl. rewrite list_lookup_alter. case_decide as Hq.
  - subst q. destruct (components st !! q0) as [cmp|]; [|done].
    intros [= <-]. by exists cmp.
  - intros Hcmp. exists cmp'. by repeat split.
Qed.

Lemma pl_addIssue_name st q0 i cl q :
  component.Name <$> components (addIssue st q0 i cl) !! q
  = component.Name <$> components st !! q.
Proof.
  simpl. rewrite list_lookup_alter. case_decide as Hq; [|done].
  subst q. by destruct (components st !! q0).
Qed.

Lemma pl_addIssue_inv full M E E' st t0 p0 m0 q0 c0 ix :
  WF st → DataM M st → DataC E st → NE full st →
  msMap st !! t0 = Some p0 → milestones st !! p0 = Some m0 →
  q0 ∈ milestone.Components m0 →
  component.Name <$> components st !! q0 = Some c0 →
  E' t0 c0 = E t0 c0 ++ [ix] →
  (∀ t c, ¬ (t = t0 ∧ c = c0) → E' t c = E t c) →
  let st' := addIssue st q0 ix.1 (closed ix.2) in
  WF st' ∧ DataM M st' ∧ DataC E' st' ∧ NE full st'.
Proof.
  intros HW HM HC HN Hp0 Hm0 Hq0 Hn0 Hnew Hother st'. subst st'.
  pose proof HW as (W1 & W2 & W3).
  destruct (W1 t0 p0 Hp0) as (m0' & cm0 & Hm0' & Hti0 & Hcm0 & Hnd0 & Hiff0).
  assert (m0' = m0) as -> by congruence.
  assert (∀ t p, msMap st !! t = Some p → p = p0 → t = t0) as Hinj.
  { intros t p Htp ->.
    destruct (W1 t p0 Htp) as (m & _ & Hm & <- & _). congruence. }
  split; [|split; [|split]].
  - split; [|split].
    + intros t p Htp.
      destruct (W1 t p Htp) as (m & cm & Hm & Hti & Hcm & Hnd & Hiff).
      exists m, cm. do 4 (split; [done|]). intros c q.
      by rewrite pl_addIssue_name.
    + done.
    + intros p m q Hm Hqm. simpl. rewrite length_alter.
      by eapply W3.
  - done.
  - intros t p m cm Htp Hm Hcm. simpl in *.
    destruct (HC t p m cm Htp Hm Hcm) as (Hsome & Hdata).
    destruct (W1 t p Htp) as (m' & cm' & Hm' & Hti & Hcm' & Hnd & Hiff).
    assert (m' = m) as -> by congruence.
    assert (cm' = cm) as -> by congruence.
    split.
    + intros c.
      destruct (decide (t = t0 ∧ c = c0)) as [[-> ->]|Hno].
      * intros _. assert (p = p0) as -> by congruence.
        assert (cm = cm0) as -> by congruence.
        exists q0. by apply Hiff0.
      * rewrite (Hother t c Hno). by apply Hsome.
    + intros q cmp' Hqm Hcmp'.
      apply pl_addIssue_lookup in Hcmp' as (cmp & Hcmp & Hname & Hne & Heq).
      destruct (Hdata q cmp Hqm Hcmp) as (Hiss & Hst).
      rewrite Hname.
      destruct (decide (q = q0)) as [->|Hq].
      * destruct (Heq eq_refl) as [-> ->].
        assert (p = p0) as -> by (by eapply W2).
        assert (t = t0) as -> by (by eapply Hinj).
        assert (component.Name cmp = c0) as Hc0.
        { rewrite Hcmp in Hn0. simpl in Hn0. congruence. }
        rewrite Hc0 in Hiss, Hst |- *. rewrite Hnew. split.
        { rewrite fmap_app. simpl. by rewrite Hiss. }
        { rewrite pl_statsOf_snoc. by rewrite Hst. }
      * rewrite (Hne Hq). rewrite Hother; [done|].
        intros [-> Hcc]. apply Hq.
        assert (p = p0) as -> by congruence.
        assert (cm = cm0) as -> by congruence.
        assert (cm0 !! c0 = Some q) as Hq1.
        { apply Hiff0. split; [congruence|]. rewrite Hcmp. simpl. by f_equal. }
        assert (cm0 !! c0 = Some q0) as Hq2 by (by apply Hiff0).
        congruence.
  - intros t p m Htp Hm. simpl in *.
    destruct (HN t p m Htp Hm) as (Hms & Hcmps). split; [done|].
    intros q cmp' Hqm Hcmp'.
    apply pl_addIssue_lookup in Hcmp' as (cmp & Hcmp & Hname & _ & _).
    rewrite Hname. by eapply Hcmps.
Qed.

End PerLabelHeap.

Section PerLabelCollect.
Import PerLabel PerLabelSpec.
Implicit Types (st : state) (il full : list (nat * github.Issue.t)).
Implicit Types (M : string → list (nat * github.Issue.t)).
Implicit Types (E : string → string → list (nat * github.Issue.t)).

Lemma DataM_ext M M' st : (∀ t, M' t = M t) → DataM M st → DataM M' st.
Proof.
  intros Hext (M1 & M2). split.
  - intros t Ht. rewrite Hext. by apply M1.
  - intros t p m Htp Hm. rewrite Hext. by eapply M2.
Qed.

Lemma DataC_ext E E' st : (∀ t c, E' t c = E t c) → DataC E st → DataC E' st.
Proof.
  intros Hext HC t p m cm Htp Hm Hcm.
  destruct (HC t p m cm Htp Hm Hcm) as (Hsome & Hdata). split.
  - intros c. rewrite Hext. apply Hsome.
  - intros q cmp Hq Hcmp. rewrite Hext. exact (Hdata q cmp Hq Hcmp).
Qed.

(** *** The entries *)

Lemma entries_snoc t c il ix :
  entries t c (il ++ [ix])
  = entries t c il ++ entriesOf t c ix (github.Issue.Labels ix.2).
Proof. unfold entries. rewrite bind_app. simpl. by rewrite app_nil_r. Qed.

Lemma entriesOf_nil t c ix : entriesOf t c ix [] = [].
Proof. unfold entriesOf. by case_decide. Qed.

Lemma entriesOf_snoc t c ix ls lb :
  entriesOf t c ix (ls ++ [lb])
  = entriesOf t c ix ls
    ++ (if decide (title ix.2 = Some t
                   ∧ Go.HasPrefix (github.Label.String lb) "component: " = true
                   ∧ Go.from 11 (github.Label.String lb) = c)
        then [ix] else []).
Proof.
  unfold entriesOf. destruct (decide (title ix.2 = Some t)) as [Ht|Ht].
  - rewrite fmap_app, !filter_app, fmap_app. f_equal.
    change (github.Label.String <$> [lb]) with [github.Label.String lb].
    rewrite filter_cons, filter_nil.
    destruct (Go.HasPrefix (github.Label.String lb) "component: ") eqn:Hp.
    + rewrite decide_True by done. rewrite filter_cons, filter_nil.
      destruct (decide (Go.from 11 (github.Label.String lb) = c)) as [Hc|Hc].
      * by rewrite decide_True.
      * rewrite decide_False; [done|]. by intros (_ & _ & ?).
    + rewrite decide_False by (intros H; exact H). rewrite filter_nil.
      rewrite decide_False; [done|]. by intros (_ & ? & _).
  - rewrite decide_False; [by rewrite app_nil_r|]. by intros (? & _).
Qed.

Lemma entriesOf_title t c ix ls e : e ∈ entriesOf t c ix ls → title ix.2 = Some t.
Proof. unfold entriesOf. case_decide; [done|]. by intros ?%elem_of_nil. Qed.

Lemma entries_inMs t c il : BadgeSpec.inMs t il = [] → entries t c il = [].
Proof.
  induction il as [|ix il IH]; [done|]. unfold BadgeSpec.inMs.
  rewrite filter_cons. destruct (decide (title ix.2 = Some t)) as [Ht|Ht]; [done|].
  intros Hnil. unfold entries. simpl. unfold entriesOf at 1.
  rewrite decide_False by done. simpl. by apply IH.
Qed.

Lemma elem_of_entries t c il ix lbl :
  ix ∈ il → title ix.2 = Some t →
  lbl ∈ github.Label.String <$> github.Issue.Labels ix.2 →
  Go.HasPrefix lbl "component: " = true → Go.from 11 lbl = c →
  ix ∈ entries t c il.
Proof.
  intros Hin Ht Hl Hp Hc. unfold entries. apply list_elem_of_bind.
  exists ix. split; [|done]. unfold entriesOf. rewrite decide_True by done.
  apply list_elem_of_fmap. exists lbl. split; [done|].
  apply list_elem_of_filter. split; [done|].
  apply list_elem_of_filter. split; [by rewrite Hp|done].
Qed.

(** *** The loop over the labels of an issue *)

Lemma labels_inv l il i x t0 p M :
  l !! i = Some x → title x = Some t0 →
  ∀ todo done st,
    github.Issue.Labels x = done ++ todo →
    iss st = l → WF st → DataM M st →
    DataC (λ t c, entries t c il ++ entriesOf t c (i, x) done) st →
    NE (indexed l) st → msMap st !! t0 = Some p →
    let st' := foldl (addLabel i p (closed x)) st
                     (zip (seq (length done) (length todo)) todo) in
    iss st' = l ∧ WF st' ∧ DataM M st'
    ∧ DataC (λ t c, entries t c il ++ entriesOf t c (i, x) (done ++ todo)) st'
    ∧ NE (indexed l) st'.
Proof.
  intros Hx Ht0. induction todo as [|lb todo IH];
    intros done st Hlabels Hiss HW HM HC HN Hp.
  { simpl. rewrite app_nil_r. done. }
  simpl. set (lbl := github.Label.String lb).
  assert (github.Issue.Labels x = (done ++ [lb]) ++ todo) as Hlabels'.
  { by rewrite <- app_assoc. }
  assert (length (done ++ [lb]) = S (length done)) as Hlen.
  { rewrite length_app. simpl. lia. }
  assert (∀ st1,
            iss st1 = l → WF st1 → DataM M st1 →
            DataC (λ t c, entries t c il ++ entriesOf t c (i, x) (done ++ [lb]))
                  st1 →
            NE (indexed l) st1 → msMap st1 !! t0 = Some p →
            let st' := foldl (addLabel i p (closed x)) st1
                             (zip (seq (S (length done)) (length todo)) todo) in
            iss st' = l ∧ WF st' ∧ DataM M st'
            ∧ DataC (λ t c, entries t c il
                            ++ entriesOf t c (i, x) (done ++ lb :: todo)) st'
            ∧ NE (indexed l) st') as Hrest.
  { intros st1 H1 H2 H3 H4 H5 H6.
    pose proof (IH (done ++ [lb]) st1 Hlabels' H1 H2 H3 H4 H5 H6) as Hgo.
    rewrite Hlen in Hgo. simpl in Hgo.
    destruct Hgo as (G1 & G2 & G3 & G4 & G5). do 3 (split; [done|]).
    split; [|done]. eapply DataC_ext; [|exact G4].
    intros t c. simpl. by rewrite <- app_assoc. }
  set (st0 := addLabel i p (closed x) st (length done, lb)).
  destruct (Go.HasPrefix lbl "component: ") eqn:Hpre.
  2:{ assert (st0 = st) as ->.
      { unfold st0, addLabel. simpl. fold lbl. by rewrite Hpre. }
      apply Hrest; try done. eapply DataC_ext; [|exact HC].
      intros t c. simpl. rewrite entriesOf_snoc. fold lbl. rewrite Hpre.
      rewrite decide_False; [by rewrite app_nil_r|]. by intros (_ & ? & _). }
  set (c0 := Go.from 11 lbl).
  assert ((i, x) ∈ entries t0 c0 (indexed l)) as Hin.
  { apply (elem_of_entries _ _ _ _ lbl); [by apply elem_of_indexed|done| |done|done].
    simpl. rewrite Hlabels. apply list_elem_of_fmap. exists lb.
    split; [done|]. apply elem_of_app. right. left. }
  destruct (pl_getComponent_inv (indexed l) M _ st t0 p c0 (i, length done)
              HW HM HC HN Hp)
    as (st1 & q & Hget & Hiss1 & Hmap1 & HW1 & HM1 & HC1 & HN1
        & m & cmp & Hm & Hqm & Hcmp & Hname).
  { intros Hnil. rewrite Hnil in Hin. by apply elem_of_nil in Hin. }
  assert (st0 = addIssue st1 q i (closed x)) as ->.
  { unfold st0, addLabel. simpl. fold lbl. rewrite Hpre. fold c0.
    by rewrite Hget. }
  assert (msMap st1 !! t0 = Some p) as Hp1 by (by rewrite Hmap1).
  assert (component.Name <$> components st1 !! q = Some c0) as Hn1.
  { rewrite Hcmp. simpl. by rewrite Hname. }
  destruct (pl_addIssue_inv (indexed l) M _
              (λ t c, entries t c il ++ entriesOf t c (i, x) (done ++ [lb]))
              st1 t0 p m q c0 (i, x) HW1 HM1 HC1 HN1 Hp1 Hm Hqm Hn1)
    as (HW2 & HM2 & HC2 & HN2).
  { simpl. rewrite entriesOf_snoc. fold lbl. rewrite Hpre.
    rewrite decide_True by done. by rewrite <- app_assoc. }
  { intros t c Hno. simpl. rewrite entriesOf_snoc. fold lbl. rewrite Hpre.
    rewrite decide_False; [by rewrite app_nil_r|].
    intros (Ht & _ & Hc). apply Hno. simpl in Ht. split; [congruence|done]. }
  simpl in HW2, HM2, HC2, HN2. apply Hrest; try done.
  simpl. by rewrite Hiss1.
Qed.

(** *** One round of the loop over the issues *)

Lemma pl_step_inv l il st i x :
  iss st = l → l !! i = Some x →
  WF st → DataM (λ t, BadgeSpec.inMs t il) st →
  DataC (λ t c, entries t c il) st → NE (indexed l) st →
  iss (step st i) = l
  ∧ WF (step st i)
  ∧ DataM (λ t, BadgeSpec.inMs t (il ++ [(i, x)])) (step st i)
  ∧ DataC (λ t c, entries t c (il ++ [(i, x)])) (step st i)
  ∧ NE (indexed l) (step st i).
Proof.
  intros Hiss Hx HW HM HC HN. unfold step. rewrite Hiss, Hx.
  destruct (github.Issue.Milestone x) as [ghMs|] eqn:Hms.
  2:{ assert (title x = None) as Ht by (unfold title; by rewrite Hms).
      split; [done|]. split; [done|]. split; [|split; [|done]].
      - eapply DataM_ext; [|exact HM]. intros t. simpl.
        rewrite inMs_snoc. simpl. rewrite decide_False, app_nil_r; [done|].
        congruence.
      - eapply DataC_ext; [|exact HC]. intros t c. simpl.
        rewrite entries_snoc. unfold entriesOf. simpl.
        rewrite decide_False, app_nil_r; [done|]. congruence. }
  set (t0 := github.Milestone.Title ghMs).
  assert (title x = Some t0) as Ht.
  { unfold title. by rewrite Hms. }
  assert ((i, x) ∈ indexed l) as Hin by (by apply elem_of_indexed).
  assert (BadgeSpec.inMs t0 (indexed l) ≠ []) as Hne.
  { intros Hnil. unfold BadgeSpec.inMs in Hnil.
    eapply (filter_nil_not_elem_of _ _ (i, x)); [exact Hnil|exact Ht|exact Hin]. }
  destruct (pl_getMilestone_inv (indexed l) _ _ st ghMs HW HM HC HN)
    as (st1 & p & Hget & Hiss1 & HW1 & HM1 & HC1 & HN1 & Hp).
  { intros t Hnil c. by apply entries_inMs. }
  { exact Hne. }
  rewrite Hget. fold t0 in Hp.
  destruct (pl_countMilestone_inv (indexed l) _
              (λ t, BadgeSpec.inMs t (il ++ [(i, x)])) _ st1 t0 p (closed x)
              HW1 HM1 HC1 HN1 Hp) as (HW2 & HM2 & HC2 & HN2).
  { intros t Hne'. simpl. rewrite inMs_snoc. simpl.
    rewrite decide_False, app_nil_r; [done|]. congruence. }
  { simpl. rewrite inMs_snoc. simpl. rewrite decide_True by done.
    apply pl_statsOf_snoc. }
  simpl in HW2, HM2, HC2, HN2.
  destruct (labels_inv l il i x t0 p
              (λ t, BadgeSpec.inMs t (il ++ [(i, x)]))
              Hx Ht (github.Issue.Labels x) []
              (countMilestone st1 p (closed x)))
    as (G1 & G2 & G3 & G4 & G5); try done.
  { simpl. by rewrite Hiss1. }
  { eapply DataC_ext; [|exact HC2]. intros t c. simpl.
    by rewrite entriesOf_nil, app_nil_r. }
  simpl in G1, G2, G3, G4, G5. do 3 (split; [done|]). split; [|done].
  eapply DataC_ext; [|exact G4]. intros t c. simpl. apply entries_snoc.
Qed.

Lemma pl_init_inv l :
  let st := State l [] [] ∅ ∅ in
  WF st ∧ DataM (λ t, BadgeSpec.inMs t []) st
  ∧ DataC (λ t c, entries t c []) st ∧ NE (indexed l) st.
Proof.
  split; [|split; [|split]].
  - split; [|split]; simpl.
    + intros t p. by rewrite lookup_empty.
    + intros p p' m m' q. by rewrite lookup_nil.
    + intros p m q. by rewrite lookup_nil.
  - split; [done|]. intros t p m. simpl. by rewrite lookup_empty.
  - intros t p m cm. simpl. by rewrite lookup_empty.
  - intros t p m. simpl. by rewrite lookup_empty.
Qed.

Lemma pl_collect_prefix_inv l k :
  (k ≤ length l)%nat →
  let st := foldl step (State l [] [] ∅ ∅) (seq 0 k) in
  iss st = l ∧ WF st
  ∧ DataM (λ t, BadgeSpec.inMs t (indexed (take k l))) st
  ∧ DataC (λ t c, entries t c (indexed (take k l))) st
  ∧ NE (indexed l) st.
Proof.
  induction k as [|k IH]; intros Hk.
  - simpl. split; [done|]. apply pl_init_inv.
  - destruct IH as (Hgh & HW & HM & HC & HN); [lia|].
    destruct (lookup_lt_is_Some_2 l k) as [x Hx]; [lia|].
    rewrite seq_S, foldl_app. simpl. rewrite (indexed_take _ _ _ Hx).
    by apply pl_step_inv.
Qed.

Lemma pl_collect_inv l :
  let st := foldl step (State l [] [] ∅ ∅) (seq 0 (length l)) in
  iss st = l ∧ WF st
  ∧ DataM (λ t, BadgeSpec.inMs t (indexed l)) st
  ∧ DataC (λ t c, entries t c (indexed l)) st
  ∧ NE (indexed l) st.
Proof.
  pose proof (pl_collect_prefix_inv l (length l) (le_n _)) as H.
  simpl in H. by rewrite firstn_all in H.
Qed.

End PerLabelCollect.

(** ** part_001: the final sorting *)

Section PerLabelSort.
Import PerLabel PerLabelSpec.
Implicit Types (st : state) (il full : list (nat * github.Issue.t)).
Implicit Types (M : string → list (nat * github.Issue.t)).
Implicit Types (E : string → string → list (nat * github.Issue.t)).

Lemma pl_Shuffle_refl st : Shuffle st st.
Proof.
  do 5 (split; [done|]). split.
  - intros p m Hm. by exists m.
  - intros q c Hc. by exists c.
Qed.

Lemma pl_Shuffle_trans st1 st2 st3 :
  Shuffle st1 st2 → Shuffle st2 st3 → Shuffle st1 st3.
Proof.
  intros (A1 & A2 & A3 & A4 & A5 & A6 & A7) (B1 & B2 & B3 & B4 & B5 & B6 & B7).
  split; [congruence|]. split; [congruence|]. split; [congruence|].
  split; [congruence|]. split; [congruence|]. split.
  - intros p m Hm. destruct (A6 p m Hm) as (m2 & Hm2 & E1 & E2 & E3).
    destruct (B6 p m2 Hm2) as (m3 & Hm3 & F1 & F2 & F3).
    exists m3. split; [done|]. split; [congruence|]. split; [congruence|].
    by rewrite F3.
  - intros q c Hc. destruct (A7 q c Hc) as (c2 & Hc2 & E1 & E2 & E3 & E4).
    destruct (B7 q c2 Hc2) as (c3 & Hc3 & F1 & F2 & F3 & F4).
    exists c3. split; [done|]. split; [congruence|]. split; [congruence|].
    split; [congruence|]. by rewrite F4.
Qed.

Lemma pl_Shuffle_milestone st st' p m' :
  Shuffle st st' → milestones st' !! p = Some m' →
  ∃ m, milestones st !! p = Some m
    ∧ milestone.Milestone m' = milestone.Milestone m
    ∧ milestone.Stats m' = milestone.Stats m
    ∧ milestone.Components m' ≡ₚ milestone.Components m.
Proof.
  intros (_ & _ & _ & Hlen & _ & Hms & _) Hm'.
  destruct (lookup_lt_is_Some_2 (milestones st) p) as [m Hm].
  { rewrite <- Hlen. by eapply lookup_lt_Some. }
  destruct (Hms p m Hm) as (m2 & Hm2 & ?). exists m. split; [done|].
  congruence.
Qed.

Lemma pl_Shuffle_component st st' q c' :
  Shuffle st st' → components st' !! q = Some c' →
  ∃ c, components st !! q = Some c
    ∧ component.Name c' = component.Name c
    ∧ component.Stats c' = component.Stats c
    ∧ component.Issues c' ≡ₚ component.Issues c.
Proof.
  intros (_ & _ & _ & _ & Hlen & _ & Hcs) Hc'.
  destruct (lookup_lt_is_Some_2 (components st) q) as [c Hc].
  { rewrite <- Hlen. by eapply lookup_lt_Some. }
  destruct (Hcs q c Hc) as (c2 & Hc2 & E1 & _ & E3 & E4). exists c.
  split; [done|]. assert (c2 = c') as -> by congruence. done.
Qed.

Lemma pl_Shuffle_name st st' q :
  Shuffle st st' →
  component.Name <$> components st' !! q = component.Name <$> components st !! q.
Proof.
  intros HS. destruct (components st' !! q) as [c'|] eqn:Hc'.
  - destruct (pl_Shuffle_component _ _ _ _ HS Hc') as (c & Hc & Hn & _).
    rewrite Hc. simpl. by rewrite Hn.
  - destruct HS as (_ & _ & _ & _ & Hlen & _).
    apply lookup_ge_None in Hc'. rewrite Hlen in Hc'.
    apply lookup_ge_None in Hc'. by rewrite Hc'.
Qed.

Lemma pl_Shuffle_WF st st' : Shuffle st st' → WF st → WF st'.
Proof.
  intros HS (W1 & W2 & W3). pose proof HS as (E1 & E2 & E3 & E4 & E5 & E6 & E7).
  split; [|split].
  - intros t p Htp. rewrite E2 in Htp.
    destruct (W1 t p Htp) as (m & cm & Hm & Hti & Hcm & Hnd & Hiff).
    destruct (E6 p m Hm) as (m' & Hm' & F1 & F2 & F3).
    exists m', cm. split; [done|]. split; [congruence|]. split; [congruence|].
    split; [by rewrite F3|]. intros c q.
    by rewrite Hiff, F3, (pl_Shuffle_name _ _ _ HS).
  - intros p p' m m' q Hm Hm' Hq Hq'.
    destruct (pl_Shuffle_milestone _ _ _ _ HS Hm) as (m1 & Hm1 & _ & _ & F).
    destruct (pl_Shuffle_milestone _ _ _ _ HS Hm') as (m1' & Hm1' & _ & _ & F').
    rewrite F in Hq. rewrite F' in Hq'. by eapply W2.
  - intros p m q Hm Hq.
    destruct (pl_Shuffle_milestone _ _ _ _ HS Hm) as (m1 & Hm1 & _ & _ & F).
    rewrite F in Hq. rewrite E5. by eapply W3.
Qed.

Lemma pl_Shuffle_DataM M st st' : Shuffle st st' → DataM M st → DataM M st'.
Proof.
  intros HS (M1 & M2). pose proof HS as (E1 & E2 & _). split.
  - intros t. rewrite E2. apply M1.
  - intros t p m' Htp Hm'. rewrite E2 in Htp.
    destruct (pl_Shuffle_milestone _ _ _ _ HS Hm') as (m & Hm & _ & -> & _).
    by eapply M2.
Qed.

Lemma pl_Shuffle_DataC E st st' : Shuffle st st' → DataC E st → DataC E st'.
Proof.
  intros HS HC t p m' cm Htp Hm' Hcm.
  pose proof HS as (E1 & E2 & E3 & _). rewrite E2 in Htp. rewrite E3 in Hcm.
  destruct (pl_Shuffle_milestone _ _ _ _ HS Hm') as (m & Hm & _ & _ & F).
  destruct (HC t p m cm Htp Hm Hcm) as (Hsome & Hdata). split; [done|].
  intros q c' Hq Hc'. rewrite F in Hq.
  destruct (pl_Shuffle_component _ _ _ _ HS Hc') as (c & Hc & -> & -> & ->).
  by eapply Hdata.
Qed.

Lemma pl_Shuffle_NE full st st' : Shuffle st st' → NE full st → NE full st'.
Proof.
  intros HS HN t p m' Htp Hm'.
  pose proof HS as (E1 & E2 & E3 & _). rewrite E2 in Htp.
  destruct (pl_Shuffle_milestone _ _ _ _ HS Hm') as (m & Hm & _ & _ & F).
  destruct (HN t p m Htp Hm) as (Hms & Hcs). split; [done|].
  intros q c' Hq Hc'. rewrite F in Hq.
  destruct (pl_Shuffle_component _ _ _ _ HS Hc') as (c & Hc & -> & _).
  by eapply Hcs.
Qed.

Lemma pl_sortIssues_Shuffle st q : Shuffle st (sortIssues st q).
Proof.
  do 4 (split; [done|]). split; [simpl; by rewrite length_alter|].
  split; [intros p m Hm; by exists m|].
  intros q' c Hc. simpl. rewrite list_lookup_alter. case_decide as Hq.
  - subst q'. rewrite Hc. simpl. eexists. split; [done|]. simpl.
    do 3 (split; [done|]). apply Sort_perm.
  - by exists c.
Qed.

Lemma pl_sortIssues_fold_Shuffle qs st : Shuffle st (foldl sortIssues st qs).
Proof.
  revert st. induction qs as [|q qs IH]; intros st; simpl.
  - apply pl_Shuffle_refl.
  - eapply pl_Shuffle_trans; [apply pl_sortIssues_Shuffle|apply IH].
Qed.

Lemma pl_sortComponents_Shuffle st p : Shuffle st (sortComponents st p).
Proof.
  do 3 (split; [done|]). split; [simpl; by rewrite length_alter|].
  split; [done|]. split; [|intros q c Hc; by exists c].
  intros p' m Hm. simpl. rewrite list_lookup_alter. case_decide as Hp.
  - subst p'. rewrite Hm. simpl. eexists. split; [done|]. simpl.
    split; [done|]. split; [done|]. apply Sort_perm.
  - by exists m.
Qed.

Lemma pl_sortMilestone_Shuffle st p : Shuffle st (sortMilestone st p).
Proof.
  unfold sortMilestone. destruct (milestones st !! p) as [m|].
  - eapply pl_Shuffle_trans; [apply pl_sortIssues_fold_Shuffle|].
    apply pl_sortComponents_Shuffle.
  - apply pl_Shuffle_refl.
Qed.

Lemma pl_sortMilestone_fold_Shuffle order st :
  Shuffle st (foldl sortMilestone st order).
Proof.
  revert st. induction order as [|p order IH]; intros st; simpl.
  - apply pl_Shuffle_refl.
  - eapply pl_Shuffle_trans; [apply pl_sortMilestone_Shuffle|apply IH].
Qed.

(** *** Sortedness *)

Lemma pl_issues_Less_asym st a b :
  validIssue st a → validIssue st b →
  issues_Less st a b = true → issues_Less st b a = false.
Proof. unfold issues_Less. intros [x ->] [y ->]. apply Less_asym. Qed.

Lemma pl_issues_Less_ntrans st a b c :
  validIssue st a → validIssue st b → validIssue st c →
  issues_Less st a b = false → issues_Less st b c = false →
  issues_Less st a c = false.
Proof. unfold issues_Less. intros [x ->] [y ->] [z ->]. apply Less_ntrans. Qed.

Lemma pl_components_Less_asym st a b :
  validComponent st a → validComponent st b →
  components_Less st a b = true → components_Less st b a = false.
Proof. unfold components_Less. intros [x ->] [y ->]. apply ltb_asym. Qed.

Lemma pl_components_Less_ntrans st a b c :
  validComponent st a → validComponent st b → validComponent st c →
  components_Less st a b = false → components_Less st b c = false →
  components_Less st a c = false.
Proof. unfold components_Less. intros [x ->] [y ->] [z ->]. apply ltb_ntrans. Qed.

Lemma pl_components_Less_names st st' a b :
  (∀ q, component.Name <$> components st' !! q
        = component.Name <$> components st !! q) →
  components_Less st' a b = components_Less st a b.
Proof.
  intros Hn. unfold components_Less.
  pose proof (Hn a) as Ha. pose proof (Hn b) as Hb.
  destruct (components st' !! a), (components st !! a); simplify_eq/=; [|done].
  destruct (components st' !! b), (components st !! b); simplify_eq/=; [|done].
  congruence.
Qed.

Lemma pl_sortIssues_fold_other qs st q :
  q ∉ qs → components (foldl sortIssues st qs) !! q = components st !! q.
Proof.
  revert st. induction qs as [|q1 qs IH]; intros st Hq; [done|].
  apply not_elem_of_cons in Hq as [Hne Hq]. simpl. rewrite IH by done.
  simpl. by rewrite list_lookup_alter_ne.
Qed.

Lemma pl_sortIssues_fold_sorted qs st q c' :
  (∀ q c, q ∈ qs → components st !! q = Some c →
          Forall (validIssue st) (component.Issues c)) →
  q ∈ qs → components (foldl sortIssues st qs) !! q = Some c' →
  StronglySorted (notAfter (issues_Less st)) (component.Issues c').
Proof.
  revert st. induction qs as [|q1 qs IH]; intros st Hv Hq Hc'.
  { by apply elem_of_nil in Hq. }
  simpl in Hc'. destruct (decide (q ∈ qs)) as [Hin|Hnin].
  - apply (IH (sortIssues st q1)); [|done|done].
    intros q2 c2 Hq2. simpl. rewrite list_lookup_alter. case_decide as Heq.
    + subst q2. destruct (components st !! q1) as [c1|] eqn:Hc1; [|done].
      intros [= <-]. simpl. rewrite Sort_perm. eapply Hv; [left|done].
    + intros Hc2. eapply Hv; [by right|done].
  - apply elem_of_cons in Hq as [->|Hq]; [|done].
    rewrite pl_sortIssues_fold_other in Hc' by done. simpl in Hc'.
    rewrite list_lookup_alter_eq in Hc'.
    destruct (components st !! q1) as [c1|] eqn:Hc1; [|done].
    injection Hc' as <-. simpl.
    apply (Sort_sorted _ (validIssue st)).
    + apply pl_issues_Less_asym.
    + apply pl_issues_Less_ntrans.
    + eapply Hv; [left|done].
Qed.

Lemma entries_elem t c il e : e ∈ entries t c il → e ∈ il.
Proof.
  unfold entries. rewrite list_elem_of_bind. intros (ix & He & Hix).
  unfold entriesOf in He. case_decide; [|by apply elem_of_nil in He].
  by apply list_elem_of_fmap in He as (lbl & -> & _).
Qed.

(** The entries of a reachable component point into [iss]. *)
Lemma pl_DataC_valid l st t p m q c :
  iss st = l → DataC (λ t c, entries t c (indexed l)) st → WF st →
  msMap st !! t = Some p → milestones st !! p = Some m →
  q ∈ milestone.Components m → components st !! q = Some c →
  Forall (validIssue st) (component.Issues c).
Proof.
  intros Hgh HC (W1 & _) Htp Hm Hq Hc.
  destruct (W1 t p Htp) as (m' & cm & Hm' & _ & Hcm & _).
  assert (m' = m) as -> by congruence.
  destruct (HC t p m cm Htp Hm Hcm) as (_ & Hdata).
  destruct (Hdata q c Hq Hc) as (Hperm & _).
  rewrite Hperm, Forall_fmap, Forall_forall. intros [i x] Hix.
  apply entries_elem, elem_of_indexed in Hix. unfold validIssue. simpl.
  by rewrite Hgh, Hix.
Qed.

Lemma pl_sortMilestone_SortedAt l st t' p p' :
  iss st = l → WF st → DataC (λ t c, entries t c (indexed l)) st →
  msMap st !! t' = Some p' →
  p' = p ∨ SortedAt st p' →
  SortedAt (sortMilestone st p) p'.
Proof.
  intros Hgh HW HC Htp' Hcase.
  pose proof HW as (W1 & W2 & W3).
  destruct (W1 t' p' Htp') as (m' & cm' & Hm' & _ & Hcm' & _).
  unfold sortMilestone.
  destruct (milestones st !! p) as [m|] eqn:Hm.
  2:{ destruct Hcase as [->|Hs]; [congruence|done]. }
  set (st1 := foldl sortIssues st (milestone.Components m)).
  pose proof (pl_sortIssues_fold_Shuffle (milestone.Components m) st) as HS1.
  fold st1 in HS1.
  assert (milestones st1 = milestones st) as Hms1.
  { unfold st1. clear. generalize (milestone.Components m) as qs.
    intros qs. revert st. induction qs as [|q qs IH]; intros st; [done|].
    simpl. by rewrite IH. }
  assert (iss st1 = iss st) as Hgh1 by apply HS1.
  assert (∀ a b, issues_Less (sortComponents st1 p) a b = issues_Less st a b)
    as Hil.
  { intros a b. unfold issues_Less. simpl. by rewrite Hgh1. }
  assert (∀ a b, components_Less (sortComponents st1 p) a b
                 = components_Less st a b) as Hcl.
  { intros a b. apply pl_components_Less_names. intros q.
    apply (pl_Shuffle_name st st1 q HS1). }
  destruct (decide (p' = p)) as [->|Hne].
  - assert (m' = m) as -> by congruence.
    eexists. split.
    { simpl. rewrite list_lookup_alter_eq, Hms1, Hm. simpl. done. }
    simpl. split.
    + eapply StronglySorted_impl;
        [|apply (Sort_sorted _ (validComponent st1))].
      * intros a b Hab. exact Hab.
      * apply pl_components_Less_asym.
      * apply pl_components_Less_ntrans.
      * rewrite Forall_forall. intros q Hq. unfold validComponent.
        apply lookup_lt_is_Some_2.
        destruct HS1 as (_ & _ & _ & _ & -> & _). by eapply W3.
    + intros q c Hq Hc. rewrite Sort_elem_of in Hq.
      eapply StronglySorted_impl;
        [|eapply (pl_sortIssues_fold_sorted (milestone.Components m) st q c)].
      * intros a b. unfold notAfter. by rewrite Hil.
      * intros q2 c2 Hq2 Hc2. by eapply (pl_DataC_valid l st t' p m).
      * done.
      * done.
  - destruct Hcase as [->|(m2 & Hm2 & Hsc & Hsi)]; [done|].
    assert (m2 = m') as -> by congruence.
    exists m'. split.
    { simpl. by rewrite list_lookup_alter_ne, Hms1. }
    split.
    + eapply StronglySorted_impl; [|exact Hsc].
      intros a b. unfold notAfter. by rewrite Hcl.
    + intros q c Hq Hc. simpl in Hc. unfold st1 in Hc.
      rewrite pl_sortIssues_fold_other in Hc.
      * eapply StronglySorted_impl; [|by eapply Hsi].
        intros a b. unfold notAfter. by rewrite Hil.
      * intros Hqm. apply Hne. by eapply (W2 p' p m' m q).
Qed.

Lemma pl_sortMilestone_fold_SortedAt l order st t p :
  iss st = l → WF st → DataC (λ t c, entries t c (indexed l)) st →
  msMap st !! t = Some p →
  p ∈ order ∨ SortedAt st p →
  SortedAt (foldl sortMilestone st order) p.
Proof.
  revert st. induction order as [|p1 order IH]; intros st Hgh HW HC Htp Hcase.
  { destruct Hcase as [Hin|Hs]; [by apply elem_of_nil in Hin|done]. }
  simpl. pose proof (pl_sortMilestone_Shuffle st p1) as HS.
  apply IH.
  - destruct HS as (-> & _). done.
  - by eapply pl_Shuffle_WF.
  - by eapply pl_Shuffle_DataC.
  - destruct HS as (_ & -> & _). done.
  - destruct Hcase as [Hin|Hs].
    + apply elem_of_cons in Hin as [->|Hin]; [|by left].
      right. eapply pl_sortMilestone_SortedAt; eauto.
    + right. eapply pl_sortMilestone_SortedAt; eauto.
Qed.

(** *** The store [parseIssues] returns *)

Lemma pl_parseIssues_inv l :
  let st := parseIssues l in
  iss st = l ∧ WF st
  ∧ DataM (λ t, BadgeSpec.inMs t (indexed l)) st
  ∧ DataC (λ t c, entries t c (indexed l)) st
  ∧ NE (indexed l) st
  ∧ ∀ t p, msMap st !! t = Some p → SortedAt st p.
Proof.
  intros st. subst st. unfold parseIssues.
  destruct (pl_collect_inv l) as (Hgh & HW & HM & HC & HN).
  set (st0 := foldl step (State l [] [] ∅ ∅) (seq 0 (length l))) in *.
  pose proof (pl_sortMilestone_fold_Shuffle (map_to_list (msMap st0)).*2 st0)
    as HS.
  split; [destruct HS as (-> & _); done|].
  split; [by eapply pl_Shuffle_WF|]. split; [by eapply pl_Shuffle_DataM|].
  split; [by eapply pl_Shuffle_DataC|]. split; [by eapply pl_Shuffle_NE|].
  intros t p Htp. destruct HS as (_ & Hmap & _). rewrite Hmap in Htp.
  eapply pl_sortMilestone_fold_SortedAt; eauto.
  left. apply list_elem_of_fmap. exists (t, p).
  split; [done|]. by apply elem_of_map_to_list.
Qed.

End PerLabelSort.

(** ** part_001: what the store holds *)

Lemma perm_fmap_inv {A B} (f : A → B) (k : list B) (l : list A) :
  k ≡ₚ f <$> l → ∃ l', l' ≡ₚ l ∧ k = f <$> l'.
Proof.
  intros Hp. remember (f <$> l) as fl eqn:Hfl. revert l Hfl.
  induction Hp as [|b k1 k2 Hp IH|a b k|k1 k2 k3 H12 IH12 H23 IH23];
    intros l Hfl.
  - exists []. split; [|done]. symmetry in Hfl. apply fmap_nil_inv in Hfl.
    by subst l.
  - destruct l as [|x l]; [done|]. injection Hfl as -> ->.
    destruct (IH l eq_refl) as (l' & Hl' & ->).
    exists (x :: l'). split; [by constructor|done].
  - destruct l as [|x [|y l]]; [done|done|]. injection Hfl as -> -> ->.
    exists (y :: x :: l). split; [apply Permutation_swap|done].
  - destruct (IH23 l Hfl) as (l2 & Hl2 & ->).
    destruct (IH12 l2 eq_refl) as (l1 & Hl1 & ->).
    exists l1. split; [by etrans|done].
Qed.

Section PerLabelReport.
Import PerLabel PerLabelSpec.
Implicit Types (st : state) (il : list (nat * github.Issue.t)).

Lemma entries_snd t c il :
  (entries t c il).*2 = MarkdownSpec.listed t c il.*2.
Proof.
  unfold entries, MarkdownSpec.listed, ofMilestone.
  induction il as [|[i x] il IH]; [done|].
  rewrite fmap_cons, filter_cons. cbn [snd]. rewrite bind_cons, fmap_app, IH.
  unfold entriesOf at 1. cbn [snd].
  destruct (decide (title x = Some t)) as [Ht|Ht].
  - rewrite bind_cons. f_equal. unfold MarkdownSpec.copies, componentLabels.
    by rewrite <- list_fmap_compose.
  - done.
Qed.

Lemma entries_listed t c l :
  (entries t c (indexed l)).*2 = MarkdownSpec.listed t c l.
Proof. by rewrite entries_snd, indexed_snd. Qed.

Lemma entries_nonnil t c l :
  entries t c (indexed l) ≠ [] ↔ MarkdownSpec.listed t c l ≠ [].
Proof.
  rewrite <- entries_listed. split.
  - intros Hne Hnil. by apply fmap_nil_inv in Hnil.
  - intros Hne Hnil. by rewrite Hnil in Hne.
Qed.

Lemma pl_statsOf_snd il :
  statsOf il =
  stats.mk
    (Go.wrap (Z.of_nat (length (filter (λ x, github.Issue.ClosedAt x ≠ None)
                                       il.*2))))
    (Go.wrap (Z.of_nat (length il.*2))).
Proof.
  unfold statsOf. f_equal; f_equal.
  - f_equal. rewrite <- (length_fmap snd). f_equal. apply filter_snd.
    intros ix. unfold closed. by rewrite bool_decide_eq_true.
  - by rewrite length_fmap.
Qed.

Lemma entries_filter_index t c il i :
  filter (λ e, e.1 = i) (entries t c il)
  = entries t c (filter (λ e, e.1 = i) il).
Proof.
  unfold entries. induction il as [|ix il IH]; [done|].
  rewrite bind_cons, filter_app, filter_cons, IH.
  assert (filter (λ e : nat * github.Issue.t, e.1 = i)
            (entriesOf t c ix (github.Issue.Labels ix.2))
          = if decide (ix.1 = i)
            then entriesOf t c ix (github.Issue.Labels ix.2) else []) as ->.
  { unfold entriesOf. destruct (decide (title ix.2 = Some t)).
    - induction (filter _ (filter _ _)) as [|lbl ls IHl].
      + by destruct (decide (ix.1 = i)).
      + rewrite fmap_cons, filter_cons, IHl. by destruct (decide (ix.1 = i)).
    - by destruct (decide (ix.1 = i)). }
  destruct (decide (ix.1 = i)); [by rewrite bind_cons|done].
Qed.

Lemma pl_parseIssues_lookup_None l t :
  msMap (parseIssues l) !! t = None ↔ ofMilestone t l = [].
Proof.
  destruct (pl_parseIssues_inv l) as (Hgh & HW & (M1 & M2) & HC & HN & Hs).
  rewrite <- inMs_snd. split.
  - intros Hn. by rewrite (M1 t Hn).
  - intros Hnil. apply fmap_nil_inv in Hnil.
    destruct (msMap (parseIssues l) !! t) as [p|] eqn:Hp; [|done].
    destruct HW as (W1 & _). destruct (W1 t p Hp) as (m & _ & Hm & _).
    by destruct (HN t p m Hp Hm).
Qed.

Lemma pl_resolve_Some st p m :
  milestones st !! p = Some m →
  (∀ q, q ∈ milestone.Components m → (q < length (components st))%nat) →
  ∃ cs, resolve st p = Some (m, cs)
    ∧ Forall2 (λ q c, components st !! q = Some c) (milestone.Components m) cs.
Proof.
  intros Hm Hlt. unfold resolve. rewrite Hm. simpl.
  assert (∃ cs, Forall2 (λ q c, components st !! q = Some c)
                  (milestone.Components m) cs) as [cs Hcs].
  { induction (milestone.Components m) as [|q qs IH].
    - exists []. constructor.
    - destruct IH as [cs Hcs]; [intros q' Hq'; apply Hlt; by right|].
      destruct (lookup_lt_is_Some_2 (components st) q) as [c Hc];
        [apply Hlt; by left|].
      exists (c :: cs). by constructor. }
  exists cs. split; [|done].
  apply mapM_Some_2 in Hcs. by rewrite Hcs.
Qed.

Lemma pl_names_sorted st qs cs :
  Forall2 (λ q c, components st !! q = Some c) qs cs →
  NoDup qs →
  (∀ q q' c c', q ∈ qs → q' ∈ qs → q ≠ q' →
     components st !! q = Some c → components st !! q' = Some c' →
     component.Name c ≠ component.Name c') →
  StronglySorted (notAfter (components_Less st)) qs →
  StronglySorted (λ a b, String.ltb a b = true) (component.Name <$> cs).
Proof.
  intros HF. induction HF as [|q c qs cs Hc HF IH]; intros Hnd Hinj Hs.
  { constructor. }
  apply NoDup_cons in Hnd as [Hq Hnd].
  apply StronglySorted_cons in Hs as [Hall Hs].
  simpl. constructor.
  - apply IH; [done| |done].
    intros q1 q2 c1 c2 H1 H2. apply Hinj; by right.
  - rewrite Forall_fmap, Forall_forall. intros c' Hc'. simpl.
    apply list_elem_of_lookup in Hc' as [i Hi].
    destruct (Forall2_lookup_r _ _ _ _ _ HF Hi) as (q' & Hq' & Hqc').
    apply list_elem_of_lookup_2 in Hq'.
    apply ltb_total.
    + apply (Hinj q q' c c'); [by left|by right| |done|done].
      intros ->. done.
    + rewrite Forall_forall in Hall. specialize (Hall q' Hq').
      unfold notAfter, components_Less in Hall. by rewrite Hqc', Hc in Hall.
Qed.

(** Reading a sorted slice of pointers gives a sorted slice of issues. *)
Lemma pl_sorted_deref st (ptrs : list nat) xs :
  Forall2 (λ i x, iss st !! i = Some x) ptrs xs →
  StronglySorted (notAfter (issues_Less st)) ptrs →
  StronglySorted (notAfter Less) xs.
Proof.
  intros HF. induction HF as [|i x ptrs xs Hi HF IH]; intros Hs.
  { constructor. }
  apply StronglySorted_cons in Hs as [Hall Hs]. constructor; [by apply IH|].
  rewrite Forall_forall in Hall. rewrite Forall_forall. intros y Hy.
  apply list_elem_of_lookup in Hy as [k Hk].
  destruct (Forall2_lookup_r _ _ _ _ _ HF Hk) as (j & Hj & Hjy).
  apply list_elem_of_lookup_2 in Hj. specialize (Hall j Hj).
  unfold notAfter, issues_Less in Hall. by rewrite Hjy, Hi in Hall.
Qed.

(** The pointers of a component, read through the input slice. *)
Lemma pl_deref_entries l (ptrs : list nat) il :
  (∀ e, e ∈ il → e ∈ indexed l) → ptrs ≡ₚ il.*1 →
  ∃ xs, Forall2 (λ i x, l !! i = Some x) ptrs xs ∧ xs ≡ₚ il.*2.
Proof.
  intros Hin Hp. apply perm_fmap_inv in Hp as (il' & Hil' & ->).
  exists il'.*2. split; [|by rewrite Hil'].
  assert (∀ e, e ∈ il' → e ∈ indexed l) as Hin'.
  { intros e He. apply Hin. by rewrite <- Hil'. }
  clear Hil' Hin. induction il' as [|[i x] il' IH]; [constructor|].
  rewrite !fmap_cons. constructor.
  - apply elem_of_indexed, Hin'. left.
  - apply IH. intros e He. apply Hin'. by right.
Qed.

(** The milestone of title [t] in the store [parseIssues] returns. *)
Lemma pl_parseIssues_report l t p :
  msMap (parseIssues l) !! t = Some p →
  ∃ m cs,
    resolve (parseIssues l) p = Some (m, cs)
    ∧ milestones (parseIssues l) !! p = Some m
    ∧ Forall2 (λ q c, components (parseIssues l) !! q = Some c)
              (milestone.Components m) cs
    ∧ github.Milestone.Title (milestone.Milestone m) = t
    ∧ milestone.Stats m = statsOf (BadgeSpec.inMs t (indexed l))
    ∧ StronglySorted (λ a b, String.ltb a b = true) (component.Name <$> cs)
    ∧ (∀ c, c ∈ component.Name <$> cs ↔ entries t c (indexed l) ≠ [])
    ∧ Forall (λ c,
        component.Issues c ≡ₚ (entries t (component.Name c) (indexed l)).*1
        ∧ component.Stats c = statsOf (entries t (component.Name c) (indexed l))
        ∧ StronglySorted (notAfter (issues_Less (parseIssues l)))
                         (component.Issues c)) cs.
Proof.
  intros Hp.
  destruct (pl_parseIssues_inv l) as (Hgh & HW & (M1 & M2) & HC & HN & Hs).
  set (st := parseIssues l) in *.
  pose proof HW as (W1 & W2 & W3).
  destruct (W1 t p Hp) as (m & cm & Hm & Hti & Hcm & Hnd & Hiff).
  destruct (pl_resolve_Some st p m Hm) as (cs & Hres & HF).
  { intros q Hq. by eapply W3. }
  destruct (HC t p m cm Hp Hm Hcm) as (Hsome & Hdata).
  destruct (HN t p m Hp Hm) as (_ & Hne).
  destruct (Hs t p Hp) as (m' & Hm' & Hsc & Hsi).
  assert (m' = m) as -> by congruence.
  exists m, cs. do 4 (split; [done|]). split; [by eapply M2|].
  split; [|split].
  - apply (pl_names_sorted st (milestone.Components m)); [done|done| |done].
    intros q q' c c' Hq Hq' Hqq Hc Hc' Hn. apply Hqq.
    assert (cm !! component.Name c = Some q) as H1.
    { apply Hiff. split; [done|]. by rewrite Hc. }
    assert (cm !! component.Name c = Some q') as H2.
    { apply Hiff. split; [done|]. rewrite Hc'. simpl. by rewrite Hn. }
    congruence.
  - intros c. split.
    + intros Hc. apply list_elem_of_fmap in Hc as (c' & -> & Hc').
      apply list_elem_of_lookup in Hc' as [i Hi].
      destruct (Forall2_lookup_r _ _ _ _ _ HF Hi) as (q & Hq & Hqc).
      apply list_elem_of_lookup_2 in Hq. by eapply Hne.
    + intros Hnn. destruct (Hsome c Hnn) as [q Hq].
      apply Hiff in Hq as [Hq Hn].
      apply list_elem_of_lookup in Hq as [i Hi].
      destruct (Forall2_lookup_l _ _ _ _ _ HF Hi) as (c' & Hc' & Hqc).
      rewrite Hqc in Hn. simpl in Hn. injection Hn as <-.
      apply list_elem_of_fmap. exists c'. split; [done|].
      by eapply list_elem_of_lookup_2.
  - rewrite Forall_forall. intros c Hc.
    apply list_elem_of_lookup in Hc as [i Hi].
    destruct (Forall2_lookup_r _ _ _ _ _ HF Hi) as (q & Hq & Hqc).
    apply list_elem_of_lookup_2 in Hq.
    destruct (Hdata q c Hq Hqc) as (Hperm & Hst).
    split; [done|]. split; [done|]. by eapply Hsi.
Qed.

(** The names of the components of milestone [t], and what each
    component lists once its pointers are read. *)
Lemma pl_parseIssues_contents l t p m cs :
  msMap (parseIssues l) !! t = Some p →
  resolve (parseIssues l) p = Some (m, cs) →
  component.Name <$> cs = MarkdownSpec.componentNames t l
  ∧ Forall (λ c,
      ∃ xs, mapM (λ i, l !! i) (component.Issues c) = Some xs
        ∧ xs ≡ₚ MarkdownSpec.listed t (component.Name c) l
        ∧ StronglySorted (notAfter Less) xs) cs.
Proof.
  intros Hp Hres.
  destruct (pl_parseIssues_report l t p Hp)
    as (m' & cs' & Hres' & Hm & HF & Hti & Hst & Hsorted & Hnames & Hdata).
  assert (m' = m ∧ cs' = cs) as [-> ->] by (split; congruence).
  destruct (pl_parseIssues_inv l) as (Hgh & _).
  split.
  - apply ascending_unique; [done| |].
    + unfold MarkdownSpec.componentNames. apply Strings_ascending.
      apply NoDup_remove_dups.
    + intros c. rewrite Hnames, entries_nonnil, listed_nonnil.
      unfold MarkdownSpec.componentNames, Go.Strings.
      by rewrite Sort_elem_of, elem_of_remove_dups.
  - rewrite Forall_forall in Hdata |- *. intros c Hc.
    destruct (Hdata c Hc) as (Hperm & _ & Hs).
    destruct (pl_deref_entries l (component.Issues c)
                (entries t (component.Name c) (indexed l)))
      as (xs & Hxs & Hpx); [apply entries_elem|done|].
    exists xs. split; [by apply mapM_Some_2|].
    split; [by rewrite Hpx, entries_listed|].
    apply (pl_sorted_deref (parseIssues l) (component.Issues c)); [|done].
    by rewrite Hgh.
Qed.

(** How often the pointer to [l[i]] stands in a component. *)
Lemma pl_parseIssues_occurrences l i x t p q m cmp :
  l !! i = Some x →
  msMap (parseIssues l) !! t = Some p →
  milestones (parseIssues l) !! p = Some m →
  q ∈ milestone.Components m →
  components (parseIssues l) !! q = Some cmp →
  length (filter (λ j, j = i) (component.Issues cmp))
  = if decide (title x = Some t)
    then length (filter (λ lbl, Go.from 11 lbl = component.Name cmp)
                        (componentLabels x))
    else 0%nat.
Proof.
  intros Hx Hp Hm Hq Hcmp.
  destruct (pl_parseIssues_inv l) as (Hgh & (W1 & _) & _ & HC & _).
  destruct (W1 t p Hp) as (m' & cm & Hm' & _ & Hcm & _).
  assert (m' = m) as -> by congruence.
  destruct (HC t p m cm Hp Hm Hcm) as (_ & Hdata).
  destruct (Hdata q cmp Hq Hcmp) as (Hperm & _).
  rewrite Hperm.
  assert (∀ il : list (nat * github.Issue.t),
            filter (λ j, j = i) il.*1 = (filter (λ e, e.1 = i) il).*1) as Hf.
  { intros il. induction il as [|[j y] il IH]; [done|].
    rewrite fmap_cons, !filter_cons. cbn [fst].
    destruct (decide (j = i)); [rewrite fmap_cons|]; by rewrite IH. }
  rewrite Hf, entries_filter_index, (indexed_filter_index l i x Hx).
  rewrite length_fmap. unfold entries. rewrite bind_cons.
  cbn [mbind list_bind]. rewrite app_nil_r.
  unfold entriesOf. cbn [snd].
  destruct (decide (title x = Some t)); [|done].
  by rewrite length_fmap.
Qed.

(** Every ["component: "] label of an issue with a milestone has its
    component under that milestone. *)
Lemma pl_parseIssues_filed l i x t lbl :
  l !! i = Some x → title x = Some t → lbl ∈ componentLabels x →
  ∃ p m q cmp,
    msMap (parseIssues l) !! t = Some p
    ∧ milestones (parseIssues l) !! p = Some m
    ∧ q ∈ milestone.Components m
    ∧ components (parseIssues l) !! q = Some cmp
    ∧ component.Name cmp = Go.from 11 lbl.
Proof.
  intros Hx Ht Hlbl.
  destruct (pl_parseIssues_inv l) as (Hgh & (W1 & _) & (M1 & _) & HC & _).
  apply list_elem_of_filter in Hlbl as [Hpre Hlbl].
  assert ((i, x) ∈ indexed l) as Hin by by apply elem_of_indexed.
  assert ((i, x) ∈ entries t (Go.from 11 lbl) (indexed l)) as Hent.
  { apply (elem_of_entries t _ (indexed l) (i, x) lbl); try done.
    by destruct (Go.HasPrefix lbl "component: "). }
  destruct (msMap (parseIssues l) !! t) as [p|] eqn:Hp.
  2:{ apply M1 in Hp.
      assert ((i, x) ∈ BadgeSpec.inMs t (indexed l)) as Hms.
      { by apply list_elem_of_filter. }
      rewrite Hp in Hms. by apply elem_of_nil in Hms. }
  destruct (W1 t p Hp) as (m & cm & Hm & _ & Hcm & _ & Hiff).
  destruct (HC t p m cm Hp Hm Hcm) as (Hsome & _).
  destruct (Hsome (Go.from 11 lbl)) as [q Hq].
  { intros Hnil. rewrite Hnil in Hent. by apply elem_of_nil in Hent. }
  apply Hiff in Hq as [Hq Hname].
  destruct (components (parseIssues l) !! q) as [cmp|] eqn:Hcmp; [|done].
  simpl in Hname. injection Hname as Hname.
  by exists p, m, q, cmp.
Qed.

End PerLabelReport.

(** X20. In part_001 a milestone is allocated for exactly the titles
    that some issue of the input refers to; it is kept under its own
    title, and its counters are the number of input issues of that
    milestone and the number of those that are closed, as Go [int]s. *)
Theorem part_001_milestones (l : list github.Issue.t) (t : string) :
  match PerLabel.msMap (PerLabel.parseIssues l) !! t with
  | None => ofMilestone t l = []
  | Some p =>
      ofMilestone t l ≠ []
      ∧ ∃ m, PerLabel.milestones (PerLabel.parseIssues l) !! p = Some m
          ∧ github.Milestone.Title (PerLabel.milestone.Milestone m) = t
          ∧ PerLabel.stats.Total (PerLabel.milestone.Stats m)
            = Go.wrap (Z.of_nat (length (ofMilestone t l)))
          ∧ PerLabel.stats.Closed (PerLabel.milestone.Stats m)
            = Go.wrap (Z.of_nat (length
                (filter (λ x, github.Issue.ClosedAt x ≠ None)
                        (ofMilestone t l))))
  end.
Proof.
  destruct (PerLabel.msMap (PerLabel.parseIssues l) !! t) as [p|] eqn:Hp.
  - split.
    + intros Hnil. apply pl_parseIssues_lookup_None in Hnil. congruence.
    + destruct (pl_parseIssues_report l t p Hp)
        as (m & cs & _ & Hm & _ & Hti & Hst & _).
      exists m. do 2 (split; [done|]).
      rewrite Hst, pl_statsOf_snd, inMs_snd. by split.
  - by apply pl_parseIssues_lookup_None.
Qed.

(** X21. In part_001 the components of a milestone are those main.go
    prints for it: their names are the distinct names that follow
    ["component: "] in the labels of the milestone's issues, in
    ascending order, and the issues a component points to are, in an
    order that [Less] accepts, one copy of an issue for each of its
    labels naming the component. *)
Theorem part_001_components (l : list github.Issue.t) (t : string) :
  ofMilestone t l ≠ [] →
  ∃ p m cs,
    PerLabel.msMap (PerLabel.parseIssues l) !! t = Some p
    ∧ PerLabel.resolve (PerLabel.parseIssues l) p = Some (m, cs)
    ∧ PerLabel.component.Name <$> cs = MarkdownSpec.componentNames t l
    ∧ Forall (λ c,
        ∃ xs, mapM (λ i, l !! i) (PerLabel.component.Issues c) = Some xs
          ∧ xs ≡ₚ MarkdownSpec.listed t (PerLabel.component.Name c) l
          ∧ StronglySorted (notAfter Less) xs) cs.
Proof.
  intros Hne.
  destruct (PerLabel.msMap (PerLabel.parseIssues l) !! t) as [p|] eqn:Hp.
  2:{ by apply pl_parseIssues_lookup_None in Hp. }
  destruct (pl_parseIssues_report l t p Hp) as (m & cs & Hres & _).
  exists p, m, cs. do 2 (split; [done|]).
  by apply (pl_parseIssues_contents l t p m cs).
Qed.

(** X22. When the issues of the input have pairwise different
    numbers, part_001 holds for every milestone the very slices
    main.go prints: the component names of main.go's report, each
    with the sorted slice [sort.Sort] makes of what main.go files
    under it. *)
Theorem part_001_agrees_with_main (l : list github.Issue.t) (t : string)
    (p : nat) (m : PerLabel.milestone.t) (cs : list PerLabel.component.t) :
  (∀ x y, x ∈ l → y ∈ l →
     github.Issue.Number x = github.Issue.Number y → x = y) →
  PerLabel.msMap (PerLabel.parseIssues l) !! t = Some p →
  PerLabel.resolve (PerLabel.parseIssues l) p = Some (m, cs) →
  (λ c, (PerLabel.component.Name c,
         mapM (λ i, l !! i) (PerLabel.component.Issues c))) <$> cs
  = (λ c, (c, Some (Go.Sort Less (MarkdownSpec.listed t c l))))
      <$> MarkdownSpec.componentNames t l.
Proof.
  intros Hnum Hp Hres.
  destruct (pl_parseIssues_contents l t p m cs Hp Hres) as (Hnames & Hdata).
  rewrite <- Hnames, <- list_fmap_compose. apply list_fmap_ext.
  intros k c Hc. apply list_elem_of_lookup_2 in Hc.
  rewrite Forall_forall in Hdata.
  destruct (Hdata c Hc) as (xs & Hxs & Hperm & Hsorted). simpl.
  rewrite Hxs. do 2 f_equal.
  apply (sorted_Less_unique (MarkdownSpec.listed t (PerLabel.component.Name c) l));
    [|done|apply Sort_perm|done|apply Sort_Less_sorted].
  intros x y Hx Hy. apply Hnum; by eapply listed_elem.
Qed.

(** X23. The counters of a component of part_001 count labels, not
    issues: its total is the number of copies filed under it, one for
    each label of an issue of the milestone that names the component,
    its closed counter the number of those copies whose issue is
    closed, and its slice has as many pointers as the total counts
    (all as Go [int]s). *)
Theorem part_001_component_counters (l : list github.Issue.t) (t : string)
    (p : nat) (m : PerLabel.milestone.t) (cs : list PerLabel.component.t) :
  PerLabel.msMap (PerLabel.parseIssues l) !! t = Some p →
  PerLabel.resolve (PerLabel.parseIssues l) p = Some (m, cs) →
  Forall (λ c,
    let filed := MarkdownSpec.listed t (PerLabel.component.Name c) l in
    filed ≠ []
    ∧ length (PerLabel.component.Issues c) = length filed
    ∧ PerLabel.stats.Total (PerLabel.component.Stats c)
      = Go.wrap (Z.of_nat (length filed))
    ∧ PerLabel.stats.Closed (PerLabel.component.Stats c)
      = Go.wrap (Z.of_nat (length
          (filter (λ x, github.Issue.ClosedAt x ≠ None) filed)))) cs.
Proof.
  intros Hp Hres.
  destruct (pl_parseIssues_report l t p Hp)
    as (m' & cs' & Hres' & Hm & HF & Hti & Hst & Hsorted & Hnames & Hdata).
  assert (m' = m ∧ cs' = cs) as [-> ->] by (split; congruence).
  rewrite Forall_forall in Hdata. rewrite Forall_forall. intros c Hc.
  destruct (Hdata c Hc) as (Hperm & Hs & _). cbn zeta.
  split; [|split].
  - apply entries_nonnil, Hnames, list_elem_of_fmap. by exists c.
  - by rewrite Hperm, length_fmap, <- entries_listed, length_fmap.
  - rewrite Hs, pl_statsOf_snd, entries_listed. by split.
Qed.

(** X24. In part_001 an issue occurs in the slice of a component of
    its milestone once for each of its labels that names the
    component, and in no component of another milestone. *)
Theorem part_001_one_entry_per_label (l : list github.Issue.t) (i : nat)
    (x : github.Issue.t) (t : string) (p q : nat)
    (m : PerLabel.milestone.t) (cmp : PerLabel.component.t) :
  l !! i = Some x →
  PerLabel.msMap (PerLabel.parseIssues l) !! t = Some p →
  PerLabel.milestones (PerLabel.parseIssues l) !! p = Some m →
  q ∈ PerLabel.milestone.Components m →
  PerLabel.components (PerLabel.parseIssues l) !! q = Some cmp →
  length (filter (λ j, j = i) (PerLabel.component.Issues cmp))
  = if decide (title x = Some t)
    then length (filter (λ lbl, Go.from 11 lbl = PerLabel.component.Name cmp)
                        (componentLabels x))
    else 0%nat.
Proof.
  intros Hx Hp Hm Hq Hcmp.
  by apply (pl_parseIssues_occurrences l i x t p q m cmp).
Qed.

Lemma part_001_components_witness :
  let l := [Sample.dual; Sample.a1; Sample.loose] in
  ofMilestone "v1.0" l ≠ []
  ∧ ∃ p m cs,
      PerLabel.msMap (PerLabel.parseIssues l) !! "v1.0" = Some p
      ∧ PerLabel.resolve (PerLabel.parseIssues l) p = Some (m, cs)
      ∧ PerLabel.component.Name <$> cs = ["api"; "ui"].
Proof.
  intros l.
  assert (ofMilestone "v1.0" l ≠ []) as H1 by (vm_compute; discriminate).
  split; [exact H1|].
  destruct (part_001_components l "v1.0" H1)
    as (p & m & cs & Hp & Hres & Hn & _).
  exists p, m, cs. split; [exact Hp|]. split; [exact Hres|].
  rewrite Hn. vm_compute. reflexivity.
Defined.

Lemma part_001_agrees_with_main_witness :
  let l := [Sample.dual; Sample.a1; Sample.loose] in
  (∀ x y, x ∈ l → y ∈ l →
     github.Issue.Number x = github.Issue.Number y → x = y)
  ∧ PerLabel.msMap (PerLabel.parseIssues l) !! "v1.0" = Some 0%nat
  ∧ ∃ m cs,
      PerLabel.resolve (PerLabel.parseIssues l) 0 = Some (m, cs)
      ∧ (λ c, (PerLabel.component.Name c,
               mapM (λ i, l !! i) (PerLabel.component.Issues c))) <$> cs
        = [("api", Some [Sample.a1; Sample.dual]); ("ui", Some [Sample.dual])].
Proof.
  intros l.
  assert (∀ x y, x ∈ l → y ∈ l →
            github.Issue.Number x = github.Issue.Number y → x = y) as H1.
  { intros x y Hx Hy. unfold l in Hx, Hy.
    repeat (apply elem_of_cons in Hx as [->|Hx]);
      repeat (apply elem_of_cons in Hy as [->|Hy]);
      try (by apply elem_of_nil in Hx); try (by apply elem_of_nil in Hy);
      try reflexivity; intros Hn; vm_compute in Hn; discriminate Hn. }
  assert (PerLabel.msMap (PerLabel.parseIssues l) !! "v1.0" = Some 0%nat)
    as H2 by (vm_compute; reflexivity).
  do 2 (split; [assumption|]).
  destruct (PerLabel.resolve (PerLabel.parseIssues l) 0) as [[m cs]|] eqn:H3;
    [|vm_compute in H3; discriminate H3].
  exists m, cs. split; [reflexivity|].
  rewrite (part_001_agrees_with_main l "v1.0" 0%nat m cs H1 H2 H3).
  vm_compute. reflexivity.
Defined.

Lemma part_001_component_counters_witness :
  let l := [Sample.dual; Sample.a2; Sample.loose] in
  PerLabel.msMap (PerLabel.parseIssues l) !! "v1.0" = Some 0%nat
  ∧ ∃ m cs,
      PerLabel.resolve (PerLabel.parseIssues l) 0 = Some (m, cs)
      ∧ Forall (λ c,
          PerLabel.stats.Total (PerLabel.component.Stats c)
          = Go.wrap (Z.of_nat (length
              (MarkdownSpec.listed "v1.0" (PerLabel.component.Name c) l)))) cs.
Proof.
  intros l.
  assert (PerLabel.msMap (PerLabel.parseIssues l) !! "v1.0" = Some 0%nat)
    as H1 by (vm_compute; reflexivity).
  split; [assumption|].
  destruct (PerLabel.resolve (PerLabel.parseIssues l) 0) as [[m cs]|] eqn:H2;
    [|vm_compute in H2; discriminate H2].
  exists m, cs. split; [reflexivity|].
  eapply Forall_impl;
    [exact (part_001_component_counters l "v1.0" 0%nat m cs H1 H2)|].
  intros c (_ & _ & Htot & _). exact Htot.
Defined.

Lemma part_001_one_entry_per_label_witness :
  let twice := Sample.mk 6 ["component: api"; "type: bug"; "component: api"]
                         None None in
  let l := [Sample.a1; twice] in
  l !! 1%nat = Some twice
  ∧ PerLabel.msMap (PerLabel.parseIssues l) !! "v1.0" = Some 0%nat
  ∧ ∃ m cmp,
      PerLabel.milestones (PerLabel.parseIssues l) !! 0%nat = Some m
      ∧ 0%nat ∈ PerLabel.milestone.Components m
      ∧ PerLabel.components (PerLabel.parseIssues l) !! 0%nat = Some cmp
      ∧ length (filter (λ j, j = 1%nat) (PerLabel.component.Issues cmp))
        = 2%nat.
Proof.
  intros twice l.
  assert (l !! 1%nat = Some twice) as H1 by reflexivity.
  assert (PerLabel.msMap (PerLabel.parseIssues l) !! "v1.0" = Some 0%nat)
    as H2 by (vm_compute; reflexivity).
  do 2 (split; [assumption|]).
  destruct (PerLabel.milestones (PerLabel.parseIssues l) !! 0%nat)
    as [m|] eqn:H3; [|vm_compute in H3; discriminate H3].
  destruct (PerLabel.components (PerLabel.parseIssues l) !! 0%nat)
    as [cmp|] eqn:H5; [|vm_compute in H5; discriminate H5].
  assert (0%nat ∈ PerLabel.milestone.Components m) as H4.
  { pose proof H3 as Hm. vm_compute in Hm. injection Hm as <-. constructor. }
  exists m, cmp. do 3 (split; [assumption || reflexivity|]).
  rewrite (part_001_one_entry_per_label l 1%nat twice "v1.0" 0%nat 0%nat m cmp
             H1 H2 H3 H4 H5).
  assert (PerLabel.component.Name cmp = "api") as ->.
  { pose proof H5 as Hc. vm_compute in Hc. injection Hc as <-. reflexivity. }
  vm_compute. reflexivity.
Defined.

(** ** Attribution to components, in the three revisions *)

(** C1, amended.  Take an input issue with a milestone reference and
    at least one ["component: "] label, the last of which is [lbl].
    In part_000, if [lbl] names a non-empty component then the issue is
    attributed to that component alone: its entry stands exactly once
    in that component's list and in no other list of the store; if
    [lbl] is just the prefix, it stands in no list.  In main.go the
    issue is filed once for each of its ["component: "] labels, under
    the component that label names: the slice kept for a component is
    made of one copy per such label of every issue of the milestone.
    So it is in part_001: every ["component: "] label of the issue
    has its component under the issue's milestone, and the pointer to
    the issue stands in a component of that milestone once for each
    label of the issue that names it, and in no component of another
    milestone. *)
Theorem C1_attribution (l : list github.Issue.t) (i : nat)
    (x : github.Issue.t) (ms : github.Milestone.t) (lbl : string) :
  l !! i = Some x →
  github.Issue.Milestone x = Some ms →
  last (componentLabels x) = Some lbl →
  let t := github.Milestone.Title ms in
  let st := Badge.parseIssues l in
  let entries (cmp : Badge.component.t) :=
    filter (λ w, Badge.issue.Issue w = i) (Badge.component.Issues cmp) in
  let pst := PerLabel.parseIssues l in
  let pointers (cmp : PerLabel.component.t) :=
    filter (λ j, j = i) (PerLabel.component.Issues cmp) in
  (Go.from 11 lbl ≠ "" →
   ∃ p m q cmp,
     Badge.msMap st !! t = Some p
     ∧ Badge.milestones st !! p = Some m
     ∧ q ∈ Badge.milestone.Components m
     ∧ Badge.components st !! q = Some cmp
     ∧ Badge.component.Name cmp = Go.from 11 lbl
     ∧ entries cmp = [BadgeSpec.wrapper (i, x)]
     ∧ ∀ t' p' m' q' cmp',
         Badge.msMap st !! t' = Some p' →
         Badge.milestones st !! p' = Some m' →
         q' ∈ Badge.milestone.Components m' →
         Badge.components st !! q' = Some cmp' →
         q' ≠ q → entries cmp' = [])
  ∧ (Go.from 11 lbl = "" →
     ∀ t' p' m' q' cmp',
       Badge.msMap st !! t' = Some p' →
       Badge.milestones st !! p' = Some m' →
       q' ∈ Badge.milestone.Components m' →
       Badge.components st !! q' = Some cmp' →
       entries cmp' = [])
  ∧ (∃ cmps, Markdown.parsed (Markdown.collect l) !! t = Some cmps
       ∧ ∀ c, cmps !! c = MarkdownSpec.nonnil (MarkdownSpec.listed t c l))
  ∧ (∀ lbl', lbl' ∈ componentLabels x →
       x ∈ MarkdownSpec.listed t (Go.from 11 lbl') l)
  ∧ (∀ lbl', lbl' ∈ componentLabels x →
       ∃ p m q cmp,
         PerLabel.msMap pst !! t = Some p
         ∧ PerLabel.milestones pst !! p = Some m
         ∧ q ∈ PerLabel.milestone.Components m
         ∧ PerLabel.components pst !! q = Some cmp
         ∧ PerLabel.component.Name cmp = Go.from 11 lbl'
         ∧ (0 < length (pointers cmp))%nat)
  ∧ ∀ t' p' m' q' cmp',
      PerLabel.msMap pst !! t' = Some p' →
      PerLabel.milestones pst !! p' = Some m' →
      q' ∈ PerLabel.milestone.Components m' →
      PerLabel.components pst !! q' = Some cmp' →
      length (pointers cmp')
      = if decide (t' = t)
        then length (filter (λ lbl', Go.from 11 lbl'
                                     = PerLabel.component.Name cmp')
                            (componentLabels x))
        else 0%nat.
Proof.
  intros Hx Hms Hlast t st entries pst pointers.
  assert (BadgeSpec.cmpOf x = Go.from 11 lbl) as Hc.
  { by rewrite cmpOf_last, Hlast. }
  assert (title x = Some t) as Ht by (unfold title; by rewrite Hms).
  assert (x ∈ ofMilestone t l) as Hin.
  { apply list_elem_of_filter. split; [done|]. by eapply list_elem_of_lookup_2. }
  assert (∀ t' p' m' q' cmp',
            PerLabel.msMap pst !! t' = Some p' →
            PerLabel.milestones pst !! p' = Some m' →
            q' ∈ PerLabel.milestone.Components m' →
            PerLabel.components pst !! q' = Some cmp' →
            length (pointers cmp')
            = if decide (t' = t)
              then length (filter (λ lbl', Go.from 11 lbl'
                                           = PerLabel.component.Name cmp')
                                  (componentLabels x))
              else 0%nat) as Hcount.
  { intros t' p' m' q' cmp' Hp' Hm' Hq' Hcmp'. unfold pointers.
    rewrite (pl_parseIssues_occurrences l i x t' p' q' m' cmp' Hx Hp' Hm' Hq' Hcmp').
    destruct (decide (title x = Some t')) as [Ht'|Ht'];
      destruct (decide (t' = t)) as [Heq|Heq]; try done.
    - exfalso. apply Heq. congruence.
    - exfalso. apply Ht'. by rewrite Heq. }
  split; [|split; [|split; [|split; [|split]]]].
  - intros Hne. rewrite <- Hc in Hne |- *.
    apply (parseIssues_one_component l i x ms Hx Hms Hne).
  - intros Hnil t' p' m' q' cmp' Hp' Hm' Hq' Hcmp'.
    apply (parseIssues_no_component l i x t' p' m' q' cmp'); try done.
    by rewrite Hc.
  - destruct (collect_Collected l) as (_ & _ & Hinv).
    destruct (Hinv t) as (_ & Hd).
    destruct (ofMilestone t l) as [|y r] eqn:Hn; [by apply elem_of_nil in Hin|].
    destruct Hd as (_ & cmps & Hp & HD). exists cmps. split; [done|].
    intros c. rewrite HD. unfold MarkdownSpec.listed. by rewrite Hn.
  - intros lbl' Hl'. unfold MarkdownSpec.listed. apply list_elem_of_bind.
    exists x. split; [|done]. unfold MarkdownSpec.copies.
    apply list_elem_of_fmap. exists lbl'. split; [done|].
    by apply list_elem_of_filter.
  - intros lbl' Hl'.
    destruct (pl_parseIssues_filed l i x t lbl' Hx Ht Hl')
      as (p & m & q & cmp & Hp & Hm & Hq & Hcmp & Hname).
    exists p, m, q, cmp. do 5 (split; [done|]).
    rewrite (Hcount t p m q cmp Hp Hm Hq Hcmp), decide_True by done.
    assert (lbl' ∈ filter (λ lbl0, Go.from 11 lbl0 = PerLabel.component.Name cmp)
                          (componentLabels x)) as Hf.
    { apply list_elem_of_filter. by split. }
    destruct (filter _ (componentLabels x)); [by apply elem_of_nil in Hf|].
    simpl. lia.
  - exact Hcount.
Qed.

Lemma C1_attribution_witness :
  let l := [Sample.a1; Sample.dual; Sample.u3] in
  l !! 1%nat = Some Sample.dual
  ∧ github.Issue.Milestone Sample.dual = Some Sample.v1
  ∧ last (componentLabels Sample.dual) = Some "component: ui"
  ∧ (∃ p m q cmp,
      Badge.msMap (Badge.parseIssues l) !! "v1.0" = Some p
      ∧ Badge.milestones (Badge.parseIssues l) !! p = Some m
      ∧ q ∈ Badge.milestone.Components m
      ∧ Badge.components (Badge.parseIssues l) !! q = Some cmp
      ∧ Badge.component.Name cmp = "ui"
      ∧ filter (λ w, Badge.issue.Issue w = 1%nat) (Badge.component.Issues cmp)
        = [BadgeSpec.wrapper (1%nat, Sample.dual)])
  ∧ (∃ api,
      Badge.components (Badge.parseIssues l) !! 0%nat = Some api
      ∧ Badge.component.Name api = "api"
      ∧ filter (λ w, Badge.issue.Issue w = 1%nat) (Badge.component.Issues api)
        = [])
  ∧ Sample.dual ∈ MarkdownSpec.listed "v1.0" "api" l
  ∧ Sample.dual ∈ MarkdownSpec.listed "v1.0" "ui" l
  ∧ ∃ p m q cmp,
      PerLabel.msMap (PerLabel.parseIssues l) !! "v1.0" = Some p
      ∧ PerLabel.milestones (PerLabel.parseIssues l) !! p = Some m
      ∧ q ∈ PerLabel.milestone.Components m
      ∧ PerLabel.components (PerLabel.parseIssues l) !! q = Some cmp
      ∧ PerLabel.component.Name cmp = "api"
      ∧ length (filter (λ j, j = 1%nat) (PerLabel.component.Issues cmp))
        = 1%nat.
Proof.
  intros l.
  assert (l !! 1%nat = Some Sample.dual) as H1 by reflexivity.
  assert (github.Issue.Milestone Sample.dual = Some Sample.v1) as H2
    by reflexivity.
  assert (last (componentLabels Sample.dual) = Some "component: ui") as H3
    by (vm_compute; reflexivity).
  do 3 (split; [assumption|]).
  destruct (C1_attribution l 1 Sample.dual Sample.v1 "component: ui" H1 H2 H3)
    as (Hone & _ & _ & Hmain & Hfiled & Hcount).
  destruct Hone as (p & m & q & cmp & E1 & E2 & E3 & E4 & E5 & E6 & Hothers).
  { vm_compute. discriminate. }
  assert ("component: api" ∈ componentLabels Sample.dual) as Hapi
    by (vm_compute; left).
  assert ("component: ui" ∈ componentLabels Sample.dual) as Hui
    by (vm_compute; right; left).
  split; [|split; [|split; [|split]]].
  - exists p, m, q, cmp. repeat split; assumption.
  - destruct (Badge.components (Badge.parseIssues l) !! 0%nat) as [api|] eqn:Ha;
      [|vm_compute in Ha; discriminate Ha].
    assert (Badge.component.Name api = "api") as Hn.
    { pose proof Ha as Ha'. vm_compute in Ha'. injection Ha' as <-.
      reflexivity. }
    exists api. split; [reflexivity|]. split; [exact Hn|].
    assert (Badge.msMap (Badge.parseIssues l) !! "v1.0" = Some 0%nat) as F1
      by (vm_compute; reflexivity).
    destruct (Badge.milestones (Badge.parseIssues l) !! 0%nat) as [m0|] eqn:F2;
      [|vm_compute in F2; discriminate F2].
    assert (0%nat ∈ Badge.milestone.Components m0) as F3.
    { pose proof F2 as F2'. vm_compute in F2'. injection F2' as <-. left. }
    apply (Hothers "v1.0" 0%nat m0 0%nat api F1 F2 F3 Ha).
    intros <-. rewrite Ha in E4. injection E4 as <-.
    rewrite Hn in E5. discriminate E5.
  - exact (Hmain "component: api" Hapi).
  - exact (Hmain "component: ui" Hui).
  - destruct (Hfiled "component: api" Hapi)
      as (p' & m' & q' & cmp' & G1 & G2 & G3 & G4 & G5 & _).
    exists p', m', q', cmp'. do 4 (split; [assumption|]).
    split; [exact G5|].
    rewrite (Hcount "v1.0" p' m' q' cmp' G1 G2 G3 G4), G5.
    vm_compute. reflexivity.
Defined.

(** ** The cache file *)

Section CacheCodec.
Import Cache.

(** *** Lines *)

Lemma unframe_escape t cur rest :
  unframe cur (escape t +:+ rest)
  = unframe (reverse (String.list_ascii_of_string t) ++ cur) rest.
Proof.
  revert cur. induction t as [|c t IH]; intros cur; [done|].
  cbn [escape String.list_ascii_of_string].
  rewrite reverse_cons, <- app_assoc. cbn [app].
  destruct (Ascii.eqb c sep || Ascii.eqb c esc) eqn:Hc.
  - rewrite !app_cons. cbn [unframe].
    change (Ascii.eqb esc sep) with false.
    change (Ascii.eqb esc esc) with true. cbv iota. apply IH.
  - apply orb_false_iff in Hc as [Hs He].
    rewrite app_cons. cbn [unframe]. rewrite Hs, He. apply IH.
Qed.

Lemma unframe_line t rest :
  unframe [] (line t +:+ rest) = (λ r, t :: r) <$> unframe [] rest.
Proof.
  unfold line. rewrite append_assoc, unframe_escape, app_nil_r.
  rewrite app_cons. cbn [unframe].
  change (Ascii.eqb sep sep) with true. cbv iota.
  change ("" +:+ rest) with rest.
  by rewrite reverse_involutive, String.string_of_list_ascii_of_string.
Qed.

Lemma unframe_frame fields : unframe [] (frame fields) = Some fields.
Proof.
  induction fields as [|f fields IH]; [done|].
  unfold frame. rewrite fmap_cons.
  change (join (line f :: (line <$> fields))) with (line f +:+ frame fields).
  by rewrite unframe_line, IH.
Qed.

(** *** Numbers *)

Lemma readDigits_pretty_go x :
  ∃ f : Z → Z,
    (∀ acc s, readDigits acc (pretty_N_go x s) = readDigits (f acc) s)
    ∧ f 0 = Z.of_N x.
Proof.
  induction x as [x IH] using (well_founded_induction N.lt_wf_0).
  destruct (decide (x = 0%N)) as [->|Hx].
  { exists (λ acc, acc). split; [|done]. intros acc s.
    by rewrite pretty_N_go_0. }
  destruct (IH (x `div` 10)%N) as (f & Hf & Hf0).
  { apply N.div_lt; lia. }
  exists (λ acc, 10 * f acc + Z.of_N (x `mod` 10)). split.
  - intros acc s. rewrite pretty_N_go_step by lia. rewrite Hf.
    cbn [readDigits]. rewrite digit_char by (apply N.mod_lt; lia). done.
  - rewrite Hf0. rewrite (N.div_mod x 10) at 3 by lia. lia.
Qed.

Lemma readN_pretty (x : N) : readN (pretty x) = Some (Z.of_N x).
Proof.
  unfold pretty, pretty_N. destruct (decide (x = 0%N)) as [->|Hx]; [done|].
  destruct (readDigits_pretty_go x) as (f & Hf & Hf0).
  pose proof (Hf 0 "") as Hread. rewrite Hf0 in Hread.
  assert (pretty_N_go x "" ≠ "") as Hne.
  { rewrite pretty_N_go_step by lia.
    pose proof (pretty_N_go_length (x `div` 10)
                  (String (pretty_N_char (x `mod` 10)) "")) as Hlen.
    intros Hnil. rewrite Hnil in Hlen. simpl in Hlen. lia. }
  unfold readN. destruct (pretty_N_go x "") as [|c s]; [done|]. exact Hread.
Qed.

Lemma readZ_pretty (z : Z) : readZ (pretty z) = Some z.
Proof.
  destruct z as [|p|p].
  - reflexivity.
  - change (pretty (Z.pos p)) with (pretty (N.pos p)).
    pose proof (readN_pretty (N.pos p)) as Hn.
    assert (∀ s', pretty (N.pos p) ≠ String "-" s') as Hdash.
    { intros s'. unfold pretty, pretty_N. rewrite decide_False by done.
      apply (pretty_N_go_ne_dash (N.pos p) "" s'). done. }
    unfold readZ. destruct (pretty (N.pos p)) as [|c s] eqn:Hs; [done|].
    destruct (Ascii.eqb c "-") eqn:Hc; [|exact Hn].
    apply Ascii.eqb_eq in Hc. subst c. by destruct (Hdash s).
  - change (pretty (Z.neg p)) with (String "-" (pretty (N.pos p))).
    unfold readZ. change (Ascii.eqb "-" "-") with true. cbv iota.
    by rewrite readN_pretty.
Qed.

(** *** Fields *)

Lemma text_inverts : inverts text (λ s, [s]).
Proof. by intros s rest. Qed.

Lemma number_inverts : inverts number putZ.
Proof. intros z rest. simpl. by rewrite readZ_pretty. Qed.

Lemma optional_inverts {A} (r : reader A) w :
  inverts r w → inverts (optional r) (putOption w).
Proof.
  intros Hr [a|] rest; [|done].
  change (putOption w (Some a) ++ rest) with ("1"%string :: (w a ++ rest)).
  unfold optional. change (String.eqb "1" "0") with false.
  change (String.eqb "1" "1") with true. cbv iota. by rewrite Hr.
Qed.

Lemma times_inverts {A} (r : reader A) w (l : list A) rest :
  inverts r w → times (length l) r ((l ≫= w) ++ rest) = Some (l, rest).
Proof.
  intros Hr. induction l as [|a l IH]; [done|].
  rewrite bind_cons, <- app_assoc. cbn [length times].
  rewrite Hr. simpl. by rewrite IH.
Qed.

Lemma listOf_inverts {A} (r : reader A) w :
  inverts r w → inverts (listOf r) (putList w).
Proof.
  intros Hr l rest. unfold listOf, putList.
  change ((pretty (Z.of_nat (length l)) :: l ≫= w) ++ rest)
    with (putZ (Z.of_nat (length l)) ++ ((l ≫= w) ++ rest)).
  rewrite number_inverts. simpl.
  rewrite (proj2 (Z.ltb_ge _ 0)) by lia.
  rewrite Nat2Z.id. by apply times_inverts.
Qed.

Lemma milestone_inverts : inverts milestone putMilestone.
Proof. by intros [t u] rest. Qed.

Lemma user_inverts : inverts user putUser.
Proof. by intros [u a] rest. Qed.

Lemma label_inverts : inverts label putLabel.
Proof. by intros [n] rest. Qed.

Lemma issue_inverts : inverts issue putIssue.
Proof.
  intros [num title url ms labels assignee closedAt] rest.
  unfold putIssue, issue. cbn [github.Issue.Number github.Issue.Title
    github.Issue.HTMLURL github.Issue.Milestone github.Issue.Labels
    github.Issue.Assignee github.Issue.ClosedAt].
  rewrite <- !app_assoc.
  rewrite number_inverts. cbn [mbind option_bind].
  change ([title; url] ++ ?r) with ([title] ++ ([url] ++ r)).
  rewrite (text_inverts title). cbn [mbind option_bind].
  rewrite (text_inverts url). cbn [mbind option_bind].
  rewrite (optional_inverts milestone putMilestone milestone_inverts).
  cbn [mbind option_bind].
  rewrite (listOf_inverts label putLabel label_inverts).
  cbn [mbind option_bind].
  rewrite (optional_inverts user putUser user_inverts).
  cbn [mbind option_bind].
  rewrite (optional_inverts number putZ number_inverts).
  done.
Qed.

(** Decoding what was encoded gives the list back. *)
Lemma Unmarshal_Marshal issues :
  ∃ js, Marshal issues = inr js ∧ Unmarshal js = inr issues.
Proof.
  eexists. split; [reflexivity|]. unfold Unmarshal.
  rewrite unframe_frame. cbn [mbind option_bind].
  rewrite <- (app_nil_r (putList putIssue issues)).
  by rewrite (listOf_inverts issue putIssue issue_inverts).
Qed.

(** *** Files *)

Lemma ReadFile_WriteFile fs file b fs' :
  WriteFile fs file b = (fs', None) → ReadFile fs' file = inr b.
Proof.
  unfold WriteFile, ReadFile. case_decide; [done|]. intros [= <-].
  simpl. by rewrite lookup_insert_eq.
Qed.

Lemma ReadFile_other fs file b fs' other :
  WriteFile fs file b = (fs', None) → other ≠ file →
  ReadFile fs' other = ReadFile fs other.
Proof.
  unfold WriteFile, ReadFile. case_decide; [done|]. intros [= <-] Hne.
  simpl. by rewrite lookup_insert_ne.
Qed.

End CacheCodec.

(** [readIssues] after [writeIssues], for collaborators that keep
    what is written and decode what was encoded. *)
Lemma readIssues_writeIssues {error files : Type}
    (ReadFile : files → string → error + string)
    (WriteFile : files → string → string → files * option error)
    (Marshal : list github.Issue.t → error + string)
    (Unmarshal : string → error + list github.Issue.t) :
  (∀ fs file b fs',
     WriteFile fs file b = (fs', None) → ReadFile fs' file = inr b) →
  (∀ issues js, Marshal issues = inr js → Unmarshal js = inr issues) →
  ∀ issues file fs fs',
    Run.writeIssues WriteFile Marshal fs issues file = (fs', None) →
    Run.readIssues ReadFile Unmarshal fs' file = inr issues.
Proof.
  intros Hfs Hcodec issues file fs fs'. unfold Run.writeIssues, Run.readIssues.
  destruct (Marshal issues) as [err|js] eqn:Hjs; [done|].
  intros Hw. rewrite (Hfs fs file js fs' Hw). by apply Hcodec.
Qed.

(** C8.  Loading after saving reproduces the list.  [writeIssues]
    hands the encoding of the whole list to the file at the path and
    [readIssues] decodes the whole contents of the file at the path:
    for every file system in which a file that was written reads
    back as written, and every codec whose decoder inverts its
    encoder, [readIssues] after a successful [writeIssues] to the
    same path returns the issues that were saved.  The file system
    and the codec of section 4.2 are such: there saving succeeds on
    every path that can be written, for every issue list, loading
    then returns the list field for field, and no other file has
    changed; on a path that cannot be written saving fails with
    [IOError] and changes nothing. *)
Theorem C8_round_trip :
  (∀ (error files : Type)
     (ReadFile : files → string → error + string)
     (WriteFile : files → string → string → files * option error)
     (Marshal : list github.Issue.t → error + string)
     (Unmarshal : string → error + list github.Issue.t),
     (∀ fs file b fs',
        WriteFile fs file b = (fs', None) → ReadFile fs' file = inr b) →
     (∀ issues js, Marshal issues = inr js → Unmarshal js = inr issues) →
     ∀ issues file fs fs',
       Run.writeIssues WriteFile Marshal fs issues file = (fs', None) →
       Run.readIssues ReadFile Unmarshal fs' file = inr issues)
  ∧ ∀ (issues : list github.Issue.t) (file : string) (fs : Cache.files),
      let saved :=
        Run.writeIssues Cache.WriteFile Cache.Marshal fs issues file in
      (file ∉ Cache.denied fs →
       saved.2 = None
       ∧ Run.readIssues Cache.ReadFile Cache.Unmarshal saved.1 file
         = inr issues
       ∧ ∀ other, other ≠ file →
           Cache.ReadFile saved.1 other = Cache.ReadFile fs other)
      ∧ (file ∈ Cache.denied fs → saved = (fs, Some Cache.IOError)).
Proof.
  split.
  { intros error files ReadFile WriteFile Marshal Unmarshal.
    apply readIssues_writeIssues. }
  intros issues file fs saved.
  assert (∀ l js, Cache.Marshal l = inr js → Cache.Unmarshal js = inr l)
    as Hcodec.
  { intros l js Hjs. destruct (Unmarshal_Marshal l) as (js' & Hjs' & Hdec).
    congruence. }
  split.
  - intros Hfile.
    assert (∃ fs', saved = (fs', None)) as [fs' Hsaved].
    { unfold saved, Run.writeIssues, Cache.Marshal, Cache.WriteFile.
      rewrite decide_False by done. by eexists. }
    rewrite Hsaved. simpl. split; [done|]. split.
    + apply (readIssues_writeIssues Cache.ReadFile Cache.WriteFile
               Cache.Marshal Cache.Unmarshal ReadFile_WriteFile Hcodec
               issues file fs fs' Hsaved).
    + intros other Hother. unfold saved, Run.writeIssues in Hsaved.
      simpl in Hsaved. by apply (ReadFile_other fs file _ fs' other Hsaved).
  - intros Hfile. unfold saved, Run.writeIssues, Cache.Marshal, Cache.WriteFile.
    by rewrite decide_True.
Qed.

Lemma C8_round_trip_witness :
  let odd :=
    github.Issue.mk 9 ("two" +:+ String Cache.sep (String Cache.esc "lines"))
      "https://tracker/issue" None [] None (Some (-1)) in
  let issues := [Sample.u3; odd; Sample.a2; Sample.loose] in
  let fs := Cache.Files ∅ ∅ in
  ("cache.json" ∉ Cache.denied fs)
  ∧ (Run.writeIssues Cache.WriteFile Cache.Marshal fs issues "cache.json").2
    = None
  ∧ Run.readIssues Cache.ReadFile Cache.Unmarshal
      (Run.writeIssues Cache.WriteFile Cache.Marshal fs issues "cache.json").1
      "cache.json"
    = inr issues
  ∧ Cache.Unmarshal "3" = inl Cache.FormatError.
Proof.
  intros odd issues fs.
  assert ("cache.json" ∉ Cache.denied fs) as H1.
  { apply (bool_decide_unpack _). vm_compute. exact I. }
  split; [exact H1|].
  destruct C8_round_trip as [_ Hmodel].
  destruct (Hmodel issues "cache.json" fs) as [Hok _].
  destruct (Hok H1) as (E1 & E2 & _).
  split; [exact E1|]. split; [exact E2|]. vm_compute. reflexivity.
Defined.
